(** * The project upgrade script of the Hasura CLI (config V2 to config V3)

    A shallow embedding of [cli/internal/scripts/update-project-v3.go].
    The script talks to four collaborators: the metadata API of the
    server, the interactive prompts, the state stores and the [afero.Fs]
    file system.  Every call to a collaborator is an operation of the
    interface [Op]; a Go function of the script is a tree of such calls
    ([Prog]), and a collaborator is a handler that answers the calls over
    a world of its own.  Logging and the spinner only present progress and
    are never consulted for control, they are left out. *)

From stdpp Require Import gmap strings list fin_maps sorting.
From Stdlib Require Import Ascii.
From Stdlib Require String.

(* ===================================================================== *)
(** ** Errors *)
(* ===================================================================== *)

(** Go's [error] values as the script builds them: [errors.New] and
    [fmt.Errorf] without [%w] make a fresh message, [errors.Wrap],
    [errors.Wrapf] and [fmt.Errorf] with [%w] keep the cause and put a
    message in front of it. *)
Inductive error : Type :=
| errorString (msg : string)
| withMessage (cause : error) (msg : string).

#[global] Instance error_eq_dec : EqDecision error.
Proof. solve_decision. Defined.

(** [err.Error()] *)
Fixpoint Error (e : error) : string :=
  match e with
  | errorString msg => msg
  | withMessage cause msg => msg +:+ ": " +:+ Error cause
  end.

(** [errors.Wrap(err, msg)] on an error that is not nil. *)
Definition Wrap (err : error) (msg : string) : error := withMessage err msg.

(** [errors.Cause]: the innermost error. *)
Fixpoint Cause (e : error) : error :=
  match e with
  | errorString _ => e
  | withMessage cause _ => Cause cause
  end.

(* ===================================================================== *)
(** ** Paths ([path/filepath] on a Unix system) *)
(* ===================================================================== *)

Definition IsPathSeparator (c : ascii) : bool := Ascii.eqb c "/"%char.

(** The elements of a path string between its separators. *)
Fixpoint split_sep (s : string) : list string :=
  match s with
  | EmptyString => [""]
  | String c rest =>
      if IsPathSeparator c then "" :: split_sep rest
      else
        match split_sep rest with
        | x :: xs => String c x :: xs
        | [] => [String c ""]
        end
  end.

Fixpoint join_sep (l : list string) : string :=
  match l with
  | [] => ""
  | [x] => x
  | x :: rest => x +:+ "/" +:+ join_sep rest
  end.

(** An absolute, cleaned path is kept as the list of its elements: the
    fields [MigrationsAbsDirectoryPath], [SeedsAbsDirectoryPath] and
    [MetadataDir] are absolute paths. *)
Abbreviation path := (list string).

Definition path_string (p : path) : string := "/" +:+ join_sep p.

(** One step of [filepath.Clean] on a rooted path: an empty element and
    [.] are dropped, [..] removes the last element (and is dropped at the
    root), any other element is appended. *)
Definition clean_step (stk : path) (c : string) : path :=
  if decide (c = "" ∨ c = ".") then stk
  else if decide (c = "..") then removelast stk
  else stk ++ [c].

(** [filepath.Join(parent, elem)] for an absolute, cleaned [parent]:
    [Clean(parent + "/" + elem)]. *)
Definition filepath_Join (parent : path) (elem : string) : path :=
  fold_left clean_step (split_sep elem) parent.

(** One step of [filepath.Clean] on a path that is not rooted: [..] removes
    the last element when there is one that is not itself [..], and is
    kept otherwise. *)
Definition clean_step_rel (stk : list string) (c : string) : list string :=
  if decide (c = "" ∨ c = ".") then stk
  else if decide (c = "..") then
    match last stk with
    | Some l => if decide (l = "..") then stk ++ [".."] else removelast stk
    | None => stk ++ [".."]
    end
  else stk ++ [c].

(** [filepath.Clean] *)
Definition filepath_Clean (p : string) : string :=
  match p with
  | EmptyString => "."
  | String c _ =>
      if IsPathSeparator c
      then "/" +:+ join_sep (fold_left clean_step (split_sep p) [])
      else
        let body := join_sep (fold_left clean_step_rel (split_sep p) []) in
        if decide (body = "") then "." else body
  end.

(** [filepath.Join(elem)] with one argument: the empty string stays empty,
    anything else is cleaned. *)
Definition filepath_Join1 (elem : string) : string :=
  if decide (elem = "") then "" else filepath_Clean elem.

(** [filepath.Base]: the last element of the path, trailing separators
    removed; [.] for the empty path and [/] for a path of separators
    only. *)
Definition filepath_Base (p : string) : string :=
  if decide (p = "") then "."
  else
    match last (filter (λ c, c ≠ "") (split_sep p)) with
    | Some b => b
    | None => "/"
    end.

(* ===================================================================== *)
(** ** The naming convention of generated migrations *)
(* ===================================================================== *)

Definition is_digit (c : ascii) : bool :=
  let n := nat_of_ascii c in (48 <=? n)%nat && (n <=? 57)%nat.

Definition is_newline (c : ascii) : bool := (nat_of_ascii c =? 10)%nat.

(** [n] characters of [[0-9]]; the rest of the string is returned. *)
Fixpoint take_digits (n : nat) (s : string) : option string :=
  match n with
  | O => Some s
  | S n' =>
      match s with
      | String c rest => if is_digit c then take_digits n' rest else None
      | EmptyString => None
      end
  end.

(** The tail of the pattern, any characters up to the end of the text: a
    dot of the pattern does not match a line feed. *)
Fixpoint no_newline (s : string) : bool :=
  match s with
  | EmptyString => true
  | String c rest => negb (is_newline c) && no_newline rest
  end.

(** [regexp.MatchString(regex, s)] for the constant [regex] of the script:
    from the start of the text thirteen digits, an underscore, then any
    characters to the end of the text. *)
Definition matches_migration_regex (s : string) : bool :=
  match take_digits 13 s with
  | Some (String c rest) => Ascii.eqb c "_"%char && no_newline rest
  | _ => false
  end.

(** [isHasuraCLIGeneratedMigration]: the regular expression is a constant
    that compiles, the error of [regexp.MatchString] is always nil. *)
Definition isHasuraCLIGeneratedMigration (dirPath : string) : bool * option error :=
  (matches_migration_regex (filepath_Base dirPath), None).

(* ===================================================================== *)
(** ** Data of the script *)
(* ===================================================================== *)

(** Modelled from the spec: the type [cli.ConfigVersion] and its constants
    [cli.V1], [cli.V2], [cli.V3] are declared in package [cli]; the spec
    gives an ordered enumeration of three versions. *)
Inductive ConfigVersion : Type := V1 | V2 | V3.

#[global] Instance ConfigVersion_eq_dec : EqDecision ConfigVersion.
Proof. solve_decision. Defined.

Definition version_rank (v : ConfigVersion) : nat :=
  match v with V1 => 1 | V2 => 2 | V3 => 3 end.

(** [cli.Config]: the version marker and the fields the script copies
    unchanged. *)
Record Config : Type := mkConfig {
  Version : ConfigVersion;
  OtherFields : string
}.

#[global] Instance Config_eq_dec : EqDecision Config.
Proof. solve_decision. Defined.

(** The fields of [cli.ExecutionContext] the script reads. *)
Record ExecutionContext : Type := mkEC {
  EC_Config : Config;
  HasMetadataV3 : bool;
  Version_Server : string;
  MetadataDir : path
}.

Record UpdateProjectV3Opts : Type := mkOpts {
  EC : ExecutionContext;
  ProjectDirectory : path;
  MigrationsAbsDirectoryPath : path;
  SeedsAbsDirectoryPath : path;
  TargetDatabase : string;
  Force : bool;
  MoveStateOnly : bool
}.

(** [os.FileInfo], as far as the script looks at it. *)
Record FileInfo : Type := mkFileInfo {
  Name : string;
  IsDir : bool
}.

#[global] Instance FileInfo_eq_dec : EqDecision FileInfo.
Proof. solve_decision. Defined.

(** Modelled from the spec: [statestore.CLIState] is declared in package
    [statestore]; the spec describes a blob with the settings, the
    migration records of every source (version and dirty flag) and the
    latch [IsStateCopyCompleted]. *)
Record CLIState : Type := mkCLIState {
  Migrations : gmap string (gmap Z bool);
  Settings : gmap string string;
  IsStateCopyCompleted : bool
}.

#[global] Instance CLIState_eq_dec : EqDecision CLIState.
Proof. solve_decision. Defined.

Definition set_IsStateCopyCompleted (b : bool) (st : CLIState) : CLIState :=
  {| Migrations := Migrations st; Settings := Settings st; IsStateCopyCompleted := b |}.

(* ===================================================================== *)
(** ** The collaborators of the script *)
(* ===================================================================== *)

(** Every call the script makes to code outside of it. *)
Inductive Op : Type :=
(* opts.EC.APIClient.V1Metadata *)
| GetInconsistentMetadata
| GetSources
(* package util: prompts *)
| GetYesNoPrompt (message : string)
| GetSelectPrompt (message : string) (options : list string)
(* packages statestore, migrations and settings *)
| HdbTable_PrepareMigrationsStateStore (database : string)
| Catalog_PrepareMigrationsStateStore (database : string)
| CopyMigrationState (srcdatabase destdatabase : string)
| SettingsStore_PrepareSettingsDriver (database : string)
| Catalog_PrepareSettingsDriver
| CopySettingsState (database : string)
| CLICatalogState_Get
| CLICatalogState_Set (state : CLIState)
(* afero.Fs and the copy helpers of package util *)
| Fs_Stat (name : path)
| Fs_ReadDir (dirname : path)
| Fs_Mkdir (name : path)
| Fs_RemoveAll (name : path)
| CopyDirAfero (src dst : path)
| CopyFileAfero (src dst : path)
(* opts.EC and the metadata handler *)
| WriteConfig (config : Config)
| AssignConfig (config : Config)
| ExportMetadata
| WriteMetadata (files : gmap string string).

#[global] Instance Op_eq_dec : EqDecision Op.
Proof. solve_decision. Defined.

(** What a call returns.  A Go result [(v, err)] is [inl err] or [inr v];
    a lone [error] is [Some err] or [None] for nil.  [Stat] returns both
    parts, the script looks at the first only. *)
Definition Resp (o : Op) : Type :=
  match o with
  | GetInconsistentMetadata => error + bool
  | GetSources => error + list string
  | GetYesNoPrompt _ => error + string
  | GetSelectPrompt _ _ => error + string
  | HdbTable_PrepareMigrationsStateStore _ => option error
  | Catalog_PrepareMigrationsStateStore _ => option error
  | CopyMigrationState _ _ => option error
  | SettingsStore_PrepareSettingsDriver _ => option error
  | Catalog_PrepareSettingsDriver => option error
  | CopySettingsState _ => option error
  | CLICatalogState_Get => error + CLIState
  | CLICatalogState_Set _ => option error
  | Fs_Stat _ => option FileInfo * option error
  | Fs_ReadDir _ => error + list FileInfo
  | Fs_Mkdir _ => option error
  | Fs_RemoveAll _ => option error
  | CopyDirAfero _ _ => option error
  | CopyFileAfero _ _ => option error
  | WriteConfig _ => option error
  | AssignConfig _ => unit
  | ExportMetadata => error + gmap string string
  | WriteMetadata _ => option error
  end%type.

(** The error part of an answer. *)
Definition resp_error (o : Op) : Resp o → option error :=
  match o as o0 return Resp o0 → option error with
  | GetInconsistentMetadata | GetSources | GetYesNoPrompt _
  | GetSelectPrompt _ _ | CLICatalogState_Get | Fs_ReadDir _
  | ExportMetadata =>
      λ r, match r with inl e => Some e | inr _ => None end
  | Fs_Stat _ => λ r, r.2
  | AssignConfig _ => λ _, None
  | _ => λ r, r
  end.

(** A function of the script: it returns, or calls a collaborator and goes
    on from the answer. *)
Inductive Prog (A : Type) : Type :=
| Ret (a : A)
| Call (o : Op) (k : Resp o → Prog A).

Arguments Ret {A} a.
Arguments Call {A} o k.

Fixpoint bind {A B : Type} (m : Prog A) (f : A → Prog B) : Prog B :=
  match m with
  | Ret a => f a
  | Call o k => Call o (λ r, bind (k r) f)
  end.

Definition call (o : Op) : Prog (Resp o) := Call o Ret.

(** [if err := m; err != nil { return wrap(err) }], then [k]. *)
Definition orReturn (m : Prog (option error)) (wrap : error → error)
    (k : Prog (option error)) : Prog (option error) :=
  bind m (λ err, match err with Some e => Ret (Some (wrap e)) | None => k end).

(** [v, err := m; if err != nil { return wrap(err) }], then [k v]. *)
Definition orReturnV {A : Type} (m : Prog (error + A)) (wrap : error → error)
    (k : A → Prog (option error)) : Prog (option error) :=
  bind m (λ r, match r with inl e => Ret (Some (wrap e)) | inr v => k v end).

(** One call and its answer, as a run of the script records it. *)
Record Event : Type := Ev { ev_op : Op; ev_resp : Resp ev_op }.

(** A collaborator over the world [W]. *)
Definition Handler (W : Type) : Type := ∀ o : Op, W → Resp o * W.

(** A run: the result, the calls made in order with their answers, and the
    world left behind. *)
Fixpoint run {W A : Type} (h : Handler W) (m : Prog A) (w : W)
    : A * list Event * W :=
  match m with
  | Ret a => (a, [], w)
  | Call o k =>
      let '(r, w1) := h o w in
      let '(a, tr, w2) := run h (k r) w1 in
      (a, Ev o r :: tr, w2)
  end.

(** [Q] holds of the calls and of the result whatever the collaborators
    answer. *)
Fixpoint wp {A : Type} (m : Prog A) (Q : list Event → A → Prop) : Prop :=
  match m with
  | Ret a => Q [] a
  | Call o k => ∀ r : Resp o, wp (k r) (λ tr a, Q (Ev o r :: tr) a)
  end.

(* ===================================================================== *)
(** ** The script *)
(* ===================================================================== *)

(** [removeDirectories] *)
Fixpoint removeDirectories (parentDirectory : path) (dirNames : list string)
    : Prog (option error) :=
  match dirNames with
  | [] => Ret None
  | d :: rest =>
      orReturn (call (Fs_RemoveAll (filepath_Join parentDirectory d))) id
        (removeDirectories parentDirectory rest)
  end.

(** [errors.Wrapf(err, "moving %s to %s", dir, target)] *)
Definition moving (dir : string) (target : path) (err : error) : error :=
  Wrap err ("moving " +:+ dir +:+ " to " +:+ path_string target).

(** [copyMigrations] *)
Fixpoint copyMigrations (dirs : list string) (parentDir target : path)
    : Prog (option error) :=
  match dirs with
  | [] => Ret None
  | dir :: rest =>
      bind (call (Fs_Stat (filepath_Join parentDir dir))) (λ st,
        match st.1 with
        | Some f =>
            if IsDir f then
              orReturn
                (call (CopyDirAfero (filepath_Join parentDir dir) (filepath_Join target dir)))
                (moving dir target)
                (copyMigrations rest parentDir target)
            else
              orReturn
                (call (CopyFileAfero (filepath_Join parentDir dir) (filepath_Join target dir)))
                (moving dir target)
                (copyMigrations rest parentDir target)
        | None => copyMigrations rest parentDir target
        end)
  end.

(** [copyFiles] *)
Fixpoint copyFiles (files : list string) (parentDir target : path)
    : Prog (option error) :=
  match files with
  | [] => Ret None
  | dir :: rest =>
      orReturn
        (call (CopyFileAfero (filepath_Join parentDir dir) (filepath_Join target dir)))
        (moving dir target)
        (copyFiles rest parentDir target)
  end.

(** The loop of [getMatchingFilesAndDirs] over the listing. *)
Fixpoint matching_loop (matcher : string → bool * option error)
    (dirs : list FileInfo) (migs : list string) : error + list string :=
  match dirs with
  | [] => inr migs
  | info :: rest =>
      let '(ok, err) := matcher (Name info) in
      match err with
      | Some e => inl e
      | None =>
          if ok then matching_loop matcher rest (migs ++ [filepath_Join1 (Name info)])
          else matching_loop matcher rest migs
      end
  end.

(** [getMatchingFilesAndDirs] *)
Definition getMatchingFilesAndDirs (parentDir : path)
    (matcher : string → bool * option error) : Prog (error + list string) :=
  bind (call (Fs_ReadDir parentDir)) (λ r,
    match r with
    | inl err => Ret (inl err)
    | inr dirs => Ret (matching_loop matcher dirs [])
    end).

(** [getMigrationDirectoryNames] *)
Definition getMigrationDirectoryNames (rootMigrationsDir : path)
    : Prog (error + list string) :=
  getMatchingFilesAndDirs rootMigrationsDir isHasuraCLIGeneratedMigration.

(** The loop of [getSeedFiles] over the listing. *)
Fixpoint seed_loop (dirs : list FileInfo) (seedFiles : list string) : list string :=
  match dirs with
  | [] => seedFiles
  | info :: rest =>
      if negb (IsDir info) then seed_loop rest (seedFiles ++ [filepath_Join1 (Name info)])
      else seed_loop rest seedFiles
  end.

(** [getSeedFiles] *)
Definition getSeedFiles (rootSeedDir : path) : Prog (error + list string) :=
  bind (call (Fs_ReadDir rootSeedDir)) (λ r,
    match r with
    | inl err => Ret (inl err)
    | inr dirs => Ret (inr (seed_loop dirs []))
    end).

(** [CopyState] *)
Definition CopyState (sourceDatabase destDatabase : string) : Prog (option error) :=
  orReturn (call (HdbTable_PrepareMigrationsStateStore sourceDatabase)) id (
  orReturn (call (Catalog_PrepareMigrationsStateStore destDatabase)) id (
  orReturn (call (CopyMigrationState sourceDatabase destDatabase)) id (
  orReturn (call (SettingsStore_PrepareSettingsDriver sourceDatabase)) id (
  orReturn (call Catalog_PrepareSettingsDriver) id (
  orReturn (call (CopySettingsState sourceDatabase)) id (
  orReturnV (call CLICatalogState_Get)
    (λ err, errorString ("error while fetching catalog state: " +:+ Error err))
    (λ cliState,
  orReturn (call (CLICatalogState_Set (set_IsStateCopyCompleted true cliState)))
    (λ err, errorString ("cannot set catalog state: " +:+ Error err))
    (Ret None)))))))).

(** The choice of the target database in [UpdateProjectV3]: the value of
    the flag when it is set, else the only source when it is called
    default, else the answer of the select prompt, and an error when no
    source is connected. *)
Definition selectTargetDatabase (targetDatabase : string) (sources : list string)
    : Prog (error + string) :=
  if decide (String.length targetDatabase = 0) then
    if decide (length sources = 1 ∧ sources !! 0 = Some "default") then
      Ret (inr (default "" (sources !! 0)))
    else if decide (0 < length sources) then
      call (GetSelectPrompt
              "what database does this current migrations / seeds belong to?" sources)
    else
      Ret (inl (errorString
        "cannot determine name of database for which current migrations / seed belong to, found 0 connected databases on hasura []"))
  else Ret (inr targetDatabase).

(** The end of [UpdateProjectV3]: the metadata of the server replaces the
    metadata of the project. *)
Definition exportServerMetadata : Prog (option error) :=
  orReturnV (call ExportMetadata) id (λ files,
  orReturn (call (WriteMetadata files)) id (Ret None)).

Definition metadataFiles : list string := ["functions.yaml"; "tables.yaml"].

(** [UpdateProjectV3] once the migrations and the seed files to move are
    listed: the target directories are made, the entries are copied, the
    new config file is written, the original entries and the two metadata
    files are removed.  The result of [errors.Wrap] on an error of [Mkdir]
    is not returned. *)
Definition moveListed (opts : UpdateProjectV3Opts) (targetDatabase : string)
    (migrationDirectoriesToMove seedFilesToMove : list string) : Prog (option error) :=
  let targetMigrationsDirectoryName :=
    filepath_Join (MigrationsAbsDirectoryPath opts) targetDatabase in
  bind (call (Fs_Mkdir targetMigrationsDirectoryName)) (λ _,
  let targetSeedsDirectoryName :=
    filepath_Join (SeedsAbsDirectoryPath opts) targetDatabase in
  bind (call (Fs_Mkdir targetSeedsDirectoryName)) (λ _,
  orReturn
    (copyMigrations migrationDirectoriesToMove (MigrationsAbsDirectoryPath opts)
       targetMigrationsDirectoryName)
    (λ err, Wrap err "moving migrations to target database directory") (
  orReturn
    (copyFiles seedFilesToMove (SeedsAbsDirectoryPath opts) targetSeedsDirectoryName)
    (λ err, Wrap err "moving seeds to target database directory") (
  let newConfig :=
    {| Version := V3; OtherFields := OtherFields (EC_Config (EC opts)) |} in
  orReturn (call (WriteConfig newConfig)) id (
  bind (call (AssignConfig newConfig)) (λ _,
  orReturn
    (removeDirectories (MigrationsAbsDirectoryPath opts) migrationDirectoriesToMove)
    (λ err, Wrap err "removing up original migrations") (
  orReturn
    (removeDirectories (SeedsAbsDirectoryPath opts) seedFilesToMove)
    (λ err, Wrap err "removing up original migrations") (
  orReturn (removeDirectories (MetadataDir (EC opts)) metadataFiles) id
    (Ret None))))))))).

(** The part of [UpdateProjectV3] that moves the directories: from the
    listing of the migrations to the removal of the metadata files. *)
Definition reorganizeDirectories (opts : UpdateProjectV3Opts) (targetDatabase : string)
    : Prog (option error) :=
  orReturnV (getMigrationDirectoryNames (MigrationsAbsDirectoryPath opts))
    (λ err, Wrap err "getting list of migrations to move") (λ migrationDirectoriesToMove,
  orReturnV (getSeedFiles (SeedsAbsDirectoryPath opts))
    (λ err, Wrap err "getting list of seed files to move") (λ seedFilesToMove,
  moveListed opts targetDatabase migrationDirectoriesToMove seedFilesToMove)).

(** [UpdateProjectV3] from the listing of the two directories on: the
    directories are moved, then the metadata is exported. *)
Definition moveDirectories (opts : UpdateProjectV3Opts) (targetDatabase : string)
    : Prog (option error) :=
  orReturn (reorganizeDirectories opts targetDatabase) id exportServerMetadata.

(** [UpdateProjectV3] once the target database is known: the state is
    copied when a source is connected, and the call returns there when
    only the state is to be moved. *)
Definition moveState (opts : UpdateProjectV3Opts) (sources : list string)
    (targetDatabase : string) : Prog (option error) :=
  if decide (1 ≤ length sources) then
    orReturn (CopyState targetDatabase targetDatabase) id (
      if MoveStateOnly opts then Ret None
      else moveDirectories opts targetDatabase)
  else moveDirectories opts targetDatabase.

(** [UpdateProjectV3] after the checks and the confirmation. *)
Definition updateProject (opts : UpdateProjectV3Opts) : Prog (option error) :=
  let targetDatabase := TargetDatabase opts in
  orReturnV (call GetSources) id (λ sources,
  orReturnV (selectTargetDatabase targetDatabase sources) id (λ targetDatabase,
  moveState opts sources targetDatabase)).

(** [UpdateProjectV3] *)
Definition UpdateProjectV3 (opts : UpdateProjectV3Opts) : Prog (option error) :=
  if bool_decide (Version (EC_Config (EC opts)) ≠ V2) && negb (MoveStateOnly opts) then
    Ret (Some (errorString "project should be using config V2 to be able to update to V3"))
  else if negb (HasMetadataV3 (EC opts)) then
    Ret (Some (errorString
      ("unsupported server version " +:+ Version_Server (EC opts)
       +:+ ", config V3 is supported only on server with metadata version >= 3")))
  else
    orReturnV (call GetInconsistentMetadata)
      (λ err, withMessage err "determing server metadata inconsistency") (λ isConsistent,
    if negb isConsistent then
      Ret (Some (errorString "cannot continue: metadata is inconsistent on the server"))
    else if negb (Force opts) then
      orReturnV (call (GetYesNoPrompt "continue?")) id (λ response,
        if decide (response = "n") then Ret None else updateProject opts)
    else updateProject opts).

Definition line_feed : string := String (ascii_of_nat 10) "".

(** [CheckIfUpdateToConfigV3IsRequired]; the colour codes that the message
    puts around the name of the command are left out. *)
Definition CheckIfUpdateToConfigV3IsRequired (ec : ExecutionContext)
    : Prog (option error) :=
  if bool_decide (version_rank (Version (EC_Config ec)) ≤ version_rank V1)
     && HasMetadataV3 ec then
    Ret (Some (errorString
      ("please upgrade your project to a newer version." +:+ line_feed
       +:+ "use hasura scripts update-project-v2 to upgrade your project to config v2")))
  else if bool_decide (version_rank (Version (EC_Config ec)) < version_rank V3)
          && HasMetadataV3 ec then
    orReturnV (call GetSources) id (λ sources,
      let upgrade := Some (errorString "update to config V3") in
      if decide (length sources = 0) then
        Ret (Some (errorString "no connected databases found on hasura"))
      else if decide (length sources ≠ 1) then Ret upgrade
      else if decide (length sources = 1) then
        if decide (sources !! 0 ≠ Some "default") then Ret upgrade else Ret None
      else Ret None)
  else Ret None.


(* ===================================================================== *)
(** ** An in-memory project and server *)
(* ===================================================================== *)

(** Modelled from the spec: the implementation of [afero.Fs] and the
    helpers [util.CopyFileAfero] and [util.CopyDirAfero] are not part of
    the script; the spec asks for a file system that an in-memory fake can
    stand for, with [Stat], [ReadDir], [Mkdir], a removal, a copy of one
    file and a recursive copy of a directory.  The fake keeps one node for
    every path that exists. *)
Inductive node : Type :=
| File (content : string)
| Dir.

#[global] Instance node_eq_dec : EqDecision node.
Proof. solve_decision. Defined.

Definition is_dir (nd : node) : bool :=
  match nd with Dir => true | File _ => false end.

(** [strip_prefix p k] is what is left of [k] below [p]. *)
Fixpoint strip_prefix (p k : path) : option path :=
  match p, k with
  | [], _ => Some k
  | x :: p', y :: k' => if decide (x = y) then strip_prefix p' k' else None
  | _ :: _, [] => None
  end.

Definition ErrNotExist : error := errorString "file does not exist".
Definition ErrExist : error := errorString "file already exists".
Definition ErrNotDir : error := errorString "not a directory".

Definition mem_Stat (fs : gmap path node) (name : path) : option FileInfo * option error :=
  match fs !! name with
  | Some nd => (Some {| Name := default "/" (last name); IsDir := is_dir nd |}, None)
  | None => (None, Some ErrNotExist)
  end.

Definition child_entry (dirname : path) (kn : path * node) : option FileInfo :=
  match strip_prefix dirname kn.1 with
  | Some [n] => Some {| Name := n; IsDir := is_dir kn.2 |}
  | _ => None
  end.

Definition name_le (a b : FileInfo) : Prop := String.leb (Name a) (Name b) = true.

#[global] Instance name_le_dec a b : Decision (name_le a b).
Proof. unfold name_le. apply _. Defined.

(** [afero.ReadDir]: the entries of a directory, sorted by name. *)
Definition mem_ReadDir (fs : gmap path node) (dirname : path) : error + list FileInfo :=
  match fs !! dirname with
  | Some Dir => inr (merge_sort name_le (omap (child_entry dirname) (map_to_list fs)))
  | Some (File _) => inl ErrNotDir
  | None => inl ErrNotExist
  end.

(** [Mkdir] makes one directory below a directory that exists, and fails
    on a path that exists. *)
Definition mem_Mkdir (fs : gmap path node) (name : path) : option error * gmap path node :=
  match fs !! name with
  | Some _ => (Some ErrExist, fs)
  | None =>
      if decide (name ≠ [] ∧ fs !! removelast name = Some Dir)
      then (None, <[name := Dir]> fs)
      else (Some ErrNotExist, fs)
  end.

(** [RemoveAll] removes the path and all that is below it; a path that
    does not exist is no error. *)
Definition mem_RemoveAll (fs : gmap path node) (name : path) : gmap path node :=
  filter (λ kn, ¬ name `prefix_of` kn.1) fs.

(** Modelled from the spec: [util.CopyFileAfero] is not part of the
    script.  The copy of one file: the source is a file, the destination
    lies in a directory that exists and is not a directory itself, and it
    gets the content of the source. *)
Definition mem_CopyFile (fs : gmap path node) (src dst : path)
    : option error * gmap path node :=
  match fs !! src with
  | Some (File content) =>
      if decide (dst ≠ [] ∧ fs !! removelast dst = Some Dir ∧ fs !! dst ≠ Some Dir)
      then (None, <[dst := File content]> fs)
      else (Some ErrNotExist, fs)
  | Some Dir => (Some (errorString "is a directory"), fs)
  | None => (Some ErrNotExist, fs)
  end.

(** The nodes at and below [src], moved to [dst]. *)
Definition graft (fs : gmap path node) (src dst : path) : gmap path node :=
  list_to_map
    (omap (λ kn : path * node, (λ s, (dst ++ s, kn.2)) <$> strip_prefix src kn.1)
          (map_to_list fs)).

(** Modelled from the spec: [util.CopyDirAfero] is not part of the
    script.  The recursive copy of a directory: the source is a directory,
    the destination does not exist, lies in a directory that exists and
    not below the source, and it gets the nodes at and below the source. *)
Definition mem_CopyDir (fs : gmap path node) (src dst : path)
    : option error * gmap path node :=
  match fs !! src with
  | Some Dir =>
      if decide (is_Some (fs !! dst)) then
        (Some (errorString "destination already exists"), fs)
      else if decide (dst ≠ [] ∧ fs !! removelast dst = Some Dir
                      ∧ ¬ src `prefix_of` dst)
      then (None, graft fs src dst ∪ mem_RemoveAll fs dst)
      else (Some ErrNotExist, fs)
  | Some (File _) => (Some (errorString "source is not a directory"), fs)
  | None => (Some ErrNotExist, fs)
  end.

(** Modelled from the spec: the table-backed state store of one source,
    code of packages [migrations] and [settings]; the spec gives it
    migration records (version and dirty flag) and settings (key and
    value). *)
Record TableStore : Type := mkTableStore {
  tbl_versions : gmap Z bool;
  tbl_settings : gmap string string
}.

Definition StoreUnavailable : error := errorString "StoreUnavailable".
Definition DuplicateStateConflict : error := errorString "DuplicateStateConflict".

(** The project on disk, the server and the answers of the user. *)
Record World : Type := mkWorld {
  w_fs : gmap path node;
  w_config_file : Config;
  w_ec_config : Config;
  w_project_metadata : gmap string string;
  w_server_metadata : gmap string string;
  w_consistent : bool;
  w_sources : list string;
  w_tables : gmap string TableStore;
  w_catalog : CLIState;
  w_answer_yesno : string;
  w_answer_select : string;
  w_prompts : nat;
  w_fault : Op → option error
}.

Definition set_fs (fs : gmap path node) (w : World) : World :=
  mkWorld fs (w_config_file w) (w_ec_config w) (w_project_metadata w)
    (w_server_metadata w) (w_consistent w) (w_sources w) (w_tables w) (w_catalog w)
    (w_answer_yesno w) (w_answer_select w) (w_prompts w) (w_fault w).

Definition set_catalog (c : CLIState) (w : World) : World :=
  mkWorld (w_fs w) (w_config_file w) (w_ec_config w) (w_project_metadata w)
    (w_server_metadata w) (w_consistent w) (w_sources w) (w_tables w) c
    (w_answer_yesno w) (w_answer_select w) (w_prompts w) (w_fault w).

Definition set_config_file (c : Config) (w : World) : World :=
  mkWorld (w_fs w) c (w_ec_config w) (w_project_metadata w)
    (w_server_metadata w) (w_consistent w) (w_sources w) (w_tables w) (w_catalog w)
    (w_answer_yesno w) (w_answer_select w) (w_prompts w) (w_fault w).

Definition set_ec_config (c : Config) (w : World) : World :=
  mkWorld (w_fs w) (w_config_file w) c (w_project_metadata w)
    (w_server_metadata w) (w_consistent w) (w_sources w) (w_tables w) (w_catalog w)
    (w_answer_yesno w) (w_answer_select w) (w_prompts w) (w_fault w).

Definition set_project_metadata (m : gmap string string) (w : World) : World :=
  mkWorld (w_fs w) (w_config_file w) (w_ec_config w) m
    (w_server_metadata w) (w_consistent w) (w_sources w) (w_tables w) (w_catalog w)
    (w_answer_yesno w) (w_answer_select w) (w_prompts w) (w_fault w).

Definition count_prompt (w : World) : World :=
  mkWorld (w_fs w) (w_config_file w) (w_ec_config w) (w_project_metadata w)
    (w_server_metadata w) (w_consistent w) (w_sources w) (w_tables w) (w_catalog w)
    (w_answer_yesno w) (w_answer_select w) (S (w_prompts w)) (w_fault w).

(** The destination already holds records under the name. *)
Definition holds_records (c : CLIState) (database : string) : bool :=
  match Migrations c !! database with
  | Some records => bool_decide (records ≠ ∅)
  | None => false
  end.

(** Modelled from the spec: [statestore.CopyMigrationState] is not part of
    the script; the spec has every record of the source copied under the
    new name with its version and dirty flag, and a destination that
    already holds records under that name refused with
    [DuplicateStateConflict] and left as it is. *)
Definition mem_CopyMigrationState (w : World) (srcdatabase destdatabase : string)
    : option error * World :=
  match w_tables w !! srcdatabase with
  | None => (Some StoreUnavailable, w)
  | Some t =>
      if holds_records (w_catalog w) destdatabase then (Some DuplicateStateConflict, w)
      else
        (None,
         set_catalog
           {| Migrations := <[destdatabase := tbl_versions t]> (Migrations (w_catalog w));
              Settings := Settings (w_catalog w);
              IsStateCopyCompleted := IsStateCopyCompleted (w_catalog w) |} w)
  end.

(** Modelled from the spec: [statestore.CopySettingsState] is not part of
    the script; the spec has every settings record of the source written
    to the catalog. *)
Definition mem_CopySettingsState (w : World) (database : string) : option error * World :=
  match w_tables w !! database with
  | None => (Some StoreUnavailable, w)
  | Some t =>
      (None,
       set_catalog
         {| Migrations := Migrations (w_catalog w);
            Settings := tbl_settings t ∪ Settings (w_catalog w);
            IsStateCopyCompleted := IsStateCopyCompleted (w_catalog w) |} w)
  end.

(** The table-backed store is prepared when its tables can be read. *)
Definition mem_PrepareTable (w : World) (database : string) : option error :=
  match w_tables w !! database with
  | Some _ => None
  | None => Some StoreUnavailable
  end.

(** The answer to a call that is made to fail. *)
Definition fail_resp (o : Op) (e : error) : Resp o :=
  match o as o0 return Resp o0 with
  | GetInconsistentMetadata | GetSources | GetYesNoPrompt _
  | GetSelectPrompt _ _ | CLICatalogState_Get | Fs_ReadDir _
  | ExportMetadata => inl e
  | Fs_Stat _ => (None, Some e)
  | AssignConfig _ => ()
  | _ => Some e
  end.

(** The answers of the in-memory world when no fault is injected. *)
Definition mem_step (o : Op) (w : World) : Resp o * World :=
  match o as o0 return Resp o0 * World with
  | GetInconsistentMetadata => (inr (w_consistent w), w)
  | GetSources => (inr (w_sources w), w)
  | GetYesNoPrompt _ => (inr (w_answer_yesno w), count_prompt w)
  | GetSelectPrompt _ _ => (inr (w_answer_select w), count_prompt w)
  | HdbTable_PrepareMigrationsStateStore database => (mem_PrepareTable w database, w)
  | Catalog_PrepareMigrationsStateStore _ => (None, w)
  | CopyMigrationState srcdatabase destdatabase =>
      mem_CopyMigrationState w srcdatabase destdatabase
  | SettingsStore_PrepareSettingsDriver database => (mem_PrepareTable w database, w)
  | Catalog_PrepareSettingsDriver => (None, w)
  | CopySettingsState database => mem_CopySettingsState w database
  | CLICatalogState_Get => (inr (w_catalog w), w)
  | CLICatalogState_Set state => (None, set_catalog state w)
  | Fs_Stat name => (mem_Stat (w_fs w) name, w)
  | Fs_ReadDir dirname => (mem_ReadDir (w_fs w) dirname, w)
  | Fs_Mkdir name => let '(r, fs) := mem_Mkdir (w_fs w) name in (r, set_fs fs w)
  | Fs_RemoveAll name => (None, set_fs (mem_RemoveAll (w_fs w) name) w)
  | CopyDirAfero src dst =>
      let '(r, fs) := mem_CopyDir (w_fs w) src dst in (r, set_fs fs w)
  | CopyFileAfero src dst =>
      let '(r, fs) := mem_CopyFile (w_fs w) src dst in (r, set_fs fs w)
  | WriteConfig config => (None, set_config_file config w)
  | AssignConfig config => ((), set_ec_config config w)
  | ExportMetadata => (inr (w_server_metadata w), w)
  | WriteMetadata files => (None, set_project_metadata files w)
  end.

(** The in-memory world as a collaborator: a call on which a fault is
    injected fails and changes nothing. *)
Definition mem_handler : Handler World :=
  λ o w,
    match w_fault w o with
    | Some e => (fail_resp o e, w)
    | None => mem_step o w
    end.

Definition no_fault : Op → option error := λ _, None.

(* ===================================================================== *)
(** ** Kinds of calls *)
(* ===================================================================== *)

(** The kinds of calls that the properties of the script speak of. *)
Definition is_removal (e : Event) : bool :=
  match ev_op e with Fs_RemoveAll _ => true | _ => false end.

Definition is_copy (e : Event) : bool :=
  match ev_op e with CopyDirAfero _ _ | CopyFileAfero _ _ => true | _ => false end.

Definition is_config_write (e : Event) : bool :=
  match ev_op e with WriteConfig _ | AssignConfig _ => true | _ => false end.

Definition is_fs_change (e : Event) : bool :=
  match ev_op e with
  | Fs_Mkdir _ | Fs_RemoveAll _ | CopyDirAfero _ _ | CopyFileAfero _ _ => true
  | _ => false
  end.

Definition is_state_call (e : Event) : bool :=
  match ev_op e with
  | HdbTable_PrepareMigrationsStateStore _ | Catalog_PrepareMigrationsStateStore _
  | CopyMigrationState _ _ | SettingsStore_PrepareSettingsDriver _
  | Catalog_PrepareSettingsDriver | CopySettingsState _
  | CLICatalogState_Get | CLICatalogState_Set _ => true
  | _ => false
  end.

Definition is_select_prompt (e : Event) : bool :=
  match ev_op e with GetSelectPrompt _ _ => true | _ => false end.

(** The call answered with an error. *)
Definition failed (e : Event) : bool :=
  bool_decide (is_Some (resp_error (ev_op e) (ev_resp e))).

Definition copy_failed (e : Event) : bool := is_copy e && failed e.

(** No call of the run is of the kind [P]. *)
Definition never (P : Event → bool) (tr : list Event) : Prop :=
  Forall (λ e, P e = false) tr.

(** Some call of the run is of the kind [P]. *)
Definition sometime (P : Event → bool) (tr : list Event) : Prop :=
  Exists (λ e, P e = true) tr.


(* ===================================================================== *)
(** ** A project to run the script on *)
(* ===================================================================== *)

(** The project of the end-to-end example of the spec: two migrations, one
    seed file, the two metadata files of the old layout, and a file in the
    migrations directory that is no migration. *)
Definition demo_fs : gmap path node :=
  list_to_map [
    ([], Dir);
    (["p"], Dir);
    (["p"; "migrations"], Dir);
    (["p"; "migrations"; "1610000000000_init"], Dir);
    (["p"; "migrations"; "1610000000000_init"; "up.sql"], File "create table t();");
    (["p"; "migrations"; "1610000000001_add_table"], Dir);
    (["p"; "migrations"; "1610000000001_add_table"; "up.sql"], File "create table u();");
    (["p"; "migrations"; "README"], File "hello");
    (["p"; "seeds"], Dir);
    (["p"; "seeds"; "seed1.sql"], File "insert into t;");
    (["p"; "metadata"], Dir);
    (["p"; "metadata"; "tables.yaml"], File "[]");
    (["p"; "metadata"; "functions.yaml"], File "[]")
  ].

Definition demo_table : TableStore :=
  {| tbl_versions := {[ 1610000000000%Z := false; 1610000000001%Z := false ]};
     tbl_settings := {[ "migration_mode" := "true" ]} |}.

Definition demo_world : World :=
  {| w_fs := demo_fs;
     w_config_file := mkConfig V2 "endpoint: http://localhost:8080";
     w_ec_config := mkConfig V2 "endpoint: http://localhost:8080";
     w_project_metadata := ∅;
     w_server_metadata := {[ "version.yaml" := "version: 3" ]};
     w_consistent := true;
     w_sources := ["default"];
     w_tables := {[ "default" := demo_table ]};
     w_catalog := mkCLIState ∅ ∅ false;
     w_answer_yesno := "y";
     w_answer_select := "default";
     w_prompts := 0;
     w_fault := no_fault |}.

Definition demo_opts : UpdateProjectV3Opts :=
  {| EC := mkEC (mkConfig V2 "endpoint: http://localhost:8080") true "v2.0.0"
             ["p"; "metadata"];
     ProjectDirectory := ["p"];
     MigrationsAbsDirectoryPath := ["p"; "migrations"];
     SeedsAbsDirectoryPath := ["p"; "seeds"];
     TargetDatabase := "";
     Force := true;
     MoveStateOnly := false |}.

Definition injected : error := errorString "injected fault".

(** The world in which the call [o] is made to fail. *)
Definition with_fault (o : Op) (w : World) : World :=
  mkWorld (w_fs w) (w_config_file w) (w_ec_config w) (w_project_metadata w)
    (w_server_metadata w) (w_consistent w) (w_sources w) (w_tables w) (w_catalog w)
    (w_answer_yesno w) (w_answer_select w) (w_prompts w)
    (λ o', if decide (o' = o) then Some injected else None).

Definition with_sources (l : list string) (w : World) : World :=
  mkWorld (w_fs w) (w_config_file w) (w_ec_config w) (w_project_metadata w)
    (w_server_metadata w) (w_consistent w) l (w_tables w) (w_catalog w)
    (w_answer_yesno w) (w_answer_select w) (w_prompts w) (w_fault w).

Definition with_target (t : string) (o : UpdateProjectV3Opts) : UpdateProjectV3Opts :=
  mkOpts (EC o) (ProjectDirectory o) (MigrationsAbsDirectoryPath o)
    (SeedsAbsDirectoryPath o) t (Force o) (MoveStateOnly o).

Definition with_MoveStateOnly (b : bool) (o : UpdateProjectV3Opts) : UpdateProjectV3Opts :=
  mkOpts (EC o) (ProjectDirectory o) (MigrationsAbsDirectoryPath o)
    (SeedsAbsDirectoryPath o) (TargetDatabase o) (Force o) b.

(** The world of the example with a fault on the copy of the second
    migration. *)
Definition demo_copy_fault_world : World :=
  with_fault
    (CopyDirAfero ["p"; "migrations"; "1610000000001_add_table"]
       ["p"; "migrations"; "default"; "1610000000001_add_table"])
    demo_world.

(* ===================================================================== *)
(** ** Properties of runs *)
(* ===================================================================== *)

(** No copy has failed, or the run has returned an error and has removed
    nothing. *)
Definition aborts_before_deletion (tr : list Event) (res : option error) : Prop :=
  never copy_failed tr ∨ (is_Some res ∧ never is_removal tr).


(** The sources that the server reports. *)
Definition reported_sources (e : Event) : option (list string) :=
  match ev_op e as o return Resp o → option (list string) with
  | GetSources => λ r, match r with inr l => Some l | inl _ => None end
  | _ => λ _, None
  end (ev_resp e).

Definition reports (sources : list string) (e : Event) : bool :=
  bool_decide (reported_sources e = Some sources).

Definition reports_connected (e : Event) : bool :=
  match reported_sources e with Some (_ :: _) => true | _ => false end.

Definition is_GetSources (e : Event) : bool :=
  match ev_op e with GetSources => true | _ => false end.

(** The latch [IsStateCopyCompleted] is written as true, with success. *)
Definition is_latch_set (e : Event) : bool :=
  match ev_op e as o return Resp o → bool with
  | CLICatalogState_Set st =>
      λ r, match r with None => IsStateCopyCompleted st | Some _ => false end
  | _ => λ _, false
  end (ev_resp e).

Definition is_WriteConfig (e : Event) : bool :=
  match ev_op e with WriteConfig _ => true | _ => false end.

Definition written_version (e : Event) : option ConfigVersion :=
  match ev_op e with WriteConfig c => Some (Version c) | _ => None end.

(** The config file is written with version 3, with success. *)
Definition wrote_V3 (e : Event) : bool :=
  bool_decide (written_version e = Some V3) && negb (failed e).

(** The calls whose error the script does not look at. *)
Definition tolerated (e : Event) : bool :=
  match ev_op e with Fs_Mkdir _ | Fs_Stat _ => true | _ => false end.

(** The calls that read or change the project on disk: its directories,
    its config file and its metadata. *)
Definition is_project_call (e : Event) : bool :=
  match ev_op e with
  | Fs_Stat _ | Fs_ReadDir _ | Fs_Mkdir _ | Fs_RemoveAll _
  | CopyDirAfero _ _ | CopyFileAfero _ _
  | WriteConfig _ | AssignConfig _ | ExportMetadata | WriteMetadata _ => true
  | _ => false
  end.

Definition lists (dirname : path) (e : Event) : bool :=
  bool_decide (ev_op e = Fs_ReadDir dirname).

(** [Stat] on [name] has returned a file info. *)
Definition stat_found (name : path) (e : Event) : bool :=
  match ev_op e as o return Resp o → bool with
  | Fs_Stat p => λ r, bool_decide (p = name) && bool_decide (is_Some r.1)
  | _ => λ _, false
  end (ev_resp e).

(** A copy whose source is [name]. *)
Definition copy_from (name : path) (e : Event) : bool :=
  match ev_op e with
  | CopyDirAfero src _ | CopyFileAfero src _ => bool_decide (src = name)
  | _ => false
  end.

(** [RemoveAll] on [name] has returned nil. *)
Definition removal_done (name : path) (e : Event) : bool :=
  match ev_op e with
  | Fs_RemoveAll p => bool_decide (p = name) && negb (failed e)
  | _ => false
  end.

(** The number of calls of the kind [P]. *)
Fixpoint count (P : Event → bool) (tr : list Event) : nat :=
  match tr with
  | [] => 0
  | e :: tr' => (if P e then 1 else 0) + count P tr'
  end.



Definition reports_no_source (e : Event) : bool := reports [] e.

(** The run goes on to the directories without a call to the state
    stores: the migrations directory is listed, and a run that returns nil
    has written version 3 to the config file. *)
Definition proceeds_without_state (opts : UpdateProjectV3Opts)
    (tr : list Event) (res : option error) : Prop :=
  never is_state_call tr
  ∧ sometime (lists (MigrationsAbsDirectoryPath opts)) tr
  ∧ (res = None → sometime wrote_V3 tr).

(** The server of the example without any source, the target database
    given by the flag, and only the state to be moved. *)
Definition demo_no_source_world : World := with_sources [] demo_world.

Definition demo_no_source_opts : UpdateProjectV3Opts :=
  with_MoveStateOnly true (with_target "default" demo_opts).

(** The select prompt is asked with the options [options]. *)
Definition asks (options : list string) (e : Event) : bool :=
  match ev_op e with
  | GetSelectPrompt _ o => bool_decide (o = options)
  | _ => false
  end.

(** The state copy is started for [database]. *)
Definition prepares (database : string) (e : Event) : bool :=
  bool_decide (ev_op e = HdbTable_PrepareMigrationsStateStore database).

Definition no_source_error : error :=
  errorString
    "cannot determine name of database for which current migrations / seed belong to, found 0 connected databases on hasura []".

(** The choice of the target database as the spec words it, for a flag
    that is not set: no source is an error, the only source called default
    is taken without a question, anything else is asked. *)
Definition select_by_cases (sources : list string) : Prog (error + string) :=
  match sources with
  | [] => Ret (inl no_source_error)
  | _ =>
      if decide (sources = ["default"]) then Ret (inr "default")
      else call (GetSelectPrompt
                   "what database does this current migrations / seeds belong to?" sources)
  end.

(** What a run with the sources [sources] and no flag does about the
    target database. *)
Definition selection_facts (sources : list string) (tr : list Event)
    (res : option error) : Prop :=
  match sources with
  | [] => res = Some no_source_error ∧ count is_select_prompt tr = 0
  | _ =>
      if decide (sources = ["default"]) then
        count is_select_prompt tr = 0 ∧ sometime (prepares "default") tr
      else count is_select_prompt tr = 1 ∧ sometime (asks sources) tr
  end.

(** [CheckIfUpdateToConfigV3IsRequired] for a project that is not yet at
    version 3, by cases on the answer of the server. *)
Definition upgrade_check_result (r : error + list string) : option error :=
  match r with
  | inl err => Some err
  | inr [] => Some (errorString "no connected databases found on hasura")
  | inr sources =>
      if decide (sources = ["default"]) then None
      else Some (errorString "update to config V3")
  end.

Definition demo_two_sources_world : World := with_sources ["default"; "other"] demo_world.

(** Whatever sources the run has got from the server, it has chosen as
    [selection_facts] says. *)
Definition selects (tr : list Event) (res : option error) : Prop :=
  ∀ sources, sometime (reports sources) tr → selection_facts sources tr res.


(** The world of the example with a fault on [Stat] for the first
    migration. *)
Definition demo_stat_fault_world : World :=
  with_fault (Fs_Stat ["p"; "migrations"; "1610000000000_init"]) demo_world.

Definition demo_migrations : list string :=
  ["1610000000000_init"; "1610000000001_add_table"].

(** The run of the part of the script after the listing in that world. *)
Definition demo_stat_fault_run : option error * list Event * World :=
  run mem_handler (moveListed demo_opts "default" demo_migrations ["seed1.sql"])
    demo_stat_fault_world.



(** A call after which the config file may still be written: it removes
    nothing, and it has not failed unless the script does not look at its
    error. *)
Definition good_before_write (e : Event) : bool :=
  negb (is_removal e) && (tolerated e || negb (failed e)).

(** The run writes the config file at most once, with version 3, after
    calls that are all [good_before_write], and not while a state copy is
    due ([need_state]): it is due from the report of a connected source
    until the latch is set. *)
Fixpoint write_guarded (need_state : bool) (tr : list Event) : Prop :=
  match tr with
  | [] => True
  | e :: tr' =>
      if is_WriteConfig e then
        need_state = false ∧ written_version e = Some V3 ∧ never is_WriteConfig tr'
      else if good_before_write e then
        write_guarded
          (if is_latch_set e then false else need_state || reports_connected e) tr'
      else never is_WriteConfig tr'
  end.

(** A call that leaves [write_guarded] as it is. *)
Definition neutral (e : Event) : bool :=
  negb (is_WriteConfig e) && good_before_write e
  && negb (is_latch_set e) && negb (reports_connected e).

(** The world of the example with a fault on the removal of the first
    migration. *)
Definition demo_removal_fault_world : World :=
  with_fault (Fs_RemoveAll ["p"; "migrations"; "1610000000000_init"]) demo_world.

(** The run of the script on the example. *)
Definition demo_run : option error * list Event * World :=
  run mem_handler (UpdateProjectV3 demo_opts) demo_world.

(** How the script returns the error [err] of the call [o]: as it is,
    under a message that names the step, or inside a new message. *)
Definition reported_as (o : Op) (err res : error) : Prop :=
  match o with
  | GetInconsistentMetadata =>
      res = withMessage err "determing server metadata inconsistency"
  | CLICatalogState_Get =>
      res = errorString ("error while fetching catalog state: " +:+ Error err)
  | CLICatalogState_Set _ =>
      res = errorString ("cannot set catalog state: " +:+ Error err)
  | Fs_ReadDir _ =>
      res = Wrap err "getting list of migrations to move"
      ∨ res = Wrap err "getting list of seed files to move"
  | CopyDirAfero _ _ | CopyFileAfero _ _ =>
      ∃ dir target,
        res = Wrap (moving dir target err) "moving migrations to target database directory"
        ∨ res = Wrap (moving dir target err) "moving seeds to target database directory"
  | Fs_RemoveAll _ =>
      res = Wrap err "removing up original migrations" ∨ res = err
  | Fs_Mkdir _ | Fs_Stat _ | AssignConfig _ => False
  | _ => res = err
  end.

(** The run has returned the error of the call [e]. *)
Definition reported (e : Event) (res : option error) : Prop :=
  ∃ err r,
    resp_error (ev_op e) (ev_resp e) = Some err ∧ res = Some r
    ∧ reported_as (ev_op e) err r.

(** A call that has failed and whose error the script looks at. *)
Definition aborting (e : Event) : bool := negb (tolerated e) && failed e.

(** The first call that is [aborting] is the last call of the run, and the
    run returns its error. *)
Fixpoint aborts_on_failure (res : option error) (tr : list Event) : Prop :=
  match tr with
  | [] => True
  | e :: tr' =>
      if aborting e then tr' = [] ∧ reported e res
      else aborts_on_failure res tr'
  end.

(** A run that returns nil has no [aborting] call; a run that returns an
    error satisfies [aborts_on_failure]. *)
Definition reports_failure (tr : list Event) (res : option error) : Prop :=
  match res with
  | None => never aborting tr
  | Some _ => aborts_on_failure res tr
  end.

(** The world of the example with a fault on [GetSources]. *)
Definition demo_sources_fault_world : World := with_fault GetSources demo_world.

(** The copy of the migration records has returned nil. *)
Definition migrations_copied (e : Event) : bool :=
  match ev_op e with CopyMigrationState _ _ => negb (failed e) | _ => false end.

(** The copy of the settings has returned nil. *)
Definition settings_copied (e : Event) : bool :=
  match ev_op e with CopySettingsState _ => negb (failed e) | _ => false end.

(** The catalog state is written. *)
Definition is_catalog_write (e : Event) : bool :=
  match ev_op e with CLICatalogState_Set _ => true | _ => false end.

(** The latch that a write of the catalog state carries. *)
Definition written_latch (e : Event) : option bool :=
  match ev_op e with
  | CLICatalogState_Set st => Some (IsStateCopyCompleted st)
  | _ => None
  end.

(** The entries of the catalog that correspond to entries of the table
    store: the records under the database with the version and dirty flag
    of a record of the table, and the settings with the key and value of a
    setting of the table. *)
Definition corresponding_entries (c : CLIState) (t : TableStore) (database : string)
    : nat :=
  size (filter (λ kv : Z * bool, tbl_versions t !! kv.1 = Some kv.2)
          (default ∅ (Migrations c !! database)))
  + size (filter (λ kv : string * string, tbl_settings t !! kv.1 = Some kv.2)
            (Settings c)).

(** The catalog of the example after a first state copy. *)
Definition demo_copied_world : World :=
  set_catalog
    {| Migrations := {[ "default" := {[ 1610000000000%Z := false ]} ]};
       Settings := ∅;
       IsStateCopyCompleted := false |}
    demo_world.

(* ===================================================================== *)
(** ** The project tree *)
(* ===================================================================== *)

Fixpoint no_separator (s : string) : bool :=
  match s with
  | EmptyString => true
  | String c rest => negb (IsPathSeparator c) && no_separator rest
  end.

(** The name of an entry of a directory: not empty, not [.] or [..], and
    without a separator. *)
Definition valid_name (s : string) : bool :=
  negb (String.eqb s "") && negb (String.eqb s ".") && negb (String.eqb s "..")
  && no_separator s.

(** Every path of the tree is made of names of entries. *)
Definition wf_names (fs : gmap path node) : Prop :=
  ∀ k nd, fs !! k = Some nd → Forall (λ n, valid_name n = true) k.

(** Neither path lies at or below the other. *)
Definition unrelated (p q : path) : Prop :=
  ¬ p `prefix_of` q ∧ ¬ q `prefix_of` p.

(** The paths that a call may change. *)
Definition touched (o : Op) (k : path) : Prop :=
  match o with
  | Fs_Mkdir p => k = p
  | Fs_RemoveAll p => p `prefix_of` k
  | CopyDirAfero _ dst => dst `prefix_of` k
  | CopyFileAfero _ dst => k = dst
  | _ => False
  end.

(** The calls that make nothing new in the tree. *)
Definition creates_nothing (o : Op) : Prop :=
  match o with
  | Fs_Mkdir _ | CopyDirAfero _ _ | CopyFileAfero _ _ => False
  | _ => True
  end.

(** The entry at [p1] of the tree [fs1] is the entry at [p2] of the tree
    [fs2]: the same file content, or a directory with the same nodes at
    and below it. *)
Definition same_entry (fs1 : gmap path node) (p1 : path)
    (fs2 : gmap path node) (p2 : path) : Prop :=
  match fs2 !! p2 with
  | Some (File content) => fs1 !! p1 = Some (File content)
  | Some Dir => ∀ s, fs1 !! (p1 ++ s) = fs2 !! (p2 ++ s)
  | None => False
  end.

(** Nothing is left at or below [p]. *)
Definition absent (fs : gmap path node) (p : path) : Prop :=
  ∀ s, fs !! (p ++ s) = None.

(** The calls of [copyMigrations] for the entries [dirs]. *)
Definition copies_entry_of (dirs : list string) (parent target : path) (e : Event) : Prop :=
  ∃ d, d ∈ dirs
    ∧ (ev_op e = Fs_Stat (filepath_Join parent d)
       ∨ ev_op e = CopyDirAfero (filepath_Join parent d) (filepath_Join target d)
       ∨ ev_op e = CopyFileAfero (filepath_Join parent d) (filepath_Join target d)).

(** The calls of [copyFiles] for the files [files]. *)
Definition copies_file_of (files : list string) (parent target : path) (e : Event) : Prop :=
  ∃ f, f ∈ files
    ∧ ev_op e = CopyFileAfero (filepath_Join parent f) (filepath_Join target f).

(** The calls of [removeDirectories] for the entries [dirs]. *)
Definition removes_entry_of (dirs : list string) (parent : path) (e : Event) : Prop :=
  ∃ d, d ∈ dirs ∧ ev_op e = Fs_RemoveAll (filepath_Join parent d).

(** The calls of [moveListed]. *)
Definition moves (opts : UpdateProjectV3Opts) (T : string) (migs seeds : list string)
    (e : Event) : Prop :=
  ev_op e = Fs_Mkdir (filepath_Join (MigrationsAbsDirectoryPath opts) T)
  ∨ ev_op e = Fs_Mkdir (filepath_Join (SeedsAbsDirectoryPath opts) T)
  ∨ copies_entry_of migs (MigrationsAbsDirectoryPath opts)
      (filepath_Join (MigrationsAbsDirectoryPath opts) T) e
  ∨ copies_file_of seeds (SeedsAbsDirectoryPath opts)
      (filepath_Join (SeedsAbsDirectoryPath opts) T) e
  ∨ is_config_write e = true
  ∨ removes_entry_of migs (MigrationsAbsDirectoryPath opts) e
  ∨ removes_entry_of seeds (SeedsAbsDirectoryPath opts) e
  ∨ removes_entry_of metadataFiles (MetadataDir (EC opts)) e.

(** The names that [getMatchingFilesAndDirs] keeps from a listing. *)
Definition kept_names (matcher : string → bool * option error) (dirs : list FileInfo)
    : list string :=
  omap (λ info, if (matcher (Name info)).1 then Some (filepath_Join1 (Name info)) else None)
       dirs.

(** The names that [getSeedFiles] keeps from a listing. *)
Definition seed_names (dirs : list FileInfo) : list string :=
  omap (λ info, if negb (IsDir info) then Some (filepath_Join1 (Name info)) else None) dirs.

(** The seed files of the tree, as [getSeedFiles] lists them. *)
Definition seed_files (fs : gmap path node) (rootSeedDir : path) : list string :=
  match mem_ReadDir fs rootSeedDir with
  | inr dirs => seed_loop dirs []
  | inl _ => []
  end.

(** The matched migrations of the tree, as [getMigrationDirectoryNames]
    lists them. *)
Definition migration_entries (fs : gmap path node) (rootMigrationsDir : path)
    : list string :=
  match mem_ReadDir fs rootMigrationsDir with
  | inr dirs => kept_names isHasuraCLIGeneratedMigration dirs
  | inl _ => []
  end.

#[global] Instance touched_dec o k : Decision (touched o k).
Proof. destruct o; simpl; apply _. Defined.

(** The project of the example without its two migrations. *)
Definition demo_no_migration_fs : gmap path node :=
  mem_RemoveAll
    (mem_RemoveAll demo_fs ["p"; "migrations"; "1610000000000_init"])
    ["p"; "migrations"; "1610000000001_add_table"].

Definition demo_no_migration_world : World := set_fs demo_no_migration_fs demo_world.

(** The run of the part of the script that moves the directories on that
    project. *)
Definition demo_no_migration_run : option error * list Event * World :=
  run mem_handler (reorganizeDirectories demo_opts "default") demo_no_migration_world.

(** The run of the part of the script that moves the directories on the
    project of the example. *)
Definition demo_reorganize_run : option error * list Event * World :=
  run mem_handler (reorganizeDirectories demo_opts "default") demo_world.

(** The same part of the script in the world with a fault on [Stat] for the
    first migration. *)
Definition demo_stat_fault_reorganize_run : option error * list Event * World :=
  run mem_handler (reorganizeDirectories demo_opts "default") demo_stat_fault_world.

(* ===================================================================== *)
(** ** Further observations of runs *)
(* ===================================================================== *)

(** The error that a call has returned, if any. *)
Definition error_of (e : Event) : option error := resp_error (ev_op e) (ev_resp e).

(** The calls of [removeDirectories] for the entries [dirs], in order. *)
Definition removal_ops (parent : path) (dirs : list string) : list Op :=
  (λ d, Fs_RemoveAll (filepath_Join parent d)) <$> dirs.

(** The calls of [copyFiles] for the files [files], in order. *)
Definition file_copy_ops (parent target : path) (files : list string) : list Op :=
  (λ f, CopyFileAfero (filepath_Join parent f) (filepath_Join target f)) <$> files.

(** The world of the example with a fault on the removal of the second
    migration. *)
Definition demo_second_removal_fault_world : World :=
  with_fault (Fs_RemoveAll ["p"; "migrations"; "1610000000001_add_table"]) demo_world.

(** The removal of the two migrations of the example in that world. *)
Definition demo_removal_run : option error * list Event * World :=
  run mem_handler (removeDirectories ["p"; "migrations"] demo_migrations)
    demo_second_removal_fault_world.

(** The copy of two seed files in the example, which has only the first. *)
Definition demo_copyFiles_run : option error * list Event * World :=
  run mem_handler
    (copyFiles ["seed1.sql"; "seed2.sql"] ["p"; "seeds"] ["p"; "migrations"])
    demo_world.

(** The copy [e] of [copyMigrations] is made for an entry [d] of [dirs]
    right after the calls [pre], the last of which is the [Stat] that has
    found the entry: a copy of a directory when [Stat] says it is one, a
    copy of a file otherwise. *)
Definition copy_follows_stat (dirs : list string) (parent target : path)
    (pre : list Event) (e : Event) : Prop :=
  ∃ (d : string) (f : FileInfo) (serr : option error) (pre' : list Event),
    d ∈ dirs
    ∧ pre = pre' ++ [Ev (Fs_Stat (filepath_Join parent d)) (Some f, serr)]
    ∧ ev_op e =
        if IsDir f
        then CopyDirAfero (filepath_Join parent d) (filepath_Join target d)
        else CopyFileAfero (filepath_Join parent d) (filepath_Join target d).

(** The copy of the two migrations of the example. *)
Definition demo_copyMigrations_run : option error * list Event * World :=
  run mem_handler
    (copyMigrations demo_migrations ["p"; "migrations"] ["p"; "migrations"; "default"])
    (mem_handler (Fs_Mkdir ["p"; "migrations"; "default"]) demo_world).2.

(** Every character of the string is one of [[0-9]]. *)
Fixpoint all_digits (s : string) : bool :=
  match s with
  | EmptyString => true
  | String c rest => is_digit c && all_digits rest
  end.

(** The listing of the migrations root of the example. *)
Definition demo_listing_run : (error + list string) * list Event * World :=
  run mem_handler (getMigrationDirectoryNames ["p"; "migrations"]) demo_world.

(** The listing of the seeds root of the example. *)
Definition demo_seed_listing_run : (error + list string) * list Event * World :=
  run mem_handler (getSeedFiles ["p"; "seeds"]) demo_world.

(** The question whether to continue. *)
Definition is_yesno_prompt (e : Event) : bool :=
  match ev_op e with GetYesNoPrompt _ => true | _ => false end.

(** The question whether to continue is answered with [n]. *)
Definition declined (e : Event) : bool :=
  match ev_op e as o return Resp o → bool with
  | GetYesNoPrompt _ => λ r, bool_decide (r = inr "n")
  | _ => λ _, false
  end (ev_resp e).

(** The checks of [UpdateProjectV3] on its options: the project is at
    config version 2, unless only the state is to be moved, and the server
    has metadata of version 3. *)
Definition prechecks_pass (opts : UpdateProjectV3Opts) : Prop :=
  (Version (EC_Config (EC opts)) = V2 ∨ MoveStateOnly opts = true)
  ∧ HasMetadataV3 (EC opts) = true.

#[global] Instance prechecks_pass_dec opts : Decision (prechecks_pass opts).
Proof. unfold prechecks_pass. apply _. Defined.

(** The options of the example without [Force]: the script asks whether
    to continue. *)
Definition demo_ask_opts : UpdateProjectV3Opts :=
  {| EC := EC demo_opts;
     ProjectDirectory := ProjectDirectory demo_opts;
     MigrationsAbsDirectoryPath := MigrationsAbsDirectoryPath demo_opts;
     SeedsAbsDirectoryPath := SeedsAbsDirectoryPath demo_opts;
     TargetDatabase := TargetDatabase demo_opts;
     Force := false;
     MoveStateOnly := MoveStateOnly demo_opts |}.

(** The world of the example in which the user answers [n]. *)
Definition demo_decline_world : World :=
  mkWorld (w_fs demo_world) (w_config_file demo_world) (w_ec_config demo_world)
    (w_project_metadata demo_world) (w_server_metadata demo_world)
    (w_consistent demo_world) (w_sources demo_world) (w_tables demo_world)
    (w_catalog demo_world) "n" (w_answer_select demo_world) (w_prompts demo_world)
    (w_fault demo_world).

Definition demo_decline_run : option error * list Event * World :=
  run mem_handler (UpdateProjectV3 demo_ask_opts) demo_decline_world.

(** The run of the script that asks, in the world of the example, where
    the answer is [y]. *)
Definition demo_ask_run : option error * list Event * World :=
  run mem_handler (UpdateProjectV3 demo_ask_opts) demo_world.

(** The check for the upgrade on the project of the example, with the
    sources [default] and [other] on the server. *)
Definition demo_check_run : option error * list Event * World :=
  run mem_handler (CheckIfUpdateToConfigV3IsRequired (EC demo_opts))
    demo_two_sources_world.

(** The calls of [CopyState] before it writes the catalog state back, in
    order: the two stores of the migrations are prepared and the records
    copied, the two stores of the settings are prepared and the settings
    copied, the catalog state is fetched. *)
Definition CopyState_steps (sourceDatabase destDatabase : string) : list Op :=
  [HdbTable_PrepareMigrationsStateStore sourceDatabase;
   Catalog_PrepareMigrationsStateStore destDatabase;
   CopyMigrationState sourceDatabase destDatabase;
   SettingsStore_PrepareSettingsDriver sourceDatabase;
   Catalog_PrepareSettingsDriver;
   CopySettingsState sourceDatabase;
   CLICatalogState_Get].

(** The copy of the state of the example. *)
Definition demo_CopyState_run : option error * list Event * World :=
  run mem_handler (CopyState "default" "default") demo_world.

(** The catalog state that a call writes. *)
Definition written_state (e : Event) : option CLIState :=
  match ev_op e with CLICatalogState_Set st => Some st | _ => None end.

(** The catalog state that the copy of the state of the example writes. *)
Definition demo_written_state : CLIState :=
  default (mkCLIState ∅ ∅ false) (demo_CopyState_run.1.2 !! 7 ≫= written_state).

(** The calls of the part of the script that follows the two listings:
    the calls on the tree other than the listings, the write of the config
    and the calls on the metadata. *)
Definition is_moving (e : Event) : bool :=
  match ev_op e with
  | Fs_Stat _ | Fs_Mkdir _ | Fs_RemoveAll _ | CopyDirAfero _ _ | CopyFileAfero _ _
  | WriteConfig _ | AssignConfig _ | ExportMetadata | WriteMetadata _ => true
  | _ => false
  end.

Definition is_metadata_call (e : Event) : bool :=
  match ev_op e with ExportMetadata | WriteMetadata _ => true | _ => false end.

(** The config that [UpdateProjectV3] writes: the config of the execution
    context with the version set to 3. *)
Definition newConfig (opts : UpdateProjectV3Opts) : Config :=
  {| Version := V3; OtherFields := OtherFields (EC_Config (EC opts)) |}.

(** A run that gets to the move of the directories: some calls that move
    nothing, then a run of [moveListed], and when that returns nil a run of
    [exportServerMetadata], whose result is the result of the run. *)
Definition moves_listed {W : Type} (h : Handler W) (opts : UpdateProjectV3Opts)
    (res : option error) (tr : list Event) (w' : W) : Prop :=
  ∃ (pre : list Event) (T : string) (migs seeds : list string) (w1 : W)
    (resL : option error) (trL : list Event) (w2 : W) (trE : list Event),
    tr = pre ++ trL ++ trE
    ∧ never is_moving pre
    ∧ run h (moveListed opts T migs seeds) w1 = (resL, trL, w2)
    ∧ match resL with
      | Some e => trE = [] ∧ res = Some e
      | None => run h exportServerMetadata w2 = (res, trE, w')
      end.

(** The write of the config in a run of [moveListed]: there is none, or
    there is one, of the new config; when it fails it is the last call and
    its error is the result, and when it returns nil the config of the
    execution context is set right after it, and no config is written or
    set again. *)
Definition config_written (opts : UpdateProjectV3Opts) (tr : list Event)
    (res : option error) : Prop :=
  never is_config_write tr
  ∨ ∃ A r B,
      tr = A ++ Ev (WriteConfig (newConfig opts)) r :: B
      ∧ never is_config_write A
      ∧ match r with
        | Some err => B = [] ∧ res = Some err
        | None => ∃ B', B = Ev (AssignConfig (newConfig opts)) () :: B'
                        ∧ never is_config_write B'
        end.

Definition is_WriteMetadata (e : Event) : bool :=
  match ev_op e with WriteMetadata _ => true | _ => false end.

(** The call [e] is made for the database [T]: a call on a state store
    names [T], the copy of the migration records goes from [T] to [T], and
    a directory is made at [T] below the migrations root or below the
    seeds root. *)
Definition for_target (opts : UpdateProjectV3Opts) (T : string) (e : Event) : Prop :=
  match ev_op e with
  | HdbTable_PrepareMigrationsStateStore db
  | Catalog_PrepareMigrationsStateStore db
  | SettingsStore_PrepareSettingsDriver db
  | CopySettingsState db => db = T
  | CopyMigrationState src dst => src = T ∧ dst = T
  | Fs_Mkdir p =>
      p = filepath_Join (MigrationsAbsDirectoryPath opts) T
      ∨ p = filepath_Join (SeedsAbsDirectoryPath opts) T
  | _ => True
  end.

(** The answer of the select prompt. *)
Definition select_answer (e : Event) : option string :=
  match ev_op e as o return Resp o → option string with
  | GetSelectPrompt _ _ => λ r, match r with inr a => Some a | inl _ => None end
  | _ => λ _, None
  end (ev_resp e).

(** The run of the script in the world with two sources, where the select
    prompt is answered with [default]. *)
Definition demo_two_sources_run : option error * list Event * World :=
  run mem_handler (UpdateProjectV3 demo_opts) demo_two_sources_world.

(** The seed file [f] has moved: what was its content at the seeds root
    is its content below the target directory, and nothing is left at the
    seeds root. *)
Definition seed_moved (fs fs' : gmap path node) (sroot : path) (T f : string) : Prop :=
  ∃ content : string,
    fs !! filepath_Join sroot f = Some (File content)
    ∧ fs' !! filepath_Join (filepath_Join sroot T) f = Some (File content)
    ∧ absent fs' (filepath_Join sroot f).

(* ===================================================================== *)
(** ** The move of the directories, call by call *)
(* ===================================================================== *)

Definition is_listing (e : Event) : bool :=
  match ev_op e with Fs_ReadDir _ => true | _ => false end.

Definition is_stat_or_copy (e : Event) : bool :=
  match ev_op e with
  | Fs_Stat _ | CopyDirAfero _ _ | CopyFileAfero _ _ => true
  | _ => false
  end.

(** The entries that a listing has returned. *)
Definition listing (e : Event) : option (list FileInfo) :=
  match ev_op e as o return Resp o → option (list FileInfo) with
  | Fs_ReadDir _ => λ r, match r with inr dirs => Some dirs | inl _ => None end
  | _ => λ _, None
  end (ev_resp e).

(** The listings that the calls of a run have returned, in order. *)
Definition listings (tr : list Event) : list (list FileInfo) := omap listing tr.

(** The migrations to move: what [getMigrationDirectoryNames] keeps of
    the first listing of the run. *)
Definition listed_migrations (tr : list Event) : list string :=
  match listings tr with
  | dirs :: _ =>
      match matching_loop isHasuraCLIGeneratedMigration dirs [] with
      | inr migs => migs
      | inl _ => []
      end
  | [] => []
  end.

(** The seed files to move: what [getSeedFiles] keeps of the second
    listing of the run. *)
Definition listed_seeds (tr : list Event) : list string :=
  match listings tr with
  | _ :: sdirs :: _ => seed_loop sdirs []
  | _ => []
  end.

(** [Stat] has returned a file info. *)
Definition found (e : Event) : bool :=
  match ev_op e as o return Resp o → bool with
  | Fs_Stat _ => λ r, bool_decide (is_Some r.1)
  | _ => λ _, false
  end (ev_resp e).

(** The last call so far is a [Stat] that has returned a file info: the
    next call is the copy of that entry by [copyMigrations]. *)
Definition found_last (tr : list Event) : bool :=
  match last tr with Some e => found e | None => false end.

Definition stats (name : path) (e : Event) : bool :=
  bool_decide (ev_op e = Fs_Stat name).

(** A copy from [name] has returned nil. *)
Definition copy_done (name : path) (e : Event) : bool :=
  copy_from name e && negb (failed e).

Definition makes (name : path) (e : Event) : bool :=
  bool_decide (ev_op e = Fs_Mkdir name).

(** The removals of the script, in order: the listed migrations, the
    listed seed files, the two metadata files of the old layout. *)
Definition removal_seq (opts : UpdateProjectV3Opts) (migs seeds : list string)
    : list Op :=
  removal_ops (MigrationsAbsDirectoryPath opts) migs
  ++ removal_ops (SeedsAbsDirectoryPath opts) seeds
  ++ removal_ops (MetadataDir (EC opts)) metadataFiles.

(** How [UpdateProjectV3] returns the error [err] of the call [e] that
    comes after the calls [pre].
    - The consistency check: under the message of the step.
    - The listings: the first one is the listing of the migrations root,
      the second one the listing of the seeds root, each under the message
      of its step.
    - A copy right after a [Stat] that has found the entry is the copy of
      a listed migration by [copyMigrations]; any other copy is the copy of
      a listed seed file by [copyFiles]; each is returned under the message
      of [errors.Wrapf] with the entry and the target directory, and under
      the message of the step.
    - A removal is the next one of [removal_seq]; for a migration or a
      seed file it is returned under one and the same message, for a
      metadata file as it is.
    - The fetch and the write of the catalog state: inside a new message.
    - The prompts, the sources, the calls on the state stores, the write of
      the config and the calls on the metadata: as it is. *)
Definition step_report (opts : UpdateProjectV3Opts) (pre : list Event) (e : Event)
    (err res : error) : Prop :=
  let mroot := MigrationsAbsDirectoryPath opts in
  let sroot := SeedsAbsDirectoryPath opts in
  let of_migration (T : string) (src dst : path) :=
    ∃ d, d ∈ listed_migrations pre
       ∧ src = filepath_Join mroot d
       ∧ dst = filepath_Join (filepath_Join mroot T) d
       ∧ res = Wrap (moving d (filepath_Join mroot T) err)
                 "moving migrations to target database directory" in
  let of_seed (T : string) (src dst : path) :=
    ∃ f, f ∈ listed_seeds pre
       ∧ src = filepath_Join sroot f
       ∧ dst = filepath_Join (filepath_Join sroot T) f
       ∧ res = Wrap (moving f (filepath_Join sroot T) err)
                 "moving seeds to target database directory" in
  match ev_op e with
  | GetInconsistentMetadata =>
      res = withMessage err "determing server metadata inconsistency"
  | CLICatalogState_Get =>
      res = errorString ("error while fetching catalog state: " +:+ Error err)
  | CLICatalogState_Set _ =>
      res = errorString ("cannot set catalog state: " +:+ Error err)
  | Fs_ReadDir p =>
      match listings pre with
      | [] => p = mroot ∧ res = Wrap err "getting list of migrations to move"
      | _ :: _ => p = sroot ∧ res = Wrap err "getting list of seed files to move"
      end
  | CopyDirAfero src dst =>
      found_last pre = true
      ∧ ∃ T, sometime (makes (filepath_Join mroot T)) pre ∧ of_migration T src dst
  | CopyFileAfero src dst =>
      ∃ T, sometime (makes (filepath_Join mroot T)) pre
           ∧ if found_last pre then of_migration T src dst else of_seed T src dst
  | Fs_RemoveAll p =>
      removal_seq opts (listed_migrations pre) (listed_seeds pre)
        !! count is_removal pre = Some (Fs_RemoveAll p)
      ∧ res = (if decide (count is_removal pre
                          < length (listed_migrations pre) + length (listed_seeds pre))
               then Wrap err "removing up original migrations"
               else err)
  | Fs_Mkdir _ | Fs_Stat _ | AssignConfig _ => False
  | _ => res = err
  end.

(** *** The calls of the parts of [moveListed] *)

(** The calls and the result of [copyMigrations]: only [Stat] and copies;
    every copy right after the [Stat] that has found its entry, and every
    such [Stat] right before a copy; with the result nil no copy has
    failed, the last call is no [Stat] that has found an entry, and every
    entry has had its [Stat]; with an error the last call is the copy that
    has failed, and the error names its entry and the target. *)
Definition copyMigrations_spec (dirs : list string) (parent target : path)
    (tr : list Event) (res : option error) : Prop :=
  Forall (λ e, is_stat_or_copy e = true) tr
  ∧ (∀ pre e post, tr = pre ++ e :: post → is_copy e = true →
       copy_follows_stat dirs parent target pre e)
  ∧ (∀ pre s post, tr = pre ++ s :: post → found s = true →
       ∃ c post', post = c :: post' ∧ is_copy c = true)
  ∧ match res with
    | None =>
        never copy_failed tr ∧ found_last tr = false
        ∧ ∀ d, d ∈ dirs → sometime (stats (filepath_Join parent d)) tr
    | Some eM =>
        ∃ pre c d err,
          tr = pre ++ [c] ∧ never copy_failed pre ∧ is_copy c = true
          ∧ error_of c = Some err ∧ d ∈ dirs ∧ found_last pre = true
          ∧ (ev_op c = CopyDirAfero (filepath_Join parent d) (filepath_Join target d)
             ∨ ev_op c = CopyFileAfero (filepath_Join parent d) (filepath_Join target d))
          ∧ eM = moving d target err
    end.

(** The calls and the result of [copyFiles]. *)
Definition copyFiles_spec (files : list string) (parent target : path)
    (tr : list Event) (res : option error) : Prop :=
  ∃ copied : list string,
    copied `prefix_of` files
    ∧ ev_op <$> tr = file_copy_ops parent target copied
    ∧ match res with
      | None => copied = files ∧ never failed tr
      | Some err =>
          ∃ pre e f cause,
            tr = pre ++ [e] ∧ never failed pre ∧ last copied = Some f
            ∧ error_of e = Some cause ∧ err = moving f target cause
      end.

(** The calls and the result of the three removals at the end of
    [moveListed]: the calls are a front part of [removal_seq]; with the
    result nil they are all of it and none has failed; with an error the
    last call is the removal that has failed, and its error is returned
    under the one message for a migration or a seed file, and as it is for
    a metadata file. *)
Definition removals_spec (opts : UpdateProjectV3Opts) (migs seeds : list string)
    (tr : list Event) (res : option error) : Prop :=
  ev_op <$> tr `prefix_of` removal_seq opts migs seeds
  ∧ match res with
    | None => ev_op <$> tr = removal_seq opts migs seeds ∧ never failed tr
    | Some r =>
        ∃ pre e err,
          tr = pre ++ [e] ∧ never failed pre ∧ error_of e = Some err
          ∧ r = (if decide (length pre < length migs + length seeds)
                 then Wrap err "removing up original migrations"
                 else err)
    end.

(** The calls and the result of [exportServerMetadata]. *)
Definition exported (tr : list Event) (res : option error) : Prop :=
  (∃ err, tr = [Ev ExportMetadata (inl err)] ∧ res = Some err)
  ∨ (∃ files, tr = [Ev ExportMetadata (inr files); Ev (WriteMetadata files) res]).

(** The calls and the result of [moveListed], part by part: the two
    directories are made, whatever [Mkdir] returns; the migrations are
    copied; then the seed files; then the config is written and set; then
    come the removals.  A part that returns an error is the last one. *)
Definition Listed (opts : UpdateProjectV3Opts) (T : string) (migs seeds : list string)
    (tr : list Event) (res : option error) : Prop :=
  let mroot := MigrationsAbsDirectoryPath opts in
  let sroot := SeedsAbsDirectoryPath opts in
  ∃ r1 r2 trM resM tail,
    tr = Ev (Fs_Mkdir (filepath_Join mroot T)) r1
         :: Ev (Fs_Mkdir (filepath_Join sroot T)) r2 :: trM ++ tail
    ∧ copyMigrations_spec migs mroot (filepath_Join mroot T) trM resM
    ∧ match resM with
      | Some eM =>
          tail = []
          ∧ res = Some (Wrap eM "moving migrations to target database directory")
      | None =>
          ∃ trS resS tail2,
            tail = trS ++ tail2
            ∧ copyFiles_spec seeds sroot (filepath_Join sroot T) trS resS
            ∧ match resS with
              | Some eS =>
                  tail2 = []
                  ∧ res = Some (Wrap eS "moving seeds to target database directory")
              | None =>
                  ∃ rW tail3,
                    tail2 = Ev (WriteConfig (newConfig opts)) rW :: tail3
                    ∧ match rW with
                      | Some err => tail3 = [] ∧ res = Some err
                      | None =>
                          ∃ trR,
                            tail3 = Ev (AssignConfig (newConfig opts)) () :: trR
                            ∧ removals_spec opts migs seeds trR res
                      end
              end
      end.

(** The calls and the result of [moveDirectories]: the two listings, each
    returned under the message of its step when it fails, then
    [moveListed] for what the listings keep, then, when that returns nil,
    the export of the metadata. *)
Definition Moved (opts : UpdateProjectV3Opts) (T : string)
    (tr : list Event) (res : option error) : Prop :=
  ∃ rM tail,
    tr = Ev (Fs_ReadDir (MigrationsAbsDirectoryPath opts)) rM :: tail
    ∧ match rM with
      | inl err => tail = [] ∧ res = Some (Wrap err "getting list of migrations to move")
      | inr dirs =>
          ∃ migs rS tail2,
            matching_loop isHasuraCLIGeneratedMigration dirs [] = inr migs
            ∧ tail = Ev (Fs_ReadDir (SeedsAbsDirectoryPath opts)) rS :: tail2
            ∧ match rS with
              | inl err =>
                  tail2 = []
                  ∧ res = Some (Wrap err "getting list of seed files to move")
              | inr sdirs =>
                  ∃ trL resL trE,
                    tail2 = trL ++ trE
                    ∧ Listed opts T migs (seed_loop sdirs []) trL resL
                    ∧ match resL with
                      | Some e => trE = [] ∧ res = Some e
                      | None => exported trE res
                      end
              end
      end.

(** *** How a run gets to the move of the directories *)

(** The run has returned before the move of the directories: no call has
    read or changed the project; a server that has reported no source has
    stopped a run without a target database; and the result is nil only
    when the user has declined, or when only the state is to be moved and
    the setting of the latch is the last call. *)
Definition Stopped (opts : UpdateProjectV3Opts) (tr : list Event)
    (res : option error) : Prop :=
  never is_project_call tr
  ∧ (sometime reports_no_source tr → TargetDatabase opts = "")
  ∧ (res = None →
       sometime declined tr
       ∨ (MoveStateOnly opts = true ∧ is_latch_set <$> last tr = Some true)).

(** The run has got to the move of the directories for the database [T]
    after the calls [pre0], none of which has read or changed the project:
    [T] is the target database of the options when that is set; the server
    has reported no source, or not only the state is to be moved; the calls
    from there on are those of [moveDirectories]. *)
Definition Reached (opts : UpdateProjectV3Opts) (tr : list Event)
    (res : option error) : Prop :=
  ∃ (pre0 : list Event) (T : string) (trD : list Event),
    tr = pre0 ++ trD
    ∧ never is_project_call pre0
    ∧ (TargetDatabase opts ≠ "" → T = TargetDatabase opts)
    ∧ (sometime reports_no_source pre0 ∨ MoveStateOnly opts = false)
    ∧ Moved opts T trD res.

(** The run of the script on the example without any source, with the
    target database given by the flag and only the state to be moved. *)
Definition demo_no_source_run : option error * list Event * World :=
  run mem_handler (UpdateProjectV3 demo_no_source_opts) demo_no_source_world.


(** The run of the script on the example with a fault on the removal of
    the first migration. *)
Definition demo_removal_fault_run : option error * list Event * World :=
  run mem_handler (UpdateProjectV3 demo_opts) demo_removal_fault_world.

(** *** The config file of the in-memory project *)

(** The config that the call [e] leaves in the config file: that of a
    [WriteConfig] that has returned nil. *)
Definition config_written_by (e : Event) : option Config :=
  match ev_op e with
  | WriteConfig c => if failed e then None else Some c
  | _ => None
  end.

(** The config file after the calls [tr], from the config file [c]: the
    last config written, if any. *)
Definition config_file_after (c : Config) (tr : list Event) : Config :=
  default c (last (omap config_written_by tr)).
(* ===================================================================== *)
(** ** Runs and the calls they make *)
(* ===================================================================== *)

Section ProgramLogic.
Context {A : Type}.

Lemma wp_mono (m : Prog A) (Q Q' : list Event → A → Prop) :
  (∀ tr a, Q tr a → Q' tr a) → wp m Q → wp m Q'.
Proof.
  revert Q Q'. induction m as [a | o k IH]; simpl; intros Q Q' HQ Hm.
  - by apply HQ.
  - intros r. eapply IH; [| apply Hm]. intros tr a. apply HQ.
Qed.

Lemma wp_and (m : Prog A) (Q Q' : list Event → A → Prop) :
  wp m Q → wp m Q' → wp m (λ tr a, Q tr a ∧ Q' tr a).
Proof.
  revert Q Q'. induction m as [a | o k IH]; simpl; intros Q Q' H1 H2.
  - done.
  - intros r. apply (IH r (λ tr a, Q (Ev o r :: tr) a) (λ tr a, Q' (Ev o r :: tr) a));
      [apply H1 | apply H2].
Qed.

Lemma wp_bind {B : Type} (m : Prog A) (f : A → Prog B) (Q : list Event → B → Prop) :
  wp m (λ tr a, wp (f a) (λ tr' b, Q (tr ++ tr') b)) → wp (bind m f) Q.
Proof.
  revert Q. induction m as [a | o k IH]; simpl; intros Q Hm.
  - done.
  - intros r. apply IH, Hm.
Qed.

Lemma wp_true (m : Prog A) : wp m (λ _ _, True).
Proof. induction m as [a | o k IH]; simpl; auto. Qed.

(** What holds whatever the collaborators answer holds of every run. *)
Lemma wp_run {W : Type} (h : Handler W) (m : Prog A) (Q : list Event → A → Prop) :
  wp m Q → ∀ w a tr w', run h m w = (a, tr, w') → Q tr a.
Proof.
  revert Q. induction m as [a0 | o k IH]; simpl; intros Q Hm w a tr w' Hrun.
  - by inversion Hrun; subst.
  - destruct (h o w) as [r w1] eqn:Hh.
    destruct (run h (k r) w1) as [[a1 tr1] w2] eqn:Hk.
    inversion Hrun; subst.
    by apply (IH r _ (Hm r) _ _ _ _ Hk).
Qed.

(** A run of [bind m f] is a run of [m] followed by a run of [f]. *)
Lemma run_bind {W B : Type} (h : Handler W) (m : Prog A) (f : A → Prog B) (w : W) :
  run h (bind m f) w =
    let '(a, tr1, w1) := run h m w in
    let '(b, tr2, w2) := run h (f a) w1 in
    (b, tr1 ++ tr2, w2).
Proof.
  revert w. induction m as [a | o k IH]; simpl; intros w.
  - by destruct (run h (f a) w) as [[b tr2] w2].
  - destruct (h o w) as [r w1]. rewrite IH.
    destruct (run h (k r) w1) as [[a tr1] w2].
    by destruct (run h (f a) w2) as [[b tr2] w3].
Qed.
End ProgramLogic.

Lemma never_nil P : never P [].
Proof. constructor. Qed.

Lemma never_cons P e tr : P e = false → never P tr → never P (e :: tr).
Proof. by constructor. Qed.

Lemma never_app P tr1 tr2 : never P tr1 → never P tr2 → never P (tr1 ++ tr2).
Proof. intros. by apply Forall_app. Qed.

Lemma never_app_inv P tr1 tr2 : never P (tr1 ++ tr2) → never P tr1 ∧ never P tr2.
Proof. unfold never. by rewrite Forall_app. Qed.

Lemma never_cons_inv P e tr : never P (e :: tr) → P e = false ∧ never P tr.
Proof. unfold never. by rewrite Forall_cons. Qed.

Lemma never_sometime P tr : never P tr → sometime P tr → False.
Proof.
  unfold never, sometime. rewrite Forall_forall, Exists_exists.
  intros Hn (e & He & HP). specialize (Hn e He). congruence.
Qed.

Lemma never_weaken (P P' : Event → bool) tr :
  (∀ e, P e = false → P' e = false) → never P tr → never P' tr.
Proof. intros HP Hn. eapply Forall_impl; [apply Hn | auto]. Qed.

(** Simplification that keeps the parts of the script folded. *)
Ltac psimpl :=
  with_strategy opaque
    [selectTargetDatabase CopyState exportServerMetadata moveListed
     reorganizeDirectories moveDirectories moveState updateProject
     reports_failure] simpl.

Create HintDb trace.
#[global] Hint Resolve never_nil never_cons never_app : trace.

(** *** The calls of the loops *)

Lemma removeDirectories_never (P : Event → bool) parent dirs :
  (∀ p r, P (Ev (Fs_RemoveAll p) r) = false) →
  wp (removeDirectories parent dirs) (λ tr _, never P tr).
Proof.
  intros HP. induction dirs as [| d rest IH]; simpl.
  - apply never_nil.
  - intros [e |]; simpl.
    + auto with trace.
    + eapply wp_mono; [| apply IH]. simpl. auto with trace.
Qed.

Lemma copyFiles_never (P : Event → bool) files parent target :
  (∀ s d r, P (Ev (CopyFileAfero s d) r) = false) →
  wp (copyFiles files parent target) (λ tr _, never P tr).
Proof.
  intros HP. induction files as [| d rest IH]; simpl.
  - apply never_nil.
  - intros [e |]; simpl.
    + auto with trace.
    + eapply wp_mono; [| apply IH]. simpl. auto with trace.
Qed.

Lemma copyMigrations_never (P : Event → bool) dirs parent target :
  (∀ p r, P (Ev (Fs_Stat p) r) = false) →
  (∀ s d r, P (Ev (CopyDirAfero s d) r) = false) →
  (∀ s d r, P (Ev (CopyFileAfero s d) r) = false) →
  wp (copyMigrations dirs parent target) (λ tr _, never P tr).
Proof.
  intros HS HD HF. induction dirs as [| d rest IH]; simpl.
  - apply never_nil.
  - intros [[f |] err]; simpl.
    + destruct (IsDir f); simpl; intros [e |]; simpl; auto with trace;
        (eapply wp_mono; [| apply IH]); simpl; auto with trace.
    + eapply wp_mono; [| apply IH]. simpl. auto with trace.
Qed.

(** A copy loop that returns nil has made no copy that failed. *)
Lemma copyFiles_success files parent target :
  wp (copyFiles files parent target) (λ tr res, res = None → never copy_failed tr).
Proof.
  induction files as [| d rest IH]; simpl.
  - intros _. apply never_nil.
  - intros [e |]; simpl; [done |].
    eapply wp_mono; [| apply IH]. simpl. intros tr a H Ha. auto with trace.
Qed.

Lemma copyMigrations_success dirs parent target :
  wp (copyMigrations dirs parent target) (λ tr res, res = None → never copy_failed tr).
Proof.
  induction dirs as [| d rest IH]; simpl.
  - intros _. apply never_nil.
  - intros [[f |] err]; simpl.
    + destruct (IsDir f); simpl; intros [e |]; simpl; try done;
        (eapply wp_mono; [| apply IH]); simpl; intros tr a H Ha; auto with trace.
    + eapply wp_mono; [| apply IH]. simpl. intros tr a H Ha. auto with trace.
Qed.

(** The calls of the straight parts of the script. *)
Lemma selectTargetDatabase_never (P : Event → bool) targetDatabase sources :
  (∀ m o r, P (Ev (GetSelectPrompt m o) r) = false) →
  wp (selectTargetDatabase targetDatabase sources) (λ tr _, never P tr).
Proof.
  intros HP. unfold selectTargetDatabase.
  repeat case_decide; simpl; auto with trace.
Qed.

Lemma CopyState_never (P : Event → bool) src dst :
  (∀ e, is_state_call e = true → P e = false) →
  wp (CopyState src dst) (λ tr _, never P tr).
Proof.
  intros HP. unfold CopyState, orReturn, orReturnV. simpl.
  repeat (intros [? |]; simpl; auto 20 with trace).
Qed.

Lemma exportServerMetadata_never (P : Event → bool) :
  (∀ r, P (Ev ExportMetadata r) = false) →
  (∀ f r, P (Ev (WriteMetadata f) r) = false) →
  wp exportServerMetadata (λ tr _, never P tr).
Proof.
  intros H1 H2. unfold exportServerMetadata, orReturn, orReturnV. simpl.
  intros [e | files]; simpl; [auto with trace |].
  intros [e |]; simpl; auto with trace.
Qed.

Lemma getMigrationDirectoryNames_never (P : Event → bool) root :
  (∀ p r, P (Ev (Fs_ReadDir p) r) = false) →
  wp (getMigrationDirectoryNames root) (λ tr _, never P tr).
Proof. intros HP. simpl. intros [e | dirs]; simpl; auto with trace. Qed.

Lemma getSeedFiles_never (P : Event → bool) root :
  (∀ p r, P (Ev (Fs_ReadDir p) r) = false) →
  wp (getSeedFiles root) (λ tr _, never P tr).
Proof. intros HP. simpl. intros [e | dirs]; simpl; auto with trace. Qed.

Lemma sometime_here P e tr : P e = true → sometime P (e :: tr).
Proof. intros. by apply Exists_cons_hd. Qed.
Lemma sometime_later P e tr : sometime P tr → sometime P (e :: tr).
Proof. intros. by apply Exists_cons_tl. Qed.
Lemma sometime_app_l P tr1 tr2 : sometime P tr1 → sometime P (tr1 ++ tr2).
Proof. intros. apply Exists_app. by left. Qed.
Lemma sometime_app_r P tr1 tr2 : sometime P tr2 → sometime P (tr1 ++ tr2).
Proof. intros. apply Exists_app. by right. Qed.

Lemma moveListed_never (P : Event → bool) opts T migs seeds :
  (∀ e, is_project_call e = true → P e = false) →
  wp (moveListed opts T migs seeds) (λ tr _, never P tr).
Proof.
  intros HP.
  assert (∀ o r, is_project_call (Ev o r) = true → P (Ev o r) = false) as HP' by auto.
  unfold moveListed, orReturn. psimpl. intros r1 r2.
  apply wp_bind. eapply wp_mono; [| apply (copyMigrations_never P); intros; by apply HP'].
  psimpl. intros trM [e |] HM; psimpl.
  { rewrite app_nil_r. auto 10 with trace. }
  apply wp_bind. eapply wp_mono; [| apply (copyFiles_never P); intros; by apply HP'].
  psimpl. intros trS [e |] HS; psimpl.
  { rewrite app_nil_r. auto 10 with trace. }
  intros [e |]; psimpl.
  { auto 10 with trace. }
  intros [].
  apply wp_bind. eapply wp_mono; [| apply (removeDirectories_never P); intros; by apply HP'].
  psimpl. intros tr1 [e |] H1; psimpl.
  { rewrite app_nil_r. auto 10 with trace. }
  apply wp_bind. eapply wp_mono; [| apply (removeDirectories_never P); intros; by apply HP'].
  psimpl. intros tr2 [e |] H2; psimpl.
  { rewrite app_nil_r. auto 10 with trace. }
  intros [e |]; psimpl.
  { auto 20 with trace. }
  intros [e |]; psimpl; auto 20 with trace.
Qed.

Lemma reorganizeDirectories_never (P : Event → bool) opts T :
  (∀ e, is_project_call e = true → P e = false) →
  wp (reorganizeDirectories opts T) (λ tr _, never P tr).
Proof.
  intros HP.
  assert (∀ o r, is_project_call (Ev o r) = true → P (Ev o r) = false) as HP' by auto.
  unfold reorganizeDirectories, orReturnV. psimpl.
  intros [e | dirs]; psimpl; [auto with trace |].
  destruct (matching_loop _ _ _) as [e | migs]; psimpl; [auto with trace |].
  intros [e | sdirs]; psimpl; [auto with trace |].
  eapply wp_mono; [| by apply (moveListed_never P)].
  psimpl. auto with trace.
Qed.

Lemma moveDirectories_never (P : Event → bool) opts T :
  (∀ e, is_project_call e = true → P e = false) →
  wp (moveDirectories opts T) (λ tr _, never P tr).
Proof.
  intros HP.
  assert (∀ o r, is_project_call (Ev o r) = true → P (Ev o r) = false) as HP' by auto.
  unfold moveDirectories, orReturn. apply wp_bind.
  eapply wp_mono; [| by apply (reorganizeDirectories_never P)].
  intros tr [e |] H; psimpl.
  - by rewrite app_nil_r.
  - eapply wp_mono; [| apply (exportServerMetadata_never P); intros; by apply HP'].
    psimpl. auto with trace.
Qed.

Lemma moveState_never (P : Event → bool) opts sources T :
  (∀ e, is_project_call e = true → P e = false) →
  (∀ e, is_state_call e = true → P e = false) →
  wp (moveState opts sources T) (λ tr _, never P tr).
Proof.
  intros HP HS. unfold moveState. case_decide; [| by apply moveDirectories_never].
  unfold orReturn. apply wp_bind.
  eapply wp_mono; [| by apply (CopyState_never P)].
  psimpl. intros tr [e |] Htr; psimpl.
  { by rewrite app_nil_r. }
  destruct (MoveStateOnly opts); psimpl.
  { by rewrite app_nil_r. }
  eapply wp_mono; [| by apply (moveDirectories_never P)].
  psimpl. auto with trace.
Qed.

(* ===================================================================== *)
(** ** A failed copy stops the run before anything is removed *)
(* ===================================================================== *)

Lemma moveListed_copy_failure opts T migs seeds :
  wp (moveListed opts T migs seeds) aborts_before_deletion.
Proof.
  unfold moveListed, orReturn. simpl. intros r1 r2.
  apply wp_bind.
  eapply wp_mono; [| apply wp_and; [apply copyMigrations_success | apply (copyMigrations_never is_removal); done]].
  simpl. intros trM [e |] [HM HMr]; simpl.
  { right. split; [eauto |]. rewrite app_nil_r. auto with trace. }
  specialize (HM eq_refl).
  apply wp_bind.
  eapply wp_mono; [| apply wp_and; [apply copyFiles_success | apply (copyFiles_never is_removal); done]].
  simpl. intros trS [e |] [HS HSr]; simpl.
  { right. split; [eauto |]. rewrite app_nil_r. auto 10 with trace. }
  specialize (HS eq_refl).
  intros [e |]; simpl.
  { left. auto 10 with trace. }
  intros [].
  apply wp_bind. eapply wp_mono; [| apply (removeDirectories_never copy_failed); done].
  simpl. intros tr1 [e |] H1; simpl.
  { left. rewrite app_nil_r. auto 10 with trace. }
  apply wp_bind. eapply wp_mono; [| apply (removeDirectories_never copy_failed); done].
  simpl. intros tr2 [e |] H2; simpl.
  { left. rewrite app_nil_r. auto 10 with trace. }
  intros [e |]; simpl.
  { left. auto 20 with trace. }
  intros [e |]; simpl; left; auto 20 with trace.
Qed.

Lemma aborts_cons e tr res :
  is_copy e = false → is_removal e = false →
  aborts_before_deletion tr res → aborts_before_deletion (e :: tr) res.
Proof.
  intros Hc Hr [H | [H1 H2]]; [left | right; split; [done |]];
    apply never_cons; auto. unfold copy_failed. by rewrite Hc.
Qed.

Lemma aborts_neutral tr res :
  never is_copy tr → aborts_before_deletion tr res.
Proof.
  intros H. left. eapply never_weaken; [| apply H].
  intros e He. unfold copy_failed. by rewrite He.
Qed.

Lemma reorganizeDirectories_copy_failure opts T :
  wp (reorganizeDirectories opts T) aborts_before_deletion.
Proof.
  unfold reorganizeDirectories, orReturnV. psimpl.
  intros [e | dirs]; psimpl.
  { apply aborts_neutral. auto with trace. }
  destruct (matching_loop _ _ _) as [e | migs]; psimpl.
  { apply aborts_neutral. auto with trace. }
  intros [e | sdirs]; psimpl.
  { apply aborts_neutral. auto with trace. }
  eapply wp_mono; [| apply moveListed_copy_failure].
  intros tr res H. psimpl. by do 2 (apply aborts_cons; [done .. |]).
Qed.

Lemma aborts_app_r tr tr' (res' : option error) :
  never is_copy tr' → aborts_before_deletion tr None →
  aborts_before_deletion (tr ++ tr') res'.
Proof.
  intros H' [H | [[? ?] _]]; [| done].
  left. apply never_app; [done |].
  eapply never_weaken; [| apply H']. intros e He. unfold copy_failed. by rewrite He.
Qed.

Lemma moveDirectories_copy_failure opts T :
  wp (moveDirectories opts T) aborts_before_deletion.
Proof.
  unfold moveDirectories, orReturn. apply wp_bind.
  eapply wp_mono; [| apply reorganizeDirectories_copy_failure].
  intros tr [e |] H; psimpl.
  - by rewrite app_nil_r.
  - eapply wp_mono; [| apply (exportServerMetadata_never is_copy); done].
    psimpl. intros tr' res' H'. by eapply aborts_app_r.
Qed.

Lemma aborts_app_l tr tr' res :
  never is_copy tr → never is_removal tr →
  aborts_before_deletion tr' res → aborts_before_deletion (tr ++ tr') res.
Proof.
  intros Hc Hr. induction tr as [| e tr IH]; psimpl; [done |].
  apply never_cons_inv in Hc as [? ?]. apply never_cons_inv in Hr as [? ?].
  intros H'. apply aborts_cons; auto.
Qed.

Lemma moveState_copy_failure opts sources T :
  wp (moveState opts sources T) aborts_before_deletion.
Proof.
  unfold moveState. case_decide; [| apply moveDirectories_copy_failure].
  unfold orReturn. apply wp_bind.
  eapply wp_mono;
    [| apply wp_and; [apply (CopyState_never is_copy) | apply (CopyState_never is_removal)]].
  2,3: by intros [[] r].
  psimpl. intros tr [e |] [Hc Hr]; psimpl.
  { rewrite app_nil_r. by apply aborts_neutral. }
  destruct (MoveStateOnly opts); psimpl.
  { rewrite app_nil_r. by apply aborts_neutral. }
  eapply wp_mono; [| apply moveDirectories_copy_failure].
  intros tr' res'. psimpl. by apply aborts_app_l.
Qed.

Lemma updateProject_copy_failure opts :
  wp (updateProject opts) aborts_before_deletion.
Proof.
  unfold updateProject, orReturnV. psimpl.
  intros [e | sources]; psimpl.
  { apply aborts_neutral. auto with trace. }
  apply wp_bind.
  eapply wp_mono;
    [| apply wp_and; [apply (selectTargetDatabase_never is_copy) | apply (selectTargetDatabase_never is_removal)]];
    [| done ..].
  psimpl. intros tr [e | T] [Hc Hr]; psimpl.
  { rewrite app_nil_r. apply aborts_neutral. auto with trace. }
  eapply wp_mono; [| apply moveState_copy_failure].
  intros tr' res' H. psimpl. apply aborts_cons; [done .. |]. by apply aborts_app_l.
Qed.

Lemma UpdateProjectV3_copy_failure opts :
  wp (UpdateProjectV3 opts) aborts_before_deletion.
Proof.
  unfold UpdateProjectV3, orReturnV.
  destruct (_ && _); psimpl; [apply aborts_neutral; auto with trace |].
  destruct (negb (HasMetadataV3 _)); psimpl; [apply aborts_neutral; auto with trace |].
  intros [e | isConsistent]; psimpl; [apply aborts_neutral; auto with trace |].
  destruct (negb isConsistent); psimpl; [apply aborts_neutral; auto with trace |].
  destruct (negb (Force opts)); psimpl.
  - intros [e | response]; psimpl; [apply aborts_neutral; auto with trace |].
    case_decide; psimpl; [apply aborts_neutral; auto with trace |].
    eapply wp_mono; [| apply updateProject_copy_failure].
    intros tr res Htr. psimpl. by do 2 (apply aborts_cons; [done .. |]).
  - eapply wp_mono; [| apply updateProject_copy_failure].
    intros tr res Htr. psimpl. by apply aborts_cons.
Qed.

(** C1: in every run of [UpdateProjectV3], whatever the collaborators
    answer, when a copy of a migration or of a seed file fails the run
    returns an error and makes no call to [RemoveAll]: nothing is deleted
    after a failed copy. *)
Theorem copy_failure_aborts_before_deletion :
  ∀ (W : Type) (h : Handler W) (w : W) (opts : UpdateProjectV3Opts)
    (res : option error) (tr : list Event) (w' : W),
    run h (UpdateProjectV3 opts) w = (res, tr, w') →
    sometime copy_failed tr →
    is_Some res ∧ never is_removal tr.
Proof.
  intros W h w opts res tr w' Hrun Hfail.
  destruct (wp_run h _ _ (UpdateProjectV3_copy_failure opts) _ _ _ _ Hrun) as [H | H].
  - destruct (never_sometime _ _ H Hfail).
  - done.
Qed.

Lemma copy_failure_aborts_before_deletion_witness :
  is_Some (run mem_handler (UpdateProjectV3 demo_opts) demo_copy_fault_world).1.1
  ∧ never is_removal (run mem_handler (UpdateProjectV3 demo_opts) demo_copy_fault_world).1.2.
Proof.
  apply (copy_failure_aborts_before_deletion World mem_handler demo_copy_fault_world
           demo_opts _ _
           (run mem_handler (UpdateProjectV3 demo_opts) demo_copy_fault_world).2).
  - by destruct (run mem_handler (UpdateProjectV3 demo_opts) demo_copy_fault_world)
      as [[? ?] ?].
  - unfold sometime. apply (bool_decide_unpack _). vm_compute. reflexivity.
Defined.

(* ===================================================================== *)
(** ** Moving the state only *)
(* ===================================================================== *)







(* ===================================================================== *)
(** ** No connected source *)
(* ===================================================================== *)

Lemma moveListed_writes opts T migs seeds :
  wp (moveListed opts T migs seeds) (λ tr res, res = None → sometime wrote_V3 tr).
Proof.
  unfold moveListed, orReturn. psimpl. intros r1 r2.
  apply wp_bind. eapply wp_mono; [| apply (copyMigrations_never (λ _, false)); done].
  psimpl. intros trM [e |] _; psimpl; [done |].
  apply wp_bind. eapply wp_mono; [| apply (copyFiles_never (λ _, false)); done].
  psimpl. intros trS [e |] _; psimpl; [done |].
  intros [e |]; psimpl; [done |].
  intros [].
  eapply wp_mono; [| apply wp_true].
  intros tr res _ _. do 2 apply sometime_later.
  do 2 apply sometime_app_r. by apply sometime_here.
Qed.

Lemma moveDirectories_proceeds opts T :
  wp (moveDirectories opts T) (proceeds_without_state opts).
Proof.
  unfold moveDirectories, orReturn. apply wp_bind.
  unfold reorganizeDirectories, orReturnV. psimpl.
  assert (∀ (r : Resp (Fs_ReadDir (MigrationsAbsDirectoryPath opts))) tr,
    sometime (lists (MigrationsAbsDirectoryPath opts))
      (Ev (Fs_ReadDir (MigrationsAbsDirectoryPath opts)) r :: tr)) as Hl.
  { intros. apply sometime_here. unfold lists. by apply bool_decide_eq_true_2. }
  intros [e | dirs]; psimpl.
  { split; [auto with trace |]. split; [apply Hl | done]. }
  destruct (matching_loop _ _ _) as [e | migs]; psimpl.
  { split; [auto with trace |]. split; [apply Hl | done]. }
  intros [e | sdirs]; psimpl.
  { split; [auto with trace |]. split; [apply Hl | done]. }
  eapply wp_mono;
    [| apply wp_and; [apply (moveListed_never is_state_call) | apply moveListed_writes]].
  2: by intros [[] r].
  psimpl. intros tr [e |] [Hn Hw]; psimpl.
  { rewrite app_nil_r. split; [auto with trace |]. split; [apply Hl | done]. }
  eapply wp_mono; [| apply (exportServerMetadata_never is_state_call); done].
  psimpl. intros tr' res' Hn'.
  split; [auto with trace |]. split; [apply Hl |].
  intros _. do 2 apply sometime_later. apply sometime_app_l. by apply Hw.
Qed.

Lemma string_length_zero (s : string) : String.length s = 0 ↔ s = "".
Proof. by destruct s. Qed.

Lemma updateProject_no_source opts :
  TargetDatabase opts ≠ "" →
  wp (updateProject opts)
    (λ tr res, never reports_no_source tr ∨ proceeds_without_state opts tr res).
Proof.
  intros HT. unfold updateProject, orReturnV. psimpl.
  intros [e | sources]; psimpl; [left; auto with trace |].
  unfold selectTargetDatabase. case_decide as Hlen.
  { by apply string_length_zero in Hlen. }
  psimpl. destruct sources as [| s l].
  - unfold moveState. case_decide as Hle; [simpl in Hle; lia |].
    eapply wp_mono; [| apply moveDirectories_proceeds].
    intros tr res (H1 & H2 & H3). right.
    split; [auto with trace |]. split; [by apply sometime_later |].
    intros Hres. apply sometime_later. auto.
  - eapply wp_mono; [| apply (moveState_never reports_no_source)].
    + intros tr res Htr. left. auto with trace.
    + by intros [[] r].
    + by intros [[] r].
Qed.

Lemma no_source_cons opts e tr res :
  is_state_call e = false → reports_no_source e = false →
  never reports_no_source tr ∨ proceeds_without_state opts tr res →
  never reports_no_source (e :: tr) ∨ proceeds_without_state opts (e :: tr) res.
Proof.
  intros Hs Hr [H | (H1 & H2 & H3)]; [left; auto with trace | right].
  split; [auto with trace |]. split; [by apply sometime_later |].
  intros Hres. apply sometime_later. auto.
Qed.

Lemma UpdateProjectV3_no_source opts :
  TargetDatabase opts ≠ "" →
  wp (UpdateProjectV3 opts)
    (λ tr res, never reports_no_source tr ∨ proceeds_without_state opts tr res).
Proof.
  intros HT. unfold UpdateProjectV3, orReturnV.
  destruct (_ && _); psimpl; [left; auto with trace |].
  destruct (negb (HasMetadataV3 _)); psimpl; [left; auto with trace |].
  intros [e | isConsistent]; psimpl; [left; auto with trace |].
  destruct (negb isConsistent); psimpl; [left; auto with trace |].
  destruct (negb (Force opts)); psimpl.
  - intros [e | response]; psimpl; [left; auto with trace |].
    case_decide; psimpl; [left; auto with trace |].
    eapply wp_mono; [| by apply updateProject_no_source].
    intros tr res Htr. psimpl. by do 2 (apply no_source_cons; [done .. |]).
  - eapply wp_mono; [| by apply updateProject_no_source].
    intros tr res Htr. psimpl. by apply no_source_cons.
Qed.

(** With a target database given by the flag, when the server reports no
    connected source the run makes no call to the state stores and goes on
    to list the migrations directory. *)
Lemma no_source_proceeds :
  ∀ (W : Type) (h : Handler W) (w : W) (opts : UpdateProjectV3Opts)
    (res : option error) (tr : list Event) (w' : W),
    TargetDatabase opts ≠ "" →
    run h (UpdateProjectV3 opts) w = (res, tr, w') →
    sometime reports_no_source tr →
    never is_state_call tr
    ∧ sometime (lists (MigrationsAbsDirectoryPath opts)) tr
    ∧ (res = None → sometime wrote_V3 tr).
Proof.
  intros W h w opts res tr w' HT Hrun Hrep.
  destruct (wp_run h _ _ (UpdateProjectV3_no_source opts HT) _ _ _ _ Hrun) as [H | H].
  - destruct (never_sometime _ _ H Hrep).
  - done.
Qed.

(* ===================================================================== *)
(** ** The choice of the target database *)
(* ===================================================================== *)

Lemma count_never P tr : never P tr → count P tr = 0.
Proof.
  induction tr as [| e tr IH]; simpl; [done |].
  intros [He Htr]%never_cons_inv. rewrite He. auto.
Qed.

Lemma selectTargetDatabase_cases sources :
  selectTargetDatabase "" sources = select_by_cases sources.
Proof.
  unfold selectTargetDatabase, select_by_cases. simpl.
  destruct sources as [| s [| s' l]]; simpl; [done | |];
    repeat case_decide; simpl in *; try done;
    try (destruct_and?; simplify_eq; done); try lia.
  all: exfalso; naive_solver.
Qed.

Lemma moveState_prepares opts s l T :
  wp (moveState opts (s :: l) T) (λ tr _, sometime (prepares T) tr).
Proof.
  unfold moveState. rewrite decide_True by (simpl; lia).
  unfold CopyState, orReturn. psimpl. intros r.
  eapply wp_mono; [| apply wp_true].
  intros tr res _. apply sometime_here. unfold prepares. by apply bool_decide_eq_true_2.
Qed.

Lemma selection_facts_cons sources e tr res :
  is_select_prompt e = false →
  selection_facts sources tr res → selection_facts sources (e :: tr) res.
Proof.
  intros He. unfold selection_facts.
  destruct sources as [| s l]; [| case_decide]; simpl; rewrite He;
    intros [? ?]; split; try done; by apply sometime_later.
Qed.

Lemma selects_cons e tr res :
  is_select_prompt e = false → is_GetSources e = false →
  selects tr res → selects (e :: tr) res.
Proof.
  intros Hs Hg H sources Hrep. apply selection_facts_cons; [done |].
  apply H. apply Exists_cons in Hrep as [Hrep | Hrep]; [| done].
  unfold reports, reported_sources in Hrep. destruct e as [[] r]; done.
Qed.

Lemma selects_never tr res : never is_GetSources tr → selects tr res.
Proof.
  intros Hn sources Hrep. exfalso. eapply never_sometime; [| apply Hrep].
  eapply never_weaken; [| apply Hn].
  intros [[] r]; unfold reports; done.
Qed.

Lemma never_reports sources tr : never is_GetSources tr → never (reports sources) tr.
Proof.
  apply never_weaken. intros [[] r]; unfold reports; done.
Qed.

Lemma updateProject_selects opts :
  TargetDatabase opts = "" → wp (updateProject opts) selects.
Proof.
  intros HT. unfold updateProject, orReturnV. rewrite HT. psimpl.
  intros [e | sources]; psimpl.
  { intros sources Hrep. exfalso. eapply never_sometime; [| apply Hrep].
    auto with trace. }
  rewrite selectTargetDatabase_cases.
  assert (∀ rest res,
    never is_GetSources rest → selection_facts sources rest res →
    selects (Ev GetSources (inr sources) :: rest) res) as Hhead.
  { intros rest res Hn Hf sources' Hrep.
    apply Exists_cons in Hrep as [Hrep | Hrep].
    - unfold reports in Hrep. apply bool_decide_eq_true_1 in Hrep.
      simpl in Hrep. injection Hrep as <-. by apply selection_facts_cons.
    - exfalso. eapply never_sometime; [| apply Hrep]. by apply never_reports. }
  unfold select_by_cases. destruct sources as [| s l]; psimpl.
  { apply Hhead; [auto with trace | done]. }
  unfold selection_facts. case_decide as Hd; psimpl.
  - eapply wp_mono;
      [| apply wp_and;
         [apply wp_and; [apply (moveState_never is_GetSources)
                        | apply (moveState_never is_select_prompt)]
         | rewrite Hd; apply moveState_prepares]].
    2-5: by intros [[] r].
    intros tr res [[H1 H2] H3]. apply Hhead; [done |].
    unfold selection_facts. rewrite Hd. rewrite decide_True by done.
    split; [by apply count_never | done].
  - intros [e | T]; psimpl.
    + apply Hhead; [auto with trace |].
      unfold selection_facts. rewrite decide_False by done. simpl.
      split; [done |]. apply sometime_here. simpl. by apply bool_decide_eq_true_2.
    + eapply wp_mono;
        [| apply wp_and; [apply (moveState_never is_GetSources)
                         | apply (moveState_never is_select_prompt)]].
      2-5: by intros [[] r].
      intros tr res [H1 H2]. apply Hhead; [auto with trace |].
      unfold selection_facts. rewrite decide_False by done. simpl.
      split; [by rewrite count_never |].
      apply sometime_here. simpl. by apply bool_decide_eq_true_2.
Qed.

Lemma UpdateProjectV3_selects opts :
  TargetDatabase opts = "" → wp (UpdateProjectV3 opts) selects.
Proof.
  intros HT. unfold UpdateProjectV3, orReturnV.
  destruct (_ && _); psimpl; [apply selects_never; auto with trace |].
  destruct (negb (HasMetadataV3 _)); psimpl; [apply selects_never; auto with trace |].
  intros [e | isConsistent]; psimpl; [apply selects_never; auto with trace |].
  destruct (negb isConsistent); psimpl; [apply selects_never; auto with trace |].
  destruct (negb (Force opts)); psimpl.
  - intros [e | response]; psimpl; [apply selects_never; auto with trace |].
    case_decide; psimpl; [apply selects_never; auto with trace |].
    eapply wp_mono; [| by apply updateProject_selects].
    intros tr res Htr. psimpl. by do 2 (apply selects_cons; [done .. |]).
  - eapply wp_mono; [| by apply updateProject_selects].
    intros tr res Htr. psimpl. by apply selects_cons.
Qed.

Lemma CheckIfUpdateToConfigV3IsRequired_cases ec :
  Version (EC_Config ec) = V2 → HasMetadataV3 ec = true →
  wp (CheckIfUpdateToConfigV3IsRequired ec)
    (λ tr res, ∃ r, tr = [Ev GetSources r] ∧ res = upgrade_check_result r).
Proof.
  intros HV HM. unfold CheckIfUpdateToConfigV3IsRequired, orReturnV.
  rewrite HV, HM. simpl.
  intros [e | sources]; simpl; [by eexists |].
  destruct sources as [| s [| s' l]]; simpl; repeat case_decide; simpl in *;
    try lia; try done.
  all: eexists; split; [done |]; simpl.
  all: repeat case_decide; simplify_eq; done.
Qed.

(** C6: in every run of [UpdateProjectV3] without a target database given
    by the flag, whatever the collaborators answer, the choice made from
    the sources the server reports is the one of the three cases: no
    source, the run returns the no-sources error and asks nothing; the one
    source called default, the state copy is started for it and the select
    prompt is never asked; any other list of sources, the select prompt is
    asked exactly once, with those sources as options. *)
Theorem target_database_selection :
  ∀ (W : Type) (h : Handler W) (w : W) (opts : UpdateProjectV3Opts)
    (res : option error) (tr : list Event) (w' : W) (sources : list string),
    TargetDatabase opts = "" →
    run h (UpdateProjectV3 opts) w = (res, tr, w') →
    sometime (reports sources) tr →
    selectTargetDatabase (TargetDatabase opts) sources = select_by_cases sources
    ∧ selection_facts sources tr res.
Proof.
  intros W h w opts res tr w' sources HT Hrun Hrep. split.
  - rewrite HT. apply selectTargetDatabase_cases.
  - by apply (wp_run h _ _ (UpdateProjectV3_selects opts HT) _ _ _ _ Hrun).
Qed.

Lemma target_database_selection_witness :
  selectTargetDatabase "" ["default"; "other"] = select_by_cases ["default"; "other"]
  ∧ selection_facts ["default"; "other"]
      (run mem_handler (UpdateProjectV3 demo_opts) demo_two_sources_world).1.2
      (run mem_handler (UpdateProjectV3 demo_opts) demo_two_sources_world).1.1.
Proof.
  apply (target_database_selection World mem_handler demo_two_sources_world demo_opts
           (run mem_handler (UpdateProjectV3 demo_opts) demo_two_sources_world).1.1
           (run mem_handler (UpdateProjectV3 demo_opts) demo_two_sources_world).1.2
           (run mem_handler (UpdateProjectV3 demo_opts) demo_two_sources_world).2).
  - reflexivity.
  - by destruct (run mem_handler (UpdateProjectV3 demo_opts) demo_two_sources_world)
      as [[? ?] ?].
  - unfold sometime. apply (bool_decide_unpack _). vm_compute. reflexivity.
Defined.

(* ===================================================================== *)
(** ** An entry that [Stat] does not find *)
(* ===================================================================== *)

Lemma copyMigrations_skips src dirs parent target :
  wp (copyMigrations dirs parent target)
    (λ tr res,
       (never (stat_found src) tr → never (copy_from src) tr)
       ∧ (is_Some res → sometime copy_failed tr)).
Proof.
  induction dirs as [| d rest IH]; simpl.
  - split; [auto with trace | intros [? ?]; discriminate].
  - intros [[f |] err]; simpl.
    + assert (∀ (e1 e2 : Event) tr,
        stat_found src e1 = copy_from src e2 → copy_from src e1 = false →
        (never (stat_found src) tr → never (copy_from src) tr) →
        never (stat_found src) (e1 :: e2 :: tr) → never (copy_from src) (e1 :: e2 :: tr))
        as Hstep.
      { intros e1 e2 tr He H1 Htr [Hs [_ Hn]%never_cons_inv]%never_cons_inv.
        rewrite He in Hs. auto with trace. }
      destruct (IsDir f); simpl; intros [e |]; simpl.
      * split; [| intros _; apply sometime_later; by apply sometime_here].
        apply Hstep; [| done | auto with trace]. unfold stat_found, copy_from. simpl.
        by rewrite andb_true_r.
      * eapply wp_mono; [| apply IH]. simpl. intros tr res [H1 H2]. split.
        -- apply Hstep; [| done | done]. unfold stat_found, copy_from. simpl.
           by rewrite andb_true_r.
        -- intros Hres. do 2 apply sometime_later. auto.
      * split; [| intros _; apply sometime_later; by apply sometime_here].
        apply Hstep; [| done | auto with trace]. unfold stat_found, copy_from. simpl.
        by rewrite andb_true_r.
      * eapply wp_mono; [| apply IH]. simpl. intros tr res [H1 H2]. split.
        -- apply Hstep; [| done | done]. unfold stat_found, copy_from. simpl.
           by rewrite andb_true_r.
        -- intros Hres. do 2 apply sometime_later. auto.
    + eapply wp_mono; [| apply IH]. simpl. intros tr res [H1 H2]. split.
      * intros [_ Hn]%never_cons_inv. auto with trace.
      * intros Hres. apply sometime_later. auto.
Qed.

Lemma removeDirectories_removes parent dirs :
  wp (removeDirectories parent dirs)
    (λ tr res, res = None →
       ∀ d, d ∈ dirs → sometime (removal_done (filepath_Join parent d)) tr).
Proof.
  induction dirs as [| d0 rest IH]; simpl.
  - intros _ d Hd. by apply elem_of_nil in Hd.
  - intros [e |]; simpl; [done |].
    eapply wp_mono; [| apply IH]. simpl. intros tr res Htr Hres d Hd.
    apply elem_of_cons in Hd as [-> | Hd].
    + apply sometime_here. unfold removal_done. simpl.
      by rewrite bool_decide_eq_true_2.
    + apply sometime_later. auto.
Qed.

(** The part of [moveListed] after the copy of the migrations. *)
Lemma moveListed_run {W : Type} (h : Handler W) (w : W) opts T migs seeds res tr w' :
  run h (moveListed opts T migs seeds) w = (res, tr, w') →
  ∃ r1 r2 w1 w2 resM trM rest,
    tr = Ev (Fs_Mkdir (filepath_Join (MigrationsAbsDirectoryPath opts) T)) r1
         :: Ev (Fs_Mkdir (filepath_Join (SeedsAbsDirectoryPath opts) T)) r2
         :: trM ++ rest
    ∧ run h (copyMigrations migs (MigrationsAbsDirectoryPath opts)
               (filepath_Join (MigrationsAbsDirectoryPath opts) T)) w1
      = (resM, trM, w2)
    ∧ (res = None → resM = None ∧
         ∀ d, d ∈ migs →
           sometime (removal_done (filepath_Join (MigrationsAbsDirectoryPath opts) d)) rest).
Proof.
  unfold moveListed. simpl.
  destruct (h (Fs_Mkdir _) w) as [r1 w1] eqn:H1.
  destruct (h (Fs_Mkdir _) w1) as [r2 w2] eqn:H2.
  unfold orReturn at 1. rewrite run_bind.
  destruct (run h (copyMigrations _ _ _) w2) as [[resM trM] w3] eqn:HM.
  match goal with
  | |- context [run h ?k w3] => destruct (run h k w3) as [[res' rest] w4] eqn:Hk
  end.
  intros [= <- <- <-].
  exists r1, r2, w2, w3, resM, trM, rest. split; [done |]. split; [done |].
  intros ->. destruct resM as [e |]; [simpl in Hk; by inversion Hk |].
  split; [done |]. revert Hk.
  match goal with
  | |- run h ?k w3 = _ → _ => 
      assert (wp k (λ tr res, res = None → ∀ d, d ∈ migs →
        sometime (removal_done (filepath_Join (MigrationsAbsDirectoryPath opts) d)) tr))
        as Hwp
  end.
  { unfold orReturn. apply wp_bind.
    eapply wp_mono; [| apply wp_true]. intros trS [e |] _; simpl; [done |].
    intros [e |]; simpl; [done |]. intros [].
    apply wp_bind. eapply wp_mono; [| apply removeDirectories_removes].
    intros tr1 [e |] Hrem; simpl; [done |].
    eapply wp_mono; [| apply wp_true]. intros tr2 res2 _ Hres2 d Hd.
    apply sometime_app_r. do 2 apply sometime_later. apply sometime_app_l. auto. }
  intros Hk. by apply (wp_run h _ _ Hwp _ _ _ _ Hk).
Qed.

(** C9: in every run of the part of [UpdateProjectV3] that follows the
    listing, whatever the collaborators answer, the migrations are copied
    by a run of [copyMigrations] in which an entry whose [Stat] never finds
    it is copied from nowhere, and which returns an error only when a copy
    has failed, never for a failed [Stat]; and when the whole part returns
    nil, the entry has been removed all the same by a [RemoveAll] that
    succeeded after the copies. *)
Theorem stat_failure_skips_copy_and_entry_is_removed :
  ∀ (W : Type) (h : Handler W) (w : W) (opts : UpdateProjectV3Opts)
    (T : string) (migs seeds : list string) (d : string)
    (res : option error) (tr : list Event) (w' : W),
    run h (moveListed opts T migs seeds) w = (res, tr, w') →
    d ∈ migs →
    let src := filepath_Join (MigrationsAbsDirectoryPath opts) d in
    ∃ r1 r2 w1 w2 resM trM rest,
      tr = Ev (Fs_Mkdir (filepath_Join (MigrationsAbsDirectoryPath opts) T)) r1
           :: Ev (Fs_Mkdir (filepath_Join (SeedsAbsDirectoryPath opts) T)) r2
           :: trM ++ rest
      ∧ run h (copyMigrations migs (MigrationsAbsDirectoryPath opts)
                 (filepath_Join (MigrationsAbsDirectoryPath opts) T)) w1
        = (resM, trM, w2)
      ∧ (never (stat_found src) trM → never (copy_from src) trM)
      ∧ (is_Some resM → sometime copy_failed trM)
      ∧ (res = None → resM = None ∧ sometime (removal_done src) rest).
Proof.
  intros W h w opts T migs seeds d res tr w' Hrun Hd src.
  destruct (moveListed_run h w opts T migs seeds res tr w' Hrun)
    as (r1 & r2 & w1 & w2 & resM & trM & rest & Htr & HM & Hrest).
  exists r1, r2, w1, w2, resM, trM, rest. split; [done |]. split; [done |].
  destruct (wp_run h _ _ (copyMigrations_skips src migs _ _) _ _ _ _ HM) as [Hskip Herr].
  split; [done |]. split; [done |].
  intros Hres. destruct (Hrest Hres) as [? Hrem]. split; [done |]. by apply Hrem.
Qed.

Lemma stat_failure_skips_copy_and_entry_is_removed_witness :
  let src := ["p"; "migrations"; "1610000000000_init"] in
  ∃ r1 r2 w1 w2 resM trM rest,
    demo_stat_fault_run.1.2
      = Ev (Fs_Mkdir ["p"; "migrations"; "default"]) r1
        :: Ev (Fs_Mkdir ["p"; "seeds"; "default"]) r2 :: trM ++ rest
    ∧ run mem_handler
        (copyMigrations demo_migrations ["p"; "migrations"] ["p"; "migrations"; "default"]) w1
      = (resM, trM, w2)
    ∧ (never (stat_found src) trM → never (copy_from src) trM)
    ∧ (is_Some resM → sometime copy_failed trM)
    ∧ (demo_stat_fault_run.1.1 = None → resM = None ∧ sometime (removal_done src) rest).
Proof.
  apply (stat_failure_skips_copy_and_entry_is_removed World mem_handler
           demo_stat_fault_world demo_opts "default" demo_migrations ["seed1.sql"]
           "1610000000000_init" demo_stat_fault_run.1.1 demo_stat_fault_run.1.2 demo_stat_fault_run.2).
  - unfold demo_stat_fault_run. by destruct (run _ _ _) as [[? ?] ?].
  - apply (bool_decide_unpack _). vm_compute. reflexivity.
Defined.

(* ===================================================================== *)
(** ** When the config file is written *)
(* ===================================================================== *)

Lemma write_guarded_never ns tr : never is_WriteConfig tr → write_guarded ns tr.
Proof.
  revert ns. induction tr as [| e tr IH]; simpl; intros ns; [done |].
  intros [He Htr]%never_cons_inv. rewrite He.
  destruct (good_before_write e); auto.
Qed.

Lemma write_guarded_app ns pre rest :
  Forall (λ e, neutral e = true) pre →
  write_guarded ns rest → write_guarded ns (pre ++ rest).
Proof.
  induction pre as [| e pre IH]; simpl; [done |].
  intros [He Hpre]%Forall_cons Hrest. unfold neutral in He.
  repeat (apply andb_true_iff in He as [He ?]).
  apply negb_true_iff in He. rewrite He.
  destruct (good_before_write e); [| done].
  destruct (is_latch_set e); [done |].
  destruct (reports_connected e); [done |].
  rewrite orb_false_r. auto.
Qed.

Lemma write_guarded_app_r ns tr tr' :
  write_guarded ns tr → never is_WriteConfig tr' → write_guarded ns (tr ++ tr').
Proof.
  revert ns. induction tr as [| e tr IH]; simpl; intros ns H H'.
  - by apply write_guarded_never.
  - destruct (is_WriteConfig e).
    + destruct H as (? & ? & ?). auto with trace.
    + destruct (good_before_write e); auto with trace.
Qed.

Lemma write_guarded_split pre ns e post :
  write_guarded ns (pre ++ e :: post) → is_WriteConfig e = true →
  written_version e = Some V3
  ∧ never is_WriteConfig pre ∧ never is_WriteConfig post
  ∧ Forall (λ e', failed e' = true → tolerated e' = true) pre
  ∧ never is_removal pre
  ∧ (ns = true ∨ sometime reports_connected pre → sometime is_latch_set pre).
Proof.
  revert ns. induction pre as [| e0 pre IH]; simpl; intros ns H He.
  - rewrite He in H. destruct H as (-> & ? & ?).
    repeat split; auto with trace.
    intros [? | Hs]; [done |]. by apply Exists_nil in Hs.
  - assert (¬ never is_WriteConfig (pre ++ e :: post)) as Hno.
    { intros [_ [Hn _]%never_cons_inv]%never_app_inv. congruence. }
    destruct (is_WriteConfig e0) eqn:Hw; [by destruct H as (_ & _ & ?) |].
    destruct (good_before_write e0) eqn:Hg; [| done].
    destruct (IH _ H He) as (H1 & H2 & H3 & H4 & H5 & H6).
    unfold good_before_write in Hg. apply andb_true_iff in Hg as [Hg1 Hg2].
    apply negb_true_iff in Hg1. apply orb_true_iff in Hg2.
    repeat split; auto with trace.
    + constructor; [| done]. intros Hf. destruct Hg2 as [? | Hg2]; [done |].
      rewrite Hf in Hg2. done.
    + intros Hpre. destruct (is_latch_set e0) eqn:Hl; [by apply sometime_here |].
      apply sometime_later, H6.
      destruct Hpre as [-> | [Hr | Hr]%Exists_cons]; [by left | | by right].
      left. rewrite Hr. by destruct ns.
Qed.

Lemma copyMigrations_neutral dirs parent target :
  wp (copyMigrations dirs parent target)
    (λ tr res, res = None → Forall (λ e, neutral e = true) tr).
Proof.
  induction dirs as [| d rest IH]; simpl.
  - by constructor.
  - intros [[f |] err]; simpl.
    + destruct (IsDir f); simpl; intros [e |]; simpl; try done;
        (eapply wp_mono; [| apply IH]); simpl; intros tr a H Ha;
        by repeat constructor; auto.
    + eapply wp_mono; [| apply IH]. simpl. intros tr a H Ha.
      by repeat constructor; auto.
Qed.

Lemma copyFiles_neutral files parent target :
  wp (copyFiles files parent target)
    (λ tr res, res = None → Forall (λ e, neutral e = true) tr).
Proof.
  induction files as [| d rest IH]; simpl.
  - by constructor.
  - intros [e |]; simpl; [done |].
    eapply wp_mono; [| apply IH]. simpl. intros tr a H Ha.
    by repeat constructor; auto.
Qed.

Lemma moveListed_write_guarded opts T migs seeds :
  wp (moveListed opts T migs seeds) (λ tr _, write_guarded false tr).
Proof.
  unfold moveListed, orReturn. psimpl. intros r1 r2.
  apply wp_bind.
  eapply wp_mono;
    [| apply wp_and; [apply copyMigrations_neutral
                     | apply (copyMigrations_never is_WriteConfig); done]].
  psimpl. intros trM [e |] [HM HMn]; psimpl.
  { rewrite app_nil_r. by apply write_guarded_never. }
  specialize (HM eq_refl). apply wp_bind.
  eapply wp_mono;
    [| apply wp_and; [apply copyFiles_neutral
                     | apply (copyFiles_never is_WriteConfig); done]].
  psimpl. intros trS [e |] [HS HSn]; psimpl.
  { apply write_guarded_never. rewrite app_nil_r. auto with trace. }
  specialize (HS eq_refl).
  assert (∀ r rest, never is_WriteConfig rest →
    write_guarded false
      (trM ++ trS ++
       Ev (WriteConfig {| Version := V3; OtherFields := OtherFields (EC_Config (EC opts)) |}) r
       :: rest)) as Hw.
  { intros r rest Hn. do 2 (apply write_guarded_app; [done |]). simpl. auto. }
  intros [e |]; psimpl.
  { apply Hw. auto with trace. }
  intros [].
  apply wp_bind. eapply wp_mono; [| apply (removeDirectories_never is_WriteConfig); done].
  psimpl. intros tr1 [e |] H1; psimpl.
  { apply Hw. rewrite app_nil_r. auto with trace. }
  apply wp_bind. eapply wp_mono; [| apply (removeDirectories_never is_WriteConfig); done].
  psimpl. intros tr2 [e |] H2; psimpl.
  { apply Hw. rewrite app_nil_r. auto 10 with trace. }
  intros [e |]; psimpl.
  { apply Hw. auto 10 with trace. }
  intros [e |]; psimpl; apply Hw; auto 10 with trace.
Qed.

Lemma moveDirectories_write_guarded opts T :
  wp (moveDirectories opts T) (λ tr _, write_guarded false tr).
Proof.
  unfold moveDirectories, orReturn. apply wp_bind.
  unfold reorganizeDirectories, orReturnV. psimpl.
  intros [e | dirs]; psimpl; [auto with trace |].
  destruct (matching_loop _ _ _) as [e | migs]; psimpl; [auto with trace |].
  intros [e | sdirs]; psimpl; [auto with trace |].
  eapply wp_mono; [| apply moveListed_write_guarded].
  psimpl. intros tr [e |] Htr; psimpl.
  { by rewrite app_nil_r. }
  eapply wp_mono; [| apply (exportServerMetadata_never is_WriteConfig); done].
  psimpl. intros tr' res' Hn'. by apply write_guarded_app_r.
Qed.

Lemma moveState_write_guarded opts sources T :
  wp (moveState opts sources T)
    (λ tr _, write_guarded (match sources with [] => false | _ => true end) tr).
Proof.
  unfold moveState. case_decide as Hlen.
  - unfold CopyState, orReturn, orReturnV. psimpl.
    do 6 (intros [e |]; psimpl; [auto with trace |]).
    intros [e | st]; psimpl; [auto with trace |].
    intros [e |]; psimpl; [auto with trace |].
    destruct (MoveStateOnly opts); psimpl; [auto with trace |].
    apply moveDirectories_write_guarded.
  - destruct sources; [| simpl in Hlen; lia].
    apply moveDirectories_write_guarded.
Qed.

Lemma updateProject_write_guarded opts :
  wp (updateProject opts) (λ tr _, write_guarded false tr).
Proof.
  unfold updateProject, orReturnV, selectTargetDatabase. psimpl.
  intros [e | sources]; psimpl; [auto with trace |].
  repeat case_decide; psimpl; try (intros [e | T]; psimpl); auto with trace.
  all: eapply wp_mono; [| apply moveState_write_guarded].
  all: intros tr res Htr; destruct sources; exact Htr.
Qed.

Lemma UpdateProjectV3_write_guarded opts :
  wp (UpdateProjectV3 opts) (λ tr _, write_guarded false tr).
Proof.
  unfold UpdateProjectV3, orReturnV.
  destruct (_ && _); psimpl; [done |].
  destruct (negb (HasMetadataV3 _)); psimpl; [done |].
  intros [e | isConsistent]; psimpl; [auto with trace |].
  destruct (negb isConsistent); psimpl; [done |].
  destruct (negb (Force opts)); psimpl.
  - intros [e | response]; psimpl; [auto with trace |].
    case_decide; psimpl; [done |].
    apply updateProject_write_guarded.
  - apply updateProject_write_guarded.
Qed.

(** The calls before and after the write of the config: the write is the
    only one and carries version 3, every call before it has succeeded but
    for [Mkdir] and [Stat], none is a removal, and a state copy that was
    due is finished. *)
Lemma write_guarded_at_the_write :
  ∀ (W : Type) (h : Handler W) (w : W) (opts : UpdateProjectV3Opts)
    (res : option error) (tr : list Event) (w' : W)
    (pre : list Event) (e : Event) (post : list Event),
    run h (UpdateProjectV3 opts) w = (res, tr, w') →
    tr = pre ++ e :: post →
    is_WriteConfig e = true →
    written_version e = Some V3
    ∧ never is_WriteConfig pre ∧ never is_WriteConfig post
    ∧ Forall (λ e', failed e' = true → tolerated e' = true) pre
    ∧ never is_removal pre
    ∧ (sometime reports_connected pre → sometime is_latch_set pre).
Proof.
  intros W h w opts res tr w' pre e post Hrun -> He.
  pose proof (wp_run h _ _ (UpdateProjectV3_write_guarded opts) _ _ _ _ Hrun) as Hg.
  destruct (write_guarded_split _ _ _ _ Hg He) as (H1 & H2 & H3 & H4 & H5 & H6).
  repeat split; auto.
Qed.

(** The counterexample to C3 as stated: with a fault on the removal of
    the first migration the run returns an error, the migration is still in
    place, and the config file has gone from version 2 to version 3. *)
Lemma config_version_written_before_removal_succeeds :
  let r := run mem_handler (UpdateProjectV3 demo_opts) demo_removal_fault_world in
  r.1.1 = Some (Wrap injected "removing up original migrations")
  ∧ Version (w_config_file demo_removal_fault_world) = V2
  ∧ Version (w_config_file r.2) = V3
  ∧ w_fs r.2 !! ["p"; "migrations"; "1610000000000_init"] = Some Dir.
Proof. vm_compute. repeat split; reflexivity. Qed.

(* ===================================================================== *)
(** ** The errors of the steps *)
(* ===================================================================== *)

Lemma aborts_clean res tr : never aborting tr → aborts_on_failure res tr.
Proof.
  induction tr as [| e tr IH]; simpl; [done |].
  intros [He Htr]%never_cons_inv. rewrite He. auto.
Qed.

Lemma aborts_app res pre rest :
  never aborting pre → aborts_on_failure res rest → aborts_on_failure res (pre ++ rest).
Proof.
  induction pre as [| e pre IH]; simpl; [done |].
  intros [He Hpre]%never_cons_inv Hrest. rewrite He. auto.
Qed.

Lemma reports_failure_app pre rest res :
  never aborting pre → reports_failure rest res → reports_failure (pre ++ rest) res.
Proof.
  intros Hpre. destruct res; simpl.
  - by apply aborts_app.
  - by apply never_app.
Qed.

Lemma reports_failure_cons e rest res :
  aborting e = false → reports_failure rest res → reports_failure (e :: rest) res.
Proof.
  intros He. apply (reports_failure_app [e]). auto with trace.
Qed.

Lemma aborts_split pre res e post :
  aborts_on_failure res (pre ++ e :: post) → aborting e = true →
  post = [] ∧ reported e res.
Proof.
  induction pre as [| e0 pre IH]; simpl; intros H He.
  - by rewrite He in H.
  - destruct (aborting e0); [| auto].
    destruct H as [H _]. by destruct pre.
Qed.

Lemma reports_failure_split pre res e post :
  reports_failure (pre ++ e :: post) res → aborting e = true →
  post = [] ∧ reported e res.
Proof.
  destruct res; simpl.
  - apply aborts_split.
  - intros [_ [He _]%never_cons_inv]%never_app_inv. congruence.
Qed.

Lemma removeDirectories_reports (wrap : error → error) parent dirs :
  (∀ p err, reported_as (Fs_RemoveAll p) err (wrap err)) →
  wp (removeDirectories parent dirs) (λ tr res, reports_failure tr (wrap <$> res)).
Proof.
  intros Hwrap. induction dirs as [| d rest IH]; simpl.
  - apply never_nil.
  - intros [e |]; simpl.
    + split; [done |]. exists e, (wrap e). split; [done |]. split; [done |]. apply Hwrap.
    + eapply wp_mono; [| apply IH]. simpl. intros tr res Htr.
      by apply reports_failure_cons.
Qed.

Lemma copyFiles_reports files parent target :
  wp (copyFiles files parent target)
    (λ tr res, reports_failure tr
       ((λ err, Wrap err "moving seeds to target database directory") <$> res)).
Proof.
  induction files as [| d rest IH]; simpl.
  - apply never_nil.
  - intros [e |]; simpl.
    + split; [done |]. eexists e, _. split; [done |]. split; [done |].
      exists d, target. by right.
    + eapply wp_mono; [| apply IH]. simpl. intros tr res Htr.
      by apply reports_failure_cons.
Qed.

Lemma copyMigrations_reports dirs parent target :
  wp (copyMigrations dirs parent target)
    (λ tr res, reports_failure tr
       ((λ err, Wrap err "moving migrations to target database directory") <$> res)).
Proof.
  induction dirs as [| d rest IH]; simpl.
  - apply never_nil.
  - intros [[f |] err]; simpl.
    + destruct (IsDir f); simpl; intros [e |]; simpl.
      1,3: split; [done |]; eexists e, _; split; [done |]; split; [done |];
           exists d, target; by left.
      all: eapply wp_mono; [| apply IH]; simpl; intros tr res Htr;
           by do 2 (apply reports_failure_cons; [done |]).
    + eapply wp_mono; [| apply IH]. simpl. intros tr res Htr.
      by apply reports_failure_cons.
Qed.

Ltac reported_here :=
  unfold reports_failure; simpl; split; [done |];
  eexists _, _; split; [done |]; split; [done |]; simpl; eauto.

Ltac clean_trace :=
  unfold reports_failure, never; simpl; repeat constructor.

Lemma moveListed_reports opts T migs seeds :
  wp (moveListed opts T migs seeds) reports_failure.
Proof.
  unfold moveListed, orReturn. psimpl. intros r1 r2.
  apply wp_bind. eapply wp_mono; [| apply copyMigrations_reports].
  psimpl. intros trM [e |] HM; psimpl.
  { rewrite app_nil_r. by do 2 (apply reports_failure_cons; [done |]). }
  apply wp_bind. eapply wp_mono; [| apply copyFiles_reports].
  psimpl. intros trS [e |] HS; psimpl.
  { rewrite app_nil_r. do 2 (apply reports_failure_cons; [done |]).
    by apply reports_failure_app. }
  assert (∀ rest res, reports_failure rest res →
    reports_failure
      (Ev (Fs_Mkdir (filepath_Join (MigrationsAbsDirectoryPath opts) T)) r1
       :: Ev (Fs_Mkdir (filepath_Join (SeedsAbsDirectoryPath opts) T)) r2
       :: trM ++ trS ++ rest) res) as Hpre.
  { intros rest res Hrest. do 2 (apply reports_failure_cons; [done |]).
    by do 2 (apply reports_failure_app; [done |]). }
  intros [e |]; psimpl.
  { apply Hpre. reported_here. }
  intros [].
  apply wp_bind.
  eapply wp_mono;
    [| apply (removeDirectories_reports (λ err, Wrap err "removing up original migrations"));
       intros; by left].
  psimpl. intros tr1 [e |] H1; psimpl.
  { rewrite app_nil_r. apply Hpre. by do 2 (apply reports_failure_cons; [done |]). }
  apply wp_bind.
  eapply wp_mono;
    [| apply (removeDirectories_reports (λ err, Wrap err "removing up original migrations"));
       intros; by left].
  psimpl. intros tr2 [e |] H2; psimpl.
  { rewrite app_nil_r. apply Hpre. do 2 (apply reports_failure_cons; [done |]).
    by apply reports_failure_app. }
  assert (∀ rest res, reports_failure rest res →
    reports_failure
      (Ev (Fs_Mkdir (filepath_Join (MigrationsAbsDirectoryPath opts) T)) r1
       :: Ev (Fs_Mkdir (filepath_Join (SeedsAbsDirectoryPath opts) T)) r2
       :: trM ++ trS ++
          Ev (WriteConfig {| Version := V3; OtherFields := OtherFields (EC_Config (EC opts)) |}) None
          :: Ev (AssignConfig {| Version := V3; OtherFields := OtherFields (EC_Config (EC opts)) |}) ()
          :: tr1 ++ tr2 ++ rest) res) as Hpre2.
  { intros rest res Hrest. apply Hpre. do 2 (apply reports_failure_cons; [done |]).
    by do 2 (apply reports_failure_app; [done |]). }
  intros [e |]; psimpl.
  { apply Hpre2. reported_here. }
  intros [e |]; psimpl.
  { apply Hpre2. apply reports_failure_cons; [done |]. reported_here. }
  apply Hpre2. clean_trace.
Qed.

Lemma reorganizeDirectories_reports opts T :
  wp (reorganizeDirectories opts T) reports_failure.
Proof.
  unfold reorganizeDirectories, orReturnV. psimpl.
  intros [e | dirs]; psimpl; [reported_here |].
  destruct (matching_loop _ _ _) as [e | migs] eqn:Hloop; psimpl.
  { exfalso. clear -Hloop. revert Hloop. generalize (@nil string).
    induction dirs as [| info rest IH]; simpl; intros acc; [done |].
    destruct (matches_migration_regex _); apply IH. }
  intros [e | sdirs]; psimpl.
  { apply reports_failure_cons; [done |]. reported_here. }
  eapply wp_mono; [| apply moveListed_reports].
  intros tr res Htr. by do 2 (apply reports_failure_cons; [done |]).
Qed.

Lemma moveDirectories_reports opts T :
  wp (moveDirectories opts T) reports_failure.
Proof.
  unfold moveDirectories, orReturn. apply wp_bind.
  eapply wp_mono; [| apply reorganizeDirectories_reports].
  intros tr [e |] Htr; psimpl.
  { by rewrite app_nil_r. }
  unfold exportServerMetadata, orReturn, orReturnV. psimpl.
  intros [e | files]; psimpl.
  { apply reports_failure_app; [done |]. reported_here. }
  intros [e |]; psimpl.
  { apply reports_failure_app; [done |]. apply reports_failure_cons; [done |].
    reported_here. }
  apply reports_failure_app; [done |]. clean_trace.
Qed.

Lemma moveState_reports opts sources T :
  wp (moveState opts sources T) reports_failure.
Proof.
  unfold moveState. case_decide as Hlen; [| apply moveDirectories_reports].
  unfold CopyState, orReturn, orReturnV. psimpl.
  intros [e |]; psimpl; [reported_here |].
  intros [e |]; psimpl; [reported_here |].
  intros [e |]; psimpl; [reported_here |].
  intros [e |]; psimpl; [reported_here |].
  intros [e |]; psimpl; [reported_here |].
  intros [e |]; psimpl; [reported_here |].
  intros [e | st]; psimpl; [reported_here |].
  intros [e |]; psimpl; [reported_here |].
  destruct (MoveStateOnly opts); psimpl; [clean_trace |].
  eapply wp_mono; [| apply moveDirectories_reports].
  intros tr res Htr. by do 8 (apply reports_failure_cons; [done |]).
Qed.

Lemma updateProject_reports opts :
  wp (updateProject opts) reports_failure.
Proof.
  unfold updateProject, orReturnV, selectTargetDatabase. psimpl.
  intros [e | sources]; psimpl; [reported_here |].
  repeat case_decide; psimpl; try (intros [e | T]; psimpl).
  all: try (eapply wp_mono; [| apply moveState_reports];
            intros tr res Htr; by repeat (apply reports_failure_cons; [done |])).
  - apply reports_failure_cons; [done |]. reported_here.
  - done.
Qed.

Lemma UpdateProjectV3_reports opts :
  wp (UpdateProjectV3 opts) reports_failure.
Proof.
  unfold UpdateProjectV3, orReturnV.
  destruct (_ && _); psimpl; [done |].
  destruct (negb (HasMetadataV3 _)); psimpl; [done |].
  intros [e | isConsistent]; psimpl; [reported_here |].
  destruct (negb isConsistent); psimpl; [done |].
  destruct (negb (Force opts)); psimpl.
  - intros [e | response]; psimpl.
    { apply reports_failure_cons; [done |]. reported_here. }
    case_decide; psimpl; [clean_trace |].
    eapply wp_mono; [| apply updateProject_reports].
    intros tr res Htr. by do 2 (apply reports_failure_cons; [done |]).
  - eapply wp_mono; [| apply updateProject_reports].
    intros tr res Htr. by apply reports_failure_cons.
Qed.

(** A call that fails, other than [Mkdir] and [Stat], is the last call
    of the run, and the run returns its error as [reported_as] says. *)
Lemma aborting_call_is_last_and_reported :
  ∀ (W : Type) (h : Handler W) (w : W) (opts : UpdateProjectV3Opts)
    (res : option error) (tr : list Event) (w' : W)
    (pre : list Event) (e : Event) (post : list Event),
    run h (UpdateProjectV3 opts) w = (res, tr, w') →
    tr = pre ++ e :: post →
    failed e = true →
    tolerated e = false →
    post = [] ∧ reported e res.
Proof.
  intros W h w opts res tr w' pre e post Hrun -> Hf Ht.
  pose proof (wp_run h _ _ (UpdateProjectV3_reports opts) _ _ _ _ Hrun) as Hr.
  apply (reports_failure_split _ _ _ _ Hr). unfold aborting. by rewrite Hf, Ht.
Qed.

(** The counterexample to C4 as stated: the error of [GetSources] is
    returned as it is, under no message that names the step. *)
Lemma step_error_returned_unwrapped :
  let r := run mem_handler (UpdateProjectV3 demo_opts) demo_sources_fault_world in
  r.1.2 = [Ev GetInconsistentMetadata (inr true); Ev GetSources (inl injected)]
  ∧ r.1.1 = Some injected
  ∧ ∀ cause msg, injected ≠ Wrap cause msg.
Proof. split; [vm_compute; reflexivity |]. split; [vm_compute; reflexivity | done]. Qed.

(* ===================================================================== *)
(** ** The copy of the state *)
(* ===================================================================== *)

(** The latch is written after both copies. *)
Lemma CopyState_latch_order src dst :
  wp (CopyState src dst)
    (λ tr _, ∀ pre e post, tr = pre ++ e :: post → is_catalog_write e = true →
       written_latch e = Some true
       ∧ sometime migrations_copied pre ∧ sometime settings_copied pre
       ∧ never failed pre ∧ post = []).
Proof.
  assert (∀ (tr : list Event), never is_catalog_write tr →
    ∀ pre e post, tr = pre ++ e :: post → is_catalog_write e = true →
       written_latch e = Some true
       ∧ sometime migrations_copied pre ∧ sometime settings_copied pre
       ∧ never failed pre ∧ post = []) as Hnone.
  { intros tr Hn pre e post -> He.
    apply never_app_inv in Hn as [_ [Hn _]%never_cons_inv]. congruence. }
  unfold CopyState, orReturn, orReturnV. simpl.
  do 6 (intros [e |]; simpl; [apply Hnone; auto 10 with trace |]).
  intros [e | st]; simpl; [apply Hnone; auto 10 with trace |].
  assert (∀ r pre e post,
    [Ev (HdbTable_PrepareMigrationsStateStore src) None;
     Ev (Catalog_PrepareMigrationsStateStore dst) None;
     Ev (CopyMigrationState src dst) None;
     Ev (SettingsStore_PrepareSettingsDriver src) None;
     Ev Catalog_PrepareSettingsDriver None;
     Ev (CopySettingsState src) None;
     Ev CLICatalogState_Get (inr st);
     Ev (CLICatalogState_Set (set_IsStateCopyCompleted true st)) r] = pre ++ e :: post →
    is_catalog_write e = true →
    written_latch e = Some true
    ∧ sometime migrations_copied pre ∧ sometime settings_copied pre
    ∧ never failed pre ∧ post = []) as Hset.
  { intros r pre e post Heq He.
    do 7 (destruct pre as [| ? pre]; [simplify_eq/=; done |];
          injection Heq as <- Heq).
    destruct pre as [| ? pre]; simplify_eq/=.
    - split; [done |]. split.
      { do 2 apply sometime_later. by apply sometime_here. }
      split. { do 5 apply sometime_later. by apply sometime_here. }
      split; [| done]. repeat constructor.
    - by destruct pre. }
  intros [e |]; simpl; apply Hset.
Qed.

Ltac mem_step_in H :=
  match type of H with
  | context [mem_handler ?o ?w] =>
      unfold mem_handler in H at 1; simpl w_fault in H;
      let F := fresh "Hfault" in
      destruct (w_fault _ o) eqn:F; simpl in H
  end.

Lemma CopyState_mem_success w src dst t tr w' :
  w_tables w !! src = Some t →
  run mem_handler (CopyState src dst) w = (None, tr, w') →
  Migrations (w_catalog w') = <[dst := tbl_versions t]> (Migrations (w_catalog w))
  ∧ Settings (w_catalog w') = tbl_settings t ∪ Settings (w_catalog w)
  ∧ IsStateCopyCompleted (w_catalog w') = true
  ∧ holds_records (w_catalog w) dst = false.
Proof.
  intros Ht Hrun. unfold CopyState, orReturn, orReturnV in Hrun. simpl in Hrun.
  mem_step_in Hrun; [by inversion Hrun |].
  unfold mem_PrepareTable in Hrun. rewrite Ht in Hrun. simpl in Hrun.
  mem_step_in Hrun; [by inversion Hrun |].
  mem_step_in Hrun; [by inversion Hrun |].
  unfold mem_CopyMigrationState in Hrun. rewrite Ht in Hrun.
  destruct (holds_records (w_catalog w) dst) eqn:Hdup; simpl in Hrun; [by inversion Hrun |].
  mem_step_in Hrun; [by inversion Hrun |].
  unfold mem_PrepareTable in Hrun. simpl in Hrun. rewrite Ht in Hrun. simpl in Hrun.
  mem_step_in Hrun; [by inversion Hrun |].
  mem_step_in Hrun; [by inversion Hrun |].
  unfold mem_CopySettingsState in Hrun. simpl in Hrun. rewrite Ht in Hrun. simpl in Hrun.
  mem_step_in Hrun; [by inversion Hrun |].
  mem_step_in Hrun; [by inversion Hrun |].
  inversion Hrun; subst. simpl. done.
Qed.

Lemma CopyState_mem_duplicate w src dst t res tr w' :
  w_tables w !! src = Some t →
  (∀ o, w_fault w o = None) →
  holds_records (w_catalog w) dst = true →
  run mem_handler (CopyState src dst) w = (res, tr, w') →
  res = Some DuplicateStateConflict ∧ w' = w.
Proof.
  intros Ht Hnf Hdup Hrun. unfold CopyState, orReturn, orReturnV in Hrun. simpl in Hrun.
  unfold mem_handler in Hrun. rewrite !Hnf in Hrun. simpl in Hrun.
  unfold mem_PrepareTable in Hrun. rewrite Ht in Hrun. simpl in Hrun.
  rewrite Hnf in Hrun. simpl in Hrun.
  rewrite Hnf in Hrun. simpl in Hrun.
  unfold mem_CopyMigrationState in Hrun. rewrite Ht, Hdup in Hrun. simpl in Hrun.
  by inversion Hrun.
Qed.

Lemma filter_own_entries `{Countable K} `{EqDecision A} (m : gmap K A) :
  filter (λ kv : K * A, m !! kv.1 = Some kv.2) m = m.
Proof.
  apply map_eq. intros k. apply option_eq. intros v.
  rewrite map_lookup_filter_Some. simpl. tauto.
Qed.

Lemma filter_union_entries `{Countable K} `{EqDecision A} (m c : gmap K A) :
  filter (λ kv : K * A, m !! kv.1 = Some kv.2) (m ∪ c) = m.
Proof.
  apply map_eq. intros k. apply option_eq. intros v.
  rewrite map_lookup_filter_Some, lookup_union_Some_raw. simpl.
  split; [by intros [_ ?] | intros Hk; split; [by left | done]].
Qed.

Lemma corresponding_entries_after (c c' : CLIState) t dst :
  Migrations c' = <[dst := tbl_versions t]> (Migrations c) →
  Settings c' = tbl_settings t ∪ Settings c →
  corresponding_entries c' t dst = size (tbl_versions t) + size (tbl_settings t).
Proof.
  intros HM HS. unfold corresponding_entries.
  rewrite HM, HS, lookup_insert_eq. simpl.
  by rewrite filter_own_entries, filter_union_entries.
Qed.

(** C2: on the in-memory server, for a table-backed store [t] of the
    source with N migration records and M settings, a run of [CopyState]
    that returns nil leaves under the destination name exactly the N
    records of the table, every setting of the table in the catalog, N + M
    entries of the catalog that correspond to entries of the table, and
    the latch set; the catalog state is written only after both copies
    have returned nil, and with the latch true; and when the catalog
    already holds records under the destination name and no fault is
    injected, [CopyState] returns [DuplicateStateConflict] and the catalog
    is as before. *)
Theorem CopyState_copies_records_and_sets_latch :
  ∀ (w : World) (src dst : string) (t : TableStore)
    (res : option error) (tr : list Event) (w' : World),
    w_tables w !! src = Some t →
    run mem_handler (CopyState src dst) w = (res, tr, w') →
    (res = None →
       Migrations (w_catalog w') !! dst = Some (tbl_versions t)
       ∧ (∀ k v, tbl_settings t !! k = Some v → Settings (w_catalog w') !! k = Some v)
       ∧ corresponding_entries (w_catalog w') t dst
         = size (tbl_versions t) + size (tbl_settings t)
       ∧ IsStateCopyCompleted (w_catalog w') = true)
    ∧ (∀ pre e post, tr = pre ++ e :: post → is_catalog_write e = true →
         written_latch e = Some true
         ∧ sometime migrations_copied pre ∧ sometime settings_copied pre)
    ∧ (holds_records (w_catalog w) dst = true →
         (∀ o, w_fault w o = None) →
         res = Some DuplicateStateConflict ∧ w_catalog w' = w_catalog w).
Proof.
  intros w src dst t res tr w' Ht Hrun. split; [| split].
  - intros ->.
    destruct (CopyState_mem_success _ _ _ _ _ _ Ht Hrun) as (HM & HS & HL & _).
    split; [by rewrite HM, lookup_insert_eq |]. split; [| split; [| done]].
    + intros k v Hk. rewrite HS. by apply lookup_union_Some_l.
    + by apply corresponding_entries_after with (c := w_catalog w).
  - intros pre e post Htr He.
    destruct (wp_run mem_handler _ _ (CopyState_latch_order src dst) _ _ _ _ Hrun
                pre e post Htr He) as (? & ? & ? & _).
    done.
  - intros Hdup Hnf.
    destruct (CopyState_mem_duplicate _ _ _ _ _ _ _ Ht Hnf Hdup Hrun) as [-> ->]. done.
Qed.

Lemma CopyState_copies_records_and_sets_latch_witness :
  let r := run mem_handler (CopyState "default" "default") demo_world in
  Migrations (w_catalog r.2) !! "default" = Some (tbl_versions demo_table)
  ∧ (∀ k v, tbl_settings demo_table !! k = Some v → Settings (w_catalog r.2) !! k = Some v)
  ∧ corresponding_entries (w_catalog r.2) demo_table "default" = 2 + 1
  ∧ IsStateCopyCompleted (w_catalog r.2) = true.
Proof.
  intros r.
  destruct (CopyState_copies_records_and_sets_latch demo_world "default" "default"
              demo_table r.1.1 r.1.2 r.2) as [Hok _].
  - reflexivity.
  - unfold r. by destruct (run _ _ _) as [[? ?] ?].
  - apply Hok. vm_compute. reflexivity.
Defined.

(* ===================================================================== *)
(** ** The in-memory file system *)
(* ===================================================================== *)

Lemma strip_prefix_Some p k s : strip_prefix p k = Some s ↔ k = p ++ s.
Proof.
  revert k. induction p as [| x p IH]; intros k; simpl.
  - split; [by intros [= ->] | by intros ->].
  - destruct k as [| y k]; [split; [done | by intros [=]] |].
    case_decide as Hxy.
    + subst. rewrite IH. split; [by intros -> | by intros [= ->]].
    + split; [done | intros [= ? ?]; congruence].
Qed.

Lemma strip_prefix_app p s : strip_prefix p (p ++ s) = Some s.
Proof. by apply strip_prefix_Some. Qed.

Lemma strip_prefix_None p k : strip_prefix p k = None ↔ ¬ p `prefix_of` k.
Proof.
  split.
  - intros Hn [s ->]. by rewrite strip_prefix_app in Hn.
  - intros Hn. destruct (strip_prefix p k) as [s |] eqn:Hs; [| done].
    apply strip_prefix_Some in Hs. destruct Hn. by exists s.
Qed.

Lemma mem_RemoveAll_lookup fs p k :
  mem_RemoveAll fs p !! k = if decide (p `prefix_of` k) then None else fs !! k.
Proof.
  unfold mem_RemoveAll. case_decide as Hp.
  - apply map_lookup_filter_None. right. intros nd _. simpl. tauto.
  - destruct (fs !! k) as [nd |] eqn:Hk.
    + by apply map_lookup_filter_Some.
    + apply map_lookup_filter_None. by left.
Qed.

Lemma graft_lookup_Some fs src dst k nd :
  graft fs src dst !! k = Some nd ↔ ∃ s, k = dst ++ s ∧ fs !! (src ++ s) = Some nd.
Proof.
  unfold graft.
  assert (∀ y, (k, y) ∈ omap (λ kn : path * node,
                 (λ s, (dst ++ s, kn.2)) <$> strip_prefix src kn.1) (map_to_list fs)
            ↔ ∃ s, k = dst ++ s ∧ fs !! (src ++ s) = Some y) as Hin.
  { intros y. rewrite list_elem_of_omap. split.
    - intros ([k0 nd0] & Hk0 & Hf). simpl in Hf.
      destruct (strip_prefix src k0) as [s |] eqn:Hs; [| done].
      apply strip_prefix_Some in Hs. simpl in Hf. injection Hf as <- <-.
      apply elem_of_map_to_list in Hk0. subst. eauto.
    - intros (s & -> & Hs). exists (src ++ s, y). split.
      + by apply elem_of_map_to_list.
      + simpl. by rewrite strip_prefix_app. }
  split.
  - intros Hk. apply Hin. by apply elem_of_list_to_map_2.
  - intros Hs. apply elem_of_list_to_map_1'; [| by apply Hin].
    intros y Hy. apply Hin in Hy as (s' & Hk' & Hy).
    destruct Hs as (s & -> & Hs). apply app_inv_head in Hk'. subst. congruence.
Qed.

Lemma graft_lookup fs src dst s :
  graft fs src dst !! (dst ++ s) = fs !! (src ++ s).
Proof.
  apply option_eq. intros nd. rewrite graft_lookup_Some. split.
  - intros (s' & Heq & Hs). apply app_inv_head in Heq. by subst.
  - eauto.
Qed.

Lemma graft_lookup_other fs src dst k :
  ¬ dst `prefix_of` k → graft fs src dst !! k = None.
Proof.
  intros Hk. apply eq_None_not_Some. intros [nd Hnd].
  apply graft_lookup_Some in Hnd as (s & -> & _). destruct Hk. by exists s.
Qed.

(** What the calls do to the tree. *)
Lemma mem_CopyDir_under fs src dst fs' s :
  mem_CopyDir fs src dst = (None, fs') → fs' !! (dst ++ s) = fs !! (src ++ s).
Proof.
  unfold mem_CopyDir. destruct (fs !! src) as [[] |]; [done | | done].
  repeat case_decide; try done. intros [= <-].
  rewrite lookup_union, graft_lookup, mem_RemoveAll_lookup.
  rewrite decide_True by (by exists s). by destruct (fs !! (src ++ s)).
Qed.

Lemma mem_CopyDir_source fs src dst fs' :
  mem_CopyDir fs src dst = (None, fs') → fs !! src = Some Dir.
Proof.
  unfold mem_CopyDir. destruct (fs !! src) as [[] |]; [done | | done]. done.
Qed.

Lemma mem_CopyDir_frame fs src dst r fs' k :
  mem_CopyDir fs src dst = (r, fs') → ¬ dst `prefix_of` k → fs' !! k = fs !! k.
Proof.
  unfold mem_CopyDir. destruct (fs !! src) as [[] |]; [by intros [= _ <-] | | by intros [= _ <-]].
  repeat case_decide; try by intros [= _ <-].
  intros [= _ <-] Hk.
  rewrite lookup_union, graft_lookup_other, mem_RemoveAll_lookup by done.
  rewrite decide_False by done. by destruct (fs !! k).
Qed.

Lemma mem_CopyFile_target fs src dst fs' :
  mem_CopyFile fs src dst = (None, fs') →
  ∃ content, fs !! src = Some (File content) ∧ fs' !! dst = Some (File content).
Proof.
  unfold mem_CopyFile. destruct (fs !! src) as [[content |] |]; [| done | done].
  case_decide; [| done]. intros [= <-]. exists content. by rewrite lookup_insert_eq.
Qed.

Lemma mem_CopyFile_frame fs src dst r fs' k :
  mem_CopyFile fs src dst = (r, fs') → k ≠ dst → fs' !! k = fs !! k.
Proof.
  unfold mem_CopyFile. destruct (fs !! src) as [[content |] |]; [| by intros [= _ <-] ..].
  case_decide; [| by intros [= _ <-]]. intros [= _ <-] Hk. by rewrite lookup_insert_ne.
Qed.

Lemma mem_Mkdir_frame fs p r fs' k :
  mem_Mkdir fs p = (r, fs') → k ≠ p → fs' !! k = fs !! k.
Proof.
  unfold mem_Mkdir. destruct (fs !! p); [by intros [= _ <-] |].
  case_decide; [| by intros [= _ <-]]. intros [= _ <-] Hk. by rewrite lookup_insert_ne.
Qed.

(** A call changes the tree at the paths it touches only, and keeps the
    injected faults. *)
Lemma mem_handler_frame o w k :
  ¬ touched o k → w_fs (mem_handler o w).2 !! k = w_fs w !! k.
Proof.
  intros Hk. unfold mem_handler. destruct (w_fault w o); [done |].
  destruct o; simpl in *; try done.
  - unfold mem_CopyMigrationState. destruct (w_tables w !! _); [| done].
    by destruct (holds_records _ _).
  - unfold mem_CopySettingsState. by destruct (w_tables w !! _).
  - destruct (mem_Mkdir _ _) as [r fs'] eqn:Hm. simpl. by eapply mem_Mkdir_frame.
  - rewrite mem_RemoveAll_lookup. by rewrite decide_False.
  - destruct (mem_CopyDir _ _ _) as [r fs'] eqn:Hm. simpl. by eapply mem_CopyDir_frame.
  - destruct (mem_CopyFile _ _ _) as [r fs'] eqn:Hm. simpl. by eapply mem_CopyFile_frame.
Qed.

Lemma mem_handler_fault o w : w_fault (mem_handler o w).2 = w_fault w.
Proof.
  unfold mem_handler. destruct (w_fault w o); [done |].
  destruct o; simpl; try done.
  - unfold mem_CopyMigrationState. destruct (w_tables w !! _); [| done].
    by destruct (holds_records _ _).
  - unfold mem_CopySettingsState. by destruct (w_tables w !! _).
  - by destruct (mem_Mkdir _ _).
  - by destruct (mem_CopyDir _ _ _).
  - by destruct (mem_CopyFile _ _ _).
Qed.

Lemma mem_handler_none o w k :
  creates_nothing o → w_fs w !! k = None → w_fs (mem_handler o w).2 !! k = None.
Proof.
  intros Ho Hk. unfold mem_handler. destruct (w_fault w o); [done |].
  destruct o; simpl in *; try done.
  - unfold mem_CopyMigrationState. destruct (w_tables w !! _); [| done].
    by destruct (holds_records _ _).
  - unfold mem_CopySettingsState. by destruct (w_tables w !! _).
  - rewrite mem_RemoveAll_lookup. by case_decide.
Qed.

Lemma run_frame {A : Type} (m : Prog A) w a tr w' k :
  run mem_handler m w = (a, tr, w') →
  Forall (λ e, ¬ touched (ev_op e) k) tr →
  w_fs w' !! k = w_fs w !! k.
Proof.
  revert w a tr w'. induction m as [a0 | o k0 IH]; simpl; intros w a tr w' Hrun Htr.
  - by inversion Hrun.
  - destruct (mem_handler o w) as [r w1] eqn:Hh.
    destruct (run mem_handler (k0 r) w1) as [[a1 tr1] w2] eqn:Hk.
    inversion Hrun; subst. apply Forall_cons in Htr as [He Htr].
    rewrite (IH _ _ _ _ _ Hk Htr).
    pose proof (mem_handler_frame o w k He) as Hf. by rewrite Hh in Hf.
Qed.

Lemma run_fault {A : Type} (m : Prog A) w a tr w' :
  run mem_handler m w = (a, tr, w') → w_fault w' = w_fault w.
Proof.
  revert w a tr w'. induction m as [a0 | o k0 IH]; simpl; intros w a tr w' Hrun.
  - by inversion Hrun.
  - destruct (mem_handler o w) as [r w1] eqn:Hh.
    destruct (run mem_handler (k0 r) w1) as [[a1 tr1] w2] eqn:Hk.
    inversion Hrun; subst. rewrite (IH _ _ _ _ _ Hk).
    pose proof (mem_handler_fault o w) as Hf. by rewrite Hh in Hf.
Qed.

Lemma run_none {A : Type} (m : Prog A) w a tr w' k :
  run mem_handler m w = (a, tr, w') →
  Forall (λ e, creates_nothing (ev_op e)) tr →
  w_fs w !! k = None → w_fs w' !! k = None.
Proof.
  revert w a tr w'. induction m as [a0 | o k0 IH]; simpl; intros w a tr w' Hrun Htr Hk.
  - by inversion Hrun; subst.
  - destruct (mem_handler o w) as [r w1] eqn:Hh.
    destruct (run mem_handler (k0 r) w1) as [[a1 tr1] w2] eqn:Hk0.
    inversion Hrun; subst. apply Forall_cons in Htr as [He Htr].
    apply (IH _ _ _ _ _ Hk0 Htr).
    pose proof (mem_handler_none o w k He Hk) as Hf. by rewrite Hh in Hf.
Qed.

Lemma split_sep_no_separator s : no_separator s = true → split_sep s = [s].
Proof.
  induction s as [| c rest IH]; simpl; [done |].
  intros [Hc Hrest]%andb_true_iff. apply negb_true_iff in Hc. rewrite Hc.
  by rewrite (IH Hrest).
Qed.

Lemma valid_name_spec s :
  valid_name s = true → s ≠ "" ∧ s ≠ "." ∧ s ≠ ".." ∧ no_separator s = true.
Proof.
  unfold valid_name. rewrite !andb_true_iff, !negb_true_iff, !String.eqb_neq.
  by intros [[[? ?] ?] ?].
Qed.

Lemma filepath_Join_valid p d : valid_name d = true → filepath_Join p d = p ++ [d].
Proof.
  intros (H1 & H2 & H3 & H4)%valid_name_spec.
  unfold filepath_Join. rewrite split_sep_no_separator by done. simpl.
  unfold clean_step.
  destruct (decide (d = "" ∨ d = ".")) as [[? | ?] | _]; [done | done |].
  by destruct (decide (d = "..")).
Qed.

Lemma filepath_Join1_valid d : valid_name d = true → filepath_Join1 d = d.
Proof.
  intros (H1 & H2 & H3 & H4)%valid_name_spec.
  unfold filepath_Join1. rewrite decide_False by done.
  unfold filepath_Clean. destruct d as [| c rest] eqn:Hd; [done |].
  rewrite <- Hd in *. assert (IsPathSeparator c = false) as ->.
  { subst d. simpl in H4. apply andb_true_iff in H4 as [Hc _]. by apply negb_true_iff. }
  rewrite split_sep_no_separator by done. simpl.
  unfold clean_step_rel.
  destruct (decide (d = "" ∨ d = ".")) as [[? | ?] | _]; [done | done |].
  destruct (decide (d = "..")) as [? | _]; [done |].
  simpl. by rewrite decide_False.
Qed.

Lemma filepath_Base_valid d : valid_name d = true → filepath_Base d = d.
Proof.
  intros (H1 & H2 & H3 & H4)%valid_name_spec.
  unfold filepath_Base. rewrite decide_False by done.
  rewrite split_sep_no_separator by done.
  rewrite filter_cons_True by done. done.
Qed.

(** The listing of a directory of the tree. *)
Lemma mem_ReadDir_elem fs dirname infos info :
  mem_ReadDir fs dirname = inr infos →
  info ∈ infos ↔
    ∃ nd, fs !! (dirname ++ [Name info]) = Some nd ∧ IsDir info = is_dir nd.
Proof.
  unfold mem_ReadDir. destruct (fs !! dirname) as [[] |]; [done | | done].
  intros [= <-]. rewrite merge_sort_Permutation, list_elem_of_omap. split.
  - intros ([k nd] & Hk & Hc). apply elem_of_map_to_list in Hk.
    unfold child_entry in Hc. simpl in Hc.
    destruct (strip_prefix dirname k) as [[| n [| ? ?]] |] eqn:Hs; try done.
    apply strip_prefix_Some in Hs. injection Hc as <-. simpl. subst. eauto.
  - intros (nd & Hk & Hd). exists (dirname ++ [Name info], nd). split.
    + by apply elem_of_map_to_list.
    + unfold child_entry. simpl. rewrite strip_prefix_app. rewrite <- Hd.
      by destruct info.
Qed.

Lemma matching_loop_kept dirs acc :
  matching_loop isHasuraCLIGeneratedMigration dirs acc
  = inr (acc ++ kept_names isHasuraCLIGeneratedMigration dirs).
Proof.
  revert acc. induction dirs as [| info rest IH]; intros acc; simpl.
  - by rewrite app_nil_r.
  - destruct (matches_migration_regex _); rewrite IH; [| done].
    by rewrite <- app_assoc.
Qed.

Lemma seed_loop_names dirs acc : seed_loop dirs acc = acc ++ seed_names dirs.
Proof.
  revert acc. induction dirs as [| info rest IH]; intros acc; simpl.
  - by rewrite app_nil_r.
  - destruct (IsDir info); simpl; rewrite IH; [done |].
    by rewrite <- app_assoc.
Qed.

Lemma wf_names_child fs dirname n nd :
  wf_names fs → fs !! (dirname ++ [n]) = Some nd → valid_name n = true.
Proof.
  intros Hwf Hk. apply Hwf in Hk. apply Forall_app in Hk as [_ Hn].
  by inversion Hn.
Qed.

(** The migrations that the script lists in a tree of valid names are the
    entries of the root whose name matches. *)
Lemma kept_names_elem fs root infos d :
  wf_names fs → mem_ReadDir fs root = inr infos →
  d ∈ kept_names isHasuraCLIGeneratedMigration infos ↔
    (∃ nd, fs !! (root ++ [d]) = Some nd) ∧ matches_migration_regex d = true.
Proof.
  intros Hwf Hread. unfold kept_names. rewrite list_elem_of_omap. split.
  - intros (info & Hinfo & Hk). simpl in Hk.
    apply (mem_ReadDir_elem _ _ _ _ Hread) in Hinfo as (nd & Hnd & _).
    pose proof (wf_names_child _ _ _ _ Hwf Hnd) as Hv.
    rewrite filepath_Base_valid, filepath_Join1_valid in Hk by done.
    destruct (matches_migration_regex (Name info)) eqn:Hm; [| done].
    injection Hk as <-. eauto.
  - intros [[nd Hnd] Hm]. pose proof (wf_names_child _ _ _ _ Hwf Hnd) as Hv.
    exists {| Name := d; IsDir := is_dir nd |}. split.
    + apply (mem_ReadDir_elem _ _ _ _ Hread). simpl. eauto.
    + simpl. rewrite filepath_Base_valid, filepath_Join1_valid by done. by rewrite Hm.
Qed.

Lemma seed_names_valid fs root infos f :
  wf_names fs → mem_ReadDir fs root = inr infos →
  f ∈ seed_names infos → valid_name f = true.
Proof.
  intros Hwf Hread. unfold seed_names. rewrite list_elem_of_omap.
  intros (info & Hinfo & Hk).
  apply (mem_ReadDir_elem _ _ _ _ Hread) in Hinfo as (nd & Hnd & _).
  pose proof (wf_names_child _ _ _ _ Hwf Hnd) as Hv.
  destruct (negb (IsDir info)); [| done].
  rewrite filepath_Join1_valid in Hk by done. by injection Hk as <-.
Qed.

(** *** The calls of the loops, by entry *)

Lemma copyMigrations_calls dirs parent target :
  wp (copyMigrations dirs parent target)
    (λ tr _, Forall (copies_entry_of dirs parent target) tr).
Proof.
  induction dirs as [| d rest IH]; simpl; [by constructor |].
  assert (∀ tr, Forall (copies_entry_of rest parent target) tr →
                Forall (copies_entry_of (d :: rest) parent target) tr) as Hweak.
  { intros tr Htr. eapply Forall_impl; [apply Htr |].
    intros e (d' & Hd' & He). exists d'. split; [by right | done]. }
  assert (∀ o r,
    o = Fs_Stat (filepath_Join parent d)
    ∨ o = CopyDirAfero (filepath_Join parent d) (filepath_Join target d)
    ∨ o = CopyFileAfero (filepath_Join parent d) (filepath_Join target d) →
    copies_entry_of (d :: rest) parent target (Ev o r)) as Hhere.
  { intros o r Ho. exists d. split; [by left | done]. }
  intros [[f |] err]; simpl.
  - destruct (IsDir f); simpl; intros [e |]; simpl.
    1,3: repeat constructor; apply Hhere; auto.
    all: eapply wp_mono; [| apply IH]; simpl; intros tr _ Htr;
         repeat constructor; try (apply Hhere; auto); by apply Hweak.
  - eapply wp_mono; [| apply IH]. simpl. intros tr _ Htr.
    constructor; [apply Hhere; auto | by apply Hweak].
Qed.

Lemma copyFiles_calls files parent target :
  wp (copyFiles files parent target)
    (λ tr _, Forall (copies_file_of files parent target) tr).
Proof.
  induction files as [| f rest IH]; simpl; [by constructor |].
  assert (∀ tr, Forall (copies_file_of rest parent target) tr →
                Forall (copies_file_of (f :: rest) parent target) tr) as Hweak.
  { intros tr Htr. eapply Forall_impl; [apply Htr |].
    intros e (f' & Hf' & He). exists f'. split; [by right | done]. }
  intros [e |]; simpl.
  - repeat constructor. exists f. split; [by left | done].
  - eapply wp_mono; [| apply IH]. simpl. intros tr _ Htr.
    constructor; [| by apply Hweak]. exists f. split; [by left | done].
Qed.

Lemma removeDirectories_calls parent dirs :
  wp (removeDirectories parent dirs) (λ tr _, Forall (removes_entry_of dirs parent) tr).
Proof.
  induction dirs as [| d rest IH]; simpl; [by constructor |].
  assert (∀ tr, Forall (removes_entry_of rest parent) tr →
                Forall (removes_entry_of (d :: rest) parent) tr) as Hweak.
  { intros tr Htr. eapply Forall_impl; [apply Htr |].
    intros e (d' & Hd' & He). exists d'. split; [by right | done]. }
  intros [e |]; simpl.
  - repeat constructor. exists d. split; [by left | done].
  - eapply wp_mono; [| apply IH]. simpl. intros tr _ Htr.
    constructor; [| by apply Hweak]. exists d. split; [by left | done].
Qed.

(** Simplification that also keeps the list of the metadata files folded. *)
Ltac fsimpl := with_strategy opaque [metadataFiles] psimpl.

Lemma moveListed_calls opts T migs seeds :
  wp (moveListed opts T migs seeds) (λ tr _, Forall (moves opts T migs seeds) tr).
Proof.
  unfold moveListed, orReturn. fsimpl. intros r1 r2.
  assert (∀ tr, Forall (moves opts T migs seeds) tr →
    Forall (moves opts T migs seeds)
      (Ev (Fs_Mkdir (filepath_Join (MigrationsAbsDirectoryPath opts) T)) r1
       :: Ev (Fs_Mkdir (filepath_Join (SeedsAbsDirectoryPath opts) T)) r2 :: tr)) as Hmk.
  { intros tr Htr. constructor; [by left |]. constructor; [right; by left | done]. }
  apply wp_bind. eapply wp_mono; [| apply copyMigrations_calls].
  intros trM resM HM.
  assert (Forall (moves opts T migs seeds) trM) as HM'.
  { eapply Forall_impl; [apply HM |]. intros e He. unfold moves. tauto. }
  destruct resM as [e |]; fsimpl.
  { apply Hmk. by rewrite app_nil_r. }
  apply wp_bind. eapply wp_mono; [| apply copyFiles_calls].
  intros trS resS HS.
  assert (Forall (moves opts T migs seeds) trS) as HS'.
  { eapply Forall_impl; [apply HS |]. intros e He. unfold moves. tauto. }
  destruct resS as [e |]; fsimpl.
  { apply Hmk. rewrite app_nil_r. by apply Forall_app. }
  assert (∀ r tr, Forall (moves opts T migs seeds) tr →
    Forall (moves opts T migs seeds)
      (Ev (Fs_Mkdir (filepath_Join (MigrationsAbsDirectoryPath opts) T)) r1
       :: Ev (Fs_Mkdir (filepath_Join (SeedsAbsDirectoryPath opts) T)) r2
       :: trM ++ trS ++
          Ev (WriteConfig {| Version := V3; OtherFields := OtherFields (EC_Config (EC opts)) |}) r
          :: tr)) as Hw.
  { intros r tr Htr. apply Hmk. do 2 (apply Forall_app; split; [done |]).
    constructor; [| done]. unfold moves. do 4 right. by left. }
  intros [e |]; fsimpl; [apply Hw; constructor |].
  intros [].
  assert (∀ tr, Forall (moves opts T migs seeds) tr →
    Forall (moves opts T migs seeds)
      (Ev (AssignConfig {| Version := V3; OtherFields := OtherFields (EC_Config (EC opts)) |}) ()
       :: tr)) as Ha.
  { intros tr Htr. constructor; [| done]. unfold moves. do 4 right. by left. }
  apply wp_bind. eapply wp_mono; [| apply removeDirectories_calls].
  intros tr1 res1 H1.
  assert (Forall (moves opts T migs seeds) tr1) as H1'.
  { eapply Forall_impl; [apply H1 |]. intros e He. unfold moves. tauto. }
  destruct res1 as [e |]; fsimpl.
  { apply Hw, Ha. by rewrite app_nil_r. }
  apply wp_bind. eapply wp_mono; [| apply removeDirectories_calls].
  intros tr2 res2 H2.
  assert (Forall (moves opts T migs seeds) tr2) as H2'.
  { eapply Forall_impl; [apply H2 |]. intros e He. unfold moves. tauto. }
  destruct res2 as [e |]; fsimpl.
  { apply Hw, Ha. rewrite app_nil_r. by apply Forall_app. }
  apply wp_bind. eapply wp_mono; [| apply removeDirectories_calls].
  intros tr3 res3 H3.
  assert (Forall (moves opts T migs seeds) tr3) as H3'.
  { eapply Forall_impl; [apply H3 |]. intros e He. unfold moves. tauto. }
  destruct res3 as [e |]; fsimpl; apply Hw, Ha; rewrite app_nil_r;
    by repeat (apply Forall_app; split; [done |]).
Qed.

(* ===================================================================== *)
(** ** A project without migrations *)
(* ===================================================================== *)

Lemma mem_handler_ReadDir p w r w1 :
  mem_handler (Fs_ReadDir p) w = (r, w1) →
  w1 = w ∧ ((∃ e, r = inl e) ∨ r = mem_ReadDir (w_fs w) p).
Proof.
  unfold mem_handler. destruct (w_fault w _); simpl; intros [= <- <-]; eauto.
Qed.

(** A path that a run has changed is touched by one of its calls. *)
Lemma run_changed {A : Type} (m : Prog A) w a tr w' k :
  run mem_handler m w = (a, tr, w') →
  w_fs w' !! k ≠ w_fs w !! k →
  ∃ e, e ∈ tr ∧ touched (ev_op e) k.
Proof.
  intros Hrun Hk.
  destruct (decide (Forall (λ e, ¬ touched (ev_op e) k) tr)) as [Hno | Hyes].
  - destruct Hk. by eapply run_frame.
  - apply not_Forall_Exists in Hyes; [| apply _].
    apply Exists_exists in Hyes as (e & He & Ht). exists e. split; [done |].
    simpl in Ht. by apply dec_stable.
Qed.

Lemma reorganizeDirectories_mem_run w opts T res tr w' :
  run mem_handler (reorganizeDirectories opts T) w = (res, tr, w') →
  (w' = w ∧ is_Some res)
  ∨ ∃ tr1 tr2,
      tr = tr1 ++ tr2
      ∧ run mem_handler
          (moveListed opts T
             (migration_entries (w_fs w) (MigrationsAbsDirectoryPath opts))
             (seed_files (w_fs w) (SeedsAbsDirectoryPath opts))) w
        = (res, tr2, w').
Proof.
  unfold reorganizeDirectories, orReturnV, getMigrationDirectoryNames,
    getMatchingFilesAndDirs, getSeedFiles. psimpl.
  destruct (mem_handler (Fs_ReadDir _) w) as [r1 w1] eqn:H1.
  apply mem_handler_ReadDir in H1 as [-> Hr1].
  destruct r1 as [e | dirs]; psimpl; [intros [= <- _ <-]; left; by eauto |].
  rewrite matching_loop_kept. psimpl.
  destruct (mem_handler (Fs_ReadDir (SeedsAbsDirectoryPath opts)) w) as [r2 w2] eqn:H2.
  apply mem_handler_ReadDir in H2 as [-> Hr2].
  destruct r2 as [e | sdirs]; psimpl; [intros [= <- _ <-]; left; by eauto |].
  destruct Hr1 as [[? ?] | Hr1]; [done |]. destruct Hr2 as [[? ?] | Hr2]; [done |].
  unfold migration_entries, seed_files. rewrite <- Hr1, <- Hr2.
  destruct (run mem_handler (moveListed _ _ _ _) w) as [[res2 tr2] w2] eqn:Hm.
  intros [= <- <- <-]. right.
  by exists [Ev (Fs_ReadDir (MigrationsAbsDirectoryPath opts)) (inr dirs);
          Ev (Fs_ReadDir (SeedsAbsDirectoryPath opts)) (inr sdirs)], tr2.
Qed.

(** Without a matching entry in the migrations root, the tree changes
    nowhere but at the two target directories, at the seed files and at the
    two metadata files of the old layout. *)
Lemma tree_changes_without_migrations :
  ∀ (w : World) (opts : UpdateProjectV3Opts) (T : string)
    (res : option error) (tr : list Event) (w' : World) (k : path),
    run mem_handler (reorganizeDirectories opts T) w = (res, tr, w') →
    migration_entries (w_fs w) (MigrationsAbsDirectoryPath opts) = [] →
    w_fs w' !! k ≠ w_fs w !! k →
    k = filepath_Join (MigrationsAbsDirectoryPath opts) T
    ∨ k = filepath_Join (SeedsAbsDirectoryPath opts) T
    ∨ (∃ f, f ∈ seed_files (w_fs w) (SeedsAbsDirectoryPath opts)
         ∧ (k = filepath_Join (filepath_Join (SeedsAbsDirectoryPath opts) T) f
            ∨ filepath_Join (SeedsAbsDirectoryPath opts) f `prefix_of` k))
    ∨ (∃ f, f ∈ metadataFiles ∧ filepath_Join (MetadataDir (EC opts)) f `prefix_of` k).
Proof.
  intros w opts T res tr w' k Hrun Hno Hk.
  destruct (reorganizeDirectories_mem_run _ _ _ _ _ _ Hrun)
    as [[-> _] | (tr1 & tr2 & -> & Hm)]; [done |].
  rewrite Hno in Hm.
  destruct (run_changed _ _ _ _ _ _ Hm Hk) as (e & He & Ht).
  pose proof (wp_run mem_handler _ _ (moveListed_calls opts T [] _) _ _ _ _ Hm) as Hcalls.
  rewrite Forall_forall in Hcalls. specialize (Hcalls e He).
  destruct Hcalls as [Ho | [Ho | [(d & Hd & _) | [(f & Hf & Ho) | [Ho | [(d & Hd & _)
    | [(f & Hf & Ho) | (f & Hf & Ho)]]]]]]].
  - rewrite Ho in Ht. by left.
  - rewrite Ho in Ht. right. by left.
  - by apply elem_of_nil in Hd.
  - rewrite Ho in Ht. simpl in Ht. do 2 right. left. eauto.
  - unfold is_config_write in Ho. by destruct (ev_op e).
  - by apply elem_of_nil in Hd.
  - rewrite Ho in Ht. simpl in Ht. do 2 right. left. eauto.
  - rewrite Ho in Ht. simpl in Ht. do 3 right. eauto.
Qed.

(** The counterexample to C8 as stated: in the project of the example
    without its migrations, no entry of the migrations root matches, the
    part of the script that moves the directories returns nil, and the seed
    file has moved to the target directory, a metadata file is gone, and
    the config file has gone from version 2 to version 3. *)
Lemma reorganization_without_migrations_moves_seeds :
  migration_entries demo_no_migration_fs ["p"; "migrations"] = []
  ∧ demo_no_migration_run.1.1 = None
  ∧ Version (w_config_file demo_no_migration_world) = V2
  ∧ Version (w_config_file demo_no_migration_run.2) = V3
  ∧ demo_no_migration_fs !! ["p"; "seeds"; "seed1.sql"] = Some (File "insert into t;")
  ∧ w_fs demo_no_migration_run.2 !! ["p"; "seeds"; "seed1.sql"] = None
  ∧ w_fs demo_no_migration_run.2 !! ["p"; "seeds"; "default"; "seed1.sql"]
    = Some (File "insert into t;")
  ∧ demo_no_migration_fs !! ["p"; "metadata"; "tables.yaml"] = Some (File "[]")
  ∧ w_fs demo_no_migration_run.2 !! ["p"; "metadata"; "tables.yaml"] = None.
Proof. vm_compute. repeat split; reflexivity. Qed.

(* ===================================================================== *)
(** ** The matched migrations after the directories are moved *)
(* ===================================================================== *)

Lemma run_orReturn {W : Type} (h : Handler W) m wrap k w res tr w' :
  run h (orReturn m wrap k) w = (res, tr, w') →
  (∃ e, run h m w = (Some e, tr, w') ∧ res = Some (wrap e))
  ∨ (∃ tr1 w1 tr2,
       run h m w = (None, tr1, w1) ∧ run h k w1 = (res, tr2, w') ∧ tr = tr1 ++ tr2).
Proof.
  unfold orReturn. rewrite run_bind.
  destruct (run h m w) as [[[e |] tr1] w1]; simpl.
  - intros [= <- <- <-]. left. exists e. by rewrite app_nil_r.
  - destruct (run h k w1) as [[res2 tr2] w2] eqn:Hk. intros [= <- <- <-].
    right. by exists tr1, w1, tr2.
Qed.

Lemma run_orReturn_None {W : Type} (h : Handler W) m wrap k w tr w' :
  run h (orReturn m wrap k) w = (None, tr, w') →
  ∃ tr1 w1 tr2,
    run h m w = (None, tr1, w1) ∧ run h k w1 = (None, tr2, w') ∧ tr = tr1 ++ tr2.
Proof.
  intros [(e & _ & ?) | H]%run_orReturn; [done | done].
Qed.

(** A part of the script leaves what none of its calls touches. *)
Lemma phase_frame {A : Type} (m : Prog A) (P : Event → Prop) w a tr w' k :
  run mem_handler m w = (a, tr, w') →
  wp m (λ tr _, Forall P tr) →
  (∀ e, P e → ¬ touched (ev_op e) k) →
  w_fs w' !! k = w_fs w !! k.
Proof.
  intros Hrun Hwp HP. eapply run_frame; [done |].
  eapply Forall_impl; [apply (wp_run mem_handler _ _ Hwp _ _ _ _ Hrun) | done].
Qed.

Lemma unrelated_no_common (p q k : path) :
  unrelated p q → p `prefix_of` k → q `prefix_of` k → False.
Proof.
  intros [H1 H2] Hp Hq. destruct (prefix_weak_total _ _ _ Hp Hq); auto.
Qed.

Lemma prefix_app_l (p a k : path) : (p ++ a) `prefix_of` k → p `prefix_of` k.
Proof. intros [s ->]. exists (a ++ s). by rewrite app_assoc. Qed.

Lemma same_entry_source fs1 p1 fs2 fs2' p2 :
  (∀ s, fs2' !! (p2 ++ s) = fs2 !! (p2 ++ s)) →
  same_entry fs1 p1 fs2' p2 → same_entry fs1 p1 fs2 p2.
Proof.
  intros Heq. unfold same_entry. pose proof (Heq []) as H0. rewrite app_nil_r in H0.
  rewrite H0. destruct (fs2 !! p2) as [[] |]; [done | | done].
  intros H s. by rewrite H, Heq.
Qed.

Lemma same_entry_target fs1 fs1' p1 fs2 p2 :
  (∀ s, fs1' !! (p1 ++ s) = fs1 !! (p1 ++ s)) →
  same_entry fs1 p1 fs2 p2 → same_entry fs1' p1 fs2 p2.
Proof.
  intros Heq. unfold same_entry. pose proof (Heq []) as H0. rewrite app_nil_r in H0.
  destruct (fs2 !! p2) as [[] |]; [by rewrite H0 | | done].
  intros H s. by rewrite Heq, H.
Qed.

Lemma mem_handler_Stat p w r w1 :
  mem_handler (Fs_Stat p) w = (r, w1) →
  w1 = w ∧ (w_fault w (Fs_Stat p) = None → r = mem_Stat (w_fs w) p).
Proof.
  unfold mem_handler. destruct (w_fault w _); simpl; intros [= <- <-]; by eauto.
Qed.

Lemma mem_handler_CopyDir src dst w w1 :
  mem_handler (CopyDirAfero src dst) w = (None, w1) →
  w_fault w1 = w_fault w ∧ mem_CopyDir (w_fs w) src dst = (None, w_fs w1).
Proof.
  unfold mem_handler. destruct (w_fault w _); simpl; [done |].
  destruct (mem_CopyDir _ _ _) as [r fs']. by intros [= -> <-].
Qed.

Lemma mem_handler_CopyFile src dst w w1 :
  mem_handler (CopyFileAfero src dst) w = (None, w1) →
  w_fault w1 = w_fault w ∧ mem_CopyFile (w_fs w) src dst = (None, w_fs w1).
Proof.
  unfold mem_handler. destruct (w_fault w _); simpl; [done |].
  destruct (mem_CopyFile _ _ _) as [r fs']. by intros [= -> <-].
Qed.

Lemma mem_handler_RemoveAll p w w1 :
  mem_handler (Fs_RemoveAll p) w = (None, w1) →
  w_fs w1 = mem_RemoveAll (w_fs w) p.
Proof.
  unfold mem_handler. destruct (w_fault w _); simpl; [done |]. by intros [= <-].
Qed.

Lemma run_call {W : Type} (h : Handler W) o w (x : Resp o * list Event * W) :
  run h (call o) w = x → h o w = (x.1.1, x.2) ∧ x.1.2 = [Ev o x.1.1].
Proof. simpl. destruct (h o w) as [r' w']. by intros <-. Qed.

Ltac run_call_in H :=
  match type of H with
  | run ?h (call ?o) ?w = ?x => apply (run_call h o w x) in H; simpl in H
  end.

Lemma run_copyMigrations_cons {W : Type} (h : Handler W) d0 rest parent target
    w res tr w' :
  run h (copyMigrations (d0 :: rest) parent target) w = (res, tr, w') →
  ∃ st w0 tr0,
    h (Fs_Stat (filepath_Join parent d0)) w = (st, w0)
    ∧ tr = Ev (Fs_Stat (filepath_Join parent d0)) st :: tr0
    ∧ run h
        match st.1 with
        | Some f =>
            if IsDir f then
              orReturn
                (call (CopyDirAfero (filepath_Join parent d0) (filepath_Join target d0)))
                (moving d0 target) (copyMigrations rest parent target)
            else
              orReturn
                (call (CopyFileAfero (filepath_Join parent d0) (filepath_Join target d0)))
                (moving d0 target) (copyMigrations rest parent target)
        | None => copyMigrations rest parent target
        end w0
      = (res, tr0, w').
Proof.
  simpl. destruct (h _ w) as [st w0].
  destruct (run h _ w0) as [[res0 tr0] w1] eqn:Hrun. intros [= <- <- <-].
  by exists st, w0, tr0.
Qed.

(** The copy of the migrations in the tree. *)
Lemma copyMigrations_mem (mroot : path) (T : string) dirs :
  ∀ w tr w',
    run mem_handler (copyMigrations dirs mroot (mroot ++ [T])) w = (None, tr, w') →
    Forall (λ d, valid_name d = true) dirs → T ∉ dirs →
    ∀ d, d ∈ dirs →
      w_fault w (Fs_Stat (mroot ++ [d])) = None →
      is_Some (w_fs w !! (mroot ++ [d])) →
      same_entry (w_fs w') ((mroot ++ [T]) ++ [d]) (w_fs w) (mroot ++ [d]).
Proof.
  induction dirs as [| d0 rest IH]; intros w tr w' Hrun Hvalid HT d Hd Hfault Hex.
  { by apply elem_of_nil in Hd. }
  apply Forall_cons in Hvalid as [Hv0 Hvalid].
  apply not_elem_of_cons in HT as [HT0 HT].
  apply run_copyMigrations_cons in Hrun as (st & w0 & tr0 & Hst & _ & Hrun).
  rewrite (filepath_Join_valid mroot d0) in Hst, Hrun by done.
  rewrite (filepath_Join_valid (mroot ++ [T]) d0) in Hrun by done.
  apply mem_handler_Stat in Hst as [-> Hst].
  (* the rest of the loop leaves the copy of [d] when [d] is not in it *)
  assert (∀ w1 tr1, run mem_handler (copyMigrations rest mroot (mroot ++ [T])) w1
                    = (None, tr1, w') →
          d ∉ rest → ∀ s, w_fs w' !! (((mroot ++ [T]) ++ [d]) ++ s)
                          = w_fs w1 !! (((mroot ++ [T]) ++ [d]) ++ s)) as Hrest.
  { intros w1 tr1 Hrun1 Hnd s.
    eapply phase_frame; [apply Hrun1 | apply copyMigrations_calls |].
    intros e (d' & Hd' & He).
    assert (valid_name d' = true) as Hv'.
    { rewrite Forall_forall in Hvalid. auto. }
    rewrite !(filepath_Join_valid _ d') in He by done.
    assert (¬ ((mroot ++ [T]) ++ [d']) `prefix_of` (((mroot ++ [T]) ++ [d]) ++ s)) as Hp.
    { rewrite <- !app_assoc. intros Hp%prefix_app_inv. simpl in Hp.
      apply prefix_cons_inv_2, prefix_cons_inv_1 in Hp. congruence. }
    destruct He as [-> | [-> | ->]]; simpl; [intros [] | exact Hp |].
    intros Heq. apply Hp. by rewrite Heq. }
  (* one step leaves the original entries *)
  assert (∀ o d',
          (∃ src, o = CopyDirAfero src ((mroot ++ [T]) ++ [d0])
                  ∨ o = CopyFileAfero src ((mroot ++ [T]) ++ [d0])) →
          d' ≠ T →
          ∀ s, w_fs (mem_handler o w).2 !! ((mroot ++ [d']) ++ s)
               = w_fs w !! ((mroot ++ [d']) ++ s))
    as Hstep.
  { intros o d' Ho Hd' s. apply mem_handler_frame.
    assert (¬ ((mroot ++ [T]) ++ [d0]) `prefix_of` ((mroot ++ [d']) ++ s)) as Hp.
    { rewrite <- !app_assoc. intros Hp%prefix_app_inv. simpl in Hp.
      apply prefix_cons_inv_1 in Hp. congruence. }
    destruct Ho as (src & [-> | ->]); simpl; [done |].
    intros Heq. apply Hp. by rewrite Heq. }
  assert (d ≠ T) as HdT.
  { intros ->. apply elem_of_cons in Hd as [-> | Hd]; done. }
  destruct (decide (d ∈ rest)) as [Hin | Hnin].
  - (* [d] is copied later *)
    destruct st as [[f |] err]; simpl in Hrun.
    + destruct (IsDir f).
      * apply run_orReturn_None in Hrun as (tr1 & w1 & tr2 & Hc & Hrun & _).
        run_call_in Hc. destruct Hc as [Hh _].
        pose proof (mem_handler_fault (CopyDirAfero (mroot ++ [d0]) ((mroot ++ [T]) ++ [d0])) w)
          as Hfl. rewrite Hh in Hfl. simpl in Hfl.
        pose proof (Hstep (CopyDirAfero (mroot ++ [d0]) ((mroot ++ [T]) ++ [d0])) d
                      ltac:(eauto) HdT) as Heq.
        rewrite Hh in Heq. simpl in Heq.
        apply (same_entry_source _ _ _ (w_fs w1)); [done |].
        apply (IH _ _ _ Hrun Hvalid HT d Hin); [by rewrite Hfl |].
        specialize (Heq []). rewrite app_nil_r in Heq. by rewrite Heq.
      * apply run_orReturn_None in Hrun as (tr1 & w1 & tr2 & Hc & Hrun & _).
        run_call_in Hc. destruct Hc as [Hh _].
        pose proof (mem_handler_fault (CopyFileAfero (mroot ++ [d0]) ((mroot ++ [T]) ++ [d0])) w)
          as Hfl. rewrite Hh in Hfl. simpl in Hfl.
        pose proof (Hstep (CopyFileAfero (mroot ++ [d0]) ((mroot ++ [T]) ++ [d0])) d
                      ltac:(eauto) HdT) as Heq.
        rewrite Hh in Heq. simpl in Heq.
        apply (same_entry_source _ _ _ (w_fs w1)); [done |].
        apply (IH _ _ _ Hrun Hvalid HT d Hin); [by rewrite Hfl |].
        specialize (Heq []). rewrite app_nil_r in Heq. by rewrite Heq.
    + by apply (IH _ _ _ Hrun Hvalid HT d Hin).
  - (* [d] is the entry of this step *)
    apply elem_of_cons in Hd as [-> | Hd]; [| done].
    specialize (Hst Hfault). destruct Hex as [nd Hnd].
    unfold mem_Stat in Hst. rewrite Hnd in Hst. subst st. simpl in Hrun.
    unfold same_entry. rewrite Hnd. destruct nd as [content |]; cbn [is_dir IsDir] in Hrun.
    + apply run_orReturn_None in Hrun as (tr1 & w1 & tr2 & Hc & Hrun & _).
      run_call_in Hc. destruct Hc as [Hh _].
      apply mem_handler_CopyFile in Hh as [_ Hh].
      apply mem_CopyFile_target in Hh as (content' & Hsrc & Htgt).
      rewrite Hnd in Hsrc. injection Hsrc as <-.
      specialize (Hrest _ _ Hrun Hnin []). rewrite app_nil_r in Hrest.
      by rewrite Hrest.
    + apply run_orReturn_None in Hrun as (tr1 & w1 & tr2 & Hc & Hrun & _).
      run_call_in Hc. destruct Hc as [Hh _].
      apply mem_handler_CopyDir in Hh as [_ Hh].
      intros s. rewrite (Hrest _ _ Hrun Hnin s).
      by apply mem_CopyDir_under.
Qed.

Lemma run_bind_inv {W A B : Type} (h : Handler W) (m : Prog A) (f : A → Prog B)
    w res tr w' :
  run h (bind m f) w = (res, tr, w') →
  ∃ a tr1 w1 tr2,
    run h m w = (a, tr1, w1) ∧ run h (f a) w1 = (res, tr2, w') ∧ tr = tr1 ++ tr2.
Proof.
  rewrite run_bind. destruct (run h m w) as [[a tr1] w1].
  destruct (run h (f a) w1) as [[b tr2] w2] eqn:Hf. intros [= <- <- <-].
  by exists a, tr1, w1, tr2.
Qed.

(** The calls of [removeDirectories] make nothing new. *)
Lemma removeDirectories_creates_nothing parent dirs w res tr w' :
  run mem_handler (removeDirectories parent dirs) w = (res, tr, w') →
  Forall (λ e, creates_nothing (ev_op e)) tr.
Proof.
  intros Hrun.
  pose proof (wp_run mem_handler _ _ (removeDirectories_calls parent dirs) _ _ _ _ Hrun)
    as Hcalls.
  eapply Forall_impl; [apply Hcalls |]. intros e (d & _ & ->). exact I.
Qed.

(** After [removeDirectories] has returned nil, nothing is left of the
    entries. *)
Lemma removeDirectories_mem parent dirs :
  ∀ w tr w',
    run mem_handler (removeDirectories parent dirs) w = (None, tr, w') →
    ∀ d, d ∈ dirs → absent (w_fs w') (filepath_Join parent d).
Proof.
  induction dirs as [| d0 rest IH]; intros w tr w' Hrun d Hd.
  { by apply elem_of_nil in Hd. }
  change (removeDirectories parent (d0 :: rest))
    with (orReturn (call (Fs_RemoveAll (filepath_Join parent d0))) id
            (removeDirectories parent rest)) in Hrun.
  apply run_orReturn_None in Hrun as (tr1 & w1 & tr2 & Hc & Hrun & _).
  run_call_in Hc. destruct Hc as [Hh _]. apply mem_handler_RemoveAll in Hh.
  destruct (decide (d = d0)) as [-> | Hne].
  - intros s. eapply run_none; [apply Hrun | by eapply removeDirectories_creates_nothing |].
    rewrite Hh, mem_RemoveAll_lookup. rewrite decide_True; [done |].
    by apply prefix_app_r.
  - apply elem_of_cons in Hd as [-> | Hd]; [done |]. by eapply IH.
Qed.

Lemma mem_handler_step o w r w1 :
  mem_handler o w = (r, w1) →
  w_fault w1 = w_fault w ∧ ∀ k, ¬ touched o k → w_fs w1 !! k = w_fs w !! k.
Proof.
  intros Hh. split.
  - pose proof (mem_handler_fault o w) as Hf. by rewrite Hh in Hf.
  - intros k Hk. pose proof (mem_handler_frame o w k Hk) as Hf. by rewrite Hh in Hf.
Qed.

Ltac mem_step_of H :=
  match type of H with
  | mem_handler ?o ?w = (?r, ?w1) => apply (mem_handler_step o w r w1) in H
  end.

(** A removal below a root leaves what lies below an unrelated root. *)
Lemma removal_elsewhere (root other : path) dirs k :
  Forall (λ n, valid_name n = true) dirs →
  unrelated root other → root `prefix_of` k →
  ∀ e, removes_entry_of dirs other e → ¬ touched (ev_op e) k.
Proof.
  intros Hvalid Hun Hk e (d & Hd & ->). simpl.
  rewrite Forall_forall in Hvalid. rewrite filepath_Join_valid by auto.
  intros Hp%prefix_app_l. by eapply unrelated_no_common.
Qed.

(** The migrations in the tree once the listed entries are moved. *)
Lemma moveListed_mem w opts T migs seeds tr w' d :
  run mem_handler (moveListed opts T migs seeds) w = (None, tr, w') →
  valid_name T = true →
  Forall (λ n, valid_name n = true) migs →
  Forall (λ n, valid_name n = true) seeds →
  T ∉ migs →
  unrelated (MigrationsAbsDirectoryPath opts) (SeedsAbsDirectoryPath opts) →
  unrelated (MigrationsAbsDirectoryPath opts) (MetadataDir (EC opts)) →
  d ∈ migs →
  w_fault w (Fs_Stat (MigrationsAbsDirectoryPath opts ++ [d])) = None →
  is_Some (w_fs w !! (MigrationsAbsDirectoryPath opts ++ [d])) →
  absent (w_fs w') (MigrationsAbsDirectoryPath opts ++ [d])
  ∧ same_entry (w_fs w') ((MigrationsAbsDirectoryPath opts ++ [T]) ++ [d])
      (w_fs w) (MigrationsAbsDirectoryPath opts ++ [d]).
Proof.
  unfold moveListed.
  generalize (MigrationsAbsDirectoryPath opts) (SeedsAbsDirectoryPath opts)
    (MetadataDir (EC opts)). intros mroot sroot meta.
  intros Hrun HT Hmigs Hseeds HTm Hms Hmm Hd Hfault Hex.
  rewrite !(filepath_Join_valid _ T) in Hrun by done.
  assert (valid_name d = true) as Hvd. { rewrite Forall_forall in Hmigs. auto. }
  assert (d ≠ T) as HdT. { by intros ->. }
  assert (Forall (λ n, valid_name n = true) metadataFiles) as Hmeta.
  { by repeat constructor. }
  apply run_bind_inv in Hrun as (r1 & tr1 & w1 & tr1' & Hk1 & Hrun & _).
  run_call_in Hk1. destruct Hk1 as [Hk1 _]. mem_step_of Hk1. destruct Hk1 as [Hf1 Hk1].
  apply run_bind_inv in Hrun as (r2 & tr2 & w2 & tr2' & Hk2 & Hrun & _).
  run_call_in Hk2. destruct Hk2 as [Hk2 _]. mem_step_of Hk2. destruct Hk2 as [Hf2 Hk2].
  apply run_orReturn_None in Hrun as (trM & w3 & tr3' & HcM & Hrun & _).
  apply run_orReturn_None in Hrun as (trS & w4 & tr4' & HcS & Hrun & _).
  apply run_orReturn_None in Hrun as (trW & w5 & tr5' & HcW & Hrun & _).
  run_call_in HcW. destruct HcW as [HcW _]. mem_step_of HcW. destruct HcW as [_ HcW].
  apply run_bind_inv in Hrun as (r6 & tr6 & w6 & tr6' & HcA & Hrun & _).
  run_call_in HcA. destruct HcA as [HcA _]. mem_step_of HcA. destruct HcA as [_ HcA].
  apply run_orReturn_None in Hrun as (trR1 & w7 & tr7' & HR1 & Hrun & _).
  apply run_orReturn_None in Hrun as (trR2 & w8 & tr8' & HR2 & Hrun & _).
  apply run_orReturn_None in Hrun as (trR3 & w9 & tr9' & HR3 & Hrun & _).
  simpl in Hrun. injection Hrun as _ <-.
  (* the original entry when the copies start *)
  assert (∀ s, w_fs w2 !! ((mroot ++ [d]) ++ s) = w_fs w !! ((mroot ++ [d]) ++ s)) as Hsrc.
  { intros s. rewrite Hk2, Hk1; [done | |]; simpl.
    - rewrite <- app_assoc. intros Heq%app_inv_head. simpl in Heq. congruence.
    - intros Heq. apply (unrelated_no_common _ _ ((mroot ++ [d]) ++ s) Hms).
      + rewrite <- app_assoc. by apply prefix_app_r.
      + rewrite Heq. by apply prefix_app_r. }
  split.
  - (* the original entry is removed *)
    intros s.
    eapply run_none; [apply HR3 | by eapply removeDirectories_creates_nothing |].
    eapply run_none; [apply HR2 | by eapply removeDirectories_creates_nothing |].
    rewrite <- (filepath_Join_valid mroot d) by done.
    by eapply removeDirectories_mem.
  - (* the copy is the original entry *)
    apply (same_entry_source _ _ _ (w_fs w2)); [done |].
    assert (∀ s, mroot `prefix_of` ((mroot ++ [T]) ++ [d]) ++ s) as Hunder.
    { intros s. rewrite <- !app_assoc. by apply prefix_app_r. }
    apply (same_entry_target (w_fs w3)).
    + intros s.
      rewrite (phase_frame _ _ _ _ _ _ _ HR3 (removeDirectories_calls _ _)
                 (removal_elsewhere mroot meta _ _ Hmeta Hmm (Hunder s))).
      rewrite (phase_frame _ _ _ _ _ _ _ HR2 (removeDirectories_calls _ _)
                 (removal_elsewhere mroot sroot _ _ Hseeds Hms (Hunder s))).
      rewrite (phase_frame _ _ _ _ _ _ _ HR1 (removeDirectories_calls _ _)).
      2:{ intros e (d' & Hd' & ->). simpl.
          assert (valid_name d' = true) as Hv'. { rewrite Forall_forall in Hmigs. auto. }
          rewrite filepath_Join_valid by done. rewrite <- !app_assoc.
          intros Hp%prefix_app_inv. simpl in Hp. apply prefix_cons_inv_1 in Hp.
          congruence. }
      rewrite HcA, HcW by (simpl; tauto).
      eapply phase_frame; [apply HcS | apply copyFiles_calls |].
      intros e (f & Hf & ->). simpl.
      assert (valid_name f = true) as Hvf. { rewrite Forall_forall in Hseeds. auto. }
      rewrite (filepath_Join_valid (sroot ++ [T]) f) by done.
      intros Heq. apply (unrelated_no_common _ _ _ Hms (Hunder s)).
      rewrite Heq, <- app_assoc. by apply prefix_app_r.
    + apply (copyMigrations_mem mroot T migs w2 trM w3 HcM Hmigs HTm d Hd).
      * by rewrite Hf2, Hf1.
      * specialize (Hsrc []). rewrite app_nil_r in Hsrc. by rewrite Hsrc.
Qed.

(** The listed migrations of a tree of valid names are entries of the root
    with a valid name that matches. *)
Lemma migration_entries_elem fs root d :
  wf_names fs → d ∈ migration_entries fs root →
  valid_name d = true ∧ is_Some (fs !! (root ++ [d]))
  ∧ matches_migration_regex d = true.
Proof.
  intros Hwf. unfold migration_entries.
  destruct (mem_ReadDir fs root) as [e | infos] eqn:Hread.
  { by intros ?%elem_of_nil. }
  intros [[nd Hnd] Hm]%(kept_names_elem _ _ _ _ Hwf Hread).
  split; [by eapply wf_names_child | by eauto].
Qed.

Lemma seed_files_valid fs root :
  wf_names fs → Forall (λ n, valid_name n = true) (seed_files fs root).
Proof.
  intros Hwf. unfold seed_files.
  destruct (mem_ReadDir fs root) as [e | infos] eqn:Hread; [by constructor |].
  rewrite seed_loop_names. simpl. apply Forall_forall. intros f Hf.
  by eapply seed_names_valid.
Qed.

(** C7, as amended: on the in-memory file system, with a project tree of
    valid names, the seeds root and the metadata directory apart from the
    migrations root, and a target name that is a valid name and no listed
    migration: for every matched migration entry on whose path [Stat] is
    not made to fail, after the part of the script that moves the
    directories has returned nil, nothing is left at or below the original
    path, and the path below the target directory holds the same entry,
    the same file content or the same subtree of nodes. *)
Theorem matched_migration_moved_with_identical_content :
  ∀ (w : World) (opts : UpdateProjectV3Opts) (T : string)
    (tr : list Event) (w' : World) (d : string),
    run mem_handler (reorganizeDirectories opts T) w = (None, tr, w') →
    wf_names (w_fs w) →
    valid_name T = true →
    unrelated (MigrationsAbsDirectoryPath opts) (SeedsAbsDirectoryPath opts) →
    unrelated (MigrationsAbsDirectoryPath opts) (MetadataDir (EC opts)) →
    T ∉ migration_entries (w_fs w) (MigrationsAbsDirectoryPath opts) →
    d ∈ migration_entries (w_fs w) (MigrationsAbsDirectoryPath opts) →
    w_fault w (Fs_Stat (filepath_Join (MigrationsAbsDirectoryPath opts) d)) = None →
    absent (w_fs w') (filepath_Join (MigrationsAbsDirectoryPath opts) d)
    ∧ same_entry (w_fs w')
        (filepath_Join (filepath_Join (MigrationsAbsDirectoryPath opts) T) d)
        (w_fs w) (filepath_Join (MigrationsAbsDirectoryPath opts) d).
Proof.
  intros w opts T tr w' d Hrun Hwf HT Hms Hmm HTm Hd Hfault.
  destruct (reorganizeDirectories_mem_run _ _ _ _ _ _ Hrun)
    as [[_ [e He]] | (tr1 & tr2 & -> & Hm)]; [done |].
  destruct (migration_entries_elem _ _ _ Hwf Hd) as (Hvd & Hex & _).
  rewrite (filepath_Join_valid _ T) by done.
  rewrite !(filepath_Join_valid _ d) in * by done.
  eapply moveListed_mem; try done.
  - apply Forall_forall. intros d' Hd'.
    by destruct (migration_entries_elem _ _ _ Hwf Hd') as (? & _).
  - by apply seed_files_valid.
Qed.

Lemma matched_migration_moved_with_identical_content_witness :
  absent (w_fs demo_reorganize_run.2)
    (filepath_Join ["p"; "migrations"] "1610000000000_init")
  ∧ same_entry (w_fs demo_reorganize_run.2)
      (filepath_Join (filepath_Join ["p"; "migrations"] "default") "1610000000000_init")
      demo_fs (filepath_Join ["p"; "migrations"] "1610000000000_init").
Proof.
  apply (matched_migration_moved_with_identical_content demo_world demo_opts "default"
           demo_reorganize_run.1.2 demo_reorganize_run.2 "1610000000000_init").
  - vm_compute. reflexivity.
  - change (map_Forall (λ (k : path) (_ : node), Forall (λ n, valid_name n = true) k)
              demo_fs).
    apply (bool_decide_unpack _). vm_compute. reflexivity.
  - reflexivity.
  - split; apply (bool_decide_unpack _); vm_compute; reflexivity.
  - split; apply (bool_decide_unpack _); vm_compute; reflexivity.
  - apply (bool_decide_unpack _). vm_compute. reflexivity.
  - apply (bool_decide_unpack _). vm_compute. reflexivity.
  - reflexivity.
Defined.

(** The counterexample to C7 as stated: in the project of the example the
    first migration is an entry of the migrations root whose name matches;
    with a fault on [Stat] for its path, the part of the script that moves
    the directories returns nil, the original entry is gone, and nothing is
    at the path below the target directory. *)
Lemma matched_migration_lost_when_stat_fails :
  demo_fs !! ["p"; "migrations"; "1610000000000_init"] = Some Dir
  ∧ demo_fs !! ["p"; "migrations"; "1610000000000_init"; "up.sql"]
    = Some (File "create table t();")
  ∧ matches_migration_regex "1610000000000_init" = true
  ∧ demo_stat_fault_reorganize_run.1.1 = None
  ∧ w_fs demo_stat_fault_reorganize_run.2 !! ["p"; "migrations"; "1610000000000_init"]
    = None
  ∧ w_fs demo_stat_fault_reorganize_run.2
      !! ["p"; "migrations"; "default"; "1610000000000_init"] = None
  ∧ w_fs demo_stat_fault_reorganize_run.2
      !! ["p"; "migrations"; "default"; "1610000000000_init"; "up.sql"] = None.
Proof. vm_compute. repeat split; reflexivity. Qed.

(* ===================================================================== *)
(** * Further properties of the script *)
(* ===================================================================== *)

(** *** The loops stop at the first error *)

Lemma removeDirectories_prefix parent dirs :
  wp (removeDirectories parent dirs) (λ tr res,
    ∃ removed : list string,
      removed `prefix_of` dirs
      ∧ ev_op <$> tr = removal_ops parent removed
      ∧ match res with
        | None => removed = dirs ∧ never failed tr
        | Some err =>
            ∃ pre e, tr = pre ++ [e] ∧ never failed pre ∧ error_of e = Some err
        end).
Proof.
  induction dirs as [| d rest IH]; simpl.
  { exists []. repeat split; [done | apply never_nil]. }
  intros [err |]; simpl.
  - exists [d]. split; [by apply prefix_cons, prefix_nil |]. split; [done |].
    exists [], (Ev (Fs_RemoveAll (filepath_Join parent d)) (Some err)).
    repeat split. apply never_nil.
  - eapply wp_mono; [| apply IH]. simpl.
    intros tr res (removed & Hpre & Hops & Hres).
    exists (d :: removed). split; [by apply prefix_cons |].
    split; [unfold removal_ops, file_copy_ops in *; simpl; f_equal; exact Hops |].
    destruct res as [err |].
    + destruct Hres as (pre & e & -> & Hnf & He).
      exists (Ev (Fs_RemoveAll (filepath_Join parent d)) None :: pre), e.
      repeat split; [| done]. by apply never_cons.
    + destruct Hres as [-> Hnf]. split; [done |]. by apply never_cons.
Qed.

(** X1: [removeDirectories] removes the entries in the order of the list and
    stops at the first removal that fails: the calls it makes are the
    removals of a front part of the list; when it returns nil that part is
    the whole list and no removal has failed; when it returns an error,
    that error is the one of its last call, as it is, and no earlier
    removal has failed. *)
Theorem removeDirectories_stops_at_first_failure :
  ∀ (W : Type) (h : Handler W) (w : W) (parent : path) (dirs : list string)
    (res : option error) (tr : list Event) (w' : W),
    run h (removeDirectories parent dirs) w = (res, tr, w') →
    ∃ removed : list string,
      removed `prefix_of` dirs
      ∧ ev_op <$> tr = removal_ops parent removed
      ∧ match res with
        | None => removed = dirs ∧ never failed tr
        | Some err =>
            ∃ pre e, tr = pre ++ [e] ∧ never failed pre ∧ error_of e = Some err
        end.
Proof.
  intros W h w parent dirs res tr w' Hrun.
  exact (wp_run h _ _ (removeDirectories_prefix parent dirs) _ _ _ _ Hrun).
Qed.

Lemma removeDirectories_stops_at_first_failure_witness :
  ∃ removed : list string,
    removed `prefix_of` demo_migrations
    ∧ ev_op <$> demo_removal_run.1.2 = removal_ops ["p"; "migrations"] removed
    ∧ match demo_removal_run.1.1 with
      | None => removed = demo_migrations ∧ never failed demo_removal_run.1.2
      | Some err =>
          ∃ pre e, demo_removal_run.1.2 = pre ++ [e] ∧ never failed pre
                   ∧ error_of e = Some err
      end.
Proof.
  apply (removeDirectories_stops_at_first_failure World mem_handler
           demo_second_removal_fault_world ["p"; "migrations"] demo_migrations
           demo_removal_run.1.1 demo_removal_run.1.2 demo_removal_run.2).
  unfold demo_removal_run. by destruct (run _ _ _) as [[? ?] ?].
Defined.

Lemma copyFiles_prefix files parent target :
  wp (copyFiles files parent target) (λ tr res,
    ∃ copied : list string,
      copied `prefix_of` files
      ∧ ev_op <$> tr = file_copy_ops parent target copied
      ∧ match res with
        | None => copied = files ∧ never failed tr
        | Some err =>
            ∃ pre e f cause,
              tr = pre ++ [e] ∧ never failed pre ∧ last copied = Some f
              ∧ error_of e = Some cause ∧ err = moving f target cause
        end).
Proof.
  induction files as [| f0 rest IH]; simpl.
  { exists []. repeat split; [done | apply never_nil]. }
  intros [err |]; simpl.
  - exists [f0]. split; [by apply prefix_cons, prefix_nil |]. split; [done |].
    exists [], (Ev (CopyFileAfero (filepath_Join parent f0) (filepath_Join target f0))
                  (Some err)), f0, err.
    repeat split. apply never_nil.
  - eapply wp_mono; [| apply IH]. simpl.
    intros tr res (copied & Hpre & Hops & Hres).
    exists (f0 :: copied). split; [by apply prefix_cons |].
    split; [unfold removal_ops, file_copy_ops in *; simpl; f_equal; exact Hops |].
    destruct res as [err |].
    + destruct Hres as (pre & e & f & cause & -> & Hnf & Hl & He & ->).
      exists (Ev (CopyFileAfero (filepath_Join parent f0) (filepath_Join target f0)) None
              :: pre), e, f, cause.
      repeat split; [by apply never_cons | | done].
      destruct copied; [done |]. by rewrite last_cons, Hl.
    + destruct Hres as [-> Hnf]. split; [done |]. by apply never_cons.
Qed.

(** X2: [copyFiles] copies the files in the order of the list and stops at
    the first copy that fails: its calls are the copies of a front part of
    the list, each from the parent directory to the same name below the
    target; when it returns nil every file of the list is copied and no
    copy has failed; when it returns an error, the last call is the one
    that failed and the error names the file of that call and the target
    in front of the cause.  Nothing is undone: what is copied before the
    failure stays. *)
Theorem copyFiles_stops_at_first_failure :
  ∀ (W : Type) (h : Handler W) (w : W) (files : list string) (parent target : path)
    (res : option error) (tr : list Event) (w' : W),
    run h (copyFiles files parent target) w = (res, tr, w') →
    ∃ copied : list string,
      copied `prefix_of` files
      ∧ ev_op <$> tr = file_copy_ops parent target copied
      ∧ match res with
        | None => copied = files ∧ never failed tr
        | Some err =>
            ∃ pre e f cause,
              tr = pre ++ [e] ∧ never failed pre ∧ last copied = Some f
              ∧ error_of e = Some cause ∧ err = moving f target cause
        end.
Proof.
  intros W h w files parent target res tr w' Hrun.
  exact (wp_run h _ _ (copyFiles_prefix files parent target) _ _ _ _ Hrun).
Qed.

Lemma copyFiles_stops_at_first_failure_witness :
  ∃ copied : list string,
    copied `prefix_of` ["seed1.sql"; "seed2.sql"]
    ∧ ev_op <$> demo_copyFiles_run.1.2
      = file_copy_ops ["p"; "seeds"] ["p"; "migrations"] copied
    ∧ match demo_copyFiles_run.1.1 with
      | None => copied = ["seed1.sql"; "seed2.sql"] ∧ never failed demo_copyFiles_run.1.2
      | Some err =>
          ∃ pre e f cause,
            demo_copyFiles_run.1.2 = pre ++ [e] ∧ never failed pre
            ∧ last copied = Some f
            ∧ error_of e = Some cause ∧ err = moving f ["p"; "migrations"] cause
      end.
Proof.
  apply (copyFiles_stops_at_first_failure World mem_handler demo_world
           ["seed1.sql"; "seed2.sql"] ["p"; "seeds"] ["p"; "migrations"]
           demo_copyFiles_run.1.1 demo_copyFiles_run.1.2 demo_copyFiles_run.2).
  unfold demo_copyFiles_run. by destruct (run _ _ _) as [[? ?] ?].
Defined.

(** *** The copy of a migration follows its [Stat] *)

Lemma cons_eq_app_cons {A : Type} (x : A) tr pre e post :
  x :: tr = pre ++ e :: post →
  (pre = [] ∧ e = x ∧ post = tr) ∨ ∃ pre2, pre = x :: pre2 ∧ tr = pre2 ++ e :: post.
Proof.
  destruct pre as [| y pre2]; simpl; intros [= -> ->]; [by left |].
  right. by exists pre2.
Qed.

Lemma copy_follows_stat_later dirs parent target d0 evs pre e :
  copy_follows_stat dirs parent target pre e →
  copy_follows_stat (d0 :: dirs) parent target (evs ++ pre) e.
Proof.
  intros (d & f & serr & pre' & Hd & -> & He).
  exists d, f, serr, (evs ++ pre'). split; [by right |]. by rewrite app_assoc.
Qed.

Lemma copyMigrations_copy_after_stat dirs parent target :
  wp (copyMigrations dirs parent target) (λ tr _,
    ∀ pre e post, tr = pre ++ e :: post → is_copy e = true →
      copy_follows_stat dirs parent target pre e).
Proof.
  induction dirs as [| d rest IH]; simpl.
  { intros pre e post Htr. by destruct pre. }
  intros [[f |] serr]; simpl.
  - assert (∀ (c : Event) tr',
              ev_op c = (if IsDir f
                         then CopyDirAfero (filepath_Join parent d) (filepath_Join target d)
                         else CopyFileAfero (filepath_Join parent d) (filepath_Join target d)) →
              (∀ pre e post, tr' = pre ++ e :: post → is_copy e = true →
                 copy_follows_stat rest parent target pre e) →
              ∀ pre e post,
                Ev (Fs_Stat (filepath_Join parent d)) (Some f, serr) :: c :: tr'
                = pre ++ e :: post →
                is_copy e = true →
                copy_follows_stat (d :: rest) parent target pre e) as Hstep.
    { intros c tr' Hc Htr' pre e post Htr He.
      apply cons_eq_app_cons in Htr as [(-> & -> & _) | (pre2 & -> & Htr)]; [done |].
      apply cons_eq_app_cons in Htr as [(-> & -> & _) | (pre3 & -> & Htr)].
      - exists d, f, serr, []. split; [by left | done].
      - apply (copy_follows_stat_later _ _ _ d [_; _]). by eapply Htr'. }
    destruct (IsDir f); simpl; intros [err |]; simpl.
    + apply Hstep; [done |]. intros pre e post Htr. by destruct pre.
    + eapply wp_mono; [| apply IH]. simpl. intros tr' _ Htr'. by apply Hstep.
    + apply Hstep; [done |]. intros pre e post Htr. by destruct pre.
    + eapply wp_mono; [| apply IH]. simpl. intros tr' _ Htr'. by apply Hstep.
  - eapply wp_mono; [| apply IH]. simpl. intros tr' _ Htr' pre e post Htr He.
    apply cons_eq_app_cons in Htr as [(-> & -> & _) | (pre2 & -> & Htr)]; [done |].
    apply (copy_follows_stat_later _ _ _ d [_]). by eapply Htr'.
Qed.

(** X3: Every copy that [copyMigrations] makes is for an entry of its list,
    from the parent directory to the same name below the target, and comes
    right after the [Stat] of that entry has returned a file info: a
    recursive copy when the info says directory, a copy of one file
    otherwise.  The error that [Stat] returns beside the info plays no
    part. *)
Theorem copyMigrations_copies_what_stat_found :
  ∀ (W : Type) (h : Handler W) (w : W) (dirs : list string) (parent target : path)
    (res : option error) (tr : list Event) (w' : W)
    (pre : list Event) (e : Event) (post : list Event),
    run h (copyMigrations dirs parent target) w = (res, tr, w') →
    tr = pre ++ e :: post →
    is_copy e = true →
    copy_follows_stat dirs parent target pre e.
Proof.
  intros W h w dirs parent target res tr w' pre e post Hrun.
  exact (wp_run h _ _ (copyMigrations_copy_after_stat dirs parent target)
           _ _ _ _ Hrun pre e post).
Qed.

Lemma copyMigrations_copies_what_stat_found_witness :
  copy_follows_stat demo_migrations ["p"; "migrations"] ["p"; "migrations"; "default"]
    (take 1 demo_copyMigrations_run.1.2)
    (Ev (CopyDirAfero ["p"; "migrations"; "1610000000000_init"]
           ["p"; "migrations"; "default"; "1610000000000_init"]) None).
Proof.
  apply (copyMigrations_copies_what_stat_found World mem_handler
           (mem_handler (Fs_Mkdir ["p"; "migrations"; "default"]) demo_world).2
           demo_migrations ["p"; "migrations"] ["p"; "migrations"; "default"]
           demo_copyMigrations_run.1.1 demo_copyMigrations_run.1.2
           demo_copyMigrations_run.2
           (take 1 demo_copyMigrations_run.1.2) _
           (drop 2 demo_copyMigrations_run.1.2)).
  - unfold demo_copyMigrations_run. by destruct (run _ _ _) as [[? ?] ?].
  - vm_compute. reflexivity.
  - reflexivity.
Defined.

(** *** The listings *)

Lemma kept_names_filter (matcher : string → bool * option error) dirs :
  kept_names matcher dirs
  = (λ info, filepath_Join1 (Name info))
      <$> filter (λ info, (matcher (Name info)).1 = true) dirs.
Proof.
  unfold kept_names. induction dirs as [| info rest IH]; [done |].
  rewrite filter_cons. csimpl. rewrite IH.
  destruct (decide ((matcher (Name info)).1 = true)) as [Hm | Hm].
  - by rewrite Hm.
  - by destruct ((matcher (Name info)).1).
Qed.

Lemma seed_names_filter dirs :
  seed_names dirs
  = (λ info, filepath_Join1 (Name info)) <$> filter (λ info, IsDir info = false) dirs.
Proof.
  unfold seed_names. induction dirs as [| info rest IH]; [done |].
  rewrite filter_cons. csimpl. rewrite IH.
  destruct (decide (IsDir info = false)) as [Hd | Hd].
  - by rewrite Hd.
  - by destruct (IsDir info).
Qed.

(** X4: [getMigrationDirectoryNames] makes one call, the listing of the
    directory.  The error of the listing is returned as it is, and there
    is no other error: the matcher never fails.  Of a listing it returns,
    in the order of the listing, the cleaned names of the entries, files
    and directories alike, whose base name matches the naming convention
    of generated migrations. *)
Theorem getMigrationDirectoryNames_returns_matching_entries :
  ∀ (W : Type) (h : Handler W) (w : W) (rootMigrationsDir : path)
    (res : error + list string) (tr : list Event) (w' : W),
    run h (getMigrationDirectoryNames rootMigrationsDir) w = (res, tr, w') →
    ∃ r : error + list FileInfo,
      tr = [Ev (Fs_ReadDir rootMigrationsDir) r]
      ∧ res = match r with
              | inl err => inl err
              | inr dirs =>
                  inr ((λ info, filepath_Join1 (Name info))
                         <$> filter (λ info, matches_migration_regex
                                               (filepath_Base (Name info)) = true) dirs)
              end.
Proof.
  intros W h w root res tr w'.
  unfold getMigrationDirectoryNames, getMatchingFilesAndDirs. simpl.
  destruct (h (Fs_ReadDir root) w) as [r w1].
  destruct r as [err | dirs]; simpl; intros [= <- <- <-].
  - by exists (inl err).
  - exists (inr dirs). split; [done |].
    rewrite matching_loop_kept. simpl. by rewrite kept_names_filter.
Qed.

Lemma getMigrationDirectoryNames_returns_matching_entries_witness :
  ∃ r : error + list FileInfo,
    demo_listing_run.1.2 = [Ev (Fs_ReadDir ["p"; "migrations"]) r]
    ∧ demo_listing_run.1.1
      = match r with
        | inl err => inl err
        | inr dirs =>
            inr ((λ info, filepath_Join1 (Name info))
                   <$> filter (λ info, matches_migration_regex
                                         (filepath_Base (Name info)) = true) dirs)
        end.
Proof.
  apply (getMigrationDirectoryNames_returns_matching_entries World mem_handler
           demo_world ["p"; "migrations"]
           demo_listing_run.1.1 demo_listing_run.1.2 demo_listing_run.2).
  unfold demo_listing_run. by destruct (run _ _ _) as [[? ?] ?].
Defined.

(** X5: [getSeedFiles] makes one call, the listing of the directory, and
    returns its error as it is.  Of a listing it returns, in the order of
    the listing, the cleaned names of the entries that are not
    directories, whatever their names: no naming convention is asked of a
    seed file, and a directory of the seeds root is never listed. *)
Theorem getSeedFiles_returns_the_files :
  ∀ (W : Type) (h : Handler W) (w : W) (rootSeedDir : path)
    (res : error + list string) (tr : list Event) (w' : W),
    run h (getSeedFiles rootSeedDir) w = (res, tr, w') →
    ∃ r : error + list FileInfo,
      tr = [Ev (Fs_ReadDir rootSeedDir) r]
      ∧ res = match r with
              | inl err => inl err
              | inr dirs =>
                  inr ((λ info, filepath_Join1 (Name info))
                         <$> filter (λ info, IsDir info = false) dirs)
              end.
Proof.
  intros W h w root res tr w'. unfold getSeedFiles. simpl.
  destruct (h (Fs_ReadDir root) w) as [r w1].
  destruct r as [err | dirs]; simpl; intros [= <- <- <-].
  - by exists (inl err).
  - exists (inr dirs). split; [done |].
    rewrite seed_loop_names. simpl. by rewrite seed_names_filter.
Qed.

Lemma getSeedFiles_returns_the_files_witness :
  ∃ r : error + list FileInfo,
    demo_seed_listing_run.1.2 = [Ev (Fs_ReadDir ["p"; "seeds"]) r]
    ∧ demo_seed_listing_run.1.1
      = match r with
        | inl err => inl err
        | inr dirs =>
            inr ((λ info, filepath_Join1 (Name info))
                   <$> filter (λ info, IsDir info = false) dirs)
        end.
Proof.
  apply (getSeedFiles_returns_the_files World mem_handler demo_world ["p"; "seeds"]
           demo_seed_listing_run.1.1 demo_seed_listing_run.1.2 demo_seed_listing_run.2).
  unfold demo_seed_listing_run. by destruct (run _ _ _) as [[? ?] ?].
Defined.

(** *** The naming convention *)

Lemma take_digits_spec n s rest :
  take_digits n s = Some rest ↔
    ∃ stamp, s = stamp +:+ rest ∧ String.length stamp = n ∧ all_digits stamp = true.
Proof.
  revert s. induction n as [| n IH]; intros s; simpl.
  - split.
    + intros [= ->]. by exists "".
    + intros (stamp & -> & Hl & _). by destruct stamp.
  - destruct s as [| c s'].
    + split; [done |]. intros (stamp & Hs & Hl & _). by destruct stamp.
    + destruct (is_digit c) eqn:Hc.
      * rewrite IH. split.
        -- intros (stamp & -> & Hl & Hd). exists (String c stamp).
           repeat split; simpl; [by rewrite Hl | by rewrite Hc].
        -- intros (stamp & Hs & Hl & Hd). destruct stamp as [| c' stamp]; [done |].
           injection Hs as <- ->. simpl in Hl, Hd.
           apply andb_true_iff in Hd as [_ Hd]. exists stamp.
           repeat split; [lia | done].
      * split; [done |]. intros (stamp & Hs & Hl & Hd).
        destruct stamp as [| c' stamp]; [done |]. injection Hs as <- ->.
        simpl in Hd. rewrite Hc in Hd. done.
Qed.

(** X6: The names that the script takes for generated migrations: a name
    matches the pattern of [isHasuraCLIGeneratedMigration] exactly when it
    is thirteen digits, an underscore, and then any text without a line
    feed, which may be empty. *)
Theorem generated_migration_names :
  ∀ s : string,
    matches_migration_regex s = true ↔
      ∃ stamp name : string,
        s = stamp +:+ "_" +:+ name
        ∧ String.length stamp = 13
        ∧ all_digits stamp = true
        ∧ no_newline name = true.
Proof.
  intros s. unfold matches_migration_regex. split.
  - destruct (take_digits 13 s) as [[| c rest] |] eqn:Ht; [done | | done].
    intros [Hc Hn]%andb_true_iff. apply Ascii.eqb_eq in Hc as ->.
    apply take_digits_spec in Ht as (stamp & -> & Hl & Hd).
    by exists stamp, rest.
  - intros (stamp & name & -> & Hl & Hd & Hn).
    assert (take_digits 13 (stamp +:+ "_" +:+ name) = Some ("_" +:+ name)) as ->.
    { apply take_digits_spec. by exists stamp. }
    simpl. done.
Qed.

(** *** The checks and the confirmation *)

Lemma updateProject_never (P : Event → bool) opts :
  (∀ e, is_project_call e = true → P e = false) →
  (∀ e, is_state_call e = true → P e = false) →
  (∀ r, P (Ev GetSources r) = false) →
  (∀ m o r, P (Ev (GetSelectPrompt m o) r) = false) →
  wp (updateProject opts) (λ tr _, never P tr).
Proof.
  intros HP HS HG HQ. unfold updateProject, orReturnV. psimpl.
  intros [e | sources]; psimpl; [auto with trace |].
  apply wp_bind.
  eapply wp_mono; [| by apply (selectTargetDatabase_never P)].
  psimpl. intros tr1 [e | T] H1; psimpl.
  { rewrite app_nil_r. auto with trace. }
  eapply wp_mono; [| by apply (moveState_never P)].
  psimpl. auto with trace.
Qed.

Lemma nothing_done_unless_checks_pass_aux {W : Type} (h : Handler W) (w : W)
    (opts : UpdateProjectV3Opts) (res : option error) (tr : list Event) (w' : W) :
    run h (UpdateProjectV3 opts) w = (res, tr, w') →
    (¬ prechecks_pass opts → tr = [] ∧ is_Some res)
    ∧ (prechecks_pass opts →
         ∃ r rest, tr = Ev GetInconsistentMetadata r :: rest
                   ∧ (r ≠ inr true → rest = [] ∧ is_Some res)).
Proof.
  intros Hrun. unfold UpdateProjectV3 in Hrun.
  destruct (bool_decide (Version (EC_Config (EC opts)) ≠ V2)
            && negb (MoveStateOnly opts)) eqn:Hc1.
  { apply andb_true_iff in Hc1 as [HV%bool_decide_eq_true HM%negb_true_iff].
    injection Hrun as <- <- _. split; [by eauto |].
    intros [[? | ?] _]; congruence. }
  destruct (negb (HasMetadataV3 (EC opts))) eqn:Hc2.
  { apply negb_true_iff in Hc2. injection Hrun as <- <- _. split; [by eauto |].
    intros [_ ?]; congruence. }
  assert (prechecks_pass opts) as Hpass.
  { split; [| by apply negb_false_iff].
    apply andb_false_iff in Hc1 as [HV%bool_decide_eq_false | HM%negb_false_iff].
    - left. by apply dec_stable.
    - by right. }
  split; [done |]. intros _.
  unfold orReturnV in Hrun.
  apply run_bind_inv in Hrun as (r & tr1 & w1 & tr2 & Hc & Hk & ->).
  run_call_in Hc. destruct Hc as [_ ->].
  exists r, tr2. split; [done |]. intros Hr.
  destruct r as [e | []]; [| done |]; simpl in Hk; injection Hk as <- <- _; by eauto.
Qed.

(** X7: [UpdateProjectV3] does nothing before its checks have passed: when
    the project is not at config version 2 and not only the state is to be
    moved, or when the server has no metadata of version 3, it returns an
    error without a single call; otherwise its first call asks the server
    whether the metadata is consistent, and unless the answer is that it
    is, that call is the only one and the run returns an error. *)
Theorem nothing_done_unless_checks_pass :
  ∀ (W : Type) (h : Handler W) (w : W) (opts : UpdateProjectV3Opts)
    (res : option error) (tr : list Event) (w' : W),
    run h (UpdateProjectV3 opts) w = (res, tr, w') →
    (¬ prechecks_pass opts → tr = [] ∧ is_Some res)
    ∧ (prechecks_pass opts →
         ∃ r rest, tr = Ev GetInconsistentMetadata r :: rest
                   ∧ (r ≠ inr true → rest = [] ∧ is_Some res)).
Proof.
  intros W h w opts res tr w'. apply nothing_done_unless_checks_pass_aux.
Qed.

Lemma nothing_done_unless_checks_pass_witness :
  (¬ prechecks_pass demo_opts → demo_run.1.2 = [] ∧ is_Some demo_run.1.1)
  ∧ (prechecks_pass demo_opts →
       ∃ r rest, demo_run.1.2 = Ev GetInconsistentMetadata r :: rest
                 ∧ (r ≠ inr true → rest = [] ∧ is_Some demo_run.1.1)).
Proof.
  apply (nothing_done_unless_checks_pass World mem_handler demo_world demo_opts
           demo_run.1.1 demo_run.1.2 demo_run.2).
  unfold demo_run. by destruct (run _ _ _) as [[? ?] ?].
Defined.

(** The runs of [UpdateProjectV3] by what happens before the sources are
    asked for. *)
Lemma UpdateProjectV3_run_cases {W : Type} (h : Handler W) w opts res tr w' :
  run h (UpdateProjectV3 opts) w = (res, tr, w') →
  (tr = [] ∧ is_Some res)
  ∨ (∃ r, tr = [Ev GetInconsistentMetadata r] ∧ r ≠ inr true ∧ is_Some res)
  ∨ (Force opts = false
     ∧ ∃ e, tr = [Ev GetInconsistentMetadata (inr true);
                  Ev (GetYesNoPrompt "continue?") (inl e)]
            ∧ res = Some e)
  ∨ (Force opts = false
     ∧ tr = [Ev GetInconsistentMetadata (inr true);
             Ev (GetYesNoPrompt "continue?") (inr "n")]
     ∧ res = None)
  ∨ (∃ pre w1 tr2,
       ((Force opts = true ∧ pre = [Ev GetInconsistentMetadata (inr true)])
        ∨ (Force opts = false
           ∧ ∃ answer, answer ≠ "n"
               ∧ pre = [Ev GetInconsistentMetadata (inr true);
                        Ev (GetYesNoPrompt "continue?") (inr answer)]))
       ∧ tr = pre ++ tr2
       ∧ run h (updateProject opts) w1 = (res, tr2, w')).
Proof.
  intros Hrun.
  destruct (nothing_done_unless_checks_pass_aux h w opts res tr w' Hrun) as [Hno Hyes].
  destruct (decide (prechecks_pass opts)) as [Hp | Hp]; [| left; by apply Hno].
  clear Hno Hyes. unfold UpdateProjectV3 in Hrun. destruct Hp as [HV HH].
  assert (bool_decide (Version (EC_Config (EC opts)) ≠ V2)
          && negb (MoveStateOnly opts) = false) as Hc1.
  { apply andb_false_iff. destruct HV as [HV | HM].
    - left. by apply bool_decide_eq_false_2; intros ?.
    - right. by rewrite HM. }
  rewrite Hc1, HH in Hrun. simpl negb in Hrun. cbv iota in Hrun.
  unfold orReturnV in Hrun.
  apply run_bind_inv in Hrun as (r & tr1 & w1 & tr2 & Hc & Hk & ->).
  run_call_in Hc. destruct Hc as [_ ->].
  destruct r as [e | []]; cbn [negb] in Hk.
  - simpl in Hk. injection Hk as <- <- _. right; left. exists (inl e). by eauto.
  - destruct (Force opts) eqn:HF; cbn [negb] in Hk.
    + do 4 right. exists [Ev GetInconsistentMetadata (inr true)], w1, tr2. by eauto.
    + apply run_bind_inv in Hk as (a & tr3 & w2 & tr4 & Hc & Hk & ->).
      run_call_in Hc. destruct Hc as [_ ->].
      destruct a as [e | answer]; cbn [negb] in Hk.
      * simpl in Hk. injection Hk as <- <- _. do 2 right; left. by eauto.
      * destruct (decide (answer = "n")) as [-> | Hn].
        -- simpl in Hk. injection Hk as <- <- _. do 3 right; left. by eauto.
        -- do 4 right.
           exists [Ev GetInconsistentMetadata (inr true);
                   Ev (GetYesNoPrompt "continue?") (inr answer)], w2, tr4.
           split; [right; by eauto |]. by split.
  - simpl in Hk. injection Hk as <- <- _. right; left. exists (inr false). by eauto.
Qed.

Lemma declined_is_prompt e : declined e = true → is_yesno_prompt e = true.
Proof. destruct e as [o r]. by destruct o. Qed.

(** X8: When the user answers [n] to the question whether to continue,
    [UpdateProjectV3] returns nil and has made two calls only, the check of
    the metadata and the question: the sources are not asked for, no state
    is copied and nothing of the project is read or changed. *)
Theorem declined_confirmation_returns_nil_untouched :
  ∀ (W : Type) (h : Handler W) (w : W) (opts : UpdateProjectV3Opts)
    (res : option error) (tr : list Event) (w' : W),
    run h (UpdateProjectV3 opts) w = (res, tr, w') →
    sometime declined tr →
    res = None
    ∧ tr = [Ev GetInconsistentMetadata (inr true);
            Ev (GetYesNoPrompt "continue?") (inr "n")].
Proof.
  intros W h w opts res tr w' Hrun Hd.
  destruct (UpdateProjectV3_run_cases h w opts res tr w' Hrun)
    as [[-> _] | [(r & -> & _) | [(_ & e & -> & _) | [(_ & -> & ->)
        | (pre & w1 & tr2 & Hpre & -> & Hup)]]]].
  - by apply Exists_nil in Hd.
  - apply Exists_cons in Hd as [Hd | Hd]; [done | by apply Exists_nil in Hd].
  - apply Exists_cons in Hd as [Hd | Hd]; [done |].
    apply Exists_cons in Hd as [Hd | Hd]; [done | by apply Exists_nil in Hd].
  - done.
  - exfalso.
    assert (never declined tr2) as Hn2.
    { eapply never_weaken; [| apply (wp_run h _ _ (updateProject_never is_yesno_prompt opts
                                      ltac:(by intros [[] ?]) ltac:(by intros [[] ?])
                                      ltac:(done) ltac:(done)) _ _ _ _ Hup)].
      intros e He. destruct (declined e) eqn:Hde; [| done].
      apply declined_is_prompt in Hde. congruence. }
    apply Exists_app in Hd as [Hd | Hd]; [| by eapply never_sometime].
    destruct Hpre as [[_ ->] | (_ & answer & Hn & ->)].
    + apply Exists_cons in Hd as [Hd | Hd]; [done | by apply Exists_nil in Hd].
    + apply Exists_cons in Hd as [Hd | Hd]; [done |].
      apply Exists_cons in Hd as [Hd | Hd]; [| by apply Exists_nil in Hd].
      unfold declined in Hd. simpl in Hd. apply bool_decide_eq_true in Hd.
      congruence.
Qed.

Lemma declined_confirmation_returns_nil_untouched_witness :
  demo_decline_run.1.1 = None
  ∧ demo_decline_run.1.2 = [Ev GetInconsistentMetadata (inr true);
                            Ev (GetYesNoPrompt "continue?") (inr "n")].
Proof.
  apply (declined_confirmation_returns_nil_untouched World mem_handler
           demo_decline_world demo_ask_opts
           demo_decline_run.1.1 demo_decline_run.1.2 demo_decline_run.2).
  - unfold demo_decline_run. by destruct (run _ _ _) as [[? ?] ?].
  - unfold sometime. apply (bool_decide_unpack _). vm_compute. reflexivity.
Defined.

(** With [Force] the question whether to continue is never asked;
    without it, whatever the run does beyond the check of the metadata and
    the question itself, it does after the question has been asked, once,
    and answered with something other than [n]. *)
Lemma confirmation_before_everything :
  ∀ (W : Type) (h : Handler W) (w : W) (opts : UpdateProjectV3Opts)
    (res : option error) (tr : list Event) (w' : W),
    run h (UpdateProjectV3 opts) w = (res, tr, w') →
    (Force opts = true → never is_yesno_prompt tr)
    ∧ (Force opts = false →
         ∀ e, e ∈ tr → ev_op e ≠ GetInconsistentMetadata → is_yesno_prompt e = false →
           ∃ answer rest,
             answer ≠ "n"
             ∧ tr = Ev GetInconsistentMetadata (inr true)
                    :: Ev (GetYesNoPrompt "continue?") (inr answer) :: rest
             ∧ never is_yesno_prompt rest
             ∧ e ∈ rest).
Proof.
  intros W h w opts res tr w' Hrun.
  assert (∀ w1 tr2, run h (updateProject opts) w1 = (res, tr2, w') →
                    never is_yesno_prompt tr2) as Hup.
  { intros w1 tr2 Hup.
    apply (wp_run h _ _ (updateProject_never is_yesno_prompt opts
             ltac:(by intros [[] ?]) ltac:(by intros [[] ?])
             ltac:(done) ltac:(done)) _ _ _ _ Hup). }
  destruct (UpdateProjectV3_run_cases h w opts res tr w' Hrun)
    as [[-> _] | [(r & -> & _) | [(HF & e0 & -> & _) | [(HF & -> & ->)
        | (pre & w1 & tr2 & Hpre & -> & Hrun2)]]]].
  - split; [intros _; apply never_nil |]. intros _ e He. by apply elem_of_nil in He.
  - split; [intros _; by repeat constructor |].
    intros _ e He Hop. apply list_elem_of_singleton in He as ->. done.
  - split; [congruence |]. intros _ e He Hop Hq.
    apply elem_of_cons in He as [-> | He]; [done |].
    apply list_elem_of_singleton in He as ->. done.
  - split; [congruence |]. intros _ e He Hop Hq.
    apply elem_of_cons in He as [-> | He]; [done |].
    apply list_elem_of_singleton in He as ->. done.
  - specialize (Hup _ _ Hrun2).
    destruct Hpre as [[HF ->] | (HF & answer & Hn & ->)].
    + split; [| congruence]. intros _. by apply never_cons.
    + split; [congruence |]. intros _ e He Hop Hq.
      exists answer, tr2. split; [done |]. split; [done |]. split; [done |].
      apply elem_of_cons in He as [-> | He]; [done |].
      apply elem_of_cons in He as [-> | He]; [done | done].
Qed.

(** *** The check for the upgrade *)

(** X10: [CheckIfUpdateToConfigV3IsRequired] by the version of the config:
    when the server has no metadata of version 3, or the project is at
    version 3, it returns nil without a call; at version 1 it asks for the
    upgrade to version 2 without a call; at version 2 it makes one call,
    for the sources, returns its error as it is, and returns nil only for
    the one source called default: no source and any other list of sources
    are errors. *)
Theorem upgrade_check_by_version :
  ∀ (W : Type) (h : Handler W) (w : W) (ec : ExecutionContext)
    (res : option error) (tr : list Event) (w' : W),
    run h (CheckIfUpdateToConfigV3IsRequired ec) w = (res, tr, w') →
    if HasMetadataV3 ec then
      match Version (EC_Config ec) with
      | V1 => tr = [] ∧ is_Some res
      | V2 => ∃ r, tr = [Ev GetSources r] ∧ res = upgrade_check_result r
                   ∧ (res = None ↔ r = inr ["default"])
      | V3 => tr = [] ∧ res = None
      end
    else tr = [] ∧ res = None.
Proof.
  intros W h w ec res tr w'. unfold CheckIfUpdateToConfigV3IsRequired.
  destruct (HasMetadataV3 ec) eqn:HH; destruct (Version (EC_Config ec)) eqn:HV;
    simpl; try (intros [= <- <- <-]; by eauto).
  destruct (h GetSources w) as [r w1].
  destruct r as [e | sources]; simpl.
  { intros [= <- <- <-]. exists (inl e). by repeat split. }
  destruct sources as [| s [| s' l]]; simpl.
  - intros [= <- <- <-]. exists (inr []). by repeat split.
  - destruct (decide (s = "default")) as [-> | Hs].
    + intros [= <- <- <-]. exists (inr ["default"]). by repeat split.
    + repeat case_decide; simplify_eq; simpl; intros [= <- <- <-].
      exists (inr [s]). simpl. rewrite decide_False by congruence.
      repeat split; [done |]. intros [= ?]. done.
  - repeat case_decide; simpl in *; try lia; intros [= <- <- <-].
    exists (inr (s :: s' :: l)). simpl. rewrite decide_False by congruence.
    repeat split; [done |]. intros [= ? ? ?].
Qed.

Lemma upgrade_check_by_version_witness :
  if HasMetadataV3 (EC demo_opts) then
    match Version (EC_Config (EC demo_opts)) with
    | V1 => demo_check_run.1.2 = [] ∧ is_Some demo_check_run.1.1
    | V2 => ∃ r, demo_check_run.1.2 = [Ev GetSources r]
                 ∧ demo_check_run.1.1 = upgrade_check_result r
                 ∧ (demo_check_run.1.1 = None ↔ r = inr ["default"])
    | V3 => demo_check_run.1.2 = [] ∧ demo_check_run.1.1 = None
    end
  else demo_check_run.1.2 = [] ∧ demo_check_run.1.1 = None.
Proof.
  apply (upgrade_check_by_version World mem_handler demo_two_sources_world
           (EC demo_opts) demo_check_run.1.1 demo_check_run.1.2 demo_check_run.2).
  unfold demo_check_run. by destruct (run _ _ _) as [[? ?] ?].
Defined.

(** *** The calls of [CopyState] *)

Ltac never_failed := repeat (apply never_cons; [done |]); apply never_nil.

Ltac some_failed H :=
  repeat (apply never_cons_inv in H as [? H]); done.

Lemma CopyState_sequence src dst :
  wp (CopyState src dst) (λ tr res,
    ev_op <$> take 7 tr `prefix_of` CopyState_steps src dst
    ∧ never failed (removelast tr)
    ∧ (res = None ↔ length tr = 8 ∧ never failed tr)).
Proof.
  unfold CopyState, CopyState_steps, orReturn, orReturnV. simpl.
  intros [e1 |]; simpl.
  { split; [by eexists |]. split; [never_failed |].
    split; [done | by intros [? _]]. }
  intros [e2 |]; simpl.
  { split; [by eexists |]. split; [never_failed |].
    split; [done | by intros [? _]]. }
  intros [e3 |]; simpl.
  { split; [by eexists |]. split; [never_failed |].
    split; [done | by intros [? _]]. }
  intros [e4 |]; simpl.
  { split; [by eexists |]. split; [never_failed |].
    split; [done | by intros [? _]]. }
  intros [e5 |]; simpl.
  { split; [by eexists |]. split; [never_failed |].
    split; [done | by intros [? _]]. }
  intros [e6 |]; simpl.
  { split; [by eexists |]. split; [never_failed |].
    split; [done | by intros [? _]]. }
  intros [e7 | got]; simpl.
  { split; [by eexists |]. split; [never_failed |].
    split; [done | by intros [? _]]. }
  intros [e8 |]; simpl.
  { split; [by eexists |]. split; [never_failed |].
    split; [done | intros [_ Hn]; some_failed Hn]. }
  split; [by eexists |]. split; [never_failed |].
  split; [intros _; split; [done | never_failed] | done].
Qed.

Lemma CopyState_write_back src dst :
  wp (CopyState src dst) (λ tr _,
    ∀ pre e post st, tr = pre ++ e :: post → ev_op e = CLICatalogState_Set st →
      ∃ pre' got,
        pre = pre' ++ [Ev CLICatalogState_Get (inr got)]
        ∧ st = set_IsStateCopyCompleted true got
        ∧ post = []).
Proof.
  unfold CopyState, orReturn, orReturnV. simpl.
  assert (∀ (pre : list Event) (e : Event) (post : list Event), [] = pre ++ e :: post → False)
    as Hnil by (intros pre ? ? ?; by destruct pre).
  intros [e1 |]; simpl.
  { intros pre e post st Htr He.
    repeat (apply cons_eq_app_cons in Htr as [(-> & -> & ->) | (? & -> & Htr)];
            [done |]). by apply Hnil in Htr. }
  intros [e2 |]; simpl.
  { intros pre e post st Htr He.
    repeat (apply cons_eq_app_cons in Htr as [(-> & -> & ->) | (? & -> & Htr)];
            [done |]). by apply Hnil in Htr. }
  intros [e3 |]; simpl.
  { intros pre e post st Htr He.
    repeat (apply cons_eq_app_cons in Htr as [(-> & -> & ->) | (? & -> & Htr)];
            [done |]). by apply Hnil in Htr. }
  intros [e4 |]; simpl.
  { intros pre e post st Htr He.
    repeat (apply cons_eq_app_cons in Htr as [(-> & -> & ->) | (? & -> & Htr)];
            [done |]). by apply Hnil in Htr. }
  intros [e5 |]; simpl.
  { intros pre e post st Htr He.
    repeat (apply cons_eq_app_cons in Htr as [(-> & -> & ->) | (? & -> & Htr)];
            [done |]). by apply Hnil in Htr. }
  intros [e6 |]; simpl.
  { intros pre e post st Htr He.
    repeat (apply cons_eq_app_cons in Htr as [(-> & -> & ->) | (? & -> & Htr)];
            [done |]). by apply Hnil in Htr. }
  intros [e7 | got]; simpl.
  { intros pre e post st Htr He.
    repeat (apply cons_eq_app_cons in Htr as [(-> & -> & ->) | (? & -> & Htr)];
            [done |]). by apply Hnil in Htr. }
  assert (∀ r8 pre e post st,
    [Ev (HdbTable_PrepareMigrationsStateStore src) None;
     Ev (Catalog_PrepareMigrationsStateStore dst) None;
     Ev (CopyMigrationState src dst) None;
     Ev (SettingsStore_PrepareSettingsDriver src) None;
     Ev Catalog_PrepareSettingsDriver None;
     Ev (CopySettingsState src) None;
     Ev CLICatalogState_Get (inr got);
     Ev (CLICatalogState_Set (set_IsStateCopyCompleted true got)) r8]
    = pre ++ e :: post →
    ev_op e = CLICatalogState_Set st →
    ∃ pre' got0, pre = pre' ++ [Ev CLICatalogState_Get (inr got0)]
                 ∧ st = set_IsStateCopyCompleted true got0 ∧ post = []) as Hlast.
  { intros r8 pre e post st Htr He.
    do 7 (apply cons_eq_app_cons in Htr as [(-> & -> & ->) | (? & -> & Htr)];
          [done |]).
    apply cons_eq_app_cons in Htr as [(-> & -> & ->) | (? & -> & Htr)];
      [| by apply Hnil in Htr].
    simpl in He. injection He as <-.
    by eexists [_; _; _; _; _; _], got. }
  intros [e8 |]; simpl; apply Hlast.
Qed.

(** X12: [CopyState] writes the catalog state once at most, as its last call,
    and what it writes is the state that the call right before has
    fetched, with [IsStateCopyCompleted] set to true: the migrations and
    the settings of the fetched state are written back as they are. *)
Theorem CopyState_writes_back_fetched_state :
  ∀ (W : Type) (h : Handler W) (w : W) (sourceDatabase destDatabase : string)
    (res : option error) (tr : list Event) (w' : W)
    (pre : list Event) (e : Event) (post : list Event) (st : CLIState),
    run h (CopyState sourceDatabase destDatabase) w = (res, tr, w') →
    tr = pre ++ e :: post →
    ev_op e = CLICatalogState_Set st →
    ∃ pre' got,
      pre = pre' ++ [Ev CLICatalogState_Get (inr got)]
      ∧ IsStateCopyCompleted st = true
      ∧ Migrations st = Migrations got
      ∧ Settings st = Settings got
      ∧ post = [].
Proof.
  intros W h w src dst res tr w' pre e post st Hrun Htr He.
  destruct (wp_run h _ _ (CopyState_write_back src dst) _ _ _ _ Hrun pre e post st Htr He)
    as (pre' & got & -> & -> & ->).
  by exists pre', got.
Qed.

Lemma CopyState_writes_back_fetched_state_witness :
  ∃ pre' got,
    take 7 demo_CopyState_run.1.2 = pre' ++ [Ev CLICatalogState_Get (inr got)]
    ∧ IsStateCopyCompleted demo_written_state = true
    ∧ Migrations demo_written_state = Migrations got
    ∧ Settings demo_written_state = Settings got
    ∧ drop 8 demo_CopyState_run.1.2 = [].
Proof.
  apply (CopyState_writes_back_fetched_state World mem_handler demo_world
           "default" "default"
           demo_CopyState_run.1.1 demo_CopyState_run.1.2 demo_CopyState_run.2
           (take 7 demo_CopyState_run.1.2)
           (Ev (CLICatalogState_Set demo_written_state) None)
           (drop 8 demo_CopyState_run.1.2)).
  - unfold demo_CopyState_run. by destruct (run _ _ _) as [[? ?] ?].
  - vm_compute. reflexivity.
  - reflexivity.
Defined.

(** *** How a run gets to the move of the directories *)

Lemma moves_listed_app {W : Type} (h : Handler W) opts res pre0 tr w' :
  never is_moving pre0 → moves_listed h opts res tr w' →
  moves_listed h opts res (pre0 ++ tr) w'.
Proof.
  intros Hpre (pre & T & migs & seeds & w1 & resL & trL & w2 & trE & -> & Hn & Hrun & Hres).
  exists (pre0 ++ pre), T, migs, seeds, w1, resL, trL, w2, trE.
  split; [by rewrite app_assoc |]. split; [by apply never_app | done].
Qed.

Lemma reorganizeDirectories_run {W : Type} (h : Handler W) w opts T res tr w' :
  run h (reorganizeDirectories opts T) w = (res, tr, w') →
  (never is_moving tr ∧ is_Some res)
  ∨ ∃ pre migs seeds w1 trL,
      tr = pre ++ trL ∧ never is_moving pre
      ∧ run h (moveListed opts T migs seeds) w1 = (res, trL, w').
Proof.
  unfold reorganizeDirectories, orReturnV, getMigrationDirectoryNames,
    getMatchingFilesAndDirs, getSeedFiles. psimpl.
  destruct (h (Fs_ReadDir _) w) as [r1 w1].
  destruct r1 as [e | dirs]; psimpl.
  { intros [= <- <- <-]. left. split; [by repeat constructor | by eauto]. }
  destruct (matching_loop _ _ _) as [e | migs]; psimpl.
  { intros [= <- <- <-]. left. split; [by repeat constructor | by eauto]. }
  destruct (h (Fs_ReadDir _) w1) as [r2 w2].
  destruct r2 as [e | sdirs]; psimpl.
  { intros [= <- <- <-]. left. split; [by repeat constructor | by eauto]. }
  destruct (run h (moveListed _ _ _ _) w2) as [[res2 tr2] w3] eqn:Hm.
  intros [= <- <- <-]. right.
  exists [Ev (Fs_ReadDir (MigrationsAbsDirectoryPath opts)) (inr dirs);
          Ev (Fs_ReadDir (SeedsAbsDirectoryPath opts)) (inr sdirs)],
    migs, (seed_loop sdirs []), w2, tr2.
  split; [done |]. split; [by repeat constructor | done].
Qed.

Lemma moveDirectories_run {W : Type} (h : Handler W) w opts T res tr w' :
  run h (moveDirectories opts T) w = (res, tr, w') →
  never is_moving tr ∨ moves_listed h opts res tr w'.
Proof.
  unfold moveDirectories. intros Hrun.
  apply run_orReturn in Hrun
    as [(e & Hr & ->) | (tr1 & w1 & tr2 & Hr & Hex & ->)].
  - apply reorganizeDirectories_run in Hr
      as [[Hn _] | (pre & migs & seeds & w0 & trL & -> & Hn & Hm)]; [by left |].
    right. exists pre, T, migs, seeds, w0, (Some e), trL, w'.
    exists []. by rewrite app_nil_r.
  - apply reorganizeDirectories_run in Hr
      as [[_ [? ?]] | (pre & migs & seeds & w0 & trL & -> & Hn & Hm)]; [done |].
    right. exists pre, T, migs, seeds, w0, None, trL, w1, tr2.
    by rewrite app_assoc.
Qed.

Lemma moveState_run {W : Type} (h : Handler W) w opts sources T res tr w' :
  run h (moveState opts sources T) w = (res, tr, w') →
  never is_moving tr ∨ moves_listed h opts res tr w'.
Proof.
  unfold moveState. case_decide; [| apply moveDirectories_run].
  intros Hrun.
  assert (∀ w0 r tr0 w1, run h (CopyState T T) w0 = (r, tr0, w1) → never is_moving tr0)
    as Hcs.
  { intros w0 r tr0 w1 H0.
    apply (wp_run h _ _ (CopyState_never is_moving T T ltac:(by intros [[] ?]))
             _ _ _ _ H0). }
  apply run_orReturn in Hrun
    as [(e & Hr & ->) | (tr1 & w1 & tr2 & Hr & Hk & ->)].
  - left. by eapply Hcs.
  - apply Hcs in Hr. destruct (MoveStateOnly opts).
    + simpl in Hk. injection Hk as <- <- _. left. by rewrite app_nil_r.
    + apply moveDirectories_run in Hk as [Hk | Hk].
      * left. by apply never_app.
      * right. by apply moves_listed_app.
Qed.

Lemma updateProject_run {W : Type} (h : Handler W) w opts res tr w' :
  run h (updateProject opts) w = (res, tr, w') →
  never is_moving tr ∨ moves_listed h opts res tr w'.
Proof.
  unfold updateProject, orReturnV. intros Hrun.
  apply run_bind_inv in Hrun as (r & tr1 & w1 & tr2 & Hc & Hk & ->).
  run_call_in Hc. destruct Hc as [_ ->].
  destruct r as [e | sources].
  { simpl in Hk. injection Hk as <- <- _. left. by repeat constructor. }
  cbv beta iota in Hk.
  apply run_bind_inv in Hk as (r & tr3 & w2 & tr4 & Hs & Hk & ->).
  assert (never is_moving tr3) as Hn3.
  { apply (wp_run h _ _ (selectTargetDatabase_never is_moving _ _ ltac:(done))
             _ _ _ _ Hs). }
  destruct r as [e | T].
  { simpl in Hk. injection Hk as <- <- _. left. rewrite app_nil_r.
    by apply never_cons. }
  cbv beta iota in Hk. apply moveState_run in Hk as [Hk | Hk].
  - left. apply never_cons; [done |]. by apply never_app.
  - right. apply (moves_listed_app h opts res [_]); [by repeat constructor |].
    by apply moves_listed_app.
Qed.

Lemma UpdateProjectV3_run {W : Type} (h : Handler W) w opts res tr w' :
  run h (UpdateProjectV3 opts) w = (res, tr, w') →
  never is_moving tr ∨ moves_listed h opts res tr w'.
Proof.
  intros Hrun.
  destruct (UpdateProjectV3_run_cases h w opts res tr w' Hrun)
    as [[-> _] | [(r & -> & _) | [(_ & e & -> & _) | [(_ & -> & _)
        | (pre & w1 & tr2 & Hpre & -> & Hup)]]]];
    try (left; by repeat constructor).
  assert (never is_moving pre) as Hn.
  { destruct Hpre as [[_ ->] | (_ & answer & _ & ->)]; by repeat constructor. }
  apply updateProject_run in Hup as [Hup | Hup].
  - left. by apply never_app.
  - right. by apply moves_listed_app.
Qed.

(** *** The write of the config *)

Lemma split_unique (K : Event → bool) A x B pre e post :
  A ++ x :: B = pre ++ e :: post →
  never K A → never K B → K e = true →
  pre = A ∧ e = x ∧ post = B.
Proof.
  revert pre. induction A as [| a A IH]; intros pre Heq HA HB He; simpl in Heq.
  - apply cons_eq_app_cons in Heq as [(-> & -> & ->) | (pre2 & -> & Heq)]; [done |].
    exfalso. rewrite Heq in HB. apply never_app_inv in HB as [_ HB].
    apply never_cons_inv in HB as [HB _]. congruence.
  - apply never_cons_inv in HA as [Ha HA].
    apply cons_eq_app_cons in Heq as [(-> & -> & ->) | (pre2 & -> & Heq)];
      [congruence |].
    destruct (IH pre2 Heq HA HB He) as (-> & -> & ->). done.
Qed.

Lemma moveListed_config opts T migs seeds :
  wp (moveListed opts T migs seeds) (config_written opts).
Proof.
  unfold moveListed, orReturn. psimpl. intros r1 r2.
  apply wp_bind.
  eapply wp_mono; [| apply (copyMigrations_never is_config_write); done].
  psimpl. intros trM [e |] HM; psimpl.
  { left. rewrite app_nil_r. auto with trace. }
  apply wp_bind.
  eapply wp_mono; [| apply (copyFiles_never is_config_write); done].
  psimpl. intros trS [e |] HS; psimpl.
  { left. rewrite app_nil_r. auto 10 with trace. }
  assert (never is_config_write
            (Ev (Fs_Mkdir (filepath_Join (MigrationsAbsDirectoryPath opts) T)) r1
             :: Ev (Fs_Mkdir (filepath_Join (SeedsAbsDirectoryPath opts) T)) r2
             :: trM ++ trS)) as HA by auto 10 with trace.
  intros [e |]; psimpl.
  { right.
    exists (Ev (Fs_Mkdir (filepath_Join (MigrationsAbsDirectoryPath opts) T)) r1
            :: Ev (Fs_Mkdir (filepath_Join (SeedsAbsDirectoryPath opts) T)) r2
            :: trM ++ trS), (Some e), [].
    split; [| by split]. simpl. by rewrite <- app_assoc. }
  intros [].
  assert (∀ B' res, never is_config_write B' →
    config_written opts
      (Ev (Fs_Mkdir (filepath_Join (MigrationsAbsDirectoryPath opts) T)) r1
       :: Ev (Fs_Mkdir (filepath_Join (SeedsAbsDirectoryPath opts) T)) r2
       :: trM ++ trS ++ Ev (WriteConfig (newConfig opts)) None
          :: Ev (AssignConfig (newConfig opts)) () :: B') res) as Hrest.
  { intros B' res HB. right.
    exists (Ev (Fs_Mkdir (filepath_Join (MigrationsAbsDirectoryPath opts) T)) r1
            :: Ev (Fs_Mkdir (filepath_Join (SeedsAbsDirectoryPath opts) T)) r2
            :: trM ++ trS), None, (Ev (AssignConfig (newConfig opts)) () :: B').
    split; [| split; [exact HA |]].
    - simpl. by rewrite <- app_assoc.
    - by exists B'. }
  apply wp_bind.
  eapply wp_mono; [| apply (removeDirectories_never is_config_write); done].
  psimpl. intros tr1 [e |] H1; psimpl.
  { apply Hrest. by rewrite app_nil_r. }
  apply wp_bind.
  eapply wp_mono; [| apply (removeDirectories_never is_config_write); done].
  psimpl. intros tr2 [e |] H2; psimpl.
  { apply Hrest. rewrite app_nil_r. auto with trace. }
  intros [e |]; psimpl.
  { apply Hrest. auto 10 with trace. }
  intros [e |]; psimpl; apply Hrest; auto 10 with trace.
Qed.

(** X13: The config that [UpdateProjectV3] writes is the config of the
    execution context with nothing but the version changed, to 3.  Before
    the write no config is written or set.  When the write fails it is the
    last call of the run and its error is returned as it is, the config of
    the execution context staying as it was; when it returns nil, the very
    next call sets the config of the execution context to the config
    written, and no config is written or set after that. *)
Theorem config_written_with_only_the_version_changed :
  ∀ (W : Type) (h : Handler W) (w : W) (opts : UpdateProjectV3Opts)
    (res : option error) (tr : list Event) (w' : W)
    (pre : list Event) (e : Event) (post : list Event) (c : Config),
    run h (UpdateProjectV3 opts) w = (res, tr, w') →
    tr = pre ++ e :: post →
    ev_op e = WriteConfig c →
    Version c = V3
    ∧ OtherFields c = OtherFields (EC_Config (EC opts))
    ∧ never is_config_write pre
    ∧ (failed e = true → post = [] ∧ res = error_of e)
    ∧ (failed e = false →
         ∃ post', post = Ev (AssignConfig c) () :: post'
                  ∧ never is_config_write post').
Proof.
  intros W h w opts res tr w' pre e post c Hrun Htr He.
  assert (is_WriteConfig e = true) as HK by (unfold is_WriteConfig; by rewrite He).
  assert (∀ l, never is_moving l → never is_config_write l) as Hweak.
  { intros l. apply never_weaken. intros [[] ?]; done. }
  assert (∀ l, never is_config_write l → never is_WriteConfig l) as Hweak'.
  { intros l. apply never_weaken. intros [[] ?]; done. }
  destruct (UpdateProjectV3_run h w opts res tr w' Hrun)
    as [Hn | (pre0 & T & migs & seeds & w1 & resL & trL & w2 & trE & Htr0 & Hn0 & HrunL & Hres)].
  { exfalso. apply Hweak, Hweak' in Hn. rewrite Htr in Hn.
    apply never_app_inv in Hn as [_ Hn]. apply never_cons_inv in Hn as [Hn _].
    congruence. }
  assert (never is_config_write trE) as HnE.
  { destruct resL as [err |]; [destruct Hres as [-> _]; apply never_nil |].
    apply (wp_run h _ _ (exportServerMetadata_never is_config_write
                           ltac:(done) ltac:(done)) _ _ _ _ Hres). }
  destruct (wp_run h _ _ (moveListed_config opts T migs seeds) _ _ _ _ HrunL)
    as [HnL | (A & r & B & -> & HA & Hr)].
  { exfalso.
    assert (never is_WriteConfig tr) as Hn.
    { rewrite Htr0. apply Hweak'. auto using never_app. }
    rewrite Htr in Hn. apply never_app_inv in Hn as [_ Hn].
    apply never_cons_inv in Hn as [Hn _]. congruence. }
  assert (never is_config_write B → never is_WriteConfig (B ++ trE)) as HB.
  { intros HB. apply Hweak'. by apply never_app. }
  assert (pre = pre0 ++ A ∧ e = Ev (WriteConfig (newConfig opts)) r ∧ post = B ++ trE)
    as (-> & -> & ->).
  { apply (split_unique is_WriteConfig); [| | | done].
    - rewrite <- Htr, Htr0. by rewrite <- !app_assoc.
    - apply Hweak'. apply never_app; auto.
    - destruct r as [err |].
      + destruct Hr as [-> _]. simpl. by apply Hweak'.
      + destruct Hr as (B' & -> & HB'). simpl. apply never_cons; [done |].
        apply Hweak'. by apply never_app. }
  simpl in He. injection He as <-.
  split; [done |]. split; [done |]. split; [apply never_app; auto |].
  destruct r as [err |].
  - destruct Hr as [-> ->]. destruct Hres as [-> ->]. split; [done |].
    intros Hf. done.
  - destruct Hr as (B' & -> & HB'). split; [intros Hf; done |].
    intros _. exists (B' ++ trE). split; [done |]. by apply never_app.
Qed.

Lemma config_written_with_only_the_version_changed_witness :
  Version (mkConfig V3 "endpoint: http://localhost:8080") = V3
  ∧ OtherFields (mkConfig V3 "endpoint: http://localhost:8080")
    = OtherFields (EC_Config (EC demo_opts))
  ∧ never is_config_write (take 19 demo_run.1.2)
  ∧ (failed (Ev (WriteConfig (mkConfig V3 "endpoint: http://localhost:8080")) None) = true →
       drop 20 demo_run.1.2 = []
       ∧ demo_run.1.1
         = error_of (Ev (WriteConfig (mkConfig V3 "endpoint: http://localhost:8080")) None))
  ∧ (failed (Ev (WriteConfig (mkConfig V3 "endpoint: http://localhost:8080")) None) = false →
       ∃ post',
         drop 20 demo_run.1.2
         = Ev (AssignConfig (mkConfig V3 "endpoint: http://localhost:8080")) () :: post'
         ∧ never is_config_write post').
Proof.
  apply (config_written_with_only_the_version_changed World mem_handler
           demo_world demo_opts demo_run.1.1 demo_run.1.2 demo_run.2).
  - unfold demo_run. by destruct (run _ _ _) as [[? ?] ?].
  - vm_compute. reflexivity.
  - reflexivity.
Defined.

(** *** The metadata of the project *)

Lemma moveListed_no_metadata_call opts T migs seeds :
  wp (moveListed opts T migs seeds) (λ tr _, never is_metadata_call tr).
Proof.
  eapply wp_mono; [| apply moveListed_calls]. simpl. intros tr _ Htr.
  eapply Forall_impl; [apply Htr |]. intros e He. unfold is_metadata_call.
  destruct He as [Ho | [Ho | [(d & _ & [Ho | [Ho | Ho]]) | [(f & _ & Ho) | [Ho
    | [(d & _ & Ho) | [(f & _ & Ho) | (f & _ & Ho)]]]]]]]; try (by rewrite Ho).
  unfold is_config_write in Ho. by destruct (ev_op e).
Qed.

Lemma exportServerMetadata_run {W : Type} (h : Handler W) w res tr w' :
  run h exportServerMetadata w = (res, tr, w') →
  (∃ err, tr = [Ev ExportMetadata (inl err)] ∧ res = Some err)
  ∨ (∃ files, tr = [Ev ExportMetadata (inr files); Ev (WriteMetadata files) res]).
Proof.
  unfold exportServerMetadata, orReturn, orReturnV. simpl.
  destruct (h ExportMetadata w) as [[err | files] w1]; simpl.
  - intros [= <- <- _]. left. by eauto.
  - destruct (h (WriteMetadata files) w1) as [[err |] w2]; simpl;
      intros [= <- <- _]; right; by eauto.
Qed.

(** X14: The metadata of the project is written once at most, by the last
    call of the run, with exactly the files that the server has exported
    in the call right before; no other call exports or writes metadata,
    and the error of the write, or nil, is the result of the run. *)
Theorem project_metadata_replaced_by_exported_files :
  ∀ (W : Type) (h : Handler W) (w : W) (opts : UpdateProjectV3Opts)
    (res : option error) (tr : list Event) (w' : W)
    (pre : list Event) (e : Event) (post : list Event) (files : gmap string string),
    run h (UpdateProjectV3 opts) w = (res, tr, w') →
    tr = pre ++ e :: post →
    ev_op e = WriteMetadata files →
    ∃ pre',
      pre = pre' ++ [Ev ExportMetadata (inr files)]
      ∧ never is_metadata_call pre'
      ∧ post = []
      ∧ res = error_of e.
Proof.
  intros W h w opts res tr w' pre e post files Hrun Htr He.
  assert (is_WriteMetadata e = true) as HK by (unfold is_WriteMetadata; by rewrite He).
  assert (∀ l, never is_moving l → never is_metadata_call l) as Hweak.
  { intros l. apply never_weaken. intros [[] ?]; done. }
  assert (∀ l, never is_metadata_call l → never is_WriteMetadata l) as Hweak'.
  { intros l. apply never_weaken. intros [[] ?]; done. }
  assert (never is_WriteMetadata tr → False) as Hcontra.
  { intros Hn. rewrite Htr in Hn. apply never_app_inv in Hn as [_ Hn].
    apply never_cons_inv in Hn as [Hn _]. congruence. }
  destruct (UpdateProjectV3_run h w opts res tr w' Hrun)
    as [Hn | (pre0 & T & migs & seeds & w1 & resL & trL & w2 & trE & Htr0 & Hn0 & HrunL & Hres)].
  { exfalso. by apply Hcontra, Hweak', Hweak. }
  pose proof (wp_run h _ _ (moveListed_no_metadata_call opts T migs seeds) _ _ _ _ HrunL)
    as HnL.
  assert (never is_metadata_call (pre0 ++ trL)) as Hn.
  { apply never_app; auto. }
  destruct resL as [err |].
  { exfalso. destruct Hres as [-> _]. apply Hcontra. rewrite Htr0, app_nil_r.
    by apply Hweak'. }
  apply exportServerMetadata_run in Hres as [(err & -> & _) | (files' & ->)].
  { exfalso. apply Hcontra. rewrite Htr0, app_assoc.
    apply never_app; [by apply Hweak' | by repeat constructor]. }
  assert (pre = (pre0 ++ trL) ++ [Ev ExportMetadata (inr files')]
          ∧ e = Ev (WriteMetadata files') res ∧ post = []) as (-> & -> & ->).
  { apply (split_unique is_WriteMetadata); [| | apply never_nil | done].
    - rewrite <- Htr, Htr0. by rewrite <- !app_assoc.
    - apply never_app; [by apply Hweak' | by repeat constructor]. }
  simpl in He. injection He as <-.
  exists (pre0 ++ trL). by repeat split.
Qed.

Lemma project_metadata_replaced_by_exported_files_witness :
  ∃ pre',
    take 27 demo_run.1.2
    = pre' ++ [Ev ExportMetadata (inr (w_server_metadata demo_world))]
    ∧ never is_metadata_call pre'
    ∧ drop 28 demo_run.1.2 = []
    ∧ demo_run.1.1 = error_of (Ev (WriteMetadata (w_server_metadata demo_world)) None).
Proof.
  apply (project_metadata_replaced_by_exported_files World mem_handler
           demo_world demo_opts demo_run.1.1 demo_run.1.2 demo_run.2).
  - unfold demo_run. by destruct (run _ _ _) as [[? ?] ?].
  - vm_compute. reflexivity.
  - reflexivity.
Defined.

(** *** One target database *)

Lemma select_answer_prompt e a : select_answer e = Some a → is_select_prompt e = true.
Proof. destruct e as [o r]. by destruct o. Qed.

Lemma CopyState_for_target opts T :
  wp (CopyState T T) (λ tr _, Forall (for_target opts T) tr ∧ never is_select_prompt tr).
Proof.
  unfold CopyState, orReturn, orReturnV. simpl.
  repeat (intros [? |]; simpl; [split; by repeat constructor |]).
  split; by repeat constructor.
Qed.

Lemma moveListed_for_target opts T migs seeds :
  wp (moveListed opts T migs seeds)
    (λ tr _, Forall (for_target opts T) tr ∧ never is_select_prompt tr).
Proof.
  eapply wp_mono;
    [| apply wp_and; [apply moveListed_calls
                     | apply (moveListed_never is_select_prompt); by intros [[] ?]]].
  simpl. intros tr _ [Hcalls Hn]. split; [| done].
  eapply Forall_impl; [apply Hcalls |]. intros e He. unfold for_target.
  destruct He as [Ho | [Ho | [(d & _ & [Ho | [Ho | Ho]]) | [(f & _ & Ho) | [Ho
    | [(d & _ & Ho) | [(f & _ & Ho) | (f & _ & Ho)]]]]]]]; try (rewrite Ho; by auto).
  unfold is_config_write in Ho. by destruct (ev_op e).
Qed.

Lemma reorganizeDirectories_for_target opts T :
  wp (reorganizeDirectories opts T)
    (λ tr _, Forall (for_target opts T) tr ∧ never is_select_prompt tr).
Proof.
  unfold reorganizeDirectories, orReturnV. psimpl.
  intros [e | dirs]; psimpl; [split; by repeat constructor |].
  destruct (matching_loop _ _ _) as [e | migs]; psimpl; [split; by repeat constructor |].
  intros [e | sdirs]; psimpl; [split; by repeat constructor |].
  eapply wp_mono; [| apply moveListed_for_target].
  psimpl. intros tr _ [H1 H2]. split; by repeat constructor.
Qed.

Lemma moveDirectories_for_target opts T :
  wp (moveDirectories opts T)
    (λ tr _, Forall (for_target opts T) tr ∧ never is_select_prompt tr).
Proof.
  unfold moveDirectories, orReturn. apply wp_bind.
  eapply wp_mono; [| apply reorganizeDirectories_for_target].
  intros tr [e |] [H1 H2]; psimpl.
  { by rewrite app_nil_r. }
  unfold exportServerMetadata, orReturn, orReturnV. simpl.
  intros [e | files]; simpl.
  { split; [apply Forall_app; split; [done | by repeat constructor]
           | apply never_app; [done | by repeat constructor]]. }
  intros [e |]; simpl;
    (split; [apply Forall_app; split; [done | by repeat constructor]
            | apply never_app; [done | by repeat constructor]]).
Qed.

Lemma moveState_for_target opts sources T :
  wp (moveState opts sources T)
    (λ tr _, Forall (for_target opts T) tr ∧ never is_select_prompt tr).
Proof.
  unfold moveState. case_decide; [| apply moveDirectories_for_target].
  unfold orReturn. apply wp_bind.
  eapply wp_mono; [| apply CopyState_for_target].
  psimpl. intros tr [e |] [H1 H2]; psimpl.
  { by rewrite app_nil_r. }
  destruct (MoveStateOnly opts); psimpl.
  { by rewrite app_nil_r. }
  eapply wp_mono; [| apply moveDirectories_for_target].
  psimpl. intros tr2 _ [H3 H4]. split; [by apply Forall_app | by apply never_app].
Qed.

Lemma selectTargetDatabase_answer opts flag sources :
  wp (selectTargetDatabase flag sources) (λ tr rs,
    (flag ≠ "" → tr = [] ∧ rs = inr flag)
    ∧ (∀ e a, e ∈ tr → select_answer e = Some a → rs = inr a)
    ∧ (∀ T, Forall (for_target opts T) tr)).
Proof.
  unfold selectTargetDatabase.
  destruct (decide (String.length flag = 0)) as [H0 | H0].
  - assert (flag = "") as -> by (by destruct flag).
    repeat case_decide; simpl.
    + split; [done |]. split; [| by constructor]. intros e a He. by apply elem_of_nil in He.
    + intros r. split; [done |]. split; [| by repeat constructor].
      intros e a He Ha. apply list_elem_of_singleton in He as ->.
      unfold select_answer in Ha. simpl in Ha. destruct r; by simplify_eq.
    + split; [done |]. split; [| by constructor]. intros e a He. by apply elem_of_nil in He.
  - simpl. split; [done |]. split; [| by constructor].
    intros e a He. by apply elem_of_nil in He.
Qed.

(** X15: One name of a database serves the whole run of [UpdateProjectV3]:
    every call on a state store names it, the migration records are copied
    from the source of that name to the catalog under the same name, and
    the two directories that are made are the ones of that name below the
    migrations root and below the seeds root.  When the option
    [TargetDatabase] is set, it is that name, as it is, and nothing is
    asked; when the select prompt is answered, it is the answer. *)
Theorem one_target_database_throughout :
  ∀ (W : Type) (h : Handler W) (w : W) (opts : UpdateProjectV3Opts)
    (res : option error) (tr : list Event) (w' : W),
    run h (UpdateProjectV3 opts) w = (res, tr, w') →
    ∃ T : string,
      Forall (for_target opts T) tr
      ∧ (TargetDatabase opts ≠ "" → T = TargetDatabase opts ∧ never is_select_prompt tr)
      ∧ (∀ e a, e ∈ tr → select_answer e = Some a → T = a).
Proof.
  intros W h w opts res tr w' Hrun.
  assert (∀ l : list Event,
            Forall (λ e, is_moving e = false ∧ is_state_call e = false
                         ∧ is_select_prompt e = false) l →
            ∀ T, Forall (for_target opts T) l ∧ never is_select_prompt l
                 ∧ ∀ e a, e ∈ l → select_answer e = Some a → False) as Hquiet.
  { intros l Hl T. split; [| split].
    - eapply Forall_impl; [apply Hl |]. intros [[] ?] (? & ? & ?); done.
    - eapply Forall_impl; [apply Hl |]. by intros e (? & ? & ?).
    - intros e a He Ha%select_answer_prompt. rewrite Forall_forall in Hl.
      destruct (Hl e He) as (_ & _ & ?). congruence. }
  destruct (UpdateProjectV3_run_cases h w opts res tr w' Hrun)
    as [[-> _] | [(r & -> & _) | [(_ & e & -> & _) | [(_ & -> & _)
        | (pre & w1 & tr2 & Hpre & -> & Hup)]]]].
  1-4: exists (TargetDatabase opts);
    match goal with
    | |- context [Forall _ ?l] =>
        destruct (Hquiet l ltac:(by repeat constructor) (TargetDatabase opts))
          as (H1 & H2 & H3)
    end; split; [done |]; split; [done |]; intros e' a He' Ha; by destruct (H3 e' a).
  assert (Forall (λ e, is_moving e = false ∧ is_state_call e = false
                       ∧ is_select_prompt e = false) pre) as Hpre'.
  { destruct Hpre as [[_ ->] | (_ & answer & _ & ->)]; by repeat constructor. }
  unfold updateProject, orReturnV in Hup.
  apply run_bind_inv in Hup as (r & tr1 & w2 & tr3 & Hc & Hk & ->).
  run_call_in Hc. destruct Hc as [_ ->].
  destruct r as [e | sources].
  { simpl in Hk. injection Hk as <- <- _. exists (TargetDatabase opts).
    destruct (Hquiet (pre ++ [Ev GetSources (inl e)])
                ltac:(apply Forall_app; split; [done | by repeat constructor])
                (TargetDatabase opts)) as (H1 & H2 & H3).
    split; [done |]. split; [done |]. intros e' a He' Ha. by destruct (H3 e' a). }
  cbv beta iota in Hk.
  apply run_bind_inv in Hk as (rs & tr4 & w3 & tr5 & Hs & Hk & ->).
  pose proof (wp_run h _ _ (selectTargetDatabase_answer opts _ _) _ _ _ _ Hs)
    as (Hflag & Hans & Hfor).
  pose proof (wp_run h _ _ (selectTargetDatabase_never is_state_call _ _ ltac:(done))
                _ _ _ _ Hs) as Hns.
  set (pre1 := pre ++ [Ev GetSources (inr sources)]).
  assert (Forall (λ e, is_moving e = false ∧ is_state_call e = false
                       ∧ is_select_prompt e = false) pre1) as Hpre1.
  { apply Forall_app. split; [done | by repeat constructor]. }
  assert (∀ T tr6,
            Forall (for_target opts T) tr6 → never is_select_prompt tr6 →
            (rs = inr T ∨ (tr6 = [] ∧ ∀ a, rs ≠ inr a ∨ a = T)) →
            Forall (for_target opts T) (pre ++ Ev GetSources (inr sources) :: tr4 ++ tr6)
            ∧ (TargetDatabase opts ≠ "" →
                 (rs = inr T → T = TargetDatabase opts)
                 ∧ never is_select_prompt
                     (pre ++ Ev GetSources (inr sources) :: tr4 ++ tr6))
            ∧ (∀ e a, e ∈ pre ++ Ev GetSources (inr sources) :: tr4 ++ tr6 →
                      select_answer e = Some a → rs = inr a)) as Hall.
  { intros T tr6 H61 H62 Hrs.
    destruct (Hquiet pre1 Hpre1 T) as (H1 & H2 & H3).
    replace (pre ++ Ev GetSources (inr sources) :: tr4 ++ tr6)
      with (pre1 ++ tr4 ++ tr6) by (unfold pre1; by rewrite <- app_assoc).
    split; [| split].
    - apply Forall_app. split; [done |]. apply Forall_app. by split.
    - intros Hne. destruct (Hflag Hne) as [-> ->]. split; [by intros [= ->] |].
      apply never_app; [done |]. by apply never_app; [apply never_nil |].
    - intros e a He Ha. apply elem_of_app in He as [He | He]; [by destruct (H3 e a) |].
      apply elem_of_app in He as [He | He]; [by eapply Hans |].
      apply select_answer_prompt in Ha. unfold never in H62.
      rewrite Forall_forall in H62. specialize (H62 e He). congruence. }
  destruct rs as [e | T].
  - simpl in Hk. injection Hk as <- <- _. exists (TargetDatabase opts).
    destruct (Hall (TargetDatabase opts) [] ltac:(constructor) ltac:(constructor)
                ltac:(right; split; [done |]; intros a; by left))
      as (H1 & H2 & H3).
    split; [done |]. split.
    + intros Hne. split; [done |]. by apply H2.
    + intros e' a He' Ha. by specialize (H3 e' a He' Ha).
  - cbv beta iota in Hk.
    pose proof (wp_run h _ _ (moveState_for_target opts sources T) _ _ _ _ Hk)
      as [H61 H62].
    exists T. destruct (Hall T tr5 H61 H62 ltac:(by left)) as (H1 & H2 & H3).
    split; [done |]. split.
    + intros Hne. destruct (H2 Hne) as [H21 H22]. split; [by apply H21 | done].
    + intros e' a He' Ha. specialize (H3 e' a He' Ha). by injection H3 as ->.
Qed.

Lemma one_target_database_throughout_witness :
  ∃ T : string,
    Forall (for_target demo_opts T) demo_two_sources_run.1.2
    ∧ (TargetDatabase demo_opts ≠ "" →
         T = TargetDatabase demo_opts ∧ never is_select_prompt demo_two_sources_run.1.2)
    ∧ (∀ e a, e ∈ demo_two_sources_run.1.2 → select_answer e = Some a → T = a).
Proof.
  apply (one_target_database_throughout World mem_handler demo_two_sources_world
           demo_opts demo_two_sources_run.1.1 demo_two_sources_run.1.2
           demo_two_sources_run.2).
  unfold demo_two_sources_run. by destruct (run _ _ _) as [[? ?] ?].
Defined.

(** *** The seed files in the tree *)

Lemma copyFiles_mem (sroot : path) (T : string) files :
  ∀ w tr w',
    run mem_handler (copyFiles files sroot (sroot ++ [T])) w = (None, tr, w') →
    Forall (λ n, valid_name n = true) files →
    ∀ f, f ∈ files →
      ∃ content,
        w_fs w !! (sroot ++ [f]) = Some (File content)
        ∧ w_fs w' !! ((sroot ++ [T]) ++ [f]) = Some (File content).
Proof.
  induction files as [| f0 rest IH]; intros w tr w' Hrun Hvalid f Hf.
  { by apply elem_of_nil in Hf. }
  apply Forall_cons in Hvalid as [Hv0 Hvalid].
  change (copyFiles (f0 :: rest) sroot (sroot ++ [T]))
    with (orReturn
            (call (CopyFileAfero (filepath_Join sroot f0)
                     (filepath_Join (sroot ++ [T]) f0)))
            (moving f0 (sroot ++ [T])) (copyFiles rest sroot (sroot ++ [T]))) in Hrun.
  rewrite !(filepath_Join_valid _ f0) in Hrun by done.
  apply run_orReturn_None in Hrun as (tr1 & w1 & tr2 & Hc & Hrun & _).
  run_call_in Hc. destruct Hc as [Hh _].
  apply mem_handler_CopyFile in Hh as [_ Hh].
  destruct (decide (f ∈ rest)) as [Hin | Hnin].
  - destruct (IH _ _ _ Hrun Hvalid f Hin) as (content & Hsrc & Htgt).
    exists content. split; [| done].
    rewrite <- Hsrc. symmetry. eapply mem_CopyFile_frame; [apply Hh |].
    rewrite <- app_assoc. intros Heq%app_inv_head. done.
  - apply elem_of_cons in Hf as [-> | Hf]; [| done].
    apply mem_CopyFile_target in Hh as (content & Hsrc & Htgt).
    exists content. split; [done |]. rewrite <- Htgt.
    eapply phase_frame; [apply Hrun | apply copyFiles_calls |].
    intros e (f' & Hf' & ->). simpl.
    assert (valid_name f' = true) as Hv'. { rewrite Forall_forall in Hvalid. auto. }
    rewrite (filepath_Join_valid (sroot ++ [T]) f') by done.
    intros Heq%app_inv_head. congruence.
Qed.

Lemma mem_CopyFile_below_file fs src x fs' :
  mem_CopyFile fs src (src ++ [x]) = (None, fs') → False.
Proof.
  unfold mem_CopyFile. destruct (fs !! src) as [[content |] |] eqn:Hsrc; [| done | done].
  case_decide as Hd; [| done]. destruct Hd as (_ & Hparent & _).
  rewrite removelast_last in Hparent. congruence.
Qed.

(** A file of the name of the target makes the copy of the seed files
    fail: the target directory cannot be made beside it. *)
Lemma copyFiles_mem_not_target (sroot : path) (T : string) files :
  ∀ w tr w',
    run mem_handler (copyFiles files sroot (sroot ++ [T])) w = (None, tr, w') →
    valid_name T = true → T ∉ files.
Proof.
  induction files as [| f0 rest IH]; intros w tr w' Hrun HT.
  { apply not_elem_of_nil. }
  change (copyFiles (f0 :: rest) sroot (sroot ++ [T]))
    with (orReturn
            (call (CopyFileAfero (filepath_Join sroot f0)
                     (filepath_Join (sroot ++ [T]) f0)))
            (moving f0 (sroot ++ [T])) (copyFiles rest sroot (sroot ++ [T]))) in Hrun.
  apply run_orReturn_None in Hrun as (tr1 & w1 & tr2 & Hc & Hrun & _).
  apply not_elem_of_cons. split; [| by eapply IH].
  intros ->. rewrite !(filepath_Join_valid _ f0) in Hc by done.
  run_call_in Hc. destruct Hc as [Hh _].
  apply mem_handler_CopyFile in Hh as [_ Hh].
  by apply mem_CopyFile_below_file in Hh.
Qed.

Lemma copyMigrations_elsewhere (root other : path) (T : string) dirs k :
  Forall (λ n, valid_name n = true) dirs →
  unrelated root other → root `prefix_of` k →
  ∀ e, copies_entry_of dirs other (other ++ [T]) e → ¬ touched (ev_op e) k.
Proof.
  intros Hvalid Hun Hk e (d & Hd & He).
  rewrite Forall_forall in Hvalid.
  rewrite !(filepath_Join_valid _ d) in He by auto.
  assert (other `prefix_of` (other ++ [T]) ++ [d]) as Hp.
  { rewrite <- app_assoc. by apply prefix_app_r. }
  destruct He as [-> | [-> | ->]]; simpl; [by intros [] | |].
  - intros Hpk. apply (unrelated_no_common _ _ k Hun); [done |]. by etrans.
  - intros ->. by apply (unrelated_no_common _ _ _ Hun Hk).
Qed.

Lemma unrelated_sym (p q : path) : unrelated p q → unrelated q p.
Proof. intros [? ?]. by split. Qed.

(** The seed files in the tree once the listed entries are moved. *)
Lemma moveListed_mem_seeds w opts T migs seeds tr w' f :
  run mem_handler (moveListed opts T migs seeds) w = (None, tr, w') →
  valid_name T = true →
  Forall (λ n, valid_name n = true) migs →
  Forall (λ n, valid_name n = true) seeds →
  unrelated (MigrationsAbsDirectoryPath opts) (SeedsAbsDirectoryPath opts) →
  unrelated (SeedsAbsDirectoryPath opts) (MetadataDir (EC opts)) →
  f ∈ seeds →
  ∃ content,
    w_fs w !! (SeedsAbsDirectoryPath opts ++ [f]) = Some (File content)
    ∧ w_fs w' !! ((SeedsAbsDirectoryPath opts ++ [T]) ++ [f]) = Some (File content)
    ∧ absent (w_fs w') (SeedsAbsDirectoryPath opts ++ [f]).
Proof.
  unfold moveListed.
  generalize (MigrationsAbsDirectoryPath opts) (SeedsAbsDirectoryPath opts)
    (MetadataDir (EC opts)). intros mroot sroot meta.
  intros Hrun HT Hmigs Hseeds Hms Hsm Hf.
  rewrite !(filepath_Join_valid _ T) in Hrun by done.
  assert (valid_name f = true) as Hvf. { rewrite Forall_forall in Hseeds. auto. }
  assert (Forall (λ n, valid_name n = true) metadataFiles) as Hmeta.
  { by repeat constructor. }
  pose proof (unrelated_sym _ _ Hms) as Hsm'.
  apply run_bind_inv in Hrun as (r1 & tr1 & w1 & tr1' & Hk1 & Hrun & _).
  run_call_in Hk1. destruct Hk1 as [Hk1 _]. mem_step_of Hk1. destruct Hk1 as [_ Hk1].
  apply run_bind_inv in Hrun as (r2 & tr2 & w2 & tr2' & Hk2 & Hrun & _).
  run_call_in Hk2. destruct Hk2 as [Hk2 _]. mem_step_of Hk2. destruct Hk2 as [_ Hk2].
  apply run_orReturn_None in Hrun as (trM & w3 & tr3' & HcM & Hrun & _).
  apply run_orReturn_None in Hrun as (trS & w4 & tr4' & HcS & Hrun & _).
  apply run_orReturn_None in Hrun as (trW & w5 & tr5' & HcW & Hrun & _).
  run_call_in HcW. destruct HcW as [HcW _]. mem_step_of HcW. destruct HcW as [_ HcW].
  apply run_bind_inv in Hrun as (r6 & tr6 & w6 & tr6' & HcA & Hrun & _).
  run_call_in HcA. destruct HcA as [HcA _]. mem_step_of HcA. destruct HcA as [_ HcA].
  apply run_orReturn_None in Hrun as (trR1 & w7 & tr7' & HR1 & Hrun & _).
  apply run_orReturn_None in Hrun as (trR2 & w8 & tr8' & HR2 & Hrun & _).
  apply run_orReturn_None in Hrun as (trR3 & w9 & tr9' & HR3 & Hrun & _).
  simpl in Hrun. injection Hrun as _ <-.
  pose proof (copyFiles_mem_not_target sroot T seeds w3 trS w4 HcS HT) as HTs.
  assert (f ≠ T) as HfT. { by intros ->. }
  destruct (copyFiles_mem sroot T seeds w3 trS w4 HcS Hseeds f Hf)
    as (content & Hsrc & Htgt).
  exists content. split; [| split].
  - (* the file before the copies is the file of the tree *)
    rewrite <- Hsrc.
    rewrite (phase_frame _ _ _ _ _ _ _ HcM (copyMigrations_calls _ _ _)
               (copyMigrations_elsewhere sroot mroot T _ _ Hmigs Hsm'
                  ltac:(by apply prefix_app_r))).
    rewrite Hk2, Hk1; [done | |]; simpl.
    + intros Heq. apply (unrelated_no_common _ _ (sroot ++ [f]) Hms).
      * rewrite Heq. by apply prefix_app_r.
      * by apply prefix_app_r.
    + intros Heq%app_inv_head. congruence.
  - (* the copy stays *)
    rewrite <- Htgt.
    assert (sroot `prefix_of` (sroot ++ [T]) ++ [f]) as Hunder.
    { rewrite <- app_assoc. by apply prefix_app_r. }
    rewrite (phase_frame _ _ _ _ _ _ _ HR3 (removeDirectories_calls _ _)
               (removal_elsewhere sroot meta _ _ Hmeta Hsm Hunder)).
    rewrite (phase_frame _ _ _ _ _ _ _ HR2 (removeDirectories_calls _ _)).
    2:{ intros e (f' & Hf' & ->). simpl.
        assert (valid_name f' = true) as Hv'. { rewrite Forall_forall in Hseeds. auto. }
        rewrite filepath_Join_valid by done. rewrite <- !app_assoc.
        intros Hp%prefix_app_inv. simpl in Hp. apply prefix_cons_inv_1 in Hp.
        congruence. }
    rewrite (phase_frame _ _ _ _ _ _ _ HR1 (removeDirectories_calls _ _)
               (removal_elsewhere sroot mroot _ _ Hmigs Hsm' Hunder)).
    by rewrite HcA, HcW by (simpl; tauto).
  - (* the original is removed *)
    intros s.
    eapply run_none; [apply HR3 | by eapply removeDirectories_creates_nothing |].
    rewrite <- (filepath_Join_valid sroot f) by done.
    by eapply removeDirectories_mem.
Qed.

(** X16: On the in-memory file system, with a project tree of valid names, the
    migrations root and the metadata directory apart from the seeds root,
    and a target name that is a valid name: after the
    part of the script that moves the directories has returned nil, every
    file of the seeds root is below the target directory of the seeds
    root, with the content it had, and nothing is left of it at the seeds
    root.  No [Stat] is made for a seed file, so no failure of a call can
    make a seed file vanish in a run that returns nil. *)
Theorem seed_files_moved_with_identical_content :
  ∀ (w : World) (opts : UpdateProjectV3Opts) (T : string)
    (tr : list Event) (w' : World) (f : string),
    run mem_handler (reorganizeDirectories opts T) w = (None, tr, w') →
    wf_names (w_fs w) →
    valid_name T = true →
    unrelated (MigrationsAbsDirectoryPath opts) (SeedsAbsDirectoryPath opts) →
    unrelated (SeedsAbsDirectoryPath opts) (MetadataDir (EC opts)) →
    f ∈ seed_files (w_fs w) (SeedsAbsDirectoryPath opts) →
    seed_moved (w_fs w) (w_fs w') (SeedsAbsDirectoryPath opts) T f.
Proof.
  intros w opts T tr w' f Hrun Hwf HT Hms Hsm Hf.
  destruct (reorganizeDirectories_mem_run _ _ _ _ _ _ Hrun)
    as [[_ [e He]] | (tr1 & tr2 & -> & Hm)]; [done |].
  pose proof (seed_files_valid _ (SeedsAbsDirectoryPath opts) Hwf) as Hseeds.
  assert (valid_name f = true) as Hvf. { rewrite Forall_forall in Hseeds. auto. }
  unfold seed_moved.
  rewrite (filepath_Join_valid _ T) by done.
  rewrite !(filepath_Join_valid _ f) by done.
  eapply moveListed_mem_seeds; try done.
  apply Forall_forall. intros d' Hd'.
  by destruct (migration_entries_elem _ _ _ Hwf Hd') as (? & _).
Qed.

Lemma seed_files_moved_with_identical_content_witness :
  seed_moved demo_fs (w_fs demo_reorganize_run.2) ["p"; "seeds"] "default" "seed1.sql".
Proof.
  apply (seed_files_moved_with_identical_content demo_world demo_opts "default"
           demo_reorganize_run.1.2 demo_reorganize_run.2 "seed1.sql").
  - vm_compute. reflexivity.
  - change (map_Forall (λ (k : path) (_ : node), Forall (λ n, valid_name n = true) k)
              demo_fs).
    apply (bool_decide_unpack _). vm_compute. reflexivity.
  - reflexivity.
  - split; apply (bool_decide_unpack _); vm_compute; reflexivity.
  - split; apply (bool_decide_unpack _); vm_compute; reflexivity.
  - apply (bool_decide_unpack _). vm_compute. reflexivity.
Defined.

(** *** What the move of the directories leaves in place *)

Lemma touched_below o k :
  touched o k →
  match o with
  | Fs_Mkdir p | Fs_RemoveAll p | CopyDirAfero _ p | CopyFileAfero _ p => p `prefix_of` k
  | _ => False
  end.
Proof. destruct o; simpl; try done; by intros ->. Qed.

Lemma below_untouched (root R : path) (x : string) (t : path) (n : string) (s : path) :
  (root = R ∧ x ≠ n) ∨ unrelated root R →
  ¬ (R ++ [x] ++ t) `prefix_of` ((root ++ [n]) ++ s).
Proof.
  intros [[-> Hx] | Hun] Hp.
  - rewrite <- app_assoc in Hp. apply prefix_app_inv in Hp. simpl in Hp.
    by apply prefix_cons_inv_1 in Hp.
  - apply (unrelated_no_common _ _ ((root ++ [n]) ++ s) Hun).
    + rewrite <- app_assoc. by apply prefix_app_r.
    + by apply prefix_app_l in Hp.
Qed.

(** The calls of [moveListed] leave an entry of one of the three
    directories that is neither listed nor the target. *)
Lemma moves_untouched opts T migs seeds (root : path) (n : string) (s : path) :
  valid_name T = true →
  Forall (λ d, valid_name d = true) migs →
  Forall (λ d, valid_name d = true) seeds →
  n ≠ T →
  (root = MigrationsAbsDirectoryPath opts ∧ n ∉ migs)
    ∨ unrelated root (MigrationsAbsDirectoryPath opts) →
  (root = SeedsAbsDirectoryPath opts ∧ n ∉ seeds)
    ∨ unrelated root (SeedsAbsDirectoryPath opts) →
  (root = MetadataDir (EC opts) ∧ n ∉ metadataFiles)
    ∨ unrelated root (MetadataDir (EC opts)) →
  ∀ e, moves opts T migs seeds e → ¬ touched (ev_op e) ((root ++ [n]) ++ s).
Proof.
  intros HT Hmigs Hseeds HnT Hm Hs Hd e He Ht.
  rewrite Forall_forall in Hmigs. rewrite Forall_forall in Hseeds.
  assert (∀ (R : path) (l : list string), (root = R ∧ n ∉ l) ∨ unrelated root R →
                 (root = R ∧ T ≠ n) ∨ unrelated root R) as HT'.
  { intros R l [[? ?] | ?]; [left | by right]. split; [done |]. by intros ->. }
  assert (∀ (R : path) (l : list string) x, x ∈ l → (root = R ∧ n ∉ l) ∨ unrelated root R →
                   (root = R ∧ x ≠ n) ∨ unrelated root R) as Hin.
  { intros R l x Hx [[? ?] | ?]; [left | by right]. split; [done |]. by intros ->. }
  apply touched_below in Ht.
  destruct He as [Ho | [Ho | [(d & Hdm & [Ho | [Ho | Ho]]) | [(f & Hf & Ho) | [Ho
    | [(d & Hdm & Ho) | [(f & Hf & Ho) | (f & Hf & Ho)]]]]]]]; try rewrite Ho in Ht.
  - rewrite filepath_Join_valid in Ht by done.
    apply (below_untouched root _ T [] n s (HT' _ _ Hm)). by rewrite app_nil_r.
  - rewrite filepath_Join_valid in Ht by done.
    apply (below_untouched root _ T [] n s (HT' _ _ Hs)). by rewrite app_nil_r.
  - done.
  - rewrite (filepath_Join_valid _ T), (filepath_Join_valid _ d) in Ht by auto.
    apply (below_untouched root _ T [d] n s (HT' _ _ Hm)). by rewrite <- app_assoc in Ht.
  - rewrite (filepath_Join_valid _ T), (filepath_Join_valid _ d) in Ht by auto.
    apply (below_untouched root _ T [d] n s (HT' _ _ Hm)). by rewrite <- app_assoc in Ht.
  - rewrite (filepath_Join_valid _ T), (filepath_Join_valid _ f) in Ht by auto.
    apply (below_untouched root _ T [f] n s (HT' _ _ Hs)). by rewrite <- app_assoc in Ht.
  - unfold is_config_write in Ho. by destruct (ev_op e).
  - rewrite filepath_Join_valid in Ht by auto.
    apply (below_untouched root _ d [] n s (Hin _ _ d Hdm Hm)). by rewrite app_nil_r.
  - rewrite filepath_Join_valid in Ht by auto.
    apply (below_untouched root _ f [] n s (Hin _ _ f Hf Hs)). by rewrite app_nil_r.
  - assert (valid_name f = true) as Hvf.
    { assert (Forall (λ m, valid_name m = true) metadataFiles) as Hmeta
        by (by repeat constructor).
      rewrite Forall_forall in Hmeta. auto. }
    rewrite filepath_Join_valid in Ht by done.
    apply (below_untouched root _ f [] n s (Hin _ _ f Hf Hd)). by rewrite app_nil_r.
Qed.

Lemma reorganizeDirectories_mem_listing w opts T tr w' :
  run mem_handler (reorganizeDirectories opts T) w = (None, tr, w') →
  ∃ infos, mem_ReadDir (w_fs w) (MigrationsAbsDirectoryPath opts) = inr infos.
Proof.
  unfold reorganizeDirectories, orReturnV, getMigrationDirectoryNames,
    getMatchingFilesAndDirs. psimpl.
  destruct (mem_handler (Fs_ReadDir _) w) as [r1 w1] eqn:H1.
  apply mem_handler_ReadDir in H1 as [-> Hr1].
  destruct r1 as [e | dirs]; psimpl; [done |].
  destruct Hr1 as [[? ?] | Hr1]; [done |]. intros _. by exists dirs.
Qed.

(** After [moveListed] has returned nil, nothing is left of a listed
    migration at the migrations root. *)
Lemma moveListed_mem_removed w opts T migs seeds tr w' d :
  run mem_handler (moveListed opts T migs seeds) w = (None, tr, w') →
  d ∈ migs →
  absent (w_fs w') (filepath_Join (MigrationsAbsDirectoryPath opts) d).
Proof.
  unfold moveListed. intros Hrun Hd.
  apply run_bind_inv in Hrun as (r1 & tr1 & w1 & tr1' & _ & Hrun & _).
  apply run_bind_inv in Hrun as (r2 & tr2 & w2 & tr2' & _ & Hrun & _).
  apply run_orReturn_None in Hrun as (trM & w3 & tr3' & _ & Hrun & _).
  apply run_orReturn_None in Hrun as (trS & w4 & tr4' & _ & Hrun & _).
  apply run_orReturn_None in Hrun as (trW & w5 & tr5' & _ & Hrun & _).
  apply run_bind_inv in Hrun as (r6 & tr6 & w6 & tr6' & _ & Hrun & _).
  apply run_orReturn_None in Hrun as (trR1 & w7 & tr7' & HR1 & Hrun & _).
  apply run_orReturn_None in Hrun as (trR2 & w8 & tr8' & HR2 & Hrun & _).
  apply run_orReturn_None in Hrun as (trR3 & w9 & tr9' & HR3 & Hrun & _).
  simpl in Hrun. injection Hrun as _ <-.
  intros s.
  eapply run_none; [apply HR3 | by eapply removeDirectories_creates_nothing |].
  eapply run_none; [apply HR2 | by eapply removeDirectories_creates_nothing |].
  by eapply removeDirectories_mem.
Qed.

(** X17: On the in-memory file system, with a project tree of valid names and
    the three directories of the project apart from one another: what the
    part of the script that moves the directories does not list, it leaves
    where it is, whatever the run returns.  An entry of the migrations
    root whose name does not match the naming convention, a directory of
    the seeds root, and a file of the metadata directory other than the
    two of the old layout keep their place and all that is below them;
    only an entry of the name of the target is left out of this. *)
Theorem entries_not_listed_stay_in_place :
  ∀ (w : World) (opts : UpdateProjectV3Opts) (T : string)
    (res : option error) (tr : list Event) (w' : World) (n : string) (s : path),
    run mem_handler (reorganizeDirectories opts T) w = (res, tr, w') →
    wf_names (w_fs w) →
    valid_name T = true →
    unrelated (MigrationsAbsDirectoryPath opts) (SeedsAbsDirectoryPath opts) →
    unrelated (MigrationsAbsDirectoryPath opts) (MetadataDir (EC opts)) →
    unrelated (SeedsAbsDirectoryPath opts) (MetadataDir (EC opts)) →
    n ≠ T →
    (n ∉ migration_entries (w_fs w) (MigrationsAbsDirectoryPath opts) →
       w_fs w' !! ((MigrationsAbsDirectoryPath opts ++ [n]) ++ s)
       = w_fs w !! ((MigrationsAbsDirectoryPath opts ++ [n]) ++ s))
    ∧ (n ∉ seed_files (w_fs w) (SeedsAbsDirectoryPath opts) →
         w_fs w' !! ((SeedsAbsDirectoryPath opts ++ [n]) ++ s)
         = w_fs w !! ((SeedsAbsDirectoryPath opts ++ [n]) ++ s))
    ∧ (n ∉ metadataFiles →
         w_fs w' !! ((MetadataDir (EC opts) ++ [n]) ++ s)
         = w_fs w !! ((MetadataDir (EC opts) ++ [n]) ++ s)).
Proof.
  intros w opts T res tr w' n s Hrun Hwf HT Hms Hmm Hsm HnT.
  destruct (reorganizeDirectories_mem_run _ _ _ _ _ _ Hrun)
    as [[-> _] | (tr1 & tr2 & -> & Hm)]; [done |].
  assert (Forall (λ d, valid_name d = true)
            (migration_entries (w_fs w) (MigrationsAbsDirectoryPath opts))) as Hmigs.
  { apply Forall_forall. intros d' Hd'.
    by destruct (migration_entries_elem _ _ _ Hwf Hd') as (? & _). }
  pose proof (seed_files_valid _ (SeedsAbsDirectoryPath opts) Hwf) as Hseeds.
  pose proof (unrelated_sym _ _ Hms). pose proof (unrelated_sym _ _ Hmm).
  pose proof (unrelated_sym _ _ Hsm).
  split; [| split]; intros Hn;
    (eapply phase_frame; [apply Hm | apply moveListed_calls |]);
    apply moves_untouched; auto.
Qed.

Lemma entries_not_listed_stay_in_place_witness :
  (("README" : string) ∉ migration_entries demo_fs ["p"; "migrations"] →
     w_fs demo_reorganize_run.2 !! ((["p"; "migrations"] ++ ["README"]) ++ [])
     = demo_fs !! ((["p"; "migrations"] ++ ["README"]) ++ []))
  ∧ (("README" : string) ∉ seed_files demo_fs ["p"; "seeds"] →
       w_fs demo_reorganize_run.2 !! ((["p"; "seeds"] ++ ["README"]) ++ [])
       = demo_fs !! ((["p"; "seeds"] ++ ["README"]) ++ []))
  ∧ (("README" : string) ∉ metadataFiles →
       w_fs demo_reorganize_run.2 !! ((["p"; "metadata"] ++ ["README"]) ++ [])
       = demo_fs !! ((["p"; "metadata"] ++ ["README"]) ++ [])).
Proof.
  apply (entries_not_listed_stay_in_place demo_world demo_opts "default"
           demo_reorganize_run.1.1 demo_reorganize_run.1.2 demo_reorganize_run.2
           "README" []).
  - unfold demo_reorganize_run. by destruct (run _ _ _) as [[? ?] ?].
  - change (map_Forall (λ (k : path) (_ : node), Forall (λ n, valid_name n = true) k)
              demo_fs).
    apply (bool_decide_unpack _). vm_compute. reflexivity.
  - reflexivity.
  - split; apply (bool_decide_unpack _); vm_compute; reflexivity.
  - split; apply (bool_decide_unpack _); vm_compute; reflexivity.
  - split; apply (bool_decide_unpack _); vm_compute; reflexivity.
  - discriminate.
Defined.

(** X18: On the in-memory file system, with a project tree of valid names and
    the seeds root and the metadata directory apart from the migrations
    root: after the part of the script that moves the directories has
    returned nil, no entry is left at the migrations root under a name
    that matches the naming convention of generated migrations, the name
    of the target apart.  This holds whatever calls have failed on the
    way: an entry whose copy was skipped is removed all the same. *)
Theorem no_generated_migration_left_at_the_root :
  ∀ (w : World) (opts : UpdateProjectV3Opts) (T : string)
    (tr : list Event) (w' : World) (d : string),
    run mem_handler (reorganizeDirectories opts T) w = (None, tr, w') →
    wf_names (w_fs w) →
    valid_name T = true →
    unrelated (MigrationsAbsDirectoryPath opts) (SeedsAbsDirectoryPath opts) →
    unrelated (MigrationsAbsDirectoryPath opts) (MetadataDir (EC opts)) →
    valid_name d = true →
    matches_migration_regex d = true →
    d ≠ T →
    w_fs w' !! filepath_Join (MigrationsAbsDirectoryPath opts) d = None.
Proof.
  intros w opts T tr w' d Hrun Hwf HT Hms Hmm Hvd Hmatch HdT.
  destruct (reorganizeDirectories_mem_listing _ _ _ _ _ Hrun) as [infos Hread].
  destruct (reorganizeDirectories_mem_run _ _ _ _ _ _ Hrun)
    as [[_ [e He]] | (tr1 & tr2 & -> & Hm)]; [done |].
  destruct (decide (d ∈ migration_entries (w_fs w) (MigrationsAbsDirectoryPath opts)))
    as [Hin | Hnin].
  - pose proof (moveListed_mem_removed _ _ _ _ _ _ _ d Hm Hin []) as Habs.
    by rewrite app_nil_r in Habs.
  - assert (w_fs w !! (MigrationsAbsDirectoryPath opts ++ [d]) = None) as Hnone.
    { destruct (w_fs w !! (MigrationsAbsDirectoryPath opts ++ [d])) as [nd |] eqn:Hnd;
        [| done].
      destruct Hnin. unfold migration_entries. rewrite Hread.
      apply (kept_names_elem _ _ _ _ Hwf Hread). by eauto. }
    rewrite filepath_Join_valid by done. rewrite <- Hnone.
    assert (Forall (λ d, valid_name d = true)
              (migration_entries (w_fs w) (MigrationsAbsDirectoryPath opts))) as Hmigs.
    { apply Forall_forall. intros d' Hd'.
      by destruct (migration_entries_elem _ _ _ Hwf Hd') as (? & _). }
    pose proof (seed_files_valid _ (SeedsAbsDirectoryPath opts) Hwf) as Hseeds.
    rewrite <- (app_nil_r (MigrationsAbsDirectoryPath opts ++ [d])).
    eapply phase_frame; [apply Hm | apply moveListed_calls |].
    apply moves_untouched; auto.
Qed.

Lemma no_generated_migration_left_at_the_root_witness :
  w_fs demo_stat_fault_reorganize_run.2
    !! filepath_Join ["p"; "migrations"] "1610000000000_init" = None.
Proof.
  apply (no_generated_migration_left_at_the_root demo_stat_fault_world demo_opts
           "default" demo_stat_fault_reorganize_run.1.2
           demo_stat_fault_reorganize_run.2 "1610000000000_init").
  - vm_compute. reflexivity.
  - change (map_Forall (λ (k : path) (_ : node), Forall (λ n, valid_name n = true) k)
              demo_fs).
    apply (bool_decide_unpack _). vm_compute. reflexivity.
  - reflexivity.
  - split; apply (bool_decide_unpack _); vm_compute; reflexivity.
  - split; apply (bool_decide_unpack _); vm_compute; reflexivity.
  - reflexivity.
  - reflexivity.
  - discriminate.
Defined.

(* ===================================================================== *)
(** * The script, part by part *)
(* ===================================================================== *)

(** *** The parts of [moveListed] *)

Lemma found_last_cons e tr :
  found_last (e :: tr) = match tr with [] => found e | _ :: _ => found_last tr end.
Proof. unfold found_last. by destruct tr. Qed.

Lemma found_last_app tr1 tr2 :
  found_last (tr1 ++ tr2) = match tr2 with [] => found_last tr1 | _ :: _ => found_last tr2 end.
Proof.
  unfold found_last. destruct tr2 as [| e tr2]; [by rewrite app_nil_r |].
  by rewrite last_app_cons.
Qed.

Lemma copyMigrations_found_then_copy dirs parent target :
  wp (copyMigrations dirs parent target) (λ tr _,
    ∀ pre s post, tr = pre ++ s :: post → found s = true →
      ∃ c post', post = c :: post' ∧ is_copy c = true).
Proof.
  induction dirs as [| d rest IH]; simpl.
  { intros pre s post Htr. by destruct pre. }
  intros [[f |] serr]; simpl.
  - assert (∀ (c : Event) tr',
              is_copy c = true →
              (∀ pre s post, tr' = pre ++ s :: post → found s = true →
                 ∃ c' post', post = c' :: post' ∧ is_copy c' = true) →
              ∀ pre s post,
                Ev (Fs_Stat (filepath_Join parent d)) (Some f, serr) :: c :: tr'
                = pre ++ s :: post →
                found s = true →
                ∃ c' post', post = c' :: post' ∧ is_copy c' = true) as Hstep.
    { intros c tr' Hc Htr' pre s post Htr Hs.
      apply cons_eq_app_cons in Htr as [(-> & -> & ->) | (pre2 & -> & Htr)]; [by eauto |].
      apply cons_eq_app_cons in Htr as [(-> & -> & ->) | (pre3 & -> & Htr)].
      - destruct c as [[] ?]; done.
      - by eapply Htr'. }
    destruct (IsDir f); simpl; intros [err |]; simpl.
    + apply Hstep; [done |]. intros pre s post Htr. by destruct pre.
    + eapply wp_mono; [| apply IH]. simpl. intros tr' _ Htr'. by apply Hstep.
    + apply Hstep; [done |]. intros pre s post Htr. by destruct pre.
    + eapply wp_mono; [| apply IH]. simpl. intros tr' _ Htr'. by apply Hstep.
  - eapply wp_mono; [| apply IH]. simpl. intros tr' _ Htr' pre s post Htr Hs.
    apply cons_eq_app_cons in Htr as [(-> & -> & ->) | (pre2 & -> & Htr)]; [done |].
    by eapply Htr'.
Qed.

Lemma copyMigrations_result dirs parent target :
  wp (copyMigrations dirs parent target) (λ tr res,
    match res with
    | None =>
        never copy_failed tr ∧ found_last tr = false
        ∧ ∀ d, d ∈ dirs → sometime (stats (filepath_Join parent d)) tr
    | Some eM =>
        ∃ pre c d err,
          tr = pre ++ [c] ∧ never copy_failed pre ∧ is_copy c = true
          ∧ error_of c = Some err ∧ d ∈ dirs ∧ found_last pre = true
          ∧ (ev_op c = CopyDirAfero (filepath_Join parent d) (filepath_Join target d)
             ∨ ev_op c = CopyFileAfero (filepath_Join parent d) (filepath_Join target d))
          ∧ eM = moving d target err
    end).
Proof.
  induction dirs as [| d0 rest IH]; simpl.
  { split; [apply never_nil |]. split; [done |]. intros d Hd. by apply elem_of_nil in Hd. }
  assert (∀ (pfx : list Event) tr' res',
    pfx ≠ [] → never copy_failed pfx →
    (match last pfx with Some e => found e | None => false end) = false →
    sometime (stats (filepath_Join parent d0)) pfx →
    match res' with
    | None =>
        never copy_failed tr' ∧ found_last tr' = false
        ∧ ∀ d, d ∈ rest → sometime (stats (filepath_Join parent d)) tr'
    | Some eM =>
        ∃ pre c d err,
          tr' = pre ++ [c] ∧ never copy_failed pre ∧ is_copy c = true
          ∧ error_of c = Some err ∧ d ∈ rest ∧ found_last pre = true
          ∧ (ev_op c = CopyDirAfero (filepath_Join parent d) (filepath_Join target d)
             ∨ ev_op c = CopyFileAfero (filepath_Join parent d) (filepath_Join target d))
          ∧ eM = moving d target err
    end →
    match res' with
    | None =>
        never copy_failed (pfx ++ tr') ∧ found_last (pfx ++ tr') = false
        ∧ ∀ d, d ∈ d0 :: rest → sometime (stats (filepath_Join parent d)) (pfx ++ tr')
    | Some eM =>
        ∃ pre c d err,
          pfx ++ tr' = pre ++ [c] ∧ never copy_failed pre ∧ is_copy c = true
          ∧ error_of c = Some err ∧ d ∈ d0 :: rest ∧ found_last pre = true
          ∧ (ev_op c = CopyDirAfero (filepath_Join parent d) (filepath_Join target d)
             ∨ ev_op c = CopyFileAfero (filepath_Join parent d) (filepath_Join target d))
          ∧ eM = moving d target err
    end) as Hstep.
  { intros pfx tr' res' Hne Hnf Hlast Hstat Hres. destruct res' as [eM |].
    - destruct Hres as (pre & c & d & err & -> & Hn & Hc & He & Hd & Hfl & Hop & ->).
      exists (pfx ++ pre), c, d, err. split; [by rewrite app_assoc |].
      split; [by apply never_app |]. split; [done |]. split; [done |].
      split; [by right |]. split; [| done].
      rewrite found_last_app. destruct pre; [done | done].
    - destruct Hres as (Hn & Hfl & Hall). split; [by apply never_app |]. split.
      + rewrite found_last_app. by destruct tr'.
      + intros d [-> | Hd]%elem_of_cons; [by apply sometime_app_l |].
        apply sometime_app_r. auto. }
  intros [[f |] serr]; simpl.
  - assert (sometime (stats (filepath_Join parent d0))
              [Ev (Fs_Stat (filepath_Join parent d0)) (Some f, serr)]) as Hst.
    { apply sometime_here. unfold stats. simpl. by apply bool_decide_eq_true_2. }
    destruct (IsDir f) eqn:HD; simpl; intros [err |]; simpl.
    + exists [Ev (Fs_Stat (filepath_Join parent d0)) (Some f, serr)],
        (Ev (CopyDirAfero (filepath_Join parent d0) (filepath_Join target d0)) (Some err)),
        d0, err.
      split; [done |]. split; [by repeat constructor |]. split; [done |].
      split; [done |]. split; [by left |]. split; [done |]. split; [by left | done].
    + eapply wp_mono; [| apply IH]. simpl. intros tr' res' Hres.
      apply (Hstep [Ev (Fs_Stat (filepath_Join parent d0)) (Some f, serr);
                    Ev (CopyDirAfero (filepath_Join parent d0) (filepath_Join target d0))
                       None] tr' res');
        [done | by repeat constructor | done | | done].
      apply sometime_here. unfold stats. simpl. by apply bool_decide_eq_true_2.
    + exists [Ev (Fs_Stat (filepath_Join parent d0)) (Some f, serr)],
        (Ev (CopyFileAfero (filepath_Join parent d0) (filepath_Join target d0)) (Some err)),
        d0, err.
      split; [done |]. split; [by repeat constructor |]. split; [done |].
      split; [done |]. split; [by left |]. split; [done |]. split; [by right | done].
    + eapply wp_mono; [| apply IH]. simpl. intros tr' res' Hres.
      apply (Hstep [Ev (Fs_Stat (filepath_Join parent d0)) (Some f, serr);
                    Ev (CopyFileAfero (filepath_Join parent d0) (filepath_Join target d0))
                       None] tr' res');
        [done | by repeat constructor | done | | done].
      apply sometime_here. unfold stats. simpl. by apply bool_decide_eq_true_2.
  - eapply wp_mono; [| apply IH]. simpl. intros tr' res' Hres.
    apply (Hstep [Ev (Fs_Stat (filepath_Join parent d0)) (None, serr)] tr' res');
      [done | by repeat constructor | done | | done].
    apply sometime_here. unfold stats. simpl. by apply bool_decide_eq_true_2.
Qed.

Lemma copyMigrations_meets_spec dirs parent target :
  wp (copyMigrations dirs parent target) (copyMigrations_spec dirs parent target).
Proof.
  eapply wp_mono;
    [| apply wp_and;
       [apply (copyMigrations_never (λ e, negb (is_stat_or_copy e))); done
       | apply wp_and;
         [apply copyMigrations_copy_after_stat
         | apply wp_and;
           [apply copyMigrations_found_then_copy | apply copyMigrations_result]]]].
  simpl. intros tr res (H1 & H2 & H3 & H4). split; [| done].
  eapply Forall_impl; [apply H1 |]. intros e He. simpl in He. by apply negb_false_iff.
Qed.

Lemma removal_ops_length parent dirs : length (removal_ops parent dirs) = length dirs.
Proof. unfold removal_ops. by rewrite length_fmap. Qed.

Lemma removals_meet_spec opts migs seeds :
  wp (orReturn (removeDirectories (MigrationsAbsDirectoryPath opts) migs)
        (λ err, Wrap err "removing up original migrations")
        (orReturn (removeDirectories (SeedsAbsDirectoryPath opts) seeds)
           (λ err, Wrap err "removing up original migrations")
           (orReturn (removeDirectories (MetadataDir (EC opts)) metadataFiles) id
              (Ret None))))
    (removals_spec opts migs seeds).
Proof.
  unfold orReturn, removals_spec, removal_seq.
  generalize (MigrationsAbsDirectoryPath opts) (SeedsAbsDirectoryPath opts)
    (MetadataDir (EC opts)). intros mroot sroot meta.
  assert (∀ parent dirs (removed : list string) (tr : list Event),
            removed `prefix_of` dirs → ev_op <$> tr = removal_ops parent removed →
            length tr ≤ length dirs ∧ ev_op <$> tr `prefix_of` removal_ops parent dirs)
    as Hlen.
  { intros parent dirs removed tr [k ->] Hops. split.
    - rewrite <- (length_fmap ev_op), Hops, removal_ops_length, length_app. lia.
    - rewrite Hops. unfold removal_ops. rewrite fmap_app. by apply prefix_app_r. }
  apply wp_bind. eapply wp_mono; [| apply removeDirectories_prefix].
  intros tr1 [e1 |] (rem1 & Hp1 & Ho1 & Hr1); fsimpl.
  { rewrite app_nil_r. destruct (Hlen _ _ _ _ Hp1 Ho1) as [Hl1 Hpre1].
    split; [by apply prefix_app_r |].
    destruct Hr1 as (pre & e & -> & Hnf & He). exists pre, e, e1.
    split; [done |]. split; [done |]. split; [done |].
    rewrite length_app in Hl1. simpl in Hl1. rewrite decide_True by lia. done. }
  destruct Hr1 as [-> Hnf1].
  apply wp_bind. eapply wp_mono; [| apply removeDirectories_prefix].
  intros tr2 [e2 |] (rem2 & Hp2 & Ho2 & Hr2); fsimpl.
  { rewrite app_nil_r. destruct (Hlen _ _ _ _ Hp2 Ho2) as [Hl2 Hpre2].
    split.
    - rewrite fmap_app, Ho1. apply prefix_app. by apply prefix_app_r.
    - destruct Hr2 as (pre & e & -> & Hnf & He). exists (tr1 ++ pre), e, e2.
      split; [by rewrite app_assoc |]. split; [by apply never_app |]. split; [done |].
      assert (length tr1 = length migs) as Hl1.
      { by rewrite <- (length_fmap ev_op), Ho1, removal_ops_length. }
      rewrite !length_app in *. simpl in Hl2. rewrite decide_True by lia. done. }
  destruct Hr2 as [-> Hnf2].
  apply wp_bind. eapply wp_mono; [| apply removeDirectories_prefix].
  intros tr3 [e3 |] (rem3 & Hp3 & Ho3 & Hr3); fsimpl.
  - rewrite app_nil_r. destruct (Hlen _ _ _ _ Hp3 Ho3) as [Hl3 Hpre3].
    split.
    + rewrite !fmap_app, Ho1, Ho2. by do 2 apply prefix_app.
    + destruct Hr3 as (pre & e & -> & Hnf & He). exists (tr1 ++ tr2 ++ pre), e, e3.
      split; [by rewrite <- !app_assoc |].
      split; [by repeat apply never_app |]. split; [done |].
      assert (length tr1 = length migs) as Hl1.
      { by rewrite <- (length_fmap ev_op), Ho1, removal_ops_length. }
      assert (length tr2 = length seeds) as Hl2.
      { by rewrite <- (length_fmap ev_op), Ho2, removal_ops_length. }
      rewrite !length_app. rewrite decide_False by lia. done.
  - rewrite app_nil_r. destruct Hr3 as [-> Hnf3].
    split; [by rewrite !fmap_app, Ho1, Ho2, Ho3 |].
    split; [by rewrite !fmap_app, Ho1, Ho2, Ho3 |]. by repeat apply never_app.
Qed.

Lemma moveListed_meets_spec opts T migs seeds :
  wp (moveListed opts T migs seeds) (Listed opts T migs seeds).
Proof.
  unfold moveListed, Listed. unfold orReturn at 1 2 3. fsimpl. intros r1 r2.
  apply wp_bind. eapply wp_mono; [| apply copyMigrations_meets_spec].
  intros trM [eM |] HM; fsimpl.
  { exists r1, r2, trM, (Some eM), []. by rewrite app_nil_r. }
  apply wp_bind. eapply wp_mono; [| apply copyFiles_prefix].
  intros trS [eS |] HS; fsimpl.
  { exists r1, r2, trM, None, (trS ++ []). split; [done |]. split; [done |].
    exists trS, (Some eS), []. by rewrite app_nil_r. }
  intros [err |]; fsimpl.
  { exists r1, r2, trM, None, (trS ++ [Ev (WriteConfig (newConfig opts)) (Some err)]).
    split; [done |]. split; [done |].
    exists trS, None, [Ev (WriteConfig (newConfig opts)) (Some err)].
    split; [done |]. split; [done |]. by exists (Some err), []. }
  intros [].
  eapply wp_mono; [| apply removals_meet_spec].
  fsimpl. intros trR res HR.
  exists r1, r2, trM, None,
    (trS ++ Ev (WriteConfig (newConfig opts)) None
         :: Ev (AssignConfig (newConfig opts)) () :: trR).
  split; [done |]. split; [done |].
  exists trS, None,
    (Ev (WriteConfig (newConfig opts)) None :: Ev (AssignConfig (newConfig opts)) () :: trR).
  split; [done |]. split; [done |]. exists None, (Ev (AssignConfig (newConfig opts)) () :: trR).
  split; [done |]. by exists trR.
Qed.

Lemma moveDirectories_meets_spec opts T :
  wp (moveDirectories opts T) (Moved opts T).
Proof.
  unfold moveDirectories, reorganizeDirectories, Moved, orReturn, orReturnV,
    getMigrationDirectoryNames, getMatchingFilesAndDirs, getSeedFiles. psimpl.
  intros [e | dirs]; psimpl.
  { exists (inl e), []. by split. }
  rewrite matching_loop_kept. psimpl.
  intros [e | sdirs]; psimpl.
  { exists (inr dirs), [Ev (Fs_ReadDir (SeedsAbsDirectoryPath opts)) (inl e)].
    split; [done |]. eexists _, (inl e), []. rewrite matching_loop_kept. by repeat split. }
  apply wp_bind. eapply wp_mono; [| apply moveListed_meets_spec].
  intros trL [e |] HL; psimpl.
  { exists (inr dirs),
      (Ev (Fs_ReadDir (SeedsAbsDirectoryPath opts)) (inr sdirs) :: trL ++ []).
    split; [done |]. eexists _, (inr sdirs), (trL ++ []). rewrite matching_loop_kept.
    split; [done |]. split; [done |]. exists trL, (Some e), []. by repeat split. }
  assert (∀ trE res, exported trE res →
    ∃ rM tail,
      Ev (Fs_ReadDir (MigrationsAbsDirectoryPath opts)) (inr dirs)
      :: Ev (Fs_ReadDir (SeedsAbsDirectoryPath opts)) (inr sdirs) :: trL ++ trE
      = Ev (Fs_ReadDir (MigrationsAbsDirectoryPath opts)) rM :: tail
      ∧ match rM with
        | inl err => tail = [] ∧ res = Some (Wrap err "getting list of migrations to move")
        | inr dirs =>
            ∃ migs rS tail2,
              matching_loop isHasuraCLIGeneratedMigration dirs [] = inr migs
              ∧ tail = Ev (Fs_ReadDir (SeedsAbsDirectoryPath opts)) rS :: tail2
              ∧ match rS with
                | inl err =>
                    tail2 = []
                    ∧ res = Some (Wrap err "getting list of seed files to move")
                | inr sdirs =>
                    ∃ trL resL trE,
                      tail2 = trL ++ trE
                      ∧ Listed opts T migs (seed_loop sdirs []) trL resL
                      ∧ match resL with
                        | Some e => trE = [] ∧ res = Some e
                        | None => exported trE res
                        end
                end
        end) as Hex.
  { intros trE res HE.
    exists (inr dirs), (Ev (Fs_ReadDir (SeedsAbsDirectoryPath opts)) (inr sdirs) :: trL ++ trE).
    split; [done |]. eexists _, (inr sdirs), (trL ++ trE). rewrite matching_loop_kept.
    split; [done |]. split; [done |]. by exists trL, None, trE. }
  unfold exportServerMetadata, orReturn, orReturnV. simpl.
  intros [e | files]; simpl.
  { apply Hex. left. by exists e. }
  intros [e |]; simpl; apply Hex; right; by exists files.
Qed.

(** *** The way to the move of the directories *)

Lemma moveState_outcome opts sources T :
  wp (moveState opts sources T) (λ tr res,
    (sources ≠ [] ∧ never is_project_call tr
     ∧ (res = None →
          MoveStateOnly opts = true ∧ is_latch_set <$> last tr = Some true))
    ∨ ((sources = [] ∨ MoveStateOnly opts = false)
       ∧ ∃ pre0 trD, tr = pre0 ++ trD ∧ never is_project_call pre0
                     ∧ Moved opts T trD res)).
Proof.
  unfold moveState. case_decide as Hlen.
  - assert (sources ≠ []) as Hne by (intros ->; simpl in Hlen; lia).
    unfold CopyState, orReturn, orReturnV. psimpl.
    do 6 (intros [e |]; psimpl; [left; split; [done |]; split; [auto 20 with trace | done] |]).
    intros [e | st]; psimpl; [left; split; [done |]; split; [auto 20 with trace | done] |].
    intros [e |]; psimpl; [left; split; [done |]; split; [auto 20 with trace | done] |].
    destruct (MoveStateOnly opts) eqn:Hflag; psimpl.
    + left. split; [done |]. split; [auto 20 with trace | done].
    + eapply wp_mono; [| apply moveDirectories_meets_spec].
      intros trD res HD. right. split; [by right |].
      eexists [_; _; _; _; _; _; _; _], trD. split; [reflexivity |].
      split; [by repeat constructor | done].
  - assert (sources = []) as -> by (destruct sources; [done | simpl in Hlen; lia]).
    eapply wp_mono; [| apply moveDirectories_meets_spec].
    intros trD res HD. right. split; [by left |].
    exists [], trD. split; [done |]. split; [by constructor | done].
Qed.

Lemma last_cons_cons {A : Type} (x y : A) l : last (x :: y :: l) = last (y :: l).
Proof. done. Qed.

Lemma latch_last_cons e tr :
  is_latch_set <$> last tr = Some true → is_latch_set <$> last (e :: tr) = Some true.
Proof. destruct tr; [done |]. by rewrite last_cons_cons. Qed.

Lemma latch_last_app pre tr :
  is_latch_set <$> last tr = Some true → is_latch_set <$> last (pre ++ tr) = Some true.
Proof. induction pre; simpl; [done |]. intros H. apply latch_last_cons; auto. Qed.

Lemma outcome_cons opts e tr res :
  is_project_call e = false → reports_no_source e = false →
  Stopped opts tr res ∨ Reached opts tr res →
  Stopped opts (e :: tr) res ∨ Reached opts (e :: tr) res.
Proof.
  intros Hp Hr [(H1 & H2 & H3) | (pre0 & T & trD & -> & H1 & H2 & H3 & H4)].
  - left. split; [auto with trace |]. split.
    + intros Hs. apply H2. inversion Hs; subst; [congruence | done].
    + intros Hres. destruct (H3 Hres) as [Hd | [Hf Hl]].
      * left. by apply sometime_later.
      * right. split; [done |]. by apply latch_last_cons.
  - right. exists (e :: pre0), T, trD. split; [done |]. split; [auto with trace |].
    split; [done |]. split; [| done].
    destruct H3 as [H3 | H3]; [left; by apply sometime_later | by right].
Qed.

Lemma reports_no_source_sources (l : list string) :
  reports_no_source (Ev GetSources (inr l)) = true → l = [].
Proof.
  unfold reports_no_source, reports, reported_sources. simpl.
  intros H. apply bool_decide_eq_true in H. congruence.
Qed.

Lemma updateProject_outcome opts :
  wp (updateProject opts) (λ tr res, Stopped opts tr res ∨ Reached opts tr res).
Proof.
  unfold updateProject, orReturnV. psimpl.
  intros [e | sources]; psimpl.
  { left. split; [auto with trace |]. split; [| done].
    intros Hs. inversion Hs as [? ? He | ? ? He]; subst; [done | inversion He]. }
  assert (∀ T, (TargetDatabase opts ≠ "" → T = TargetDatabase opts) →
    ∀ (pre : list Event), never is_project_call pre → never reports_no_source pre →
    (sources = [] → TargetDatabase opts ≠ "") →
    wp (moveState opts sources T) (λ tr res,
      Stopped opts (Ev GetSources (inr sources) :: pre ++ tr) res
      ∨ Reached opts (Ev GetSources (inr sources) :: pre ++ tr) res)) as Hgo.
  { intros T HT pre Hpre Hpre' Hsrc.
    eapply wp_mono;
      [| apply wp_and; [apply moveState_outcome
                       | apply (moveState_never reports_no_source)]];
      [| by intros [[] r] | by intros [[] r]].
    simpl. intros tr res [[(Hne & Hn & Hres) | (Hor & pre0 & trD & -> & Hn & HD)] Hrep].
    - left. split; [auto with trace |]. split.
      + intros Hs. inversion Hs as [? ? He | ? ? He]; subst.
        * by apply reports_no_source_sources in He.
        * destruct (never_sometime reports_no_source (pre ++ tr)); auto with trace.
      + intros Hr. destruct (Hres Hr) as [Hf Hl]. right. split; [done |].
        apply latch_last_cons. by apply latch_last_app.
    - right. exists (Ev GetSources (inr sources) :: pre ++ pre0), T, trD.
      split; [simpl; by rewrite app_assoc |]. split; [auto with trace |].
      split; [done |]. split; [| done].
      destruct Hor as [-> | Hf]; [| by right]. left. by apply sometime_here. }
  unfold selectTargetDatabase. case_decide as Hlen.
  - apply string_length_zero in Hlen. case_decide as Hone.
    + psimpl.
      eapply wp_mono; [| apply (Hgo (default "" (sources !! 0)) ltac:(done) [])].
      * done.
      * constructor.
      * constructor.
      * intros ->. by destruct Hone.
    + case_decide as Hpos; psimpl.
      * intros [e | T]; psimpl.
        { left. split; [auto with trace |]. split; [| done].
          intros Hs. inversion Hs as [? ? He | ? ? He]; subst.
          - apply reports_no_source_sources in He as ->. simpl in Hpos. lia.
          - inversion He as [? ? He' | ? ? He']; subst; [done | inversion He']. }
        eapply wp_mono;
          [| apply (Hgo T ltac:(done) [Ev (GetSelectPrompt
                   "what database does this current migrations / seeds belong to?"
                   sources) (inr T)])].
        -- done.
        -- by repeat constructor.
        -- by repeat constructor.
        -- intros ->. simpl in Hpos. lia.
      * left. split; [auto with trace |]. by split.
  - assert (TargetDatabase opts ≠ "") as HT.
    { intros HT. apply Hlen. by rewrite HT. }
    psimpl. eapply wp_mono; [| apply (Hgo (TargetDatabase opts) ltac:(done) [])].
    + done.
    + constructor.
    + constructor.
    + done.
Qed.

Lemma UpdateProjectV3_outcome opts :
  wp (UpdateProjectV3 opts) (λ tr res, Stopped opts tr res ∨ Reached opts tr res).
Proof.
  assert (∀ res, is_Some res → Stopped opts [] res) as Hnil.
  { intros res [x ->]. split; [constructor |]. split; [| done]. intros H. inversion H. }
  assert (∀ r res, is_Some res → Stopped opts [Ev GetInconsistentMetadata r] res) as Hone.
  { intros r res [x ->]. split; [by repeat constructor |]. split; [| done].
    intros H. inversion H as [? ? He | ? ? He]; subst; [done | inversion He]. }
  unfold UpdateProjectV3, orReturnV.
  destruct (_ && _); psimpl; [left; by apply Hnil |].
  destruct (negb (HasMetadataV3 _)); psimpl; [left; by apply Hnil |].
  intros [e | isConsistent]; psimpl; [left; by apply Hone |].
  destruct (negb isConsistent); psimpl; [left; by apply Hone |].
  destruct (negb (Force opts)); psimpl.
  - intros [e | response]; psimpl.
    { left. split; [by repeat constructor |]. split; [| done].
      intros H. inversion H as [? ? He | ? ? He]; subst; [done |].
      inversion He as [? ? He' | ? ? He']; subst; [done | inversion He']. }
    case_decide as Hn; psimpl.
    { left. split; [by repeat constructor |]. split.
      - intros H. inversion H as [? ? He | ? ? He]; subst; [done |].
        inversion He as [? ? He' | ? ? He']; subst; [done | inversion He'].
      - intros _. left. apply sometime_later, sometime_here.
        unfold declined. simpl. apply bool_decide_eq_true_2. by rewrite Hn. }
    eapply wp_mono; [| apply updateProject_outcome].
    intros tr res Htr. simpl. by do 2 (apply outcome_cons; [done .. |]).
  - eapply wp_mono; [| apply updateProject_outcome].
    intros tr res Htr. simpl. by apply outcome_cons.
Qed.

(** *** The calls before the move of the directories *)

Lemma listings_app a b : listings (a ++ b) = listings a ++ listings b.
Proof. unfold listings. apply omap_app. Qed.

Lemma listings_none tr : never is_project_call tr → listings tr = [].
Proof.
  induction 1 as [| e tr He _ IH]; [done |].
  change (listings (e :: tr)) with (from_option (λ l, l :: listings tr) (listings tr) (listing e)).
  rewrite IH. destruct e as [[] r]; done.
Qed.

Lemma listings_after pre0 tr :
  never is_project_call pre0 → listings (pre0 ++ tr) = listings tr.
Proof. intros Hn. by rewrite listings_app, listings_none. Qed.

Lemma count_app P a b : count P (a ++ b) = count P a + count P b.
Proof. induction a as [| x a IH]; simpl; [done | rewrite IH; lia]. Qed.

Lemma found_last_after pre0 tr :
  never is_project_call pre0 → found_last (pre0 ++ tr) = found_last tr.
Proof.
  intros Hn. rewrite found_last_app. destruct tr; [| done].
  unfold found_last. destruct (last pre0) as [e |] eqn:Hl; [| done].
  apply last_Some in Hl as [l' ->]. apply never_app_inv in Hn as [_ Hn].
  apply never_cons_inv in Hn as [Hn _]. destruct e as [[] r]; done.
Qed.

Lemma split_after pre0 trD pre e post :
  pre0 ++ trD = pre ++ e :: post → never is_project_call pre0 →
  is_project_call e = true →
  ∃ preD, pre = pre0 ++ preD ∧ trD = preD ++ e :: post.
Proof.
  revert pre. induction pre0 as [| x pre0 IH]; intros pre Heq Hn He; simpl in Heq.
  - by exists pre.
  - apply never_cons_inv in Hn as [Hx Hn]. destruct pre as [| y pre]; simpl in Heq.
    + injection Heq as -> _. congruence.
    + injection Heq as -> Heq. destruct (IH pre Heq Hn He) as (preD & -> & ->).
      by exists preD.
Qed.

Lemma never_split_false (K : Event → bool) tr pre e post :
  tr = pre ++ e :: post → never K tr → K e = true → False.
Proof.
  intros -> Hn He. apply never_app_inv in Hn as [_ Hn].
  apply never_cons_inv in Hn as [Hn _]. congruence.
Qed.

Lemma never_of (Q P : Event → bool) tr :
  (∀ e, Q e = true → P e = false) → Forall (λ e, Q e = true) tr → never P tr.
Proof. intros H Htr. unfold never. eapply Forall_impl; [exact Htr | exact H]. Qed.

Lemma ops_Forall (K : Op → Prop) tr ops :
  ev_op <$> tr `prefix_of` ops → Forall K ops → Forall (λ e, K (ev_op e)) tr.
Proof.
  intros [k ->] HK. apply Forall_app in HK as [HK _].
  rewrite Forall_fmap in HK. exact HK.
Qed.

Lemma file_copies_only parent target files tr :
  ev_op <$> tr = file_copy_ops parent target files → Forall (λ e, is_copy e = true) tr.
Proof.
  intros H.
  assert (Forall (λ e, match ev_op e with CopyFileAfero _ _ => True | _ => False end) tr)
    as Htr.
  { apply (ops_Forall (λ o, match o with CopyFileAfero _ _ => True | _ => False end)
             tr (file_copy_ops parent target files)); [by rewrite H |].
    unfold file_copy_ops. apply Forall_fmap. by apply Forall_true. }
  eapply Forall_impl; [exact Htr |]. by intros [[] r].
Qed.

Lemma removals_only opts migs seeds tr :
  ev_op <$> tr `prefix_of` removal_seq opts migs seeds →
  Forall (λ e, is_removal e = true) tr.
Proof.
  intros H.
  assert (Forall (λ e, match ev_op e with Fs_RemoveAll _ => True | _ => False end) tr)
    as Htr.
  { apply (ops_Forall (λ o, match o with Fs_RemoveAll _ => True | _ => False end)
             tr (removal_seq opts migs seeds)); [done |].
    unfold removal_seq, removal_ops. rewrite !Forall_app, !Forall_fmap.
    repeat split; by apply Forall_true. }
  eapply Forall_impl; [exact Htr |]. by intros [[] r].
Qed.

Lemma exported_never (P : Event → bool) tr res :
  (∀ r, P (Ev ExportMetadata r) = false) → (∀ f r, P (Ev (WriteMetadata f) r) = false) →
  exported tr res → never P tr.
Proof.
  intros H1 H2 [(err & -> & _) | (files & ->)]; repeat apply never_cons; auto using never_nil.
Qed.

(** The calls of [moveDirectories] around the write of the config. *)
Lemma Moved_shape opts T trD res :
  Moved opts T trD res →
  (never is_WriteConfig trD ∧ never is_removal trD ∧ is_Some res)
  ∨ ∃ dirs migs sdirs r1 r2 trM trS rW post,
      trD = (Ev (Fs_ReadDir (MigrationsAbsDirectoryPath opts)) (inr dirs)
             :: Ev (Fs_ReadDir (SeedsAbsDirectoryPath opts)) (inr sdirs)
             :: Ev (Fs_Mkdir (filepath_Join (MigrationsAbsDirectoryPath opts) T)) r1
             :: Ev (Fs_Mkdir (filepath_Join (SeedsAbsDirectoryPath opts) T)) r2
             :: trM ++ trS)
            ++ Ev (WriteConfig (newConfig opts)) rW :: post
      ∧ matching_loop isHasuraCLIGeneratedMigration dirs [] = inr migs
      ∧ copyMigrations_spec migs (MigrationsAbsDirectoryPath opts)
          (filepath_Join (MigrationsAbsDirectoryPath opts) T) trM None
      ∧ copyFiles_spec (seed_loop sdirs []) (SeedsAbsDirectoryPath opts)
          (filepath_Join (SeedsAbsDirectoryPath opts) T) trS None
      ∧ match rW with
        | Some err => post = [] ∧ res = Some err
        | None =>
            ∃ trR resR trE,
              post = Ev (AssignConfig (newConfig opts)) () :: trR ++ trE
              ∧ removals_spec opts migs (seed_loop sdirs []) trR resR
              ∧ match resR with
                | Some x => trE = [] ∧ res = Some x
                | None => exported trE res
                end
        end.
Proof.
  intros (rM & tail & -> & H).
  destruct rM as [err | dirs].
  { destruct H as [-> ->]. left. split; [by repeat constructor |].
    split; [by repeat constructor | by eauto]. }
  destruct H as (migs & rS & tail2 & Hm & -> & H).
  destruct rS as [err | sdirs].
  { destruct H as [-> ->]. left. split; [by repeat constructor |].
    split; [by repeat constructor | by eauto]. }
  destruct H as (trL & resL & trE & -> & (r1 & r2 & trM & resM & tl & -> & HM & HL) & HE).
  assert (never is_WriteConfig trM ∧ never is_removal trM) as [HMw HMr].
  { destruct HM as (HM & _). split; (eapply never_of; [| exact HM]); by intros [[] ?]. }
  destruct resM as [eM |].
  { destruct HL as [-> ->]. destruct HE as [-> ->]. left. rewrite !app_nil_r.
    split; [auto with trace |]. split; [auto with trace | by eauto]. }
  destruct HL as (trS & resS & tl2 & -> & HS & HL).
  assert (never is_WriteConfig trS ∧ never is_removal trS) as [HSw HSr].
  { destruct HS as (copied & _ & HS & _). apply file_copies_only in HS.
    split; (eapply never_of; [| exact HS]); by intros [[] ?]. }
  destruct resS as [eS |].
  { destruct HL as [-> ->]. destruct HE as [-> ->]. left. rewrite !app_nil_r.
    split; [auto 10 with trace |]. split; [auto 10 with trace | by eauto]. }
  destruct HL as (rW & tl3 & -> & HL). right.
  exists dirs, migs, sdirs, r1, r2, trM, trS, rW, (tl3 ++ trE).
  split; [simpl; by rewrite <- !app_assoc |].
  split; [done |]. split; [done |]. split; [done |].
  destruct rW as [err |].
  - destruct HL as [-> ->]. by destruct HE as [-> ->].
  - destruct HL as (trR & -> & HR). exists trR, resL, trE. by split.
Qed.

Lemma listings_cons_listed p dirs tr :
  listings (Ev (Fs_ReadDir p) (inr dirs) :: tr) = dirs :: listings tr.
Proof. done. Qed.

Lemma listed_after pre0 p q dirs sdirs migs tr :
  never is_project_call pre0 →
  matching_loop isHasuraCLIGeneratedMigration dirs [] = inr migs →
  listed_migrations
    (pre0 ++ Ev (Fs_ReadDir p) (inr dirs) :: Ev (Fs_ReadDir q) (inr sdirs) :: tr) = migs
  ∧ listed_seeds
      (pre0 ++ Ev (Fs_ReadDir p) (inr dirs) :: Ev (Fs_ReadDir q) (inr sdirs) :: tr)
    = seed_loop sdirs [].
Proof.
  intros Hn Hm. unfold listed_migrations, listed_seeds.
  rewrite listings_after by done. rewrite !listings_cons_listed. by rewrite Hm.
Qed.

Lemma copyMigrations_spec_found dirs parent target trM name :
  copyMigrations_spec dirs parent target trM None →
  sometime (stat_found name) trM → sometime (copy_done name) trM.
Proof.
  intros (_ & Hcopy & Hnext & Hnf & _) Hs.
  apply Exists_exists in Hs as (s & Hin & Hs).
  apply list_elem_of_split in Hin as (a & b & ->).
  assert (found s = true) as Hfound.
  { destruct s as [[] r]; try done. simpl in Hs. by apply andb_true_iff in Hs as [_ ?]. }
  destruct (Hnext a s b eq_refl Hfound) as (c & b' & -> & Hc).
  destruct (Hcopy (a ++ [s]) c b') as (d & f & serr & pre' & Hd & Hpre & Hop); [| done |].
  { by rewrite <- app_assoc. }
  apply app_inj_tail in Hpre as [-> ->].
  simpl in Hs. apply andb_true_iff in Hs as [Hname%bool_decide_eq_true _].
  apply sometime_app_r, sometime_later, sometime_here.
  apply never_app_inv in Hnf as [_ Hnf]. apply never_cons_inv in Hnf as [_ Hnf].
  apply never_cons_inv in Hnf as [Hnf _].
  unfold copy_failed in Hnf. rewrite Hc in Hnf. simpl in Hnf.
  unfold copy_done, copy_from. rewrite Hnf, Hop.
  destruct (IsDir f); simpl; rewrite andb_true_r; by apply bool_decide_eq_true_2.
Qed.

Lemma copyFiles_spec_done files parent target trS f :
  copyFiles_spec files parent target trS None → f ∈ files →
  sometime (copy_done (filepath_Join parent f)) trS.
Proof.
  intros (copied & _ & Hops & -> & Hnf) Hf.
  assert (CopyFileAfero (filepath_Join parent f) (filepath_Join target f)
          ∈ ev_op <$> trS) as Hin.
  { rewrite Hops. unfold file_copy_ops. apply list_elem_of_fmap. by exists f. }
  apply list_elem_of_fmap in Hin as (e & He & Hin).
  apply Exists_exists. exists e. split; [done |].
  unfold never in Hnf. rewrite Forall_forall in Hnf. specialize (Hnf e Hin).
  unfold copy_done, copy_from. rewrite Hnf, <- He. simpl. rewrite andb_true_r.
  by apply bool_decide_eq_true_2.
Qed.

Lemma removals_spec_done opts migs seeds trR p :
  removals_spec opts migs seeds trR None →
  Fs_RemoveAll p ∈ removal_seq opts migs seeds →
  sometime (removal_done p) trR.
Proof.
  intros (_ & Hops & Hnf) Hp. rewrite <- Hops in Hp.
  apply list_elem_of_fmap in Hp as (e & He & Hin).
  apply Exists_exists. exists e. split; [done |].
  unfold never in Hnf. rewrite Forall_forall in Hnf. specialize (Hnf e Hin).
  unfold removal_done. rewrite Hnf, <- He. simpl. rewrite andb_true_r.
  by apply bool_decide_eq_true_2.
Qed.

(** C3, as amended: in every run of [UpdateProjectV3], whatever the
    collaborators answer, the config file is written at most once and with
    version 3, and the write has its place between the copies and the
    removals.  Before the write: every call has succeeded, but for [Mkdir]
    and [Stat] whose errors the script does not look at; a state copy that
    was due (the server has reported a connected source) is finished by the
    setting of the latch; every listed migration has had its [Stat], and
    when [Stat] has found it, its copy has returned nil; the copy of every
    listed seed file has returned nil; and nothing is removed.  After the
    write: no call to the state stores and no copy; a write that fails is
    the last call of the run, which returns an error; after a write that
    returns nil the config of the execution context is set, then come the
    removals of the listed migrations, of the listed seed files and of the
    two metadata files, in this order and all of them when the run returns
    nil, and no removal after them. *)
Theorem config_version_written_after_copies_before_removal :
  ∀ (W : Type) (h : Handler W) (w : W) (opts : UpdateProjectV3Opts)
    (res : option error) (tr : list Event) (w' : W)
    (pre : list Event) (e : Event) (post : list Event),
    run h (UpdateProjectV3 opts) w = (res, tr, w') →
    tr = pre ++ e :: post →
    is_WriteConfig e = true →
    written_version e = Some V3
    ∧ never is_WriteConfig pre ∧ never is_WriteConfig post
    ∧ Forall (λ e', failed e' = true → tolerated e' = true) pre
    ∧ (sometime reports_connected pre → sometime is_latch_set pre)
    ∧ (∀ d, d ∈ listed_migrations pre →
         sometime (stats (filepath_Join (MigrationsAbsDirectoryPath opts) d)) pre
         ∧ (sometime (stat_found (filepath_Join (MigrationsAbsDirectoryPath opts) d)) pre →
            sometime (copy_done (filepath_Join (MigrationsAbsDirectoryPath opts) d)) pre))
    ∧ (∀ f, f ∈ listed_seeds pre →
         sometime (copy_done (filepath_Join (SeedsAbsDirectoryPath opts) f)) pre)
    ∧ never is_removal pre
    ∧ never is_state_call post ∧ never is_copy post
    ∧ (failed e = true → post = [] ∧ is_Some res)
    ∧ (failed e = false →
         ∃ trR trE,
           post = Ev (AssignConfig (newConfig opts)) () :: trR ++ trE
           ∧ ev_op <$> trR
             `prefix_of` removal_seq opts (listed_migrations pre) (listed_seeds pre)
           ∧ never is_removal trE
           ∧ (res = None →
                ev_op <$> trR
                = removal_seq opts (listed_migrations pre) (listed_seeds pre))).
Proof.
  intros W h w opts res tr w' pre e post Hrun Htr He.
  destruct (write_guarded_at_the_write W h w opts res tr w' pre e post Hrun Htr He)
    as (G1 & G2 & G3 & G4 & G5 & G6).
  assert (is_project_call e = true) as Hp by (destruct e as [[] ?]; done).
  destruct (wp_run h _ _ (UpdateProjectV3_outcome opts) _ _ _ _ Hrun)
    as [(Hn & _) | (pre0 & T & trD & Htr0 & Hn0 & _ & _ & HD)].
  { destruct (never_split_false is_project_call tr pre e post Htr Hn Hp). }
  rewrite Htr0 in Htr. apply split_after in Htr as (preD & -> & HtrD); [| done ..].
  apply Moved_shape in HD
    as [(Hnw & _) | (dirs & migs & sdirs & r1 & r2 & trM & trS & rW & post'
                     & HtrD' & Hm & HM & HS & HW)].
  { destruct (never_split_false is_WriteConfig trD preD e post HtrD Hnw He). }
  assert (never is_WriteConfig trM ∧ never is_state_call trM) as [HMw HMs].
  { destruct HM as (HM & _). split; (eapply never_of; [| exact HM]); by intros [[] ?]. }
  assert (never is_WriteConfig trS ∧ never is_state_call trS) as [HSw HSs].
  { destruct HS as (copied & _ & HS' & _). apply file_copies_only in HS'.
    split; (eapply never_of; [| exact HS']); by intros [[] ?]. }
  assert (never is_WriteConfig post' ∧ never is_state_call post' ∧ never is_copy post')
    as (HPw & HPs & HPc).
  { destruct rW as [err |]; [destruct HW as [-> _]; by repeat split; constructor |].
    destruct HW as (trR & resR & trE & -> & HR & HE).
    assert (never is_WriteConfig trE ∧ never is_state_call trE ∧ never is_copy trE)
      as (? & ? & ?).
    { destruct resR as [x |]; [destruct HE as [-> _]; by repeat split; constructor |].
      repeat split; by eapply exported_never. }
    destruct HR as (HR & _). apply removals_only in HR.
    assert (never is_WriteConfig trR ∧ never is_state_call trR ∧ never is_copy trR)
      as (? & ? & ?).
    { repeat split; (eapply never_of; [| exact HR]); by intros [[] ?]. }
    repeat split; auto with trace. }
  rewrite HtrD' in HtrD.
  apply (split_unique is_WriteConfig) in HtrD as (-> & -> & ->);
    [| auto 10 with trace | done | done].
  destruct (listed_after pre0 (MigrationsAbsDirectoryPath opts) (SeedsAbsDirectoryPath opts)
              dirs sdirs migs
              (Ev (Fs_Mkdir (filepath_Join (MigrationsAbsDirectoryPath opts) T)) r1
               :: Ev (Fs_Mkdir (filepath_Join (SeedsAbsDirectoryPath opts) T)) r2
               :: trM ++ trS) Hn0 Hm) as [-> ->].
  split; [done |]. split; [done |]. split; [done |]. split; [done |]. split; [done |].
  split.
  { intros d Hd. split.
    - destruct HM as (_ & _ & _ & _ & _ & Hall).
      apply sometime_app_r. do 4 apply sometime_later. apply sometime_app_l. by apply Hall.
    - intros Hs.
      assert (sometime (stat_found (filepath_Join (MigrationsAbsDirectoryPath opts) d)) trM)
        as HsM.
      { apply Exists_app in Hs as [Hs | Hs].
        { exfalso. apply Exists_exists in Hs as (s & Hin & Hs).
          unfold never in Hn0. rewrite Forall_forall in Hn0. specialize (Hn0 s Hin).
          destruct s as [[] ?]; done. }
        do 4 (apply Exists_cons in Hs as [Hs | Hs]; [done |]).
        apply Exists_app in Hs as [Hs | Hs]; [done |].
        exfalso. apply Exists_exists in Hs as (s & Hin & Hs).
        destruct HS as (copied & _ & HS' & _). apply file_copies_only in HS'.
        rewrite Forall_forall in HS'. specialize (HS' s Hin).
        destruct s as [[] ?]; done. }
      apply sometime_app_r. do 4 apply sometime_later. apply sometime_app_l.
      by eapply copyMigrations_spec_found. }
  split.
  { intros f Hf. apply sometime_app_r. do 4 apply sometime_later. apply sometime_app_r.
    by eapply copyFiles_spec_done. }
  split; [done |]. split; [done |]. split; [done |].
  destruct rW as [err |].
  - destruct HW as [-> ->]. split; [by eauto | done].
  - split; [done |]. intros _.
    destruct HW as (trR & resR & trE & -> & HR & HE). exists trR, trE.
    split; [done |]. split; [by destruct HR |].
    destruct resR as [x |].
    + destruct HE as [-> ->]. split; [constructor | done].
    + split; [by eapply exported_never |]. intros _. by destruct HR as (_ & ? & _).
Qed.

Lemma config_version_written_after_copies_before_removal_witness :
  ∃ pre e post,
    demo_run.1.2 = pre ++ e :: post
    ∧ is_WriteConfig e = true
    ∧ written_version e = Some V3
    ∧ never is_WriteConfig pre ∧ never is_WriteConfig post
    ∧ Forall (λ e', failed e' = true → tolerated e' = true) pre
    ∧ (sometime reports_connected pre → sometime is_latch_set pre)
    ∧ (∀ d, d ∈ listed_migrations pre →
         sometime (stats (filepath_Join (MigrationsAbsDirectoryPath demo_opts) d)) pre
         ∧ (sometime (stat_found (filepath_Join (MigrationsAbsDirectoryPath demo_opts) d)) pre →
            sometime (copy_done (filepath_Join (MigrationsAbsDirectoryPath demo_opts) d)) pre))
    ∧ (∀ f, f ∈ listed_seeds pre →
         sometime (copy_done (filepath_Join (SeedsAbsDirectoryPath demo_opts) f)) pre)
    ∧ never is_removal pre
    ∧ never is_state_call post ∧ never is_copy post
    ∧ (failed e = true → post = [] ∧ is_Some demo_run.1.1)
    ∧ (failed e = false →
         ∃ trR trE,
           post = Ev (AssignConfig (newConfig demo_opts)) () :: trR ++ trE
           ∧ ev_op <$> trR
             `prefix_of` removal_seq demo_opts (listed_migrations pre) (listed_seeds pre)
           ∧ never is_removal trE
           ∧ (demo_run.1.1 = None →
                ev_op <$> trR
                = removal_seq demo_opts (listed_migrations pre) (listed_seeds pre))).
Proof.
  exists (take 19 demo_run.1.2),
    (Ev (WriteConfig (mkConfig V3 "endpoint: http://localhost:8080")) None),
    (drop 20 demo_run.1.2).
  split; [vm_compute; reflexivity |]. split; [reflexivity |].
  apply (config_version_written_after_copies_before_removal World mem_handler
           demo_world demo_opts demo_run.1.1 demo_run.1.2 demo_run.2).
  - unfold demo_run. by destruct (run _ _ _) as [[? ?] ?].
  - vm_compute. reflexivity.
  - reflexivity.
Defined.

(** *** No connected source *)

Lemma sometime_middle (P : Event → bool) a b c :
  never P a → never P c → sometime P (a ++ b ++ c) → sometime P b.
Proof.
  intros Ha Hc Hs. apply Exists_app in Hs as [Hs | Hs].
  { destruct (never_sometime P a Ha Hs). }
  apply Exists_app in Hs as [Hs | Hs]; [done |].
  destruct (never_sometime P c Hc Hs).
Qed.

(** C10: in every run of [UpdateProjectV3] with a target database given
    by the flag, whatever the collaborators answer and whatever the flag
    [MoveStateOnly], when the server reports no connected source the run
    makes no call to the state stores, and after calls that do not read or
    change the project it goes on with the calls of [moveDirectories] for
    the target database of the flag, as [Moved] describes them, whose
    result is the result of the run: the migrations root is listed; and in
    a run that returns nil the seeds root is listed, the two target
    directories are made, every listed migration has its [Stat], its copy
    with the result nil when [Stat] has found it, and its removal with the
    result nil, every listed seed file is copied and removed with the
    result nil, the two metadata files of the old layout are removed, and
    version 3 is written to the config file. *)
Theorem no_source_skips_state_copy_and_moves_directories :
  ∀ (W : Type) (h : Handler W) (w : W) (opts : UpdateProjectV3Opts)
    (res : option error) (tr : list Event) (w' : W),
    TargetDatabase opts ≠ "" →
    run h (UpdateProjectV3 opts) w = (res, tr, w') →
    sometime reports_no_source tr →
    never is_state_call tr
    ∧ (∃ pre0 trD,
         tr = pre0 ++ trD ∧ never is_project_call pre0
         ∧ Moved opts (TargetDatabase opts) trD res)
    ∧ sometime (lists (MigrationsAbsDirectoryPath opts)) tr
    ∧ (res = None →
         sometime (lists (SeedsAbsDirectoryPath opts)) tr
         ∧ sometime (makes (filepath_Join (MigrationsAbsDirectoryPath opts)
                              (TargetDatabase opts))) tr
         ∧ sometime (makes (filepath_Join (SeedsAbsDirectoryPath opts)
                              (TargetDatabase opts))) tr
         ∧ (∀ d, d ∈ listed_migrations tr →
              sometime (stats (filepath_Join (MigrationsAbsDirectoryPath opts) d)) tr
              ∧ (sometime (stat_found (filepath_Join (MigrationsAbsDirectoryPath opts) d)) tr →
                 sometime (copy_done (filepath_Join (MigrationsAbsDirectoryPath opts) d)) tr)
              ∧ sometime (removal_done (filepath_Join (MigrationsAbsDirectoryPath opts) d)) tr)
         ∧ (∀ f, f ∈ listed_seeds tr →
              sometime (copy_done (filepath_Join (SeedsAbsDirectoryPath opts) f)) tr
              ∧ sometime (removal_done (filepath_Join (SeedsAbsDirectoryPath opts) f)) tr)
         ∧ (∀ f, f ∈ metadataFiles →
              sometime (removal_done (filepath_Join (MetadataDir (EC opts)) f)) tr)
         ∧ sometime wrote_V3 tr).
Proof.
  intros W h w opts res tr w' HT Hrun Hrep.
  destruct (no_source_proceeds W h w opts res tr w' HT Hrun Hrep) as (Hst & Hl & Hw).
  destruct (wp_run h _ _ (UpdateProjectV3_outcome opts) _ _ _ _ Hrun)
    as [(_ & Hno & _) | (pre0 & T & trD & -> & Hn0 & HTT & _ & HD)].
  { destruct (HT (Hno Hrep)). }
  rewrite (HTT HT) in HD. clear HTT T.
  split; [done |]. split; [by exists pre0, trD |]. split; [done |].
  intros ->.
  apply Moved_shape in HD
    as [(_ & _ & [x Hx]) | (dirs & migs & sdirs & r1 & r2 & trM & trS & rW & post
                            & -> & Hm & HM & HS & HW)]; [done |].
  destruct rW as [err |]; [by destruct HW |].
  destruct HW as (trR & resR & trE & -> & HR & HE).
  destruct resR as [x |]; [by destruct HE |].
  destruct (listed_after pre0 (MigrationsAbsDirectoryPath opts) (SeedsAbsDirectoryPath opts)
              dirs sdirs migs
              ((Ev (Fs_Mkdir (filepath_Join (MigrationsAbsDirectoryPath opts)
                                (TargetDatabase opts))) r1
                :: Ev (Fs_Mkdir (filepath_Join (SeedsAbsDirectoryPath opts)
                                   (TargetDatabase opts))) r2
                :: trM ++ trS)
               ++ Ev (WriteConfig (newConfig opts)) None
                  :: Ev (AssignConfig (newConfig opts)) () :: trR ++ trE) Hn0 Hm)
    as [Hlm Hls].
  simpl in Hlm, Hls |- *. rewrite Hlm, Hls. clear Hlm Hls.
  assert (∀ P, sometime P trM →
    sometime P (pre0 ++ Ev (Fs_ReadDir (MigrationsAbsDirectoryPath opts)) (inr dirs)
       :: Ev (Fs_ReadDir (SeedsAbsDirectoryPath opts)) (inr sdirs)
       :: Ev (Fs_Mkdir (filepath_Join (MigrationsAbsDirectoryPath opts)
                          (TargetDatabase opts))) r1
       :: Ev (Fs_Mkdir (filepath_Join (SeedsAbsDirectoryPath opts)
                          (TargetDatabase opts))) r2
       :: (trM ++ trS) ++ Ev (WriteConfig (newConfig opts)) None
          :: Ev (AssignConfig (newConfig opts)) () :: trR ++ trE)) as inM.
  { intros P HP. apply sometime_app_r. do 4 apply sometime_later.
    by do 2 apply sometime_app_l. }
  assert (∀ P, sometime P trS →
    sometime P (pre0 ++ Ev (Fs_ReadDir (MigrationsAbsDirectoryPath opts)) (inr dirs)
       :: Ev (Fs_ReadDir (SeedsAbsDirectoryPath opts)) (inr sdirs)
       :: Ev (Fs_Mkdir (filepath_Join (MigrationsAbsDirectoryPath opts)
                          (TargetDatabase opts))) r1
       :: Ev (Fs_Mkdir (filepath_Join (SeedsAbsDirectoryPath opts)
                          (TargetDatabase opts))) r2
       :: (trM ++ trS) ++ Ev (WriteConfig (newConfig opts)) None
          :: Ev (AssignConfig (newConfig opts)) () :: trR ++ trE)) as inS.
  { intros P HP. apply sometime_app_r. do 4 apply sometime_later.
    apply sometime_app_l. by apply sometime_app_r. }
  assert (∀ P, sometime P trR →
    sometime P (pre0 ++ Ev (Fs_ReadDir (MigrationsAbsDirectoryPath opts)) (inr dirs)
       :: Ev (Fs_ReadDir (SeedsAbsDirectoryPath opts)) (inr sdirs)
       :: Ev (Fs_Mkdir (filepath_Join (MigrationsAbsDirectoryPath opts)
                          (TargetDatabase opts))) r1
       :: Ev (Fs_Mkdir (filepath_Join (SeedsAbsDirectoryPath opts)
                          (TargetDatabase opts))) r2
       :: (trM ++ trS) ++ Ev (WriteConfig (newConfig opts)) None
          :: Ev (AssignConfig (newConfig opts)) () :: trR ++ trE)) as inR.
  { intros P HP. apply sometime_app_r. do 4 apply sometime_later.
    apply sometime_app_r. do 2 apply sometime_later. by apply sometime_app_l. }
  split.
  { apply sometime_app_r, sometime_later, sometime_here.
    unfold lists. by apply bool_decide_eq_true_2. }
  split.
  { apply sometime_app_r. do 2 apply sometime_later. apply sometime_here.
    unfold makes. by apply bool_decide_eq_true_2. }
  split.
  { apply sometime_app_r. do 3 apply sometime_later. apply sometime_here.
    unfold makes. by apply bool_decide_eq_true_2. }
  split.
  { intros d Hd. split; [| split].
    - apply inM. destruct HM as (_ & _ & _ & _ & _ & Hall). by apply Hall.
    - intros Hs. apply inM. eapply copyMigrations_spec_found; [exact HM |].
      apply (sometime_middle _
               (pre0 ++ [Ev (Fs_ReadDir (MigrationsAbsDirectoryPath opts)) (inr dirs);
                         Ev (Fs_ReadDir (SeedsAbsDirectoryPath opts)) (inr sdirs);
                         Ev (Fs_Mkdir (filepath_Join (MigrationsAbsDirectoryPath opts)
                                         (TargetDatabase opts))) r1;
                         Ev (Fs_Mkdir (filepath_Join (SeedsAbsDirectoryPath opts)
                                         (TargetDatabase opts))) r2])
               trM
               (trS ++ Ev (WriteConfig (newConfig opts)) None
                    :: Ev (AssignConfig (newConfig opts)) () :: trR ++ trE)).
      + apply never_app; [| by repeat constructor].
        eapply never_weaken; [| exact Hn0]. by intros [[] ?].
      + destruct HS as (copied & _ & HS' & _). apply file_copies_only in HS'.
        destruct HR as (HR & _). apply removals_only in HR.
        apply never_app; [eapply never_of; [| exact HS']; by intros [[] ?] |].
        do 2 (apply never_cons; [done |]).
        apply never_app; [eapply never_of; [| exact HR]; by intros [[] ?] |].
        by eapply exported_never.
      + by rewrite <- !app_assoc in Hs |- *.
    - apply inR. eapply removals_spec_done; [exact HR |].
      unfold removal_seq, removal_ops. apply elem_of_app. left.
      apply list_elem_of_fmap. by exists d. }
  split.
  { intros f Hf. split.
    - apply inS. by eapply copyFiles_spec_done.
    - apply inR. eapply removals_spec_done; [exact HR |].
      unfold removal_seq, removal_ops. apply elem_of_app. right.
      apply elem_of_app. left. apply list_elem_of_fmap. by exists f. }
  split.
  { intros f Hf. apply inR. eapply removals_spec_done; [exact HR |].
    unfold removal_seq, removal_ops. apply elem_of_app. right.
    apply elem_of_app. right. apply list_elem_of_fmap. by exists f. }
  by apply Hw.
Qed.

Lemma no_source_skips_state_copy_and_moves_directories_witness :
  never is_state_call demo_no_source_run.1.2
  ∧ (∃ pre0 trD,
       demo_no_source_run.1.2 = pre0 ++ trD ∧ never is_project_call pre0
       ∧ Moved demo_no_source_opts (TargetDatabase demo_no_source_opts) trD
           demo_no_source_run.1.1)
  ∧ sometime (lists (MigrationsAbsDirectoryPath demo_no_source_opts)) demo_no_source_run.1.2
  ∧ (demo_no_source_run.1.1 = None →
       sometime (lists (SeedsAbsDirectoryPath demo_no_source_opts)) demo_no_source_run.1.2
       ∧ sometime (makes (filepath_Join (MigrationsAbsDirectoryPath demo_no_source_opts)
                            (TargetDatabase demo_no_source_opts))) demo_no_source_run.1.2
       ∧ sometime (makes (filepath_Join (SeedsAbsDirectoryPath demo_no_source_opts)
                            (TargetDatabase demo_no_source_opts))) demo_no_source_run.1.2
       ∧ (∀ d, d ∈ listed_migrations demo_no_source_run.1.2 →
            sometime (stats (filepath_Join (MigrationsAbsDirectoryPath demo_no_source_opts) d))
              demo_no_source_run.1.2
            ∧ (sometime (stat_found
                           (filepath_Join (MigrationsAbsDirectoryPath demo_no_source_opts) d))
                 demo_no_source_run.1.2 →
               sometime (copy_done
                           (filepath_Join (MigrationsAbsDirectoryPath demo_no_source_opts) d))
                 demo_no_source_run.1.2)
            ∧ sometime (removal_done
                          (filepath_Join (MigrationsAbsDirectoryPath demo_no_source_opts) d))
                demo_no_source_run.1.2)
       ∧ (∀ f, f ∈ listed_seeds demo_no_source_run.1.2 →
            sometime (copy_done (filepath_Join (SeedsAbsDirectoryPath demo_no_source_opts) f))
              demo_no_source_run.1.2
            ∧ sometime (removal_done
                          (filepath_Join (SeedsAbsDirectoryPath demo_no_source_opts) f))
                demo_no_source_run.1.2)
       ∧ (∀ f, f ∈ metadataFiles →
            sometime (removal_done (filepath_Join (MetadataDir (EC demo_no_source_opts)) f))
              demo_no_source_run.1.2)
       ∧ sometime wrote_V3 demo_no_source_run.1.2).
Proof.
  apply (no_source_skips_state_copy_and_moves_directories World mem_handler
           demo_no_source_world demo_no_source_opts
           demo_no_source_run.1.1 demo_no_source_run.1.2 demo_no_source_run.2).
  - discriminate.
  - unfold demo_no_source_run. by destruct (run _ _ _) as [[? ?] ?].
  - unfold sometime. apply (bool_decide_unpack _). vm_compute. reflexivity.
Defined.

(** *** Moving the state only *)




(** *** The error of a step *)

Ltac list_norm := repeat (progress (simpl; rewrite <- ?app_assoc, ?app_nil_r)).

Lemma count_all P tr : Forall (λ e, P e = true) tr → count P tr = length tr.
Proof. induction 1 as [| e tr He _ IH]; simpl; [done |]. by rewrite He, IH. Qed.

Lemma found_last_copies hd trM pre :
  found_last hd = false → found_last trM = false →
  Forall (λ e, is_copy e = true) pre →
  found_last (hd ++ trM ++ pre) = false.
Proof.
  intros Hh HM Hp. rewrite !found_last_app.
  assert (found_last pre = false) as Hpre.
  { unfold found_last. destruct (last pre) as [e |] eqn:Hl; [| done].
    apply last_Some in Hl as [l' ->]. apply Forall_app in Hp as [_ Hp].
    apply Forall_cons in Hp as [Hp _]. destruct e as [[] ?]; done. }
  destruct pre as [| x pre]; simpl.
  - rewrite app_nil_r. by destruct trM.
  - destruct (trM ++ x :: pre) eqn:Heq; [by destruct trM | done].
Qed.

Lemma step_report_after opts pre0 preD e err r :
  never is_project_call pre0 →
  step_report opts preD e err r → step_report opts (pre0 ++ preD) e err r.
Proof.
  intros Hn. unfold step_report, listed_migrations, listed_seeds.
  rewrite (listings_after pre0 preD Hn), (found_last_after pre0 preD Hn), count_app.
  rewrite (count_never is_removal pre0)
    by (eapply never_weaken; [| exact Hn]; by intros [[] ?]).
  simpl. destruct (ev_op e); try done.
  - intros (? & T & ? & ?). split; [done |]. exists T. split; [| done].
    by apply sometime_app_r.
  - intros (T & ? & ?). exists T. split; [| done]. by apply sometime_app_r.
Qed.

Lemma last_op_of_copies parent target copied pre e f :
  ev_op <$> pre ++ [e] = file_copy_ops parent target copied →
  last copied = Some f →
  ev_op e = CopyFileAfero (filepath_Join parent f) (filepath_Join target f).
Proof.
  intros Hops Hl. apply (f_equal last) in Hops.
  rewrite fmap_app in Hops. simpl in Hops. rewrite last_snoc in Hops.
  unfold file_copy_ops in Hops. rewrite fmap_last, Hl in Hops. simpl in Hops.
  by injection Hops.
Qed.

Lemma prefix_snoc_lookup (ops : list Op) pre e :
  ev_op <$> pre ++ [e] `prefix_of` ops → ops !! length pre = Some (ev_op e).
Proof.
  intros [k ->]. rewrite fmap_app. simpl. rewrite <- app_assoc. simpl.
  rewrite lookup_app_r by (rewrite length_fmap; lia).
  rewrite length_fmap. by replace (length pre - length pre) with 0 by lia.
Qed.

(** A call of [moveDirectories] that fails, other than [Mkdir] and
    [Stat], and is the last call. *)
Lemma Moved_failure opts T preD e res :
  Moved opts T (preD ++ [e]) res → failed e = true → tolerated e = false →
  ∃ err r, error_of e = Some err ∧ res = Some r ∧ step_report opts preD e err r.
Proof.
  intros (rM & tail & Htr & H) Hf Ht.
  destruct rM as [err | dirs].
  { destruct H as [-> ->].
    apply (app_inj_tail preD [] e _) in Htr as [-> ->].
    eexists _, _. split; [reflexivity |]. split; [reflexivity |].
    unfold step_report. simpl. by split. }
  destruct H as (migs & rS & tail2 & Hm & -> & H).
  destruct rS as [err | sdirs].
  { destruct H as [-> ->].
    apply (app_inj_tail preD [_] e _) in Htr as [-> ->].
    eexists _, _. split; [reflexivity |]. split; [reflexivity |].
    unfold step_report. simpl. by split. }
  destruct H as (trL & resL & trE & -> & (r1 & r2 & trM & resM & tl & -> & HM & HL) & HE).
  set (RD1 := Ev (Fs_ReadDir (MigrationsAbsDirectoryPath opts)) (inr dirs)) in *.
  set (RD2 := Ev (Fs_ReadDir (SeedsAbsDirectoryPath opts)) (inr sdirs)) in *.
  set (Mk1 := Ev (Fs_Mkdir (filepath_Join (MigrationsAbsDirectoryPath opts) T)) r1) in *.
  set (Mk2 := Ev (Fs_Mkdir (filepath_Join (SeedsAbsDirectoryPath opts) T)) r2) in *.
  assert (∀ rest, listed_migrations (RD1 :: RD2 :: rest) = migs
                  ∧ listed_seeds (RD1 :: RD2 :: rest) = seed_loop sdirs []) as Hlisted.
  { intros rest. apply (listed_after [] _ _ dirs sdirs migs rest); [constructor | done]. }
  assert (∀ rest, sometime (makes (filepath_Join (MigrationsAbsDirectoryPath opts) T))
                    (RD1 :: RD2 :: Mk1 :: Mk2 :: rest)) as Hmk.
  { intros rest. do 2 apply sometime_later. apply sometime_here.
    unfold makes. by apply bool_decide_eq_true_2. }
  destruct resM as [eM |].
  { destruct HL as [-> ->]. destruct HE as [-> ->].
    destruct HM as (_ & _ & _ & pre & c & d & err & -> & _ & Hc & Herr & Hd & Hfl & Hop & ->).
    assert (preD ++ [e] = (RD1 :: RD2 :: Mk1 :: Mk2 :: pre) ++ [c]) as Htr'.
    { rewrite Htr. by list_norm. }
    apply app_inj_tail in Htr' as [-> ->]. clear Htr.
    eexists _, _. split; [exact Herr |]. split; [reflexivity |].
    assert (found_last (RD1 :: RD2 :: Mk1 :: Mk2 :: pre) = true) as Hfl'.
    { change (RD1 :: RD2 :: Mk1 :: Mk2 :: pre) with ([RD1; RD2; Mk1; Mk2] ++ pre).
      rewrite found_last_app. destruct pre; [done | done]. }
    unfold step_report. rewrite Hfl'.
    destruct (Hlisted (Mk1 :: Mk2 :: pre)) as [-> _].
    destruct Hop as [-> | ->].
    - split; [done |]. exists T. split; [apply Hmk |]. by exists d.
    - exists T. split; [apply Hmk |]. by exists d. }
  destruct HL as (trS & resS & tl2 & -> & HS & HL).
  assert (Forall (λ e, is_copy e = true) trS) as HScopy.
  { destruct HS as (copied & _ & HS & _). by eapply file_copies_only. }
  destruct resS as [eS |].
  { destruct HL as [-> ->]. destruct HE as [-> ->].
    destruct HS as (copied & Hpref & Hops & pre & c & f & cause & -> & _ & Hlast & Herr & ->).
    assert (preD ++ [e] = (RD1 :: RD2 :: Mk1 :: Mk2 :: trM ++ pre) ++ [c]) as Htr'.
    { rewrite Htr. by list_norm. }
    apply app_inj_tail in Htr' as [-> ->]. clear Htr.
    eexists _, _. split; [exact Herr |]. split; [reflexivity |].
    assert (found_last (RD1 :: RD2 :: Mk1 :: Mk2 :: trM ++ pre) = false) as Hfl'.
    { apply (found_last_copies [RD1; RD2; Mk1; Mk2] trM pre); [done | |].
      - by destruct HM as (_ & _ & _ & _ & ? & _).
      - by apply Forall_app in HScopy as [? _]. }
    unfold step_report. rewrite Hfl'.
    destruct (Hlisted (Mk1 :: Mk2 :: trM ++ pre)) as [_ ->].
    rewrite (last_op_of_copies _ _ _ _ _ _ Hops Hlast).
    exists T. split; [apply Hmk |]. exists f. split; [| done].
    apply last_Some in Hlast as [l' ->]. destruct Hpref as [k ->].
    rewrite <- app_assoc. apply elem_of_app. right. by left. }
  destruct HL as (rW & tl3 & -> & HL).
  destruct rW as [err |].
  { destruct HL as [-> ->]. destruct HE as [-> ->].
    assert (preD ++ [e]
            = (RD1 :: RD2 :: Mk1 :: Mk2 :: trM ++ trS)
              ++ [Ev (WriteConfig (newConfig opts)) (Some err)]) as Htr'.
    { rewrite Htr. by list_norm. }
    apply app_inj_tail in Htr' as [-> ->]. clear Htr.
    eexists _, _. split; [reflexivity |]. split; [reflexivity |]. done. }
  destruct HL as (trR & -> & HR).
  assert (never is_removal trM) as HMr.
  { destruct HM as (HM & _). eapply never_of; [| exact HM]. by intros [[] ?]. }
  assert (never is_removal trS) as HSr.
  { eapply never_of; [| exact HScopy]. by intros [[] ?]. }
  destruct resL as [x |].
  { destruct HE as [-> ->].
    destruct HR as (Hpref & pre & c & err & -> & _ & Herr & ->).
    assert (preD ++ [e]
            = (RD1 :: RD2 :: Mk1 :: Mk2 :: trM ++ trS
               ++ Ev (WriteConfig (newConfig opts)) None
                  :: Ev (AssignConfig (newConfig opts)) () :: pre) ++ [c]) as Htr'.
    { rewrite Htr. by list_norm. }
    apply app_inj_tail in Htr' as [-> ->]. clear Htr.
    eexists _, _. split; [exact Herr |]. split; [reflexivity |].
    pose proof (removals_only _ _ _ _ Hpref) as Hrem.
    apply Forall_app in Hrem as [Hrem Hc]. apply Forall_cons in Hc as [Hc _].
    assert (count is_removal
              (RD1 :: RD2 :: Mk1 :: Mk2 :: trM ++ trS
               ++ Ev (WriteConfig (newConfig opts)) None
                  :: Ev (AssignConfig (newConfig opts)) () :: pre) = length pre) as Hcount.
    { simpl. rewrite !count_app. simpl.
      rewrite (count_never _ _ HMr), (count_never _ _ HSr).
      by rewrite (count_all _ _ Hrem). }
    unfold step_report. rewrite Hcount.
    destruct (Hlisted (Mk1 :: Mk2 :: trM ++ trS
               ++ Ev (WriteConfig (newConfig opts)) None
                  :: Ev (AssignConfig (newConfig opts)) () :: pre)) as [-> ->].
    apply prefix_snoc_lookup in Hpref.
    unfold is_removal in Hc. destruct (ev_op c) eqn:Hop; try done. }
  destruct HE as [(err & -> & ->) | (files & ->)].
  - assert (preD ++ [e]
            = (RD1 :: RD2 :: Mk1 :: Mk2 :: trM ++ trS
               ++ Ev (WriteConfig (newConfig opts)) None
                  :: Ev (AssignConfig (newConfig opts)) () :: trR)
              ++ [Ev ExportMetadata (inl err)]) as Htr'.
    { rewrite Htr. by list_norm. }
    apply app_inj_tail in Htr' as [-> ->]. clear Htr.
    eexists _, _. split; [reflexivity |]. split; [reflexivity |]. done.
  - assert (preD ++ [e]
            = (RD1 :: RD2 :: Mk1 :: Mk2 :: trM ++ trS
               ++ Ev (WriteConfig (newConfig opts)) None
                  :: Ev (AssignConfig (newConfig opts)) () :: trR
               ++ [Ev ExportMetadata (inr files)])
              ++ [Ev (WriteMetadata files) res]) as Htr'.
    { rewrite Htr. by list_norm. }
    apply app_inj_tail in Htr' as [-> ->]. clear Htr.
    destruct res as [err |]; [| done].
    eexists _, _. split; [reflexivity |]. split; [reflexivity |]. done.
Qed.

(** C4, as amended: in every run of [UpdateProjectV3], whatever the
    collaborators answer, a call that fails, other than [Mkdir] and
    [Stat], is the last call of the run, and the run returns its error as
    [step_report] says for the step of the call: under the message of the
    step for the check of the metadata, for the listing of the migrations
    root (the first listing) and of the seeds root (the second one), for
    the copy of a listed migration and of a listed seed file, where the
    message of the step comes on top of a message with the entry and the
    target directory, and for the removal of a listed migration or seed
    file, both under the one message [removing up original migrations];
    as it is for the prompts, the list of sources, the preparation and the
    copies of the state, the write of the config, the removal of the two
    metadata files and the export and the write of the metadata; inside a
    new message for the fetch and the write of the catalog state. *)
Theorem failed_step_aborts_and_is_reported :
  ∀ (W : Type) (h : Handler W) (w : W) (opts : UpdateProjectV3Opts)
    (res : option error) (tr : list Event) (w' : W)
    (pre : list Event) (e : Event) (post : list Event),
    run h (UpdateProjectV3 opts) w = (res, tr, w') →
    tr = pre ++ e :: post →
    failed e = true →
    tolerated e = false →
    post = []
    ∧ ∃ err r, error_of e = Some err ∧ res = Some r ∧ step_report opts pre e err r.
Proof.
  intros W h w opts res tr w' pre e post Hrun Htr Hf Ht.
  destruct (aborting_call_is_last_and_reported W h w opts res tr w' pre e post
              Hrun Htr Hf Ht) as [-> (err & r & Herr & -> & Hrep)].
  split; [done |].
  destruct (is_project_call e) eqn:Hp.
  - destruct (wp_run h _ _ (UpdateProjectV3_outcome opts) _ _ _ _ Hrun)
      as [(Hn & _) | (pre0 & T & trD & Htr0 & Hn0 & _ & _ & HD)].
    { destruct (never_split_false is_project_call tr pre e [] Htr Hn Hp). }
    rewrite Htr0 in Htr. apply split_after in Htr as (preD & -> & ->); [| done ..].
    destruct (Moved_failure opts T preD e (Some r) HD Hf Ht)
      as (err' & r' & Herr' & Hres' & Hstep).
    exists err', r'. split; [done |]. split; [done |]. by apply step_report_after.
  - exists err, r. split; [done |]. split; [done |].
    unfold step_report, reported_as in *. destruct e as [[] resp]; done.
Qed.

Lemma failed_step_aborts_and_is_reported_witness :
  @nil Event = []
  ∧ ∃ err r,
      error_of (Ev (Fs_RemoveAll ["p"; "migrations"; "1610000000000_init"]) (Some injected))
      = Some err
      ∧ demo_removal_fault_run.1.1 = Some r
      ∧ step_report demo_opts (take 21 demo_removal_fault_run.1.2)
          (Ev (Fs_RemoveAll ["p"; "migrations"; "1610000000000_init"]) (Some injected))
          err r.
Proof.
  apply (failed_step_aborts_and_is_reported World mem_handler demo_removal_fault_world
           demo_opts
           demo_removal_fault_run.1.1 demo_removal_fault_run.1.2 demo_removal_fault_run.2).
  - unfold demo_removal_fault_run. by destruct (run _ _ _) as [[? ?] ?].
  - vm_compute. reflexivity.
  - reflexivity.
  - reflexivity.
Defined.

(** *** The config file and the metadata of the in-memory project *)

Lemma config_file_after_cons c e tr :
  config_file_after c (e :: tr) = config_file_after (default c (config_written_by e)) tr.
Proof.
  unfold config_file_after.
  change (omap config_written_by (e :: tr))
    with (from_option (λ y, y :: omap config_written_by tr) (omap config_written_by tr)
            (config_written_by e)).
  destruct (config_written_by e) as [c' |]; simpl; [| done].
  rewrite last_cons. by destruct (last _).
Qed.

Lemma config_file_after_app c a b :
  config_file_after c (a ++ b) = config_file_after (config_file_after c a) b.
Proof.
  revert c. induction a as [| e a IH]; intros c; [done |].
  simpl. by rewrite !config_file_after_cons, IH.
Qed.

Lemma config_file_after_never c tr :
  never is_WriteConfig tr → config_file_after c tr = c.
Proof.
  induction 1 as [| e tr He _ IH]; [done |].
  rewrite config_file_after_cons.
  assert (config_written_by e = None) as -> by (destruct e as [[] ?]; done).
  done.
Qed.

Lemma mem_handler_config_file o w :
  w_config_file (mem_handler o w).2
  = default (w_config_file w) (config_written_by (Ev o (mem_handler o w).1)).
Proof.
  unfold mem_handler. destruct (w_fault w o); [by destruct o |].
  destruct o; simpl; try done.
  - unfold mem_CopyMigrationState. destruct (w_tables w !! _); [| done].
    by destruct (holds_records _ _).
  - unfold mem_CopySettingsState. by destruct (w_tables w !! _).
  - by destruct (mem_Mkdir _ _).
  - by destruct (mem_CopyDir _ _ _).
  - by destruct (mem_CopyFile _ _ _).
Qed.

Lemma run_config_file {A : Type} (m : Prog A) w a tr w' :
  run mem_handler m w = (a, tr, w') →
  w_config_file w' = config_file_after (w_config_file w) tr.
Proof.
  revert w a tr w'. induction m as [a0 | o k0 IH]; simpl; intros w a tr w' Hrun.
  - by inversion Hrun.
  - destruct (mem_handler o w) as [r w1] eqn:Hh.
    destruct (run mem_handler (k0 r) w1) as [[a1 tr1] w2] eqn:Hk.
    inversion Hrun; subst. rewrite (IH _ _ _ _ _ Hk), config_file_after_cons.
    pose proof (mem_handler_config_file o w) as Hc. rewrite Hh in Hc. simpl in Hc.
    by rewrite Hc.
Qed.

Lemma mem_handler_others o w :
  (match o with WriteMetadata _ => False | _ => True end →
   w_project_metadata (mem_handler o w).2 = w_project_metadata w)
  ∧ (is_state_call (Ev o (mem_handler o w).1) = false →
     w_catalog (mem_handler o w).2 = w_catalog w).
Proof.
  unfold mem_handler. destruct (w_fault w o); [by destruct o |].
  destruct o; simpl; try done.
  - unfold mem_CopyMigrationState. destruct (w_tables w !! _); [| done].
    by destruct (holds_records _ _).
  - unfold mem_CopySettingsState. by destruct (w_tables w !! _).
  - by destruct (mem_Mkdir _ _).
  - by destruct (mem_CopyDir _ _ _).
  - by destruct (mem_CopyFile _ _ _).
Qed.

Lemma run_others {A : Type} (m : Prog A) w a tr w' :
  run mem_handler m w = (a, tr, w') →
  never is_WriteMetadata tr → never is_state_call tr →
  w_project_metadata w' = w_project_metadata w ∧ w_catalog w' = w_catalog w.
Proof.
  revert w a tr w'. induction m as [a0 | o k0 IH]; simpl; intros w a tr w' Hrun HM HS.
  - by inversion Hrun.
  - destruct (mem_handler o w) as [r w1] eqn:Hh.
    destruct (run mem_handler (k0 r) w1) as [[a1 tr1] w2] eqn:Hk.
    inversion Hrun; subst.
    apply never_cons_inv in HM as [HM1 HM]. apply never_cons_inv in HS as [HS1 HS].
    destruct (IH _ _ _ _ _ Hk HM HS) as [-> ->].
    destruct (mem_handler_others o w) as [H1 H2]. rewrite Hh in H1, H2. simpl in H1, H2.
    split; [apply H1; by destruct o | by apply H2].
Qed.

(** C8, as amended: on the in-memory project, when no entry of the
    migrations root matches the naming convention, the part of the script
    that moves the directories changes the project tree nowhere but at the
    two target directories it makes, at the seed files, which it copies
    into the target seeds directory and removes from the seeds root, and
    at the two metadata files of the old layout, which it removes; the
    config file stays as it was or becomes the config of the execution
    context with version 3, and it is that config when the part returns
    nil; the metadata of the project and the catalog state stay as they
    were. *)
Theorem reorganization_without_migrations_changes_only_seeds_and_metadata :
  ∀ (w : World) (opts : UpdateProjectV3Opts) (T : string)
    (res : option error) (tr : list Event) (w' : World),
    run mem_handler (reorganizeDirectories opts T) w = (res, tr, w') →
    migration_entries (w_fs w) (MigrationsAbsDirectoryPath opts) = [] →
    (∀ k : path,
       w_fs w' !! k ≠ w_fs w !! k →
       k = filepath_Join (MigrationsAbsDirectoryPath opts) T
       ∨ k = filepath_Join (SeedsAbsDirectoryPath opts) T
       ∨ (∃ f, f ∈ seed_files (w_fs w) (SeedsAbsDirectoryPath opts)
            ∧ (k = filepath_Join (filepath_Join (SeedsAbsDirectoryPath opts) T) f
               ∨ filepath_Join (SeedsAbsDirectoryPath opts) f `prefix_of` k))
       ∨ (∃ f, f ∈ metadataFiles
            ∧ filepath_Join (MetadataDir (EC opts)) f `prefix_of` k))
    ∧ (w_config_file w' = w_config_file w ∨ w_config_file w' = newConfig opts)
    ∧ (res = None → w_config_file w' = newConfig opts)
    ∧ w_project_metadata w' = w_project_metadata w
    ∧ w_catalog w' = w_catalog w.
Proof.
  intros w opts T res tr w' Hrun Hno.
  split.
  { intros k Hk. by eapply tree_changes_without_migrations. }
  destruct (reorganizeDirectories_mem_run _ _ _ _ _ _ Hrun)
    as [[-> [x ->]] | (tr1 & tr2 & -> & Hm)]; [split; [by left | done] |].
  assert (never is_WriteMetadata tr2) as HnM.
  { eapply never_weaken;
      [| exact (wp_run mem_handler _ _ (moveListed_no_metadata_call opts T _ _)
                  _ _ _ _ Hm)].
    by intros [[] ?]. }
  pose proof (wp_run mem_handler _ _
                (moveListed_never is_state_call opts T _ _ ltac:(by intros [[] ?]))
                _ _ _ _ Hm) as HnS.
  destruct (run_others _ _ _ _ _ Hm HnM HnS) as [Hmeta Hcat].
  assert ((w_config_file w' = w_config_file w ∨ w_config_file w' = newConfig opts)
          ∧ (res = None → w_config_file w' = newConfig opts)) as [Hc1 Hc2]; [| done].
  rewrite (run_config_file _ _ _ _ _ Hm).
  pose proof (wp_run mem_handler _ _ (moveListed_writes opts T _ _) _ _ _ _ Hm) as Hw.
  destruct (wp_run mem_handler _ _ (moveListed_config opts T _ _) _ _ _ _ Hm)
    as [Hn | (A & r & B & -> & HA & Hr)].
  - assert (never is_WriteConfig tr2) as Hn'.
    { eapply never_weaken; [| exact Hn]. by intros [[] ?]. }
    rewrite config_file_after_never by done. split; [by left |].
    intros Hres. specialize (Hw Hres). exfalso.
    apply Exists_exists in Hw as (e & Hin & He).
    unfold never in Hn'. rewrite Forall_forall in Hn'. specialize (Hn' e Hin).
    destruct e as [[] ?]; done.
  - assert (never is_WriteConfig A) as HA'.
    { eapply never_weaken; [| exact HA]. by intros [[] ?]. }
    rewrite config_file_after_app, config_file_after_cons.
    rewrite (config_file_after_never _ A HA').
    destruct r as [err |].
    + destruct Hr as [-> ->]. split; [by left | done].
    + destruct Hr as (B' & -> & HB').
      assert (never is_WriteConfig (Ev (AssignConfig (newConfig opts)) () :: B')) as HB.
      { apply never_cons; [done |]. eapply never_weaken; [| exact HB']. by intros [[] ?]. }
      rewrite (config_file_after_never _ _ HB). split; [by right | done].
Qed.

Lemma reorganization_without_migrations_changes_only_seeds_and_metadata_witness :
  (∀ k : path,
     w_fs demo_no_migration_run.2 !! k ≠ w_fs demo_no_migration_world !! k →
     k = filepath_Join (MigrationsAbsDirectoryPath demo_opts) "default"
     ∨ k = filepath_Join (SeedsAbsDirectoryPath demo_opts) "default"
     ∨ (∃ f, f ∈ seed_files (w_fs demo_no_migration_world) (SeedsAbsDirectoryPath demo_opts)
          ∧ (k = filepath_Join (filepath_Join (SeedsAbsDirectoryPath demo_opts) "default") f
             ∨ filepath_Join (SeedsAbsDirectoryPath demo_opts) f `prefix_of` k))
     ∨ (∃ f, f ∈ metadataFiles
          ∧ filepath_Join (MetadataDir (EC demo_opts)) f `prefix_of` k))
  ∧ (w_config_file demo_no_migration_run.2 = w_config_file demo_no_migration_world
     ∨ w_config_file demo_no_migration_run.2 = newConfig demo_opts)
  ∧ (demo_no_migration_run.1.1 = None →
       w_config_file demo_no_migration_run.2 = newConfig demo_opts)
  ∧ w_project_metadata demo_no_migration_run.2 = w_project_metadata demo_no_migration_world
  ∧ w_catalog demo_no_migration_run.2 = w_catalog demo_no_migration_world.
Proof.
  apply (reorganization_without_migrations_changes_only_seeds_and_metadata
           demo_no_migration_world demo_opts "default"
           demo_no_migration_run.1.1 demo_no_migration_run.1.2 demo_no_migration_run.2).
  - unfold demo_no_migration_run. by destruct (run _ _ _) as [[? ?] ?].
  - vm_compute. reflexivity.
Defined.

(** *** The confirmation and the calls of [CopyState], in full *)

Lemma updateProject_starts {W : Type} (h : Handler W) w opts res tr w' :
  run h (updateProject opts) w = (res, tr, w') →
  ∃ r rest, tr = Ev GetSources r :: rest.
Proof.
  unfold updateProject, orReturnV. intros Hrun.
  apply run_bind_inv in Hrun as (r & tr1 & w1 & tr2 & Hc & Hk & ->).
  run_call_in Hc. destruct Hc as [_ ->]. by exists r, tr2.
Qed.

(** X9: The question whether to continue: with [Force] it is never asked.
    Without [Force], whatever the run does beyond the check of the
    metadata and the question itself, it does after the question has been
    asked, once, and answered with something other than [n]; and any such
    answer lets the run go on: the call right after it asks the server for
    the sources. *)
Theorem confirmation_asked_once_unless_forced :
  ∀ (W : Type) (h : Handler W) (w : W) (opts : UpdateProjectV3Opts)
    (res : option error) (tr : list Event) (w' : W),
    run h (UpdateProjectV3 opts) w = (res, tr, w') →
    (Force opts = true → never is_yesno_prompt tr)
    ∧ (Force opts = false →
         ∀ e, e ∈ tr → ev_op e ≠ GetInconsistentMetadata → is_yesno_prompt e = false →
           ∃ answer rest,
             answer ≠ "n"
             ∧ tr = Ev GetInconsistentMetadata (inr true)
                    :: Ev (GetYesNoPrompt "continue?") (inr answer) :: rest
             ∧ never is_yesno_prompt rest
             ∧ e ∈ rest)
    ∧ (∀ pre message answer post,
         tr = pre ++ Ev (GetYesNoPrompt message) (inr answer) :: post →
         answer ≠ "n" →
         ∃ r rest, post = Ev GetSources r :: rest).
Proof.
  intros W h w opts res tr w' Hrun.
  destruct (confirmation_before_everything W h w opts res tr w' Hrun) as [H1 H2].
  split; [done |]. split; [done |].
  intros pre message answer post Htr Hans.
  assert (∀ w1 tr2, run h (updateProject opts) w1 = (res, tr2, w') →
                    never is_yesno_prompt tr2) as Hup.
  { intros w1 tr2 Hup.
    apply (wp_run h _ _ (updateProject_never is_yesno_prompt opts
             ltac:(by intros [[] ?]) ltac:(by intros [[] ?])
             ltac:(done) ltac:(done)) _ _ _ _ Hup). }
  destruct (UpdateProjectV3_run_cases h w opts res tr w' Hrun)
    as [[-> _] | [(r & -> & _) | [(HF & e0 & -> & _) | [(HF & -> & _)
        | (pre0 & w1 & tr2 & Hpre & -> & Hrun2)]]]].
  - by destruct pre.
  - exfalso. eapply (never_split_false is_yesno_prompt); [exact Htr | | done].
    by repeat constructor.
  - exfalso.
    destruct (split_unique is_yesno_prompt [Ev GetInconsistentMetadata (inr true)]
                (Ev (GetYesNoPrompt "continue?") (inl e0)) [] pre _ post Htr)
      as (_ & He & _); [by repeat constructor | constructor | done |].
    by apply (f_equal failed) in He.
  - exfalso.
    destruct (split_unique is_yesno_prompt [Ev GetInconsistentMetadata (inr true)]
                (Ev (GetYesNoPrompt "continue?") (inr "n")) [] pre _ post Htr)
      as (_ & He & _); [by repeat constructor | constructor | done |].
    apply (f_equal declined) in He. unfold declined in He. simpl in He.
    apply bool_decide_eq_true in He. congruence.
  - specialize (Hup _ _ Hrun2).
    destruct Hpre as [[HF ->] | (HF & answer0 & Hn & ->)].
    + exfalso. eapply (never_split_false is_yesno_prompt); [exact Htr | | done].
      by apply never_cons.
    + destruct (split_unique is_yesno_prompt [Ev GetInconsistentMetadata (inr true)]
                  (Ev (GetYesNoPrompt "continue?") (inr answer0)) tr2 pre _ post Htr)
        as (_ & _ & ->); [by repeat constructor | done | done |].
      by eapply updateProject_starts.
Qed.

Lemma confirmation_asked_once_unless_forced_witness :
  (Force demo_ask_opts = true → never is_yesno_prompt demo_ask_run.1.2)
  ∧ (Force demo_ask_opts = false →
       ∀ e, e ∈ demo_ask_run.1.2 → ev_op e ≠ GetInconsistentMetadata →
         is_yesno_prompt e = false →
         ∃ answer rest,
           answer ≠ "n"
           ∧ demo_ask_run.1.2 = Ev GetInconsistentMetadata (inr true)
                  :: Ev (GetYesNoPrompt "continue?") (inr answer) :: rest
           ∧ never is_yesno_prompt rest
           ∧ e ∈ rest)
  ∧ (∀ pre message answer post,
       demo_ask_run.1.2 = pre ++ Ev (GetYesNoPrompt message) (inr answer) :: post →
       answer ≠ "n" →
       ∃ r rest, post = Ev GetSources r :: rest).
Proof.
  apply (confirmation_asked_once_unless_forced World mem_handler demo_world
           demo_ask_opts demo_ask_run.1.1 demo_ask_run.1.2 demo_ask_run.2).
  unfold demo_ask_run. by destruct (run _ _ _) as [[? ?] ?].
Defined.

Lemma CopyState_eighth_call src dst :
  wp (CopyState src dst) (λ tr _,
    length tr ≤ 8 ∧ ∀ e, tr !! 7 = Some e → is_catalog_write e = true).
Proof.
  unfold CopyState, orReturn, orReturnV. simpl.
  do 6 (intros [? |]; simpl; [split; [lia | done] |]).
  intros [? | got]; simpl; [split; [lia | done] |].
  intros [? |]; simpl; (split; [lia | by intros ev [= <-]]).
Qed.

(** X11: [CopyState] makes its calls in one fixed order, each only after the
    one before it has returned nil: the store of the source and the store
    of the catalog are prepared, the migration records are copied, the two
    stores of the settings are prepared, the settings are copied, the
    catalog state is fetched, and an eighth call, the last one, writes the
    catalog state.  It returns nil exactly when all eight calls are made
    and none has failed. *)
Theorem CopyState_call_sequence :
  ∀ (W : Type) (h : Handler W) (w : W) (sourceDatabase destDatabase : string)
    (res : option error) (tr : list Event) (w' : W),
    run h (CopyState sourceDatabase destDatabase) w = (res, tr, w') →
    ev_op <$> take 7 tr `prefix_of` CopyState_steps sourceDatabase destDatabase
    ∧ never failed (removelast tr)
    ∧ (res = None ↔ length tr = 8 ∧ never failed tr)
    ∧ length tr ≤ 8
    ∧ (∀ e, tr !! 7 = Some e → is_catalog_write e = true).
Proof.
  intros W h w src dst res tr w' Hrun.
  destruct (wp_run h _ _ (CopyState_sequence src dst) _ _ _ _ Hrun) as (H1 & H2 & H3).
  destruct (wp_run h _ _ (CopyState_eighth_call src dst) _ _ _ _ Hrun) as (H4 & H5).
  done.
Qed.

Lemma CopyState_call_sequence_witness :
  ev_op <$> take 7 demo_CopyState_run.1.2 `prefix_of` CopyState_steps "default" "default"
  ∧ never failed (removelast demo_CopyState_run.1.2)
  ∧ (demo_CopyState_run.1.1 = None
     ↔ length demo_CopyState_run.1.2 = 8 ∧ never failed demo_CopyState_run.1.2)
  ∧ length demo_CopyState_run.1.2 ≤ 8
  ∧ (∀ e, demo_CopyState_run.1.2 !! 7 = Some e → is_catalog_write e = true).
Proof.
  apply (CopyState_call_sequence World mem_handler demo_world "default" "default"
           demo_CopyState_run.1.1 demo_CopyState_run.1.2 demo_CopyState_run.2).
  unfold demo_CopyState_run. by destruct (run _ _ _) as [[? ?] ?].
Defined.
